(** * lightscan: the pipelined execution engine of [lightscan/main.cpp]

    A shallow embedding of the work planner, the load and evaluate
    workers, the buffer pool and the cluster dispatcher of
    [src/lightscan/main.cpp], with the properties the specification
    states about them. *)

From Stdlib Require Import ZArith Lia.
From stdpp Require Import base tactics option list numbers gmap sorting.

Local Open Scope Z_scope.

(** ** Machine integers

    [int] and [int32_t] are 32-bit two's complement integers.  They are
    modelled as [Z]; every arithmetic result is passed through
    [wrap_int], which is the identity on the representable range. *)

Definition INT_MIN : Z := - 2 ^ 31.
Definition INT_MAX : Z := 2 ^ 31 - 1.

Definition in_int (z : Z) : Prop := INT_MIN <= z <= INT_MAX.

Definition wrap_int (z : Z) : Z := (z + 2 ^ 31) mod 2 ^ 32 - 2 ^ 31.

(** ** Global constants (main.cpp, lines 61-66) *)

Record Globals := {
  GPUS_PER_NODE : Z;
  GLOBAL_BATCH_SIZE : Z;
  BATCHES_PER_WORK_ITEM : Z;
  TASKS_IN_QUEUE_PER_GPU : Z;
  LOAD_WORKERS_PER_NODE : Z;
  NUM_CUDA_STREAMS : Z
}.

Definition default_globals : Globals :=
  {| GPUS_PER_NODE := 1; GLOBAL_BATCH_SIZE := 64; BATCHES_PER_WORK_ITEM := 4;
     TASKS_IN_QUEUE_PER_GPU := 4; LOAD_WORKERS_PER_NODE := 2;
     NUM_CUDA_STREAMS := 32 |}.

(** [frames_per_work_item()] (lines 91-93). *)
Definition frames_per_work_item (g : Globals) : Z :=
  wrap_int (GLOBAL_BATCH_SIZE g * BATCHES_PER_WORK_ITEM g).

(** ** Work structs (lines 97-115) *)

Record VideoWorkItem := {
  video_index : Z;
  start_frame : Z;
  end_frame : Z
}.

#[global] Instance VideoWorkItem_eq_dec : EqDecision VideoWorkItem.
Proof. solve_decision. Defined.

(** Modelled from the spec: [VideoMetadata] is declared in
    [lightscan/util/video.h], which is not part of the sources at hand.
    The spec gives it as the record of width, height and total frame
    count read from the sidecar file; main.cpp reads exactly the fields
    [width], [height] and [frames]. *)
Record VideoMetadata := {
  width : Z;
  height : Z;
  frames : Z
}.

(** ** Work planner (main.cpp, lines 809-828) *)

Module Planner.

(** The inner [while (allocated_frames < meta.frames)] loop for video
    [i].  [fuel] bounds the number of iterations; [None] means the bound
    was reached with the loop still running. *)
Fixpoint allocate_frames (fuel : nat) (WORK_ITEM_SIZE : Z) (i : Z)
    (meta_frames : Z) (allocated_frames : Z)
    (work_items : list VideoWorkItem) : option (list VideoWorkItem) :=
  if allocated_frames <? meta_frames then
    match fuel with
    | O => None
    | S fuel' =>
        let frames_to_allocate :=
          Z.min WORK_ITEM_SIZE (wrap_int (meta_frames - allocated_frames)) in
        let item := {| video_index := i;
                       start_frame := allocated_frames;
                       end_frame := wrap_int (allocated_frames + frames_to_allocate) |} in
        allocate_frames fuel' WORK_ITEM_SIZE i meta_frames
          (wrap_int (allocated_frames + frames_to_allocate))
          (work_items ++ [item])
    end
  else Some work_items.

(** The outer [for (size_t i = 0; i < video_paths.size(); ++i)] loop,
    from video [i] on, over the metadata of the remaining videos. *)
Fixpoint plan_from (fuel : nat) (WORK_ITEM_SIZE : Z) (i : Z)
    (video_metadata : list VideoMetadata)
    (work_items : list VideoWorkItem) : option (list VideoWorkItem) :=
  match video_metadata with
  | [] => Some work_items
  | meta :: rest =>
      match allocate_frames fuel WORK_ITEM_SIZE i (frames meta) 0 work_items with
      | None => None
      | Some work_items' => plan_from fuel WORK_ITEM_SIZE (i + 1) rest work_items'
      end
  end.

Definition plan_work_items (fuel : nat) (g : Globals)
    (video_metadata : list VideoMetadata) : option (list VideoWorkItem) :=
  plan_from fuel (frames_per_work_item g) 0 video_metadata [].

(** ceil(F / W) for a positive [W]. *)
Definition ceil_div (F W : Z) : Z := (F + W - 1) / W.

(** The [j]-th frame range of a video of [F] frames cut into ranges of
    [W] frames. *)
Definition nth_item (W i F j : Z) : VideoWorkItem :=
  {| video_index := i; start_frame := j * W; end_frame := Z.min ((j + 1) * W) F |}.

Definition video_items (W i F : Z) : list VideoWorkItem :=
  nth_item W i F <$> seqZ 0 (ceil_div F W).

Fixpoint planned_from (W i : Z) (video_metadata : list VideoMetadata)
    : list (list VideoWorkItem) :=
  match video_metadata with
  | [] => []
  | meta :: rest => video_items W i (frames meta) :: planned_from W (i + 1) rest
  end.

(** What the specification asks of the list [its] of work items cut
    from video [i] of [F] frames: ceil(F / W) ranges, contiguous from 0
    to [F], pairwise disjoint, covering every frame, each of [W] frames
    but for a final one that may be shorter. *)
Record video_split (W i F : Z) (its : list VideoWorkItem) : Prop := {
  split_count : length its = Z.to_nat (ceil_div F W);
  split_index : forall it, it ∈ its -> video_index it = i;
  split_first : forall it, its !! 0%nat = Some it -> start_frame it = 0;
  split_contiguous : forall (j : nat) a b,
    its !! j = Some a -> its !! S j = Some b -> end_frame a = start_frame b;
  split_last : forall it, list.last its = Some it -> end_frame it = F;
  split_within : forall it, it ∈ its ->
    0 <= start_frame it /\ start_frame it < end_frame it /\ end_frame it <= F;
  split_full : forall (j : nat) it,
    its !! j = Some it -> (S j < length its)%nat ->
    end_frame it - start_frame it = W;
  split_final : forall it,
    list.last its = Some it -> 0 < end_frame it - start_frame it <= W;
  split_cover : forall f, 0 <= f < F ->
    exists it, it ∈ its /\ start_frame it <= f < end_frame it;
  split_disjoint : forall (j k : nat) a b,
    its !! j = Some a -> its !! k = Some b -> j <> k ->
    end_frame a <= start_frame b \/ end_frame b <= start_frame a
}.

(** The order in which the two loops emit work items: by video, and
    within a video by frame range. *)
Definition item_before (a b : VideoWorkItem) : Prop :=
  video_index a < video_index b \/
  (video_index a = video_index b /\ end_frame a <= start_frame b).

End Planner.

(** ** Evaluate worker: batching of one work item (main.cpp, lines 493-644) *)

Module Evaluate.

(** What the body of the per-frame [for] loop does with frame [i] of a
    batch: it picks stream [i % NUM_CUDA_STREAMS], reads the frame slot
    [i + frame_offset] of the work item's buffer, and copies the
    preprocessed frame into slot [i] of the network input. *)
Record FrameOp := {
  stream : Z;
  buffer_slot : Z;
  input_slot : Z
}.

(** Which of the two code paths issued a forward pass. *)
Inductive Path := MainLoop | Epilogue.

(** One [net->Forward({&net_input})]: the first dimension of the
    [net_input] blob handed to it, and the frames written into that blob
    beforehand. *)
Record ForwardPass := {
  path : Path;
  blob_batch : Z;
  batch_frames : list FrameOp
}.

(** [for (int i = 0; i < n; ++i)] of lines 520-574 and 601-637. *)
Definition process_batch (g : Globals) (n frame_offset : Z) : list FrameOp :=
  (fun i => {| stream := Z.rem i (NUM_CUDA_STREAMS g);
               buffer_slot := wrap_int (i + frame_offset);
               input_slot := i |}) <$> seqZ 0 n.

(** [while (current_frame + GLOBAL_BATCH_SIZE < work_item.end_frame)]
    of lines 514-581.  Returns the final [current_frame] and the forward
    passes issued, or [None] when [fuel] iterations did not suffice. *)
Fixpoint full_batches (fuel : nat) (g : Globals) (work_item : VideoWorkItem)
    (current_frame : Z) (passes : list ForwardPass)
    : option (Z * list ForwardPass) :=
  if wrap_int (current_frame + GLOBAL_BATCH_SIZE g) <? end_frame work_item then
    match fuel with
    | O => None
    | S fuel' =>
        let frame_offset := wrap_int (current_frame - start_frame work_item) in
        let pass := {| path := MainLoop;
                       blob_batch := GLOBAL_BATCH_SIZE g;
                       batch_frames :=
                         process_batch g (GLOBAL_BATCH_SIZE g) frame_offset |} in
        full_batches fuel' g work_item
          (wrap_int (current_frame + GLOBAL_BATCH_SIZE g)) (passes ++ [pass])
    end
  else Some (current_frame, passes).

(** The body of the evaluate worker's loop for one popped work item:
    the main loop, then the epilogue of lines 584-644. *)
Definition evaluate_work_item (fuel : nat) (g : Globals)
    (work_item : VideoWorkItem) : option (list ForwardPass) :=
  match full_batches fuel g work_item (start_frame work_item) [] with
  | None => None
  | Some (current_frame, passes) =>
      if current_frame <? end_frame work_item then
        let batch_size := wrap_int (end_frame work_item - current_frame) in
        let frame_offset := wrap_int (current_frame - start_frame work_item) in
        Some (passes ++ [ {| path := Epilogue;
                             blob_batch := batch_size;
                             batch_frames :=
                               process_batch g batch_size frame_offset |} ])
      else Some passes
  end.

(** The batch sizes as the specification words them: floor(N / B) full
    batches, then one short batch of N mod B frames unless B divides N. *)
Definition spec_batches (B N : Z) : list Z :=
  replicate (Z.to_nat (N / B)) B ++ (if N mod B =? 0 then [] else [N mod B]).

(** A work item the evaluate worker can be handed: a frame range whose
    bounds, and the loop test [current_frame + GLOBAL_BATCH_SIZE], are
    representable. *)
Definition evaluable (g : Globals) (work_item : VideoWorkItem) : Prop :=
  0 <= start_frame work_item /\
  start_frame work_item <= end_frame work_item /\
  end_frame work_item + GLOBAL_BATCH_SIZE g <= INT_MAX.

(** Closed form of what [evaluate_work_item] issues: the number of
    iterations of the main loop, the pass of iteration [j], and the
    pass of the epilogue. *)
Definition main_iterations (g : Globals) (work_item : VideoWorkItem) : Z :=
  Z.max 0 (Planner.ceil_div (end_frame work_item - start_frame work_item)
                            (GLOBAL_BATCH_SIZE g) - 1).

Definition main_pass (g : Globals) (j : Z) : ForwardPass :=
  {| path := MainLoop;
     blob_batch := GLOBAL_BATCH_SIZE g;
     batch_frames := process_batch g (GLOBAL_BATCH_SIZE g) (j * GLOBAL_BATCH_SIZE g) |}.

Definition epilogue_pass (g : Globals) (work_item : VideoWorkItem) : ForwardPass :=
  let done := main_iterations g work_item * GLOBAL_BATCH_SIZE g in
  let rest := end_frame work_item - start_frame work_item - done in
  {| path := Epilogue; blob_batch := rest; batch_frames := process_batch g rest done |}.

Definition issued_passes (g : Globals) (work_item : VideoWorkItem) : list ForwardPass :=
  (main_pass g <$> seqZ 0 (main_iterations g work_item))
  ++ (if 0 <? end_frame work_item - start_frame work_item
      then [epilogue_pass g work_item] else []).

(** The frames of the work item, by absolute frame number, in the order
    in which the passes read them from the buffer. *)
Definition frames_read (work_item : VideoWorkItem) (passes : list ForwardPass) : list Z :=
  concat ((fun p => (fun f => start_frame work_item + buffer_slot f) <$> batch_frames p)
          <$> passes).

End Evaluate.

(** ** Load worker: decoding one work item into its buffer
    (main.cpp, lines 160-214 and 294-341) *)

Module Load.

(** [size_t] is an unsigned 64-bit integer. *)
Definition wrap_size (z : Z) : Z := z mod 2 ^ 64.

Inductive AVPixelFormat := AV_PIX_FMT_NV12 | AV_PIX_FMT_RGB24.

(** FFmpeg's [av_image_get_buffer_size(fmt, w, h, 1)] on dimensions the
    library accepts: an NV12 image is a plane of [w * h] luma bytes
    followed by a plane of ceil(h / 2) rows of 2 * ceil(w / 2) chroma
    bytes; an RGB24 image is [h] rows of [3 * w] bytes. *)
Definition av_image_get_buffer_size (fmt : AVPixelFormat) (w h : Z) : Z :=
  match fmt with
  | AV_PIX_FMT_NV12 => w * h + 2 * ((w + 1) / 2) * ((h + 1) / 2)
  | AV_PIX_FMT_RGB24 => 3 * w * h
  end.

(** The fields of a decoded [AVFrame] that the load worker reads. *)
Record AVFrame := {
  frame_width : Z;
  frame_height : Z
}.

(** The value of a [SwsContext*] variable: not yet assigned, null, or a
    context handed out by libswscale. *)
Inductive SwsPtr := Indeterminate | Null | Context (id : nat).

(** libswscale's [sws_getCachedContext]: a context that fits the
    requested conversion is returned as it is (all frames of a work item
    ask for the same conversion), a null pointer gets a fresh context.
    Reading an indeterminate pointer is undefined in C++; the model lets
    the call answer with a context so that the iterations after it can
    be followed. *)
Definition sws_getCachedContext (p : SwsPtr) : SwsPtr :=
  match p with
  | Context c => Context c
  | Null | Indeterminate => Context 0
  end.

(** The two builds of the load worker ([#ifdef HARDWARE_DECODE]). *)
Inductive DecodePath := HardwareDecode | SoftwareDecode.

(** Offsets, from the destination pointer, of the bytes that
    [cudaMemcpy2D(dst, dpitch, src, spitch, width, height, kind)]
    writes: [height] rows of [width] bytes, [dpitch] bytes apart. *)
Definition cudaMemcpy2D_writes (dst dpitch width height : Z) : list Z :=
  concat ((fun r => (fun c => dst + r * dpitch + c) <$> seqZ 0 width) <$> seqZ 0 height).

(** Lines 326-335: the plane-copy loop of the hardware-decode build. *)
Definition hardware_copy_writes (metadata : VideoMetadata) (frame : AVFrame)
    (pos : Z) : list Z :=
  concat ((fun i =>
             cudaMemcpy2D_writes
               (pos + wrap_int (wrap_int (i * width metadata) * height metadata))
               (width metadata) (frame_width frame) (frame_height frame))
          <$> seqZ 0 2).

(** [convert_av_frame_to_rgb] (lines 160-214): the cached scaler context
    is looked up with the caller's pointer, which is then overwritten
    with the answer; [av_image_copy_to_buffer] stores the packed RGB24
    image, [buffer_size] bytes, from [buffer] on.  Returns the pointer
    value read, the new pointer value and the offsets written. *)
Definition convert_av_frame_to_rgb (sws_context : SwsPtr) (frame : AVFrame)
    (buffer : Z) : SwsPtr * SwsPtr * list Z :=
  let buffer_size :=
    av_image_get_buffer_size AV_PIX_FMT_RGB24 (frame_width frame) (frame_height frame) in
  (sws_context, sws_getCachedContext sws_context, seqZ buffer buffer_size).

(** What one iteration of the frame loop (lines 308-341) does. *)
Record FrameLoad := {
  loaded_frame : Z;
  (** [frames_buffer_offset] *)
  slot_offset : Z;
  (** whether [assert(frames_buffer_offset < args.buffer_size)] holds *)
  offset_in_bounds : bool;
  (** the pointer handed to [sws_getCachedContext] (software build) *)
  sws_read : option SwsPtr;
  (** offsets into [frame_buffer] of the bytes written *)
  written : list Z
}.

(** [frame_size], computed from the metadata of the work item's video
    (lines 296-300), and the size of every buffer, computed from the
    metadata of video 0 (lines 844-849). *)
Definition frame_size (metadata : VideoMetadata) : Z :=
  wrap_size (av_image_get_buffer_size AV_PIX_FMT_NV12 (width metadata) (height metadata)).

Definition frame_buffer_size (g : Globals) (metadata0 : VideoMetadata) : Z :=
  wrap_size (frame_size metadata0 * frames_per_work_item g).

Definition load_frame (build : DecodePath) (buffer_size : Z)
    (metadata : VideoMetadata) (frame : AVFrame) (work_item : VideoWorkItem)
    (current_frame : Z) (sws_context : SwsPtr) : FrameLoad * SwsPtr :=
  let frames_buffer_offset :=
    wrap_size (frame_size metadata * wrap_int (current_frame - start_frame work_item)) in
  match build with
  | HardwareDecode =>
      ({| loaded_frame := current_frame;
          slot_offset := frames_buffer_offset;
          offset_in_bounds := frames_buffer_offset <? buffer_size;
          sws_read := None;
          written := hardware_copy_writes metadata frame frames_buffer_offset |},
       sws_context)
  | SoftwareDecode =>
      let '(passed, sws_context', bytes) :=
        convert_av_frame_to_rgb sws_context frame frames_buffer_offset in
      ({| loaded_frame := current_frame;
          slot_offset := frames_buffer_offset;
          offset_in_bounds := frames_buffer_offset <? buffer_size;
          sws_read := Some passed;
          written := bytes |},
       sws_context')
  end.

(** [while (current_frame < work_item.end_frame)] of lines 308-341.
    The decoder hands out frames of the dimensions [frame]. *)
Fixpoint load_frames (fuel : nat) (build : DecodePath) (buffer_size : Z)
    (metadata : VideoMetadata) (frame : AVFrame) (work_item : VideoWorkItem)
    (current_frame : Z) (sws_context : SwsPtr) (done : list FrameLoad)
    : option (list FrameLoad) :=
  if current_frame <? end_frame work_item then
    match fuel with
    | O => None
    | S fuel' =>
        let '(ev, sws_context') :=
          load_frame build buffer_size metadata frame work_item
                     current_frame sws_context in
        load_frames fuel' build buffer_size metadata frame work_item
          (wrap_int (current_frame + 1)) sws_context' (done ++ [ev])
    end
  else Some done.

(** The frame loop of one work item: [sws_context] is declared without
    an initialiser (line 306) and [current_frame] starts at
    [work_item.start_frame] (line 307). *)
Definition load_work_item (fuel : nat) (build : DecodePath) (g : Globals)
    (metadata0 metadata : VideoMetadata) (frame : AVFrame)
    (work_item : VideoWorkItem) : option (list FrameLoad) :=
  load_frames fuel build (frame_buffer_size g metadata0) metadata frame work_item
    (start_frame work_item) Indeterminate [].

(** The slot of a frame in the buffer, as the specification words it:
    [frame_size] bytes from [frame_size * (f - start_frame)] on. *)
Definition in_slot (metadata : VideoMetadata) (work_item : VideoWorkItem)
    (f : Z) (byte : Z) : Prop :=
  frame_size metadata * (f - start_frame work_item) <= byte /\
  byte < frame_size metadata * (f - start_frame work_item) + frame_size metadata.

End Load.

(** ** Evaluate worker: where it reads a frame
    (main.cpp, lines 497-501, 520-540 and 601-621) *)

Module EvaluateInput.

(** The matrix header laid over a frame where it lies in the buffer
    ([cv::cuda::GpuMat input_mat] in the hardware-decode build,
    [cv::Mat cpu_mat], uploaded whole, in the other):
    [metadata.height + metadata.height / 2] rows of [metadata.width]
    one-byte elements ([CV_8UC1]), the rows adjacent in memory. *)
Definition input_mat_rows (metadata : VideoMetadata) : Z :=
  wrap_int (height metadata + Z.quot (height metadata) 2).

Definition input_mat_cols (metadata : VideoMetadata) : Z := width metadata.

(** [frame_size * (i + frame_offset)], the offset of [buffer] from
    [frame_buffer]; the [int] is converted to [size_t] for the product. *)
Definition frame_pointer (metadata : VideoMetadata) (op : Evaluate.FrameOp) : Z :=
  Load.wrap_size (Load.frame_size metadata * Load.wrap_size (Evaluate.buffer_slot op)).

(** The offsets into [frame_buffer] of the bytes under the header. *)
Definition input_mat_bytes (metadata : VideoMetadata) (op : Evaluate.FrameOp) : list Z :=
  seqZ (frame_pointer metadata op) (input_mat_rows metadata * input_mat_cols metadata).

End EvaluateInput.

(** ** Command line and exit status (main.cpp, lines 696-748 and 1069-1076) *)

Module Cli.

(** The [po::variables_map] after [po::store(po::parse_command_line(...))]:
    which of the declared options the command line gave, and their
    values. *)
Record VariablesMap := {
  help : bool;
  video_paths_file : option (list Byte.byte);
  gpus_per_node : option Z;
  batch_size : option Z;
  batches_per_work_item : option Z;
  tasks_in_queue_per_gpu : option Z;
  load_workers_per_node : option Z
}.

Inductive Exception := required_option | bad_any_cast.

(** How the process ends: [main] returns (or [exit] is called with) a
    code, or an exception leaves [main] and [std::terminate] aborts the
    process. *)
Inductive Termination :=
  | Exit (code : Z)
  | Terminate (e : Exception).

Definition EXIT_SUCCESS : Z := 0.
Definition EXIT_FAILURE : Z := 1.

(** [po::notify(vm)] throws [required_option] when an option declared
    [required()] is absent; only [video_paths_file] is. *)
Definition notify (vm : VariablesMap) : option Exception :=
  match video_paths_file vm with
  | None => Some required_option
  | Some _ => None
  end.

Definition override (given : option Z) (current : Z) : Z :=
  match given with
  | Some v => v
  | None => current
  end.

(** Lines 722-736: the globals after the options have been applied. *)
Definition apply_options (vm : VariablesMap) (g : Globals) : Globals :=
  {| GPUS_PER_NODE := override (gpus_per_node vm) (GPUS_PER_NODE g);
     GLOBAL_BATCH_SIZE := override (batch_size vm) (GLOBAL_BATCH_SIZE g);
     BATCHES_PER_WORK_ITEM := override (batches_per_work_item vm) (BATCHES_PER_WORK_ITEM g);
     TASKS_IN_QUEUE_PER_GPU := override (tasks_in_queue_per_gpu vm) (TASKS_IN_QUEUE_PER_GPU g);
     LOAD_WORKERS_PER_NODE := override (load_workers_per_node vm) (LOAD_WORKERS_PER_NODE g);
     NUM_CUDA_STREAMS := NUM_CUDA_STREAMS g |}.

(** [main].  [run g path] stands for lines 750-1073, the run itself: it
    answers [Some code] when the run calls [exit(code)] (a failed
    [pthread_join], [exit_on_error]) and [None] when it reaches
    [return EXIT_SUCCESS]. *)
Definition main (vm : VariablesMap)
    (run : Globals -> list Byte.byte -> option Z) : Termination :=
  match notify vm with
  | Some e =>
      (* catch (const po::required_option& e) *)
      if help vm then Exit 1 else Terminate e
  | None =>
      if help vm then Exit 1
      else
        match video_paths_file vm with
        | Some path =>
            match run (apply_options vm default_globals) path with
            | Some code => Exit code
            | None => Exit EXIT_SUCCESS
            end
        | None =>
            (* [vm["video_paths_file"].as<std::string>()] on an absent
               option; not reached, [notify] has thrown before *)
            Terminate bad_any_cast
        end
  end.

Definition no_options : VariablesMap :=
  {| help := false; video_paths_file := None; gpus_per_node := None;
     batch_size := None; batches_per_work_item := None;
     tasks_in_queue_per_gpu := None; load_workers_per_node := None |}.

Definition completes : Globals -> list Byte.byte -> option Z := fun _ _ => None.

End Cli.

(** ** The pipeline of a node and the cluster dispatcher
    (main.cpp, lines 216-357, 479-652 and 833-1051) *)

Module Pipeline.

(** The configuration a run is started with.  The counts are the
    globals of lines 61-66 and [work_items.size()]; a loop
    [for (int i = 0; i < C; ++i)] runs [C] times for a count [C >= 0] and
    not at all for a negative one, which is [Z.to_nat C] times. *)
Record Config := {
  gpus : nat;
  tasks : nat;
  load_workers : nat;
  work_items : nat
}.

Definition config_of (g : Globals) (work_items_size : nat) : Config :=
  {| gpus := Z.to_nat (GPUS_PER_NODE g);
     tasks := Z.to_nat (TASKS_IN_QUEUE_PER_GPU g);
     load_workers := Z.to_nat (LOAD_WORKERS_PER_NODE g);
     work_items := work_items_size |}.

(** Queue entries (lines 103-115).  Both work entries have a field
    [work_item_index] in the source; GPU ids and buffer indices are
    array indices. *)
Record LoadWorkEntry := { work_item_index : Z }.
Record LoadBufferEntry := { gpu_device_id : nat; buffer_index : nat }.
Record EvalWorkEntry := { eval_work_item_index : Z; eval_buffer_index : nat }.

#[global] Instance LoadBufferEntry_eq_dec : EqDecision LoadBufferEntry.
Proof. solve_decision. Defined.

Definition SENTINEL : Z := -1.

(** Modelled from the spec: [Queue<T>] is declared in
    [lightscan/util/queue.h], which is not part of the sources at hand.
    The spec gives it as a FIFO whose [push] and [pop] are linearization
    points and whose [pop] blocks while the queue is empty.  A queue is
    the list of its entries, oldest first; [push] appends, [pop] takes
    the head and is not enabled on the empty list.  A bound on the
    capacity would only disable some pushes, so every run of a bounded
    queue is a run of this one. *)
Definition Queue (T : Type) : Type := list T.
Definition push {T} (x : T) (q : Queue T) : Queue T := q ++ [x].
Definition pop {T} (q : Queue T) : option (T * Queue T) :=
  match q with
  | [] => None
  | x :: q' => Some (x, q')
  end.
Definition size {T} (q : Queue T) : nat := length q.

(** Where a load worker is in [load_video_thread]. *)
Inductive LoadPc :=
  | LoadPop                                   (* line 237: at [load_work.pop] *)
  | LoadAcquire (k : Z)                       (* line 276: at [empty_load_buffers.pop] *)
  | LoadFill (k : Z) (b : LoadBufferEntry)    (* lines 282-341: decoding into the buffer *)
  | LoadPush (k : Z) (b : LoadBufferEntry)    (* line 354: at [eval_work[gpu].push] *)
  | LoadReturned.                             (* after the [break] of line 240 *)

(** [EvaluateThreadArgs] (lines 141-156): the GPU of the worker, and
    which queue and which array of buffers its references point to. *)
Record EvaluateThreadArgs := {
  arg_gpu_device_id : nat;
  arg_eval_work : nat;
  arg_frame_buffers : nat
}.

(** Where an evaluate worker is in [evaluate_thread]. *)
Inductive EvalPc :=
  | EvalPop                                   (* line 483: at [eval_work.pop] *)
  | EvalRun (e : EvalWorkEntry)               (* lines 493-644: the forward passes *)
  | EvalRelease (e : EvalWorkEntry)           (* line 651: at [empty_load_buffers.push] *)
  | EvalReturned.                             (* after the [break] of line 486 *)

(** Where the main thread is, from line 937 on. *)
Inductive MainPc :=
  | Distribute (next_work_item_to_allocate : Z)  (* master, loop of line 942 *)
  | Drain (workers_done : nat)                   (* master, loop of line 972 *)
  | Monitor                                      (* other nodes, line 986 *)
  | AwaitReply                                   (* other nodes, [MPI_Recv] of line 995 *)
  | PushLoadSentinels (i : nat)                  (* loop of line 1011 *)
  | JoinLoad (i : nat)                           (* loop of line 1017 *)
  | PushEvalSentinels (i : nat)                  (* loop of line 1036 *)
  | JoinEval (i : nat)                           (* loop of line 1042 *)
  | Finished.                                    (* line 1052 and after *)

(** What has happened on a node, newest first. *)
Inductive Event :=
  | LoadWorkPushed (k : Z)
  | LoadWorkPopped (w : nat) (k : Z)
  | BufferAcquired (w : nat) (b : LoadBufferEntry)
  | BufferFilled (w : nat) (k : Z) (b : LoadBufferEntry)
  | EvalWorkPushed (g : nat) (e : EvalWorkEntry)
  | EvalWorkPopped (i : nat) (e : EvalWorkEntry)
  (* worker [i] ran the forward passes of work item [k] on a buffer
     that held the frames of [content] *)
  | Evaluated (i : nat) (k : Z) (content : option Z)
  | BufferReleased (i : nat) (b : LoadBufferEntry)
  | LoadThreadJoined (w : nat)
  | EvalThreadJoined (i : nat).

(** The state of a node.  [frame_buffers] maps (gpu, index) to the work
    item whose frames [gpu_frame_buffers[gpu][index]] holds; [inbox] are
    the replies of the master that the node has not yet received. *)
Record Node := {
  load_work : Queue LoadWorkEntry;
  empty_load_buffers : Queue LoadBufferEntry;
  eval_work : list (Queue EvalWorkEntry);
  frame_buffers : gmap (nat * nat) Z;
  load_threads : list LoadPc;
  eval_threads : list (EvaluateThreadArgs * EvalPc);
  main_thread : MainPc;
  inbox : list Z;
  history : list Event
}.

Definition set_load_work (v : Queue LoadWorkEntry) (n : Node) : Node :=
  {| load_work := v; empty_load_buffers := empty_load_buffers n;
     eval_work := eval_work n; frame_buffers := frame_buffers n;
     load_threads := load_threads n; eval_threads := eval_threads n;
     main_thread := main_thread n; inbox := inbox n; history := history n |}.

Definition set_empty_load_buffers (v : Queue LoadBufferEntry) (n : Node) : Node :=
  {| load_work := load_work n; empty_load_buffers := v;
     eval_work := eval_work n; frame_buffers := frame_buffers n;
     load_threads := load_threads n; eval_threads := eval_threads n;
     main_thread := main_thread n; inbox := inbox n; history := history n |}.

Definition set_eval_work (v : list (Queue EvalWorkEntry)) (n : Node) : Node :=
  {| load_work := load_work n; empty_load_buffers := empty_load_buffers n;
     eval_work := v; frame_buffers := frame_buffers n;
     load_threads := load_threads n; eval_threads := eval_threads n;
     main_thread := main_thread n; inbox := inbox n; history := history n |}.

Definition set_frame_buffers (v : gmap (nat * nat) Z) (n : Node) : Node :=
  {| load_work := load_work n; empty_load_buffers := empty_load_buffers n;
     eval_work := eval_work n; frame_buffers := v;
     load_threads := load_threads n; eval_threads := eval_threads n;
     main_thread := main_thread n; inbox := inbox n; history := history n |}.

Definition set_load_threads (v : list LoadPc) (n : Node) : Node :=
  {| load_work := load_work n; empty_load_buffers := empty_load_buffers n;
     eval_work := eval_work n; frame_buffers := frame_buffers n;
     load_threads := v; eval_threads := eval_threads n;
     main_thread := main_thread n; inbox := inbox n; history := history n |}.

Definition set_eval_threads (v : list (EvaluateThreadArgs * EvalPc)) (n : Node) : Node :=
  {| load_work := load_work n; empty_load_buffers := empty_load_buffers n;
     eval_work := eval_work n; frame_buffers := frame_buffers n;
     load_threads := load_threads n; eval_threads := v;
     main_thread := main_thread n; inbox := inbox n; history := history n |}.

Definition set_main_thread (v : MainPc) (n : Node) : Node :=
  {| load_work := load_work n; empty_load_buffers := empty_load_buffers n;
     eval_work := eval_work n; frame_buffers := frame_buffers n;
     load_threads := load_threads n; eval_threads := eval_threads n;
     main_thread := v; inbox := inbox n; history := history n |}.

Definition set_inbox (v : list Z) (n : Node) : Node :=
  {| load_work := load_work n; empty_load_buffers := empty_load_buffers n;
     eval_work := eval_work n; frame_buffers := frame_buffers n;
     load_threads := load_threads n; eval_threads := eval_threads n;
     main_thread := main_thread n; inbox := v; history := history n |}.

Definition record (ev : Event) (n : Node) : Node :=
  {| load_work := load_work n; empty_load_buffers := empty_load_buffers n;
     eval_work := eval_work n; frame_buffers := frame_buffers n;
     load_threads := load_threads n; eval_threads := eval_threads n;
     main_thread := main_thread n; inbox := inbox n; history := ev :: history n |}.

(** *** Start-up (lines 833-935) *)

(** The nested loop of lines 852-866 that allocates the buffers and
    enqueues their identities. *)
Definition startup_buffers (cfg : Config) : list LoadBufferEntry :=
  concat ((fun gpu => (fun i => {| gpu_device_id := gpu; buffer_index := i |})
                        <$> seq 0 (tasks cfg))
          <$> seq 0 (gpus cfg)).

(** Lines 910-930: the arguments of evaluate worker [i]. *)
Definition eval_thread_args (i : nat) : EvaluateThreadArgs :=
  {| arg_gpu_device_id := i; arg_eval_work := i; arg_frame_buffers := i |}.

(** Modelled from the spec: [is_master] is declared in
    [lightscan/util/common.h], which is not part of the sources at hand;
    the master is the node the others send their requests to, rank 0. *)
Definition is_master (rank : nat) : bool := bool_decide (rank = 0%nat).

(** The node of rank [rank] once its workers have been created. *)
Definition init_node (cfg : Config) (rank : nat) : Node :=
  {| load_work := [];
     empty_load_buffers := startup_buffers cfg;
     eval_work := replicate (gpus cfg) [];
     frame_buffers := ∅;
     load_threads := replicate (load_workers cfg) LoadPop;
     eval_threads := (fun i => (eval_thread_args i, EvalPop)) <$> seq 0 (gpus cfg);
     main_thread := if is_master rank then Distribute 0 else Monitor;
     inbox := [];
     history := [] |}.

(** *** Load worker (lines 233-357) *)

(** One step of load worker [w]: up to and including its next queue
    operation.  [None]: the worker is blocked in a [pop], has returned,
    or indexes outside an array. *)
Definition load_step (cfg : Config) (w : nat) (n : Node) : option Node :=
  match load_threads n !! w with
  | Some LoadPop =>
      match pop (load_work n) with
      | Some (entry, rest) =>
          let k := work_item_index entry in
          Some (record (LoadWorkPopped w k)
                 (set_load_threads
                    (<[w := if bool_decide (k = SENTINEL) then LoadReturned
                            else LoadAcquire k]> (load_threads n))
                    (set_load_work rest n)))
      | None => None
      end
  | Some (LoadAcquire k) =>
      match pop (empty_load_buffers n) with
      | Some (buffer_entry, rest) =>
          Some (record (BufferAcquired w buffer_entry)
                 (set_load_threads (<[w := LoadFill k buffer_entry]> (load_threads n))
                    (set_empty_load_buffers rest n)))
      | None => None
      end
  | Some (LoadFill k b) =>
      (* gpu_frame_buffers[gpu_device_id][buffer_index] is written *)
      if bool_decide (gpu_device_id b < gpus cfg /\ buffer_index b < tasks cfg)%nat then
        Some (record (BufferFilled w k b)
               (set_load_threads (<[w := LoadPush k b]> (load_threads n))
                  (set_frame_buffers
                     (<[(gpu_device_id b, buffer_index b) := k]> (frame_buffers n)) n)))
      else None
  | Some (LoadPush k b) =>
      match eval_work n !! gpu_device_id b with
      | Some q =>
          let eval_work_entry :=
            {| eval_work_item_index := k; eval_buffer_index := buffer_index b |} in
          Some (record (EvalWorkPushed (gpu_device_id b) eval_work_entry)
                 (set_load_threads (<[w := LoadPop]> (load_threads n))
                    (set_eval_work
                       (<[gpu_device_id b := push eval_work_entry q]> (eval_work n)) n)))
      | None => None
      end
  | Some LoadReturned | None => None
  end.

(** *** Evaluate worker (lines 479-652) *)

Definition eval_step (i : nat) (n : Node) : option Node :=
  match eval_threads n !! i with
  | Some (args, EvalPop) =>
      match eval_work n !! arg_eval_work args with
      | Some q =>
          match pop q with
          | Some (work_entry, rest) =>
              Some (record (EvalWorkPopped i work_entry)
                     (set_eval_threads
                        (<[i := (args,
                                 if bool_decide (eval_work_item_index work_entry = SENTINEL)
                                 then EvalReturned else EvalRun work_entry)]>
                           (eval_threads n))
                        (set_eval_work (<[arg_eval_work args := rest]> (eval_work n)) n)))
          | None => None
          end
      | None => None
      end
  | Some (args, EvalRun e) =>
      (* args.frame_buffers[work_entry.buffer_index] is read *)
      Some (record (Evaluated i (eval_work_item_index e)
                      (frame_buffers n !! (arg_frame_buffers args, eval_buffer_index e)))
             (set_eval_threads (<[i := (args, EvalRelease e)]> (eval_threads n)) n))
  | Some (args, EvalRelease e) =>
      let empty_buffer_entry :=
        {| gpu_device_id := arg_gpu_device_id args;
           buffer_index := eval_buffer_index e |} in
      Some (record (BufferReleased i empty_buffer_entry)
             (set_eval_threads (<[i := (args, EvalPop)]> (eval_threads n))
                (set_empty_load_buffers
                   (push empty_buffer_entry (empty_load_buffers n)) n)))
  | Some (_, EvalReturned) | None => None
  end.

(** *** Main thread *)

Definition push_load_work (k : Z) (n : Node) : Node :=
  record (LoadWorkPushed k)
    (set_load_work (push {| work_item_index := k |} (load_work n)) n).

(** [local_work] of lines 949-952 and 986-989. *)
Definition local_work (n : Node) : nat :=
  size (load_work n) + sum_list (size <$> eval_work n).

Definition high_water (cfg : Config) : nat := gpus cfg * tasks cfg.

(** Lines 1010-1051: the sentinels and the joins.  [indeterminate] is
    the value found in the [buffer_index] field that line 1037 leaves
    unassigned.  [None]: the thread is blocked in a [pthread_join], is
    not in this part of [main], or has finished. *)
Definition shutdown_step (cfg : Config) (indeterminate : nat) (n : Node)
    : option Node :=
  match main_thread n with
  | PushLoadSentinels i =>
      if bool_decide (i < load_workers cfg)%nat then
        Some (set_main_thread (PushLoadSentinels (S i)) (push_load_work SENTINEL n))
      else Some (set_main_thread (JoinLoad 0) n)
  | JoinLoad i =>
      if bool_decide (i < load_workers cfg)%nat then
        match load_threads n !! i with
        | Some LoadReturned =>
            Some (record (LoadThreadJoined i) (set_main_thread (JoinLoad (S i)) n))
        | _ => None
        end
      else Some (set_main_thread (PushEvalSentinels 0) n)
  | PushEvalSentinels i =>
      if bool_decide (i < gpus cfg)%nat then
        match eval_work n !! i with
        | Some q =>
            let entry :=
              {| eval_work_item_index := SENTINEL; eval_buffer_index := indeterminate |} in
            Some (record (EvalWorkPushed i entry)
                   (set_main_thread (PushEvalSentinels (S i))
                      (set_eval_work (<[i := push entry q]> (eval_work n)) n)))
        | None => None
        end
      else Some (set_main_thread (JoinEval 0) n)
  | JoinEval i =>
      if bool_decide (i < gpus cfg)%nat then
        match eval_threads n !! i with
        | Some (_, EvalReturned) =>
            Some (record (EvalThreadJoined i) (set_main_thread (JoinEval (S i)) n))
        | _ => None
        end
      else Some (set_main_thread Finished n)
  | _ => None
  end.

(** *** The cluster *)

(** The nodes by rank, and the ranks whose "more work" message is on
    its way to the master. *)
Record Cluster := {
  nodes : list Node;
  requests : list nat
}.

Definition update_node (rank : nat) (n : Node) (c : Cluster) : Cluster :=
  {| nodes := <[rank := n]> (nodes c); requests := requests c |}.

(** [MPI_Recv] from [MPI_ANY_SOURCE] followed by the [MPI_Send] of
    [reply] to the sender, on the master, which goes on at [pc].
    [any_source] is the position of the message that the receive
    matches among the pending ones. *)
Definition serve_request (any_source : nat) (reply : Z) (pc : MainPc)
    (n : Node) (c : Cluster) : option Cluster :=
  match requests c !! any_source with
  | Some src =>
      let nodes' := <[0%nat := set_main_thread pc n]> (nodes c) in
      match nodes' !! src with
      | Some dst =>
          Some {| nodes := <[src := set_inbox (inbox dst ++ [reply]) dst]> nodes';
                  requests := delete any_source (requests c) |}
      | None => None
      end
  | None => None
  end.

(** Lines 938-982: the dispatcher on the master. *)
Definition master_step (cfg : Config) (any_source indeterminate : nat)
    (n : Node) (c : Cluster) : option Cluster :=
  match main_thread n with
  | Distribute next =>
      if bool_decide (next < Z.of_nat (work_items cfg)) then
        if bool_decide (local_work n < high_water cfg)%nat then
          Some (update_node 0 (set_main_thread (Distribute (next + 1))
                                 (push_load_work next n)) c)
        else if bool_decide (1 < length (nodes c))%nat then
          serve_request any_source next (Distribute (next + 1)) n c
        else Some c
      else Some (update_node 0 (set_main_thread (Drain 1) n) c)
  | Drain workers_done =>
      if bool_decide (workers_done < length (nodes c))%nat then
        serve_request any_source SENTINEL (Drain (S workers_done)) n c
      else Some (update_node 0 (set_main_thread (PushLoadSentinels 0) n) c)
  | _ =>
      n' ← shutdown_step cfg indeterminate n; Some (update_node 0 n' c)
  end.

(** Lines 983-1008: the coordinator on the other nodes. *)
Definition remote_step (cfg : Config) (rank indeterminate : nat)
    (n : Node) (c : Cluster) : option Cluster :=
  match main_thread n with
  | Monitor =>
      if bool_decide (local_work n < high_water cfg)%nat then
        Some {| nodes := <[rank := set_main_thread AwaitReply n]> (nodes c);
                requests := requests c ++ [rank] |}
      else Some c
  | AwaitReply =>
      match inbox n with
      | next_item :: rest =>
          if bool_decide (next_item = SENTINEL) then
            Some (update_node rank
                    (set_main_thread (PushLoadSentinels 0) (set_inbox rest n)) c)
          else
            Some (update_node rank
                    (set_main_thread Monitor
                       (push_load_work next_item (set_inbox rest n))) c)
      | [] => None
      end
  | _ =>
      n' ← shutdown_step cfg indeterminate n; Some (update_node rank n' c)
  end.

(** Which thread of which node takes the next step. *)
Inductive Action :=
  | Load (w : nat)
  | Eval (i : nat)
  | Main (any_source : nat) (indeterminate : nat).

Definition cluster_step (cfg : Config) (rank : nat) (a : Action) (c : Cluster)
    : option Cluster :=
  match nodes c !! rank with
  | Some n =>
      match a with
      | Load w => n' ← load_step cfg w n; Some (update_node rank n' c)
      | Eval i => n' ← eval_step i n; Some (update_node rank n' c)
      | Main any_source indeterminate =>
          if is_master rank then master_step cfg any_source indeterminate n c
          else remote_step cfg rank indeterminate n c
      end
  | None => None
  end.

Definition init_cluster (cfg : Config) (num_nodes : nat) : Cluster :=
  {| nodes := init_node cfg <$> seq 0 num_nodes; requests := [] |}.

(** A schedule is run from left to right; [None] when one of its steps
    is not enabled. *)
Fixpoint run (cfg : Config) (schedule : list (nat * Action)) (c : Cluster)
    : option Cluster :=
  match schedule with
  | [] => Some c
  | (rank, a) :: schedule' =>
      match cluster_step cfg rank a c with
      | Some c' => run cfg schedule' c'
      | None => None
      end
  end.

Definition reachable (cfg : Config) (num_nodes : nat) (c : Cluster) : Prop :=
  exists schedule, run cfg schedule (init_cluster cfg num_nodes) = Some c.

(** *** Who holds which buffer *)

Definition held_by_load (pc : LoadPc) : list LoadBufferEntry :=
  match pc with
  | LoadFill _ b | LoadPush _ b => [b]
  | _ => []
  end.

Definition held_by_eval (t : EvaluateThreadArgs * EvalPc) : list LoadBufferEntry :=
  match t.2 with
  | EvalRun e | EvalRelease e =>
      [{| gpu_device_id := arg_gpu_device_id t.1; buffer_index := eval_buffer_index e |}]
  | _ => []
  end.

Definition is_sentinel (e : EvalWorkEntry) : Prop := eval_work_item_index e = SENTINEL.

#[global] Instance is_sentinel_dec e : Decision (is_sentinel e).
Proof. unfold is_sentinel. apply _. Defined.

(** The entries of a queue that carry a buffer. *)
Definition carrying (q : Queue EvalWorkEntry) : list EvalWorkEntry :=
  filter (fun e => ~ is_sentinel e) q.

(** The buffers that the entries of [eval_work[g]] stand for. *)
Definition queued (g : nat) (q : Queue EvalWorkEntry) : list LoadBufferEntry :=
  (fun e => {| gpu_device_id := g; buffer_index := eval_buffer_index e |}) <$> carrying q.

Fixpoint queued_from (g : nat) (qs : list (Queue EvalWorkEntry)) : list LoadBufferEntry :=
  match qs with
  | [] => []
  | q :: qs' => queued g q ++ queued_from (S g) qs'
  end.

(** Every buffer identity that is in the free queue, held by a load
    worker, travelling in an eval queue, or held by an evaluate worker. *)
Definition all_held (n : Node) : list LoadBufferEntry :=
  empty_load_buffers n
  ++ concat (held_by_load <$> load_threads n)
  ++ queued_from 0 (eval_work n)
  ++ concat (held_by_eval <$> eval_threads n).

Definition on_gpu (g : nat) (l : list LoadBufferEntry) : nat :=
  length (filter (fun b => gpu_device_id b = g) l).

Definition eval_queue (n : Node) (g : nat) : Queue EvalWorkEntry :=
  default [] (eval_work n !! g).

(** The sum of the buffer-conservation property as the specification
    words it, with [|eval_work[g]|] the number of entries of the queue,
    and with the entries that carry a buffer only. *)
Definition buffers_counted (n : Node) (g : nat) : nat :=
  on_gpu g (empty_load_buffers n)
  + on_gpu g (concat (held_by_load <$> load_threads n))
  + size (eval_queue n g)
  + on_gpu g (concat (held_by_eval <$> eval_threads n)).

Definition buffers_in_circulation (n : Node) (g : nat) : nat :=
  on_gpu g (empty_load_buffers n)
  + on_gpu g (concat (held_by_load <$> load_threads n))
  + length (carrying (eval_queue n g))
  + on_gpu g (concat (held_by_eval <$> eval_threads n)).

(** *** What the history says *)

Definition pushes_load_sentinel (ev : Event) : bool :=
  match ev with
  | LoadWorkPushed k => bool_decide (k = SENTINEL)
  | _ => false
  end.

Definition load_sentinels_pushed (h : list Event) : nat :=
  length (filter (fun ev => pushes_load_sentinel ev = true) h).

Definition pushes_eval_sentinel (g : nat) (ev : Event) : bool :=
  match ev with
  | EvalWorkPushed g' e => bool_decide (g' = g /\ is_sentinel e)
  | _ => false
  end.

Definition eval_sentinels_pushed (g : nat) (h : list Event) : nat :=
  length (filter (fun ev => pushes_eval_sentinel g ev = true) h).

Definition joins_load (ev : Event) : bool :=
  match ev with LoadThreadJoined _ => true | _ => false end.

Definition load_threads_joined (h : list Event) : nat :=
  length (filter (fun ev => joins_load ev = true) h).

(** The work item indices pushed into [load_work], sentinels left
    out, oldest first. *)
Fixpoint work_pushed (h : list Event) : list Z :=
  match h with
  | [] => []
  | LoadWorkPushed k :: h' =>
      if bool_decide (k = SENTINEL) then work_pushed h' else work_pushed h' ++ [k]
  | _ :: h' => work_pushed h'
  end.

(** The work items evaluated, oldest first. *)
Fixpoint work_evaluated (h : list Event) : list Z :=
  match h with
  | [] => []
  | Evaluated _ k _ :: h' => work_evaluated h' ++ [k]
  | _ :: h' => work_evaluated h'
  end.

Definition distributing (pc : MainPc) : Prop :=
  match pc with
  | Distribute _ | Drain _ | Monitor | AwaitReply => True
  | _ => False
  end.

#[global] Instance distributing_dec pc : Decision (distributing pc).
Proof. destruct pc; cbn; apply _. Defined.

(** *** The steps of one node

    Every step of the cluster changes a node in one of these ways. *)
Inductive node_trans (cfg : Config) : Node -> Node -> Prop :=
  | nt_load w n n' :
      load_step cfg w n = Some n' -> node_trans cfg n n'
  | nt_eval i n n' :
      eval_step i n = Some n' -> node_trans cfg n n'
  | nt_shutdown indeterminate n n' :
      shutdown_step cfg indeterminate n = Some n' -> node_trans cfg n n'
  | nt_assign next n :
      main_thread n = Distribute next -> next < Z.of_nat (work_items cfg) ->
      node_trans cfg n
        (set_main_thread (Distribute (next + 1)) (push_load_work next n))
  | nt_serve next n :
      main_thread n = Distribute next -> next < Z.of_nat (work_items cfg) ->
      node_trans cfg n (set_main_thread (Distribute (next + 1)) n)
  | nt_exhausted next n :
      main_thread n = Distribute next -> ~ next < Z.of_nat (work_items cfg) ->
      node_trans cfg n (set_main_thread (Drain 1) n)
  | nt_drain workers_done n :
      main_thread n = Drain workers_done ->
      node_trans cfg n (set_main_thread (Drain (S workers_done)) n)
  | nt_drained workers_done n :
      main_thread n = Drain workers_done ->
      node_trans cfg n (set_main_thread (PushLoadSentinels 0) n)
  | nt_request n :
      main_thread n = Monitor ->
      node_trans cfg n (set_main_thread AwaitReply n)
  | nt_reply next_item rest n :
      main_thread n = AwaitReply -> inbox n = next_item :: rest ->
      next_item <> SENTINEL ->
      node_trans cfg n
        (set_main_thread Monitor (push_load_work next_item (set_inbox rest n)))
  | nt_no_more rest n :
      main_thread n = AwaitReply -> inbox n = SENTINEL :: rest ->
      node_trans cfg n (set_main_thread (PushLoadSentinels 0) (set_inbox rest n))
  | nt_deliver reply n :
      node_trans cfg n (set_inbox (inbox n ++ [reply]) n).

(** The states a node of rank [rank] can be in. *)
Inductive node_reach (cfg : Config) (rank : nat) : Node -> Prop :=
  | nr_init : node_reach cfg rank (init_node cfg rank)
  | nr_step n n' : node_reach cfg rank n -> node_trans cfg n n' -> node_reach cfg rank n'.

(** *** Invariants of a node *)

(** A load worker past [load_work.pop] works on a work item, not on the
    sentinel. *)
Definition carries_work (pc : LoadPc) : Prop :=
  match pc with
  | LoadAcquire k | LoadFill k _ | LoadPush k _ => k <> SENTINEL
  | LoadPop | LoadReturned => True
  end.

(** Buffer ownership: the buffer identities in the four places make up
    the buffers allocated at start-up, each once; an entry of
    [eval_work[g]] that carries a buffer, and a worker about to push or
    to evaluate one, find in that buffer the frames of their work item. *)
Record buffers_inv (cfg : Config) (n : Node) : Prop := {
  bi_held : all_held n ≡ₚ startup_buffers cfg;
  bi_queues : length (eval_work n) = gpus cfg;
  bi_eval_threads : length (eval_threads n) = gpus cfg;
  bi_args : forall i t, eval_threads n !! i = Some t -> t.1 = eval_thread_args i;
  bi_queued : forall g q e,
    eval_work n !! g = Some q -> e ∈ q -> ~ is_sentinel e ->
    frame_buffers n !! (g, eval_buffer_index e) = Some (eval_work_item_index e);
  bi_pushing : forall w k b,
    load_threads n !! w = Some (LoadPush k b) ->
    frame_buffers n !! (gpu_device_id b, buffer_index b) = Some k;
  bi_running : forall i a e,
    eval_threads n !! i = Some (a, EvalRun e) ->
    frame_buffers n !! (arg_frame_buffers a, eval_buffer_index e)
    = Some (eval_work_item_index e);
  bi_evaluated : forall i k content,
    Evaluated i k content ∈ history n -> content = Some k;
  bi_load_items : forall w pc, load_threads n !! w = Some pc -> carries_work pc
}.

(** How many sentinels [main] has pushed into [load_work], how many load
    workers it has joined, and how many sentinels it has pushed into
    [eval_work[g]], by where it is. *)
Definition load_sentinels_expected (cfg : Config) (pc : MainPc) : nat :=
  match pc with
  | Distribute _ | Drain _ | Monitor | AwaitReply => 0
  | PushLoadSentinels i => i
  | JoinLoad _ | PushEvalSentinels _ | JoinEval _ | Finished => load_workers cfg
  end.

Definition joins_expected (cfg : Config) (pc : MainPc) : nat :=
  match pc with
  | Distribute _ | Drain _ | Monitor | AwaitReply | PushLoadSentinels _ => 0
  | JoinLoad i => i
  | PushEvalSentinels _ | JoinEval _ | Finished => load_workers cfg
  end.

Definition eval_sentinels_expected (cfg : Config) (pc : MainPc) (g : nat) : nat :=
  match pc with
  | PushEvalSentinels i => if bool_decide (g < i)%nat then 1 else 0
  | JoinEval _ | Finished => if bool_decide (g < gpus cfg)%nat then 1 else 0
  | _ => 0
  end.

Definition counter_in_range (cfg : Config) (pc : MainPc) : Prop :=
  match pc with
  | Distribute next => 0 <= next
  | PushLoadSentinels i | JoinLoad i => (i <= load_workers cfg)%nat
  | PushEvalSentinels i | JoinEval i => (i <= gpus cfg)%nat
  | _ => True
  end.

(** Shutdown: the history agrees with the position of [main], and the
    load workers that [main] has joined have returned. *)
Record shutdown_inv (cfg : Config) (n : Node) : Prop := {
  si_counter : counter_in_range cfg (main_thread n);
  si_load_threads : length (load_threads n) = load_workers cfg;
  si_eval_queues : length (eval_work n) = gpus cfg;
  si_load_sentinels :
    load_sentinels_pushed (history n) = load_sentinels_expected cfg (main_thread n);
  si_joins :
    load_threads_joined (history n) = joins_expected cfg (main_thread n);
  si_joined_returned : forall w,
    (w < joins_expected cfg (main_thread n))%nat ->
    load_threads n !! w = Some LoadReturned;
  si_eval_sentinels : forall g,
    eval_sentinels_pushed g (history n) = eval_sentinels_expected cfg (main_thread n) g
}.

(** *** Dispatch *)

(** The part of [main]'s position that matters to the dispatch of work
    item indices. *)
Inductive Phase :=
  | InDistribute (next : Z)
  | InDrain
  | InMonitor
  | InAwait
  | Past.

Definition phase (pc : MainPc) : Phase :=
  match pc with
  | Distribute next => InDistribute next
  | Drain _ => InDrain
  | Monitor => InMonitor
  | AwaitReply => InAwait
  | _ => Past
  end.

(** The phases of the master's dispatcher. *)
Definition distributes (ph : Phase) : Prop :=
  match ph with InDistribute _ | InDrain => True | _ => False end.

(** What the dispatch sees of a node: the indices pushed into its
    [load_work], the replies on their way to it, and the phase of its
    main thread. *)
Record Summary := {
  sm_pushed : list Z;
  sm_inbox : list Z;
  sm_phase : Phase
}.

Definition summary (n : Node) : Summary :=
  {| sm_pushed := work_pushed (history n);
     sm_inbox := inbox n;
     sm_phase := phase (main_thread n) |}.

Definition replies (s : Summary) : list Z :=
  filter (fun k => k <> SENTINEL) (sm_inbox s).

(** The value of the master's counter [next_work_item_to_allocate];
    once the master has left the loop of line 942 it is
    [work_items.size()]. *)
Definition allocated (cfg : Config) (sms : list Summary) : Z :=
  match sms !! 0%nat with
  | Some s =>
      match sm_phase s with
      | InDistribute next => next
      | _ => Z.of_nat (work_items cfg)
      end
  | None => 0
  end.

(** Only the master distributes; a node has a reply on its way only
    while it waits for it, and then it has no request pending. *)
Definition node_ok (reqs : list nat) (r : nat) (s : Summary) : Prop :=
  match sm_phase s with
  | InDistribute _ | InDrain => r = 0%nat /\ sm_inbox s = [] /\ (r ∉ reqs)
  | InMonitor => r <> 0%nat /\ sm_inbox s = [] /\ (r ∉ reqs)
  | InAwait =>
      r <> 0%nat /\
      ((r ∈ reqs /\ sm_inbox s = []) \/ ((r ∉ reqs) /\ exists k, sm_inbox s = [k]))
  | Past => sm_inbox s = [] /\ (r ∉ reqs)
  end.

Record dispatch_inv (cfg : Config) (sms : list Summary) (reqs : list nat) : Prop := {
  di_count :
    concat (sm_pushed <$> sms) ++ concat (replies <$> sms)
    ≡ₚ seqZ 0 (allocated cfg sms);
  di_bound : 0 <= allocated cfg sms <= Z.of_nat (work_items cfg);
  di_nodes : forall r s, sms !! r = Some s -> node_ok reqs r s;
  di_requests : NoDup reqs
}.

(** The indices pushed into the [load_work] queues of the cluster, and
    the work items evaluated in the cluster. *)
Definition dispatched (c : Cluster) : list Z :=
  concat ((fun n => work_pushed (history n)) <$> nodes c).

Definition in_flight (c : Cluster) : list Z :=
  concat ((fun n => filter (fun k => k <> SENTINEL) (inbox n)) <$> nodes c).

Definition evaluated (c : Cluster) : list Z :=
  concat ((fun n => work_evaluated (history n)) <$> nodes c).

Definition next_to_allocate (cfg : Config) (c : Cluster) : Z :=
  allocated cfg (summary <$> nodes c).

(** *** The way of a work item through a node *)

Definition load_items (q : Queue LoadWorkEntry) : list Z :=
  filter (fun k => k <> SENTINEL) (work_item_index <$> q).

Definition loading (pc : LoadPc) : list Z :=
  match pc with
  | LoadAcquire k | LoadFill k _ | LoadPush k _ => [k]
  | LoadPop | LoadReturned => []
  end.

Definition eval_items (q : Queue EvalWorkEntry) : list Z :=
  eval_work_item_index <$> carrying q.

Definition evaluating (t : EvaluateThreadArgs * EvalPc) : list Z :=
  match t.2 with
  | EvalRun e => [eval_work_item_index e]
  | _ => []
  end.

(** The work items that have been pushed into [load_work] and whose
    forward passes have not been run yet. *)
Definition in_pipeline (n : Node) : list Z :=
  load_items (load_work n)
  ++ concat (loading <$> load_threads n)
  ++ concat (eval_items <$> eval_work n)
  ++ concat (evaluating <$> eval_threads n).

Definition in_progress (c : Cluster) : list Z :=
  concat (in_pipeline <$> nodes c).

(** In a queue, the entries after a sentinel are sentinels. *)
Fixpoint sentinels_last {A} (P : A -> Prop) (q : list A) : Prop :=
  match q with
  | [] => True
  | x :: q' => (P x -> Forall P q') /\ sentinels_last P q'
  end.

Definition load_sentinel (e : LoadWorkEntry) : Prop := work_item_index e = SENTINEL.

Definition evals_joined (cfg : Config) (pc : MainPc) : nat :=
  match pc with
  | JoinEval i => i
  | Finished => gpus cfg
  | _ => 0
  end.

(** Draining: sentinels come last in every queue and are pushed when no
    work item can follow; a worker that has returned leaves nothing but
    sentinels behind. *)
Record drain_inv (cfg : Config) (n : Node) : Prop := {
  dr_flow : work_pushed (history n) ≡ₚ in_pipeline n ++ work_evaluated (history n);
  dr_load_sentinel :
    Exists load_sentinel (load_work n) -> ~ distributing (main_thread n);
  dr_load_returned : forall w,
    load_threads n !! w = Some LoadReturned ->
    ~ distributing (main_thread n) /\ Forall load_sentinel (load_work n);
  dr_load_sorted : sentinels_last load_sentinel (load_work n);
  dr_eval_sentinel : forall g q,
    eval_work n !! g = Some q -> Exists is_sentinel q ->
    Forall (fun pc => pc = LoadReturned) (load_threads n);
  dr_eval_returned : forall i a,
    eval_threads n !! i = Some (a, EvalReturned) ->
    Forall (fun pc => pc = LoadReturned) (load_threads n) /\
    forall q, eval_work n !! i = Some q -> Forall is_sentinel q;
  dr_eval_sorted : forall g q,
    eval_work n !! g = Some q -> sentinels_last is_sentinel q;
  dr_evals_joined : forall i,
    (i < evals_joined cfg (main_thread n))%nat ->
    exists a, eval_threads n !! i = Some (a, EvalReturned)
}.

(** *** Backpressure *)

Definition awaiting (pc : MainPc) : nat :=
  match pc with AwaitReply => 1 | _ => 0 end.

(** What the high-water test of lines 949-953 and 986-990 keeps: the
    work items waiting in [load_work] number at most
    [GPUS_PER_NODE * TASKS_IN_QUEUE_PER_GPU], one less while a request
    for one more is under way; the queue holds besides them only the
    sentinels of line 1011, and an eval queue at most the sentinel of
    line 1036. *)
Record backlog_inv (cfg : Config) (n : Node) : Prop := {
  bl_items :
    (length (load_items (load_work n)) + awaiting (main_thread n) <= high_water cfg)%nat;
  bl_entries :
    (size (load_work n) + awaiting (main_thread n)
     <= high_water cfg + load_sentinels_expected cfg (main_thread n))%nat;
  bl_eval_sentinels : forall g q,
    eval_work n !! g = Some q ->
    (length (filter is_sentinel q) <= eval_sentinels_expected cfg (main_thread n) g)%nat
}.

Definition backlog_ok (cfg : Config) (c : Cluster) : Prop :=
  forall r n, nodes c !! r = Some n -> backlog_inv cfg n.

(** *** The end of the distribution *)

(** A node has been told that no work is left: the -1 of line 975 is on
    its way to it, or it has received it and left the loop of line 985. *)
Definition told (s : Summary) : bool :=
  match sm_phase s with
  | InAwait => bool_decide (sm_inbox s = [SENTINEL])
  | Past => true
  | InDistribute _ | InDrain | InMonitor => false
  end.

(** How many of the nodes other than the master have been told. *)
Definition told_count (ns : list Node) : nat :=
  length (filter (fun n => told (summary n) = true) (tail ns)).

(** [workers_done] counts the master and the nodes it has told. *)
Definition handshake_inv (ns : list Node) : Prop :=
  match ns !! 0%nat with
  | Some n0 =>
      match main_thread n0 with
      | Distribute _ => told_count ns = 0%nat
      | Drain workers_done => workers_done = S (told_count ns)
      | Monitor | AwaitReply => True
      | _ => S (told_count ns) = length ns
      end
  | None => True
  end.

(** *** Where the sentinels are *)

Definition load_returned (pc : LoadPc) : bool :=
  match pc with LoadReturned => true | _ => false end.

Definition eval_returned (pc : EvalPc) : bool :=
  match pc with EvalReturned => true | _ => false end.

(** Every sentinel pushed is still in its queue or has made one worker
    return. *)
Record sentinel_inv (cfg : Config) (n : Node) : Prop := {
  sn_load :
    (length (filter (fun e => work_item_index e = SENTINEL) (load_work n))
     + length (filter (fun pc => load_returned pc = true) (load_threads n))
     = load_sentinels_expected cfg (main_thread n))%nat;
  sn_eval : forall g q t,
    eval_work n !! g = Some q -> eval_threads n !! g = Some t ->
    (length (filter is_sentinel q) + (if eval_returned t.2 then 1 else 0)
     = eval_sentinels_expected cfg (main_thread n) g)%nat
}.

(** Some load or evaluate worker of the node can take a step. *)
Definition worker_can_step (cfg : Config) (n : Node) : Prop :=
  (exists w n', load_step cfg w n = Some n') \/ (exists i n', eval_step i n = Some n').

(** A step of the cluster that is not a poll that finds nothing to do. *)
Definition progresses (cfg : Config) (c : Cluster) : Prop :=
  exists rank a c', cluster_step cfg rank a c = Some c' /\ c' <> c.

(** *** How much is left to do *)

#[global] Instance LoadWorkEntry_eq_dec : EqDecision LoadWorkEntry.
Proof. solve_decision. Defined.
#[global] Instance EvalWorkEntry_eq_dec : EqDecision EvalWorkEntry.
Proof. solve_decision. Defined.
#[global] Instance LoadPc_eq_dec : EqDecision LoadPc.
Proof. solve_decision. Defined.
#[global] Instance EvaluateThreadArgs_eq_dec : EqDecision EvaluateThreadArgs.
Proof. solve_decision. Defined.
#[global] Instance EvalPc_eq_dec : EqDecision EvalPc.
Proof. solve_decision. Defined.
#[global] Instance MainPc_eq_dec : EqDecision MainPc.
Proof. solve_decision. Defined.
#[global] Instance Event_eq_dec : EqDecision Event.
Proof. solve_decision. Defined.
#[global] Instance Node_eq_dec : EqDecision Node.
Proof. solve_decision. Defined.
#[global] Instance Cluster_eq_dec : EqDecision Cluster.
Proof. solve_decision. Defined.

(** The queue operations a load worker has to perform before it is back
    at [load_work.pop] (lines 276-354), and an evaluate worker before it
    is back at [eval_work.pop] (lines 493-651). *)
Definition load_pc_steps (pc : LoadPc) : nat :=
  match pc with
  | LoadPop | LoadReturned => 0
  | LoadAcquire _ => 6
  | LoadFill _ _ => 5
  | LoadPush _ _ => 4
  end.

Definition eval_pc_steps (pc : EvalPc) : nat :=
  match pc with
  | EvalPop | EvalReturned => 0
  | EvalRun _ => 2
  | EvalRelease _ => 1
  end.

(** The steps [main] has before it from the loops of lines 1042, 1036,
    1017 and 1011 on, counting with a pushed entry the steps the workers
    take on it: 7 for an entry of [load_work], 3 for one of
    [eval_work]. *)
Definition join_eval_steps (cfg : Config) (i : nat) : nat :=
  (gpus cfg - i) + 1.

Definition push_eval_steps (cfg : Config) (i : nat) : nat :=
  4 * (gpus cfg - i) + 1 + join_eval_steps cfg 0.

Definition join_load_steps (cfg : Config) (i : nat) : nat :=
  (load_workers cfg - i) + 1 + push_eval_steps cfg 0.

Definition push_load_steps (cfg : Config) (i : nat) : nat :=
  8 * (load_workers cfg - i) + 1 + join_load_steps cfg 0.

(** The same for the loops of lines 942, 972 and 985: a reply costs the
    master one step and the node it goes to the receive, the push and
    the next request. *)
Definition main_pc_steps (cfg : Config) (num_nodes : nat) (pc : MainPc) : nat :=
  match pc with
  | Distribute next =>
      10 * Z.to_nat (Z.of_nat (work_items cfg) - next) + 1
      + (10 * (num_nodes - 1) + 1 + push_load_steps cfg 0)
  | Drain workers_done =>
      10 * (num_nodes - workers_done) + 1 + push_load_steps cfg 0
  | Monitor => push_load_steps cfg 0 + 2
  | AwaitReply => push_load_steps cfg 0 + 1
  | PushLoadSentinels i => push_load_steps cfg i
  | JoinLoad i => join_load_steps cfg i
  | PushEvalSentinels i => push_eval_steps cfg i
  | JoinEval i => join_eval_steps cfg i
  | Finished => 0
  end.

(** A bound on the steps that the threads of a node can still take. *)
Definition node_potential (cfg : Config) (num_nodes : nat) (n : Node) : nat :=
  7 * size (load_work n)
  + sum_list (load_pc_steps <$> load_threads n)
  + 3 * sum_list (size <$> eval_work n)
  + sum_list ((fun t => eval_pc_steps t.2) <$> eval_threads n)
  + main_pc_steps cfg num_nodes (main_thread n)
  + 9 * length (inbox n).

Definition potential (cfg : Config) (c : Cluster) : nat :=
  sum_list (node_potential cfg (length (nodes c)) <$> nodes c).

(** The steps of a schedule that change the state: all but the polls of
    lines 949-953 and 986-990 that find the queues full. *)
Fixpoint moves (cfg : Config) (schedule : list (nat * Action)) (c : Cluster) : nat :=
  match schedule with
  | [] => 0
  | (rank, a) :: schedule' =>
      match cluster_step cfg rank a c with
      | Some c' => (if decide (c' = c) then 0 else 1) + moves cfg schedule' c'
      | None => 0
      end
  end.

(** The run is over: [main] has joined its workers on every node. *)
Definition finished (c : Cluster) : Prop :=
  Forall (fun n => main_thread n = Finished) (nodes c).

End Pipeline.

(** ** Concrete inputs *)

Module Scenario.

(** Scenario S1 of the specification: batches of 2 frames, 2 batches
    per work item, one video of 10 frames. *)
Definition S1_globals : Globals :=
  {| GPUS_PER_NODE := 1; GLOBAL_BATCH_SIZE := 2; BATCHES_PER_WORK_ITEM := 2;
     TASKS_IN_QUEUE_PER_GPU := 4; LOAD_WORKERS_PER_NODE := 2;
     NUM_CUDA_STREAMS := 32 |}.

Definition S1_video : VideoMetadata := {| width := 4; height := 2; frames := 10 |}.

Definition item (v s e : Z) : VideoWorkItem :=
  {| video_index := v; start_frame := s; end_frame := e |}.

(** A 2x2 video of one frame, loaded as a work item of one frame into a
    buffer of one frame. *)
Definition tiny_globals : Globals :=
  {| GPUS_PER_NODE := 1; GLOBAL_BATCH_SIZE := 1; BATCHES_PER_WORK_ITEM := 1;
     TASKS_IN_QUEUE_PER_GPU := 1; LOAD_WORKERS_PER_NODE := 1;
     NUM_CUDA_STREAMS := 1 |}.

Definition tiny_video : VideoMetadata := {| width := 2; height := 2; frames := 1 |}.

Definition tiny_frame : Load.AVFrame := {| Load.frame_width := 2; Load.frame_height := 2 |}.

(** One node with one GPU, one buffer and one load worker, and one
    work item.  [M], [L] and [E] are a step of the main thread, of the
    load worker and of the evaluate worker of node 0; 7 stands for the
    unassigned [buffer_index] of the evaluate sentinel. *)
Definition one_item : Pipeline.Config :=
  {| Pipeline.gpus := 1; Pipeline.tasks := 1; Pipeline.load_workers := 1;
     Pipeline.work_items := 1 |}.

Definition M : nat * Pipeline.Action := (0%nat, Pipeline.Main 0 7).
Definition L : nat * Pipeline.Action := (0%nat, Pipeline.Load 0).
Definition E : nat * Pipeline.Action := (0%nat, Pipeline.Eval 0).

(** The work item goes through the pipeline, the load worker is shut
    down and joined, and the sentinel of [eval_work[0]] is pushed. *)
Definition until_eval_sentinel : list (nat * Pipeline.Action) :=
  [M; L; L; L; L; E; E; E; M; M; M; M; L; M; M; M].

(** The run up to the push of the filled buffer into [eval_work[0]]. *)
Definition until_eval_work : list (nat * Pipeline.Action) := [M; L; L; L; L].

(** The same run, continued until [main] is past the joins. *)
Definition whole_run : list (nat * Pipeline.Action) :=
  until_eval_sentinel ++ [M; E; M; M].

(** Two nodes with one GPU, one buffer and one load worker each, and
    two work items.  The master takes item 0 for itself, serves the
    request of node 1 with item 1, and answers its next request with the
    sentinel. *)
Definition two_items : Pipeline.Config :=
  {| Pipeline.gpus := 1; Pipeline.tasks := 1; Pipeline.load_workers := 1;
     Pipeline.work_items := 2 |}.

Definition R : nat * Pipeline.Action := (1%nat, Pipeline.Main 0 7).

Definition distribution : list (nat * Pipeline.Action) :=
  [M; R; M; R; M; (1%nat, Pipeline.Load 0); R; M; M; R].

(** After the distribution each node loads and evaluates its work item;
    then its main thread shuts the workers down and joins them. *)
Definition shutdown (rank : nat) : list (nat * Pipeline.Action) :=
  [(rank, Pipeline.Main 0 7); (rank, Pipeline.Main 0 7); (rank, Pipeline.Load 0);
   (rank, Pipeline.Main 0 7); (rank, Pipeline.Main 0 7); (rank, Pipeline.Main 0 7);
   (rank, Pipeline.Main 0 7); (rank, Pipeline.Eval 0);
   (rank, Pipeline.Main 0 7); (rank, Pipeline.Main 0 7)].

Definition two_nodes_run : list (nat * Pipeline.Action) :=
  distribution
  ++ [L; L; L; L; E; E; E]
  ++ [(1%nat, Pipeline.Load 0); (1%nat, Pipeline.Load 0); (1%nat, Pipeline.Load 0);
      (1%nat, Pipeline.Eval 0); (1%nat, Pipeline.Eval 0); (1%nat, Pipeline.Eval 0)]
  ++ shutdown 0 ++ shutdown 1.

(** The distribution up to the master's reply -1 to node 1. *)
Definition until_told : list (nat * Pipeline.Action) :=
  [M; R; M; R; M; (1%nat, Pipeline.Load 0); R; M].

(** Option values the program accepts as they are: no load worker, and
    no GPU. *)
Definition no_load_workers : Pipeline.Config :=
  {| Pipeline.gpus := 1; Pipeline.tasks := 1; Pipeline.load_workers := 0;
     Pipeline.work_items := 1 |}.

Definition no_gpus : Pipeline.Config :=
  {| Pipeline.gpus := 0; Pipeline.tasks := 4; Pipeline.load_workers := 2;
     Pipeline.work_items := 1 |}.

(** [main] on one node from the first push to the last join, with the
    evaluate worker's step between the joins. *)
Definition unattended : list (nat * Pipeline.Action) :=
  [M; M; M; M; M; M; M; E; M; M].

End Scenario.

(** * Properties *)

(** ** Machine integers *)

Lemma wrap_int_id z : in_int z -> wrap_int z = z.
Proof.
  unfold in_int, INT_MIN, INT_MAX, wrap_int. intros Hz.
  rewrite Z.mod_small; lia.
Qed.

Lemma wrap_int_range z : in_int (wrap_int z).
Proof.
  unfold in_int, INT_MIN, INT_MAX, wrap_int.
  pose proof (Z.mod_pos_bound (z + 2 ^ 31) (2 ^ 32) ltac:(lia)). lia.
Qed.

Lemma in_int_between (lo hi z : Z) : in_int lo -> in_int hi -> lo <= z <= hi -> in_int z.
Proof. unfold in_int. lia. Qed.

Lemma in_int_0 : in_int 0.
Proof. unfold in_int, INT_MIN, INT_MAX. lia. Qed.

(** ** Lists *)

Lemma elem_of_concat {A} (x : A) (ls : list (list A)) :
  x ∈ concat ls <-> exists l, l ∈ ls /\ x ∈ l.
Proof.
  rewrite list_elem_of_In, in_concat.
  by setoid_rewrite list_elem_of_In.
Qed.

(** ** Work planner *)

Section PlannerFacts.
Import Planner.

Variable W : Z.
Hypothesis W_pos : 0 < W.

Lemma ceil_div_gt (F j : Z) : j < ceil_div F W <-> j * W < F.
Proof.
  unfold ceil_div. split; intros H.
  - assert (j + 1 <= (F + W - 1) / W) as H1 by lia.
    pose proof (Z.mul_div_le (F + W - 1) W W_pos). nia.
  - apply Z.div_le_lower_bound with (a := F + W - 1) (b := W) (q := j + 1) in W_pos as H1; lia.
Qed.

Lemma ceil_div_nonpos (F : Z) : F <= 0 -> ceil_div F W <= 0.
Proof.
  intros HF. destruct (Z_le_gt_dec (ceil_div F W) 0) as [|Hgt]; [done|].
  assert (0 < ceil_div F W) as H%ceil_div_gt by lia. lia.
Qed.

Lemma allocate_frames_spec (i F : Z) :
  in_int F ->
  forall (fuel : nat) (j : Z) (acc : list VideoWorkItem),
    0 <= j -> ceil_div F W - j <= Z.of_nat fuel ->
    allocate_frames fuel W i F (Z.min (j * W) (Z.max F 0)) acc
    = Some (acc ++ (nth_item W i F <$> seqZ j (ceil_div F W - j))).
Proof.
  intros HF. induction fuel as [|fuel IH]; intros j acc Hj Hfuel.
  - assert (~ j * W < F) as Hge by (rewrite <- ceil_div_gt; lia).
    cbn [allocate_frames].
    destruct (Z.ltb_spec (Z.min (j * W) (Z.max F 0)) F); [lia|].
    rewrite seqZ_nil by lia. by rewrite app_nil_r.
  - cbn [allocate_frames].
    destruct (Z.ltb_spec (Z.min (j * W) (Z.max F 0)) F) as [Hlt|Hge].
    + assert (j * W < F) as HjW by lia.
      assert (j < ceil_div F W) as Hjc by (by apply ceil_div_gt).
      replace (Z.min (j * W) (Z.max F 0)) with (j * W) by lia.
      assert (0 <= j * W) as Hnn by nia.
      rewrite (wrap_int_id (F - j * W))
        by (apply (in_int_between 0 F); [apply in_int_0 | done | lia]).
      rewrite (wrap_int_id (j * W + _))
        by (apply (in_int_between 0 F); [apply in_int_0 | done | lia]).
      replace (j * W + Z.min W (F - j * W)) with (Z.min ((j + 1) * W) (Z.max F 0)) by lia.
      rewrite IH by lia.
      rewrite (seqZ_cons j) by lia. rewrite fmap_cons, <- app_assoc. cbn [app].
      do 3 f_equal.
      * unfold nth_item. f_equal; lia.
      * repeat f_equal; lia.
    + assert (~ j * W < F) as Hn by lia.
      rewrite <- ceil_div_gt in Hn.
      rewrite seqZ_nil by lia. by rewrite app_nil_r.
Qed.

Lemma allocate_frames_video (i F : Z) (fuel : nat) (acc : list VideoWorkItem) :
  in_int F -> ceil_div F W <= Z.of_nat fuel ->
  allocate_frames fuel W i F 0 acc = Some (acc ++ video_items W i F).
Proof.
  intros HF Hfuel.
  pose proof (allocate_frames_spec i F HF fuel 0 acc) as H.
  replace (Z.min (0 * W) (Z.max F 0)) with 0 in H by lia.
  rewrite Z.sub_0_r in H. apply H; lia.
Qed.

Lemma plan_from_spec (fuel : nat) (metas : list VideoMetadata) :
  Forall (fun m => in_int (frames m) /\ ceil_div (frames m) W <= Z.of_nat fuel) metas ->
  forall (i : Z) (acc : list VideoWorkItem),
    plan_from fuel W i metas acc = Some (acc ++ concat (planned_from W i metas)).
Proof.
  induction 1 as [|m metas [Hm Hf] _ IH]; intros i acc; cbn [plan_from planned_from concat].
  - by rewrite app_nil_r.
  - rewrite allocate_frames_video by done. rewrite IH. by rewrite app_assoc.
Qed.

Lemma video_items_lookup (i F : Z) (j : nat) (it : VideoWorkItem) :
  video_items W i F !! j = Some it <->
  Z.of_nat j < ceil_div F W /\ it = nth_item W i F (Z.of_nat j).
Proof.
  unfold video_items. rewrite list_lookup_fmap, fmap_Some. split.
  - intros (z & Hz & ->). apply lookup_seqZ in Hz as [-> ?]. by rewrite Z.add_0_l.
  - intros [Hlt ->]. exists (Z.of_nat j). split; [|done].
    apply lookup_seqZ. lia.
Qed.

Lemma video_items_length (i F : Z) :
  length (video_items W i F) = Z.to_nat (ceil_div F W).
Proof. unfold video_items. by rewrite length_fmap, length_seqZ. Qed.

Lemma video_items_last (i F : Z) (it : VideoWorkItem) :
  list.last (video_items W i F) = Some it ->
  exists j : nat, Z.of_nat j + 1 = ceil_div F W /\ it = nth_item W i F (Z.of_nat j).
Proof.
  rewrite last_lookup, video_items_length. intros [Hlt ->]%video_items_lookup.
  exists (Nat.pred (Z.to_nat (ceil_div F W))). split; [lia|done].
Qed.

Lemma video_items_split (i F : Z) : video_split W i F (video_items W i F).
Proof.
  split.
  - apply video_items_length.
  - intros it [j [_ ->]%video_items_lookup]%list_elem_of_lookup. done.
  - intros it [_ ->]%video_items_lookup. cbn. lia.
  - intros j a b [_ ->]%video_items_lookup [Hb ->]%video_items_lookup. cbn.
    apply ceil_div_gt in Hb. lia.
  - intros it (j & Hj & ->)%video_items_last. cbn.
    assert (Z.of_nat j < ceil_div F W) as H1%ceil_div_gt by lia.
    assert (~ Z.of_nat j + 1 < ceil_div F W) as H2 by lia.
    rewrite ceil_div_gt in H2. lia.
  - intros it [j [Hj%ceil_div_gt ->]%video_items_lookup]%list_elem_of_lookup. cbn. nia.
  - intros j it [_ ->]%video_items_lookup Hlen. rewrite video_items_length in Hlen.
    assert (Z.of_nat j + 1 < ceil_div F W) as H%ceil_div_gt by lia. cbn. lia.
  - intros it (j & Hj & ->)%video_items_last. cbn.
    assert (Z.of_nat j < ceil_div F W) as H1%ceil_div_gt by lia. lia.
  - intros f Hf. exists (nth_item W i F (f / W)).
    pose proof (Z.div_pos f W ltac:(lia) W_pos) as Hq.
    pose proof (Z.mul_div_le f W W_pos) as Hlo.
    pose proof (Z.mul_succ_div_gt f W W_pos) as Hhi.
    split.
    + apply list_elem_of_lookup. exists (Z.to_nat (f / W)).
      apply video_items_lookup. rewrite Z2Nat.id by done. split; [|done].
      apply ceil_div_gt. lia.
    + cbn. lia.
  - intros j k a b [_ ->]%video_items_lookup [_ ->]%video_items_lookup Hne. cbn.
    destruct (Z_lt_ge_dec (Z.of_nat j) (Z.of_nat k)); [left|right]; nia.
Qed.

Lemma planned_from_lookup (i : Z) (metas : list VideoMetadata) (k : nat) :
  planned_from W i metas !! k
  = (fun m => video_items W (i + Z.of_nat k) (frames m)) <$> metas !! k.
Proof.
  revert i k. induction metas as [|m metas IH]; intros i [|k]; cbn; try done.
  - by rewrite Z.add_0_r.
  - rewrite IH. destruct (metas !! k); cbn; [|done]. do 2 f_equal. lia.
Qed.

Lemma planned_from_length (i : Z) (metas : list VideoMetadata) :
  length (planned_from W i metas) = length metas.
Proof. revert i. induction metas; intros; cbn; [done|]. by f_equal. Qed.

Lemma enough_fuel (metas : list VideoMetadata) :
  exists fuel0 : nat, forall fuel : nat, (fuel0 <= fuel)%nat ->
    Forall (fun m => ceil_div (frames m) W <= Z.of_nat fuel) metas.
Proof.
  induction metas as [|m metas [f0 IH]].
  - exists 0%nat. by constructor.
  - exists (Nat.max f0 (Z.to_nat (ceil_div (frames m) W))). intros fuel Hf.
    constructor; [lia|]. apply IH. lia.
Qed.

End PlannerFacts.

(** C6 - the work planner.  With a positive work-item size [W], for every
    list of videos the two planner loops terminate (any sufficiently
    large iteration bound gives the same result) and emit, video by
    video in index order, ceil(F / W) work items whose ranges are
    contiguous from 0 to F, pairwise disjoint, cover [0, F), and have
    [W] frames each but for a possibly shorter final one. *)
Theorem planner_splits_every_video (g : Globals) (video_metadata : list VideoMetadata) :
  0 < frames_per_work_item g ->
  Forall (fun m => in_int (frames m)) video_metadata ->
  exists per_video : list (list VideoWorkItem),
    (exists fuel0 : nat, forall fuel : nat, (fuel0 <= fuel)%nat ->
       Planner.plan_work_items fuel g video_metadata = Some (concat per_video)) /\
    length per_video = length video_metadata /\
    forall (i : nat) (m : VideoMetadata), video_metadata !! i = Some m ->
      exists its, per_video !! i = Some its /\
        Planner.video_split (frames_per_work_item g) (Z.of_nat i) (frames m) its.
Proof.
  intros HW Hint. set (W := frames_per_work_item g) in *.
  exists (Planner.planned_from W 0 video_metadata). split; [|split].
  - destruct (enough_fuel W video_metadata) as [fuel0 Hfuel]. exists fuel0.
    intros fuel Hle. unfold Planner.plan_work_items. fold W.
    rewrite plan_from_spec; [done..|].
    specialize (Hfuel fuel Hle). rewrite Forall_forall in *. naive_solver.
  - apply planned_from_length.
  - intros i m Hm. exists (Planner.video_items W (Z.of_nat i) (frames m)). split.
    + rewrite planned_from_lookup, Hm. cbn. by rewrite Z.add_0_l.
    + by apply video_items_split.
Qed.

Lemma planner_splits_every_video_witness :
  0 < frames_per_work_item Scenario.S1_globals /\
  Forall (fun m => in_int (frames m)) [Scenario.S1_video] /\
  exists per_video : list (list VideoWorkItem),
    (exists fuel0 : nat, forall fuel : nat, (fuel0 <= fuel)%nat ->
       Planner.plan_work_items fuel Scenario.S1_globals [Scenario.S1_video]
       = Some (concat per_video)) /\
    length per_video = length [Scenario.S1_video] /\
    forall (i : nat) (m : VideoMetadata), [Scenario.S1_video] !! i = Some m ->
      exists its, per_video !! i = Some its /\
        Planner.video_split (frames_per_work_item Scenario.S1_globals)
                            (Z.of_nat i) (frames m) its.
Proof.
  assert (0 < frames_per_work_item Scenario.S1_globals) as HW by reflexivity.
  assert (Forall (fun m => in_int (frames m)) [Scenario.S1_video]) as Hint.
  { repeat constructor; vm_compute; discriminate. }
  split; [exact HW|]. split; [exact Hint|].
  exact (planner_splits_every_video Scenario.S1_globals [Scenario.S1_video] HW Hint).
Defined.

(** Scenario S1: a video of 10 frames, work items of 4 frames. *)
Example plan_S1 :
  Planner.plan_work_items 3 Scenario.S1_globals [Scenario.S1_video]
  = Some [Scenario.item 0 0 4; Scenario.item 0 4 8; Scenario.item 0 8 10].
Proof. reflexivity. Qed.

(** Two videos of 8 and 6 frames (scenario S2): four work items. *)
Example plan_S2 :
  Planner.plan_work_items 2 Scenario.S1_globals
    [{| width := 4; height := 2; frames := 8 |};
     {| width := 4; height := 2; frames := 6 |}]
  = Some [Scenario.item 0 0 4; Scenario.item 0 4 8;
          Scenario.item 1 0 4; Scenario.item 1 4 6].
Proof. reflexivity. Qed.

(** With a work-item size of 0 the inner loop makes no progress. *)
Example plan_zero_size_diverges :
  Planner.allocate_frames 1000 0 0 10 0 [] = None.
Proof. reflexivity. Qed.

(** ** Evaluate worker: batching *)

Section EvaluateFacts.
Import Evaluate.

Variable g : Globals.
Variable work_item : VideoWorkItem.

Let B : Z := GLOBAL_BATCH_SIZE g.
Let N : Z := end_frame work_item - start_frame work_item.

Hypothesis B_pos : 0 < GLOBAL_BATCH_SIZE g.
Hypothesis item_ok : evaluable g work_item.

Let m : Z := main_iterations g work_item.

Lemma main_loop_test (j : Z) : 0 <= j -> (j < m <-> (j + 1) * B < N).
Proof.
  intros Hj. rewrite <- (ceil_div_gt B B_pos).
  unfold m, main_iterations. fold B N. lia.
Qed.

Lemma main_loop_bound : 0 <= m /\ m * B <= N /\ (0 < N -> m * B < N /\ N <= (m + 1) * B).
Proof.
  destruct item_ok as (H0 & Hle & _).
  assert (0 <= N) as HN by (unfold N; lia).
  assert (0 <= m) as Hm by (unfold m, main_iterations; lia).
  pose proof (main_loop_test m Hm) as Hstop.
  destruct (Z.eq_dec m 0) as [Hm0|Hm0].
  - rewrite Hm0 in *. split; [done|]. split; [lia|]. intros; lia.
  - pose proof (main_loop_test (m - 1) ltac:(lia)) as Hprev.
    replace (m - 1 + 1) with m in Hprev by lia. lia.
Qed.

Lemma full_batches_spec (fuel : nat) (j : Z) (acc : list ForwardPass) :
  0 <= j <= m -> m - j <= Z.of_nat fuel ->
  full_batches fuel g work_item (start_frame work_item + j * B) acc
  = Some (start_frame work_item + m * B, acc ++ (main_pass g <$> seqZ j (m - j))).
Proof.
  destruct item_ok as (H0 & Hle & Hmax).
  destruct main_loop_bound as (Hm & HmB & _).
  revert j acc. induction fuel as [|fuel IH]; intros j acc Hj Hfuel.
  all: cbn [full_batches]; fold B.
  all: assert (j * B <= m * B) as HjB by nia.
  all: rewrite (wrap_int_id (start_frame work_item + j * B + B))
         by (apply (in_int_between 0 INT_MAX);
             [apply in_int_0 | unfold in_int, INT_MIN, INT_MAX; lia
             | unfold N in *; fold B in Hmax; nia]).
  all: destruct (Z.ltb_spec (start_frame work_item + j * B + B) (end_frame work_item))
         as [Hlt|Hge].
  - assert (j < m) by (apply main_loop_test; unfold N; lia). lia.
  - assert (~ j < m) by (rewrite main_loop_test; unfold N; lia).
    replace j with m by lia. rewrite seqZ_nil by lia. by rewrite app_nil_r.
  - assert (j < m) by (apply main_loop_test; unfold N; lia).
    rewrite (wrap_int_id (start_frame work_item + j * B - start_frame work_item))
      by (apply (in_int_between 0 INT_MAX);
          [apply in_int_0 | unfold in_int, INT_MIN, INT_MAX; lia
          | unfold N in *; fold B in Hmax; nia]).
    replace (start_frame work_item + j * B + B)
      with (start_frame work_item + (j + 1) * B) by lia.
    rewrite IH by lia.
    rewrite (seqZ_cons j) by lia. rewrite fmap_cons, <- app_assoc. cbn [app].
    replace (start_frame work_item + j * B - start_frame work_item) with (j * B) by lia.
    replace (Z.succ j) with (j + 1) by lia.
    by replace (Z.pred (m - j)) with (m - (j + 1)) by lia.
  - assert (~ j < m) by (rewrite main_loop_test; unfold N; lia).
    replace j with m by lia. rewrite seqZ_nil by lia. by rewrite app_nil_r.
Qed.

Lemma evaluate_work_item_spec (fuel : nat) :
  m <= Z.of_nat fuel ->
  evaluate_work_item fuel g work_item = Some (issued_passes g work_item).
Proof.
  intros Hfuel. destruct item_ok as (H0 & Hle & Hmax).
  destruct main_loop_bound as (Hm & HmB & HN).
  unfold evaluate_work_item, issued_passes. fold N m.
  assert (0 <= 0 <= m) as H0m by lia.
  assert (m - 0 <= Z.of_nat fuel) as Hf0 by lia.
  pose proof (full_batches_spec fuel 0 [] H0m Hf0) as Hloop.
  assert (0 <= m * B) as HmB0 by (unfold B; nia).
  rewrite Z.mul_0_l, Z.add_0_r, Z.sub_0_r in Hloop. rewrite Hloop. cbn [app].
  destruct (Z.ltb_spec (start_frame work_item + m * B) (end_frame work_item)) as [Hlt|Hge].
  - destruct (Z.ltb_spec 0 N) as [_|?]; [|unfold N in *; lia].
    rewrite !wrap_int_id
      by (apply (in_int_between 0 INT_MAX);
          [apply in_int_0 | unfold in_int, INT_MIN, INT_MAX; lia
          | unfold N in *; fold B in Hmax; nia]).
    unfold epilogue_pass. fold N m B. cbn zeta.
    replace (start_frame work_item + m * B - start_frame work_item) with (m * B) by lia.
    by replace (end_frame work_item - (start_frame work_item + m * B))
      with (N - m * B) by (unfold N; lia).
  - destruct (Z.ltb_spec 0 N) as [HN0|_]; [|by rewrite app_nil_r].
    apply HN in HN0. unfold N in *. lia.
Qed.

Lemma process_batch_slots (n off : Z) :
  0 <= off -> off + n <= INT_MAX ->
  buffer_slot <$> process_batch g n off = seqZ off n.
Proof.
  intros Hoff Hn. unfold process_batch. rewrite <- list_fmap_compose.
  replace (seqZ off n) with (seqZ (off + 0) n) by (f_equal; lia).
  rewrite <- (fmap_add_seqZ off 0 n).
  apply list_fmap_ext. intros _ i [Hi ?]%list_elem_of_lookup_2%elem_of_seqZ. cbn.
  rewrite wrap_int_id; [lia|].
  apply (in_int_between 0 INT_MAX);
    [apply in_int_0 | unfold in_int, INT_MIN, INT_MAX; lia | lia].
Qed.

Lemma process_batch_inputs (n off : Z) :
  input_slot <$> process_batch g n off = seqZ 0 n.
Proof.
  unfold process_batch. rewrite <- list_fmap_compose.
  rewrite <- (list_fmap_id (seqZ 0 n)) at 2. by apply list_fmap_ext.
Qed.

Lemma process_batch_length (n off : Z) :
  length (process_batch g n off) = Z.to_nat n.
Proof. unfold process_batch. by rewrite length_fmap, length_seqZ. Qed.

Lemma issued_sizes :
  blob_batch <$> issued_passes g work_item = spec_batches B N.
Proof.
  destruct item_ok as (H0 & Hle & Hmax).
  destruct main_loop_bound as (Hm & HmB & HN).
  pose proof (main_loop_test 0 ltac:(done)) as Htest0.
  unfold issued_passes, spec_batches. fold N m.
  rewrite fmap_app, <- list_fmap_compose.
  rewrite (const_fmap _ _ B) by done. rewrite length_seqZ.
  pose proof (Z.div_mod N B ltac:(unfold B; lia)) as Hdm.
  pose proof (Z.mod_pos_bound N B B_pos) as Hr.
  assert (0 <= N) as HN0 by (unfold N; lia).
  pose proof (Z.div_pos N B HN0 B_pos) as Hq.
  destruct (Z.ltb_spec 0 N) as [Hpos|Hzero].
  - specialize (HN Hpos). destruct HN as [Hlo Hhi].
    destruct (Z.eqb_spec (N mod B) 0) as [Hr0|Hr0].
    + assert (N / B = m + 1) as Hq1 by nia. rewrite Hq1.
      rewrite Z2Nat.inj_add, Nat.add_1_r, replicate_S_end by lia.
      cbn. rewrite app_nil_r. do 2 f_equal.
      unfold epilogue_pass; cbn. fold N m B. nia.
    + assert (N / B = m) as Hq1 by nia. rewrite Hq1.
      cbn. do 2 f_equal. unfold epilogue_pass; cbn. fold N m B. nia.
  - assert (N = 0) as HN1 by lia. assert (m = 0) as -> by lia.
    rewrite HN1. rewrite Z.div_0_l, Z.mod_0_l by (unfold B; lia). done.
Qed.

Lemma main_slots_concat (k : nat) :
  Z.of_nat k * B + start_frame work_item <= INT_MAX ->
  concat ((fun p => (fun f => start_frame work_item + buffer_slot f) <$> batch_frames p)
          <$> (main_pass g <$> seqZ 0 (Z.of_nat k)))
  = seqZ (start_frame work_item) (Z.of_nat k * B).
Proof.
  destruct item_ok as (H0 & _).
  induction k as [|k IH]; intros Hk; [done|].
  rewrite seqZ_S, !fmap_app, concat_app, IH by nia. cbn [fmap list_fmap concat].
  rewrite app_nil_r, Z.add_0_l. unfold main_pass at 1. cbn [batch_frames].
  rewrite (list_fmap_compose buffer_slot (Z.add (start_frame work_item))).
  fold B. rewrite process_batch_slots by nia.
  rewrite fmap_add_seqZ.
  replace (Z.of_nat (S k) * B) with (Z.of_nat k * B + B) by lia.
  rewrite seqZ_app by (unfold B; nia). done.
Qed.

Lemma issued_frames :
  frames_read work_item (issued_passes g work_item) = seqZ (start_frame work_item) N.
Proof.
  destruct item_ok as (H0 & Hle & Hmax).
  destruct main_loop_bound as (Hm & HmB & HN).
  unfold frames_read, issued_passes. fold N m.
  rewrite fmap_app, concat_app.
  rewrite <- (Z2Nat.id m Hm).
  rewrite main_slots_concat by (rewrite Z2Nat.id by done; unfold N in *; fold B in Hmax; lia).
  rewrite Z2Nat.id by done.
  assert (0 <= m * B) as HmB0 by (unfold B; nia).
  destruct (Z.ltb_spec 0 N) as [Hpos|Hzero].
  - cbn [fmap list_fmap concat]. rewrite app_nil_r.
    unfold epilogue_pass. fold N m B. cbn [batch_frames].
    rewrite (list_fmap_compose buffer_slot (Z.add (start_frame work_item))).
    rewrite process_batch_slots by (unfold N in *; fold B in Hmax; lia).
    rewrite fmap_add_seqZ.
    replace N with (m * B + (N - m * B)) at 2 by lia.
    rewrite seqZ_app by lia. done.
  - cbn. rewrite app_nil_r. assert (m * B = N) as -> by lia. done.
Qed.

Lemma issued_filled :
  Forall (fun p => input_slot <$> batch_frames p = seqZ 0 (blob_batch p) /\
                   0 < blob_batch p /\ blob_batch p <= B)
         (issued_passes g work_item).
Proof.
  destruct main_loop_bound as (Hm & HmB & HN).
  unfold issued_passes. fold N m. apply Forall_app. split.
  - apply Forall_fmap, Forall_forall. intros j _. cbn.
    split; [apply process_batch_inputs | fold B; lia].
  - destruct (Z.ltb_spec 0 N) as [Hpos|_]; [|done].
    specialize (HN Hpos). constructor; [|done].
    unfold epilogue_pass. fold N m B. cbn.
    split; [apply process_batch_inputs | lia].
Qed.

End EvaluateFacts.

(** C3 - batching of a work item.  With a positive batch size, the
    evaluate worker's loops terminate on every work item and issue
    forward passes whose batch sizes are floor(N / B) times
    [GLOBAL_BATCH_SIZE] followed by N mod B when that is not zero; each
    pass is handed exactly as many frames as its batch size. *)
Theorem evaluate_batch_sizes (g : Globals) (work_item : VideoWorkItem) :
  0 < GLOBAL_BATCH_SIZE g ->
  Evaluate.evaluable g work_item ->
  exists passes : list Evaluate.ForwardPass,
    (exists fuel0 : nat, forall fuel : nat, (fuel0 <= fuel)%nat ->
       Evaluate.evaluate_work_item fuel g work_item = Some passes) /\
    Evaluate.blob_batch <$> passes
      = Evaluate.spec_batches (GLOBAL_BATCH_SIZE g)
          (end_frame work_item - start_frame work_item) /\
    Forall (fun p => Z.of_nat (length (Evaluate.batch_frames p)) = Evaluate.blob_batch p)
           passes.
Proof.
  intros HB Hok. exists (Evaluate.issued_passes g work_item). split; [|split].
  - exists (Z.to_nat (Evaluate.main_iterations g work_item)). intros fuel Hfuel.
    apply evaluate_work_item_spec; [done..|lia].
  - by apply issued_sizes.
  - eapply list.Forall_impl; [exact (issued_filled g work_item HB Hok)|].
    cbn. intros p (Hin & Hpos & _).
    rewrite <- (length_fmap Evaluate.input_slot), Hin, length_seqZ. lia.
Qed.

(** C7 - no frame is dropped, repeated or padded.  With a positive batch
    size, the forward passes issued for a work item read the frames
    [start_frame], ..., [end_frame - 1] of the buffer, each exactly once
    and in order; every pass fills each slot of its input blob with one
    frame, so a tail shorter than a batch goes through a pass shaped to
    its own length. *)
Theorem evaluate_every_frame_once (g : Globals) (work_item : VideoWorkItem) :
  0 < GLOBAL_BATCH_SIZE g ->
  Evaluate.evaluable g work_item ->
  exists passes : list Evaluate.ForwardPass,
    (exists fuel0 : nat, forall fuel : nat, (fuel0 <= fuel)%nat ->
       Evaluate.evaluate_work_item fuel g work_item = Some passes) /\
    Evaluate.frames_read work_item passes
      = seqZ (start_frame work_item) (end_frame work_item - start_frame work_item) /\
    Forall (fun p =>
              Evaluate.input_slot <$> Evaluate.batch_frames p
                = seqZ 0 (Evaluate.blob_batch p) /\
              0 < Evaluate.blob_batch p /\
              Evaluate.blob_batch p <= GLOBAL_BATCH_SIZE g)
           passes.
Proof.
  intros HB Hok. exists (Evaluate.issued_passes g work_item). split; [|split].
  - exists (Z.to_nat (Evaluate.main_iterations g work_item)). intros fuel Hfuel.
    apply evaluate_work_item_spec; [done..|lia].
  - by apply issued_frames.
  - by apply issued_filled.
Qed.

(** ** Load worker: the frame loop *)

Section LoadFacts.
Import Load.

Lemma nv12_size_pos (w h : Z) :
  0 < w -> 0 < h -> w * h < av_image_get_buffer_size AV_PIX_FMT_NV12 w h.
Proof.
  intros Hw Hh. unfold av_image_get_buffer_size.
  assert (1 <= (w + 1) / 2) by (apply Z.div_le_lower_bound; lia).
  assert (1 <= (h + 1) / 2) by (apply Z.div_le_lower_bound; lia).
  nia.
Qed.

Lemma nv12_size_even (a b : Z) :
  av_image_get_buffer_size AV_PIX_FMT_NV12 (2 * a) (2 * b) = 6 * a * b.
Proof.
  unfold av_image_get_buffer_size.
  replace ((2 * a + 1) / 2) with a by (apply Z.div_unique with 1; lia).
  replace ((2 * b + 1) / 2) with b by (apply Z.div_unique with 1; lia).
  lia.
Qed.

Lemma load_frames_extends (fuel : nat) build buffer_size metadata frame work_item :
  forall current_frame sws_context done events,
    load_frames fuel build buffer_size metadata frame work_item
                current_frame sws_context done = Some events ->
    exists rest, events = done ++ rest.
Proof.
  induction fuel as [|fuel IH]; intros cur sws acc events; cbn [load_frames].
  - case_match; [done|]. intros [= <-]. exists []. by rewrite app_nil_r.
  - case_match.
    + destruct (load_frame _ _ _ _ _ _ _) as [ev sws'].
      intros (rest & ->)%IH. exists (ev :: rest). by rewrite <- app_assoc.
    + intros [= <-]. exists []. by rewrite app_nil_r.
Qed.

(** The guard of line 318 holds for every frame of a work item that
    spans at most [frames_per_work_item()] frames of a video with the
    dimensions of video 0. *)
Lemma offset_assertion_holds (build : DecodePath) (g : Globals)
    (metadata0 metadata : VideoMetadata) (frame : AVFrame)
    (work_item : VideoWorkItem) (f : Z) (sws : SwsPtr) :
  width metadata = width metadata0 -> height metadata = height metadata0 ->
  0 < width metadata0 -> 0 < height metadata0 ->
  av_image_get_buffer_size AV_PIX_FMT_NV12 (width metadata0) (height metadata0)
    * frames_per_work_item g < 2 ^ 64 ->
  end_frame work_item - start_frame work_item <= frames_per_work_item g ->
  0 <= start_frame work_item -> end_frame work_item <= INT_MAX ->
  start_frame work_item <= f < end_frame work_item ->
  offset_in_bounds
    (load_frame build (frame_buffer_size g metadata0) metadata frame work_item f sws).1
  = true.
Proof.
  intros Hw Hh Hwp Hhp Hfit Hspan Hs He Hf.
  pose proof (nv12_size_pos _ _ Hwp Hhp) as Hsize.
  set (S := av_image_get_buffer_size AV_PIX_FMT_NV12 (width metadata0) (height metadata0)) in *.
  assert (0 < S) as HS by nia.
  assert (1 <= frames_per_work_item g) as HW by lia.
  assert (frame_size metadata0 = S) as HS0.
  { unfold frame_size, wrap_size. fold S. apply Z.mod_small. nia. }
  assert (frame_size metadata = S) as HS1.
  { unfold frame_size. rewrite Hw, Hh. exact HS0. }
  assert (offset_in_bounds
            (load_frame build (frame_buffer_size g metadata0) metadata frame work_item f sws).1
          = (wrap_size (frame_size metadata * wrap_int (f - start_frame work_item))
             <? frame_buffer_size g metadata0)) as ->.
  { unfold load_frame. destruct build; [done|].
    by destruct (convert_av_frame_to_rgb _ _ _) as [[? ?] ?]. }
  rewrite HS1. unfold frame_buffer_size. rewrite HS0.
  rewrite wrap_int_id
    by (apply (in_int_between 0 INT_MAX);
        [apply in_int_0 | unfold in_int, INT_MIN, INT_MAX; lia | lia]).
  unfold wrap_size. rewrite !Z.mod_small by nia.
  apply Z.ltb_lt. nia.
Qed.

(** In the hardware-decode build the second plane is copied with the
    row count of the first: the last byte written lies [w * h / 2] bytes
    behind the frame's slot. *)
Lemma hardware_copy_overruns_slot (metadata : VideoMetadata) (frame : AVFrame)
    (work_item : VideoWorkItem) (f a b pos : Z) :
  0 < a -> 0 < b -> width metadata = 2 * a -> height metadata = 2 * b ->
  frame_width frame = width metadata -> frame_height frame = height metadata ->
  in_int (width metadata * height metadata) ->
  pos + 8 * a * b - 1 ∈ hardware_copy_writes metadata frame pos.
Proof.
  intros Ha Hb Hw Hh Hfw Hfh Hint. unfold hardware_copy_writes.
  apply elem_of_concat. eexists. split; [apply list_elem_of_fmap; exists 1; split; [done|]|].
  { apply elem_of_seqZ. lia. }
  rewrite Z.mul_1_l, (wrap_int_id (width metadata)), wrap_int_id; [|done|].
  2: { apply (in_int_between 0 (width metadata * height metadata));
       [apply in_int_0 | done | nia]. }
  unfold cudaMemcpy2D_writes. apply elem_of_concat. eexists.
  split; [apply list_elem_of_fmap; exists (2 * b - 1); split; [done|]|].
  { apply elem_of_seqZ. lia. }
  apply list_elem_of_fmap. exists (2 * a - 1). split; [nia|].
  apply elem_of_seqZ. lia.
Qed.

(** In the software-decode build a packed RGB24 image of [3 * w * h]
    bytes is stored into the slot. *)
Lemma software_store_extent (sws : SwsPtr) (frame : AVFrame) (pos byte : Z) :
  byte ∈ (convert_av_frame_to_rgb sws frame pos).2 <->
  pos <= byte < pos + 3 * frame_width frame * frame_height frame.
Proof. unfold convert_av_frame_to_rgb. cbn. apply elem_of_seqZ. Qed.

(** The scaler context handed to the cache lookup for the first frame
    of a work item is the unassigned local of line 306. *)
Lemma first_lookup_indeterminate (fuel : nat) (g : Globals)
    (metadata0 metadata : VideoMetadata) (frame : AVFrame)
    (work_item : VideoWorkItem) (events : list FrameLoad) :
  start_frame work_item < end_frame work_item ->
  load_work_item fuel SoftwareDecode g metadata0 metadata frame work_item = Some events ->
  exists ev rest, events = ev :: rest /\ sws_read ev = Some Indeterminate.
Proof.
  intros Hlt. unfold load_work_item. destruct fuel as [|fuel]; cbn [load_frames].
  all: destruct (Z.ltb_spec (start_frame work_item) (end_frame work_item)); [|lia].
  - done.
  - cbn. intros (rest & ->)%load_frames_extends. cbn. eauto.
Qed.

End LoadFacts.

Lemma evaluate_batch_sizes_witness :
  0 < GLOBAL_BATCH_SIZE default_globals /\
  Evaluate.evaluable default_globals (Scenario.item 0 256 456) /\
  exists passes : list Evaluate.ForwardPass,
    (exists fuel0 : nat, forall fuel : nat, (fuel0 <= fuel)%nat ->
       Evaluate.evaluate_work_item fuel default_globals (Scenario.item 0 256 456)
       = Some passes) /\
    Evaluate.blob_batch <$> passes
      = Evaluate.spec_batches (GLOBAL_BATCH_SIZE default_globals) (456 - 256) /\
    Forall (fun p => Z.of_nat (length (Evaluate.batch_frames p)) = Evaluate.blob_batch p)
           passes.
Proof.
  assert (0 < GLOBAL_BATCH_SIZE default_globals) as HB by reflexivity.
  assert (Evaluate.evaluable default_globals (Scenario.item 0 256 456)) as Hok.
  { repeat split; vm_compute; discriminate. }
  split; [exact HB|]. split; [exact Hok|].
  exact (evaluate_batch_sizes default_globals (Scenario.item 0 256 456) HB Hok).
Defined.

Lemma evaluate_every_frame_once_witness :
  0 < GLOBAL_BATCH_SIZE Scenario.S1_globals /\
  Evaluate.evaluable Scenario.S1_globals (Scenario.item 0 8 10) /\
  exists passes : list Evaluate.ForwardPass,
    (exists fuel0 : nat, forall fuel : nat, (fuel0 <= fuel)%nat ->
       Evaluate.evaluate_work_item fuel Scenario.S1_globals (Scenario.item 0 8 10)
       = Some passes) /\
    Evaluate.frames_read (Scenario.item 0 8 10) passes = seqZ 8 (10 - 8) /\
    Forall (fun p =>
              Evaluate.input_slot <$> Evaluate.batch_frames p
                = seqZ 0 (Evaluate.blob_batch p) /\
              0 < Evaluate.blob_batch p /\
              Evaluate.blob_batch p <= GLOBAL_BATCH_SIZE Scenario.S1_globals)
           passes.
Proof.
  assert (0 < GLOBAL_BATCH_SIZE Scenario.S1_globals) as HB by reflexivity.
  assert (Evaluate.evaluable Scenario.S1_globals (Scenario.item 0 8 10)) as Hok.
  { repeat split; vm_compute; discriminate. }
  split; [exact HB|]. split; [exact Hok|].
  exact (evaluate_every_frame_once Scenario.S1_globals (Scenario.item 0 8 10) HB Hok).
Defined.

(** Batch sizes of work items of 200, 256 and 64 frames with batches
    of 64: the last full-size batch of an item that is a multiple of
    the batch size is issued by the epilogue. *)
Example batches_200 :
  (fun p => (Evaluate.path p, Evaluate.blob_batch p))
    <$> Evaluate.issued_passes default_globals (Scenario.item 0 256 456)
  = [(Evaluate.MainLoop, 64); (Evaluate.MainLoop, 64); (Evaluate.MainLoop, 64);
     (Evaluate.Epilogue, 8)].
Proof. reflexivity. Qed.

Example batches_256 :
  (fun p => (Evaluate.path p, Evaluate.blob_batch p))
    <$> Evaluate.issued_passes default_globals (Scenario.item 0 0 256)
  = [(Evaluate.MainLoop, 64); (Evaluate.MainLoop, 64); (Evaluate.MainLoop, 64);
     (Evaluate.Epilogue, 64)].
Proof. reflexivity. Qed.

Example batches_64 :
  option_map (fmap (fun p => (Evaluate.path p, Evaluate.blob_batch p)))
    (Evaluate.evaluate_work_item 1 default_globals (Scenario.item 0 0 64))
  = Some [(Evaluate.Epilogue, 64)].
Proof. reflexivity. Qed.

(** With a batch size of 0 the main loop makes no progress. *)
Example batch_zero_diverges :
  Evaluate.full_batches 1000
    {| GPUS_PER_NODE := 1; GLOBAL_BATCH_SIZE := 0; BATCHES_PER_WORK_ITEM := 4;
       TASKS_IN_QUEUE_PER_GPU := 4; LOAD_WORKERS_PER_NODE := 2; NUM_CUDA_STREAMS := 32 |}
    (Scenario.item 0 0 4) 0 [] = None.
Proof. reflexivity. Qed.

(** C2 - the frame slot.  On a 2x2 video (frame size 6) loaded as a
    one-frame work item into a buffer of one frame (6 bytes), the guard
    on the slot offset holds, yet the hardware-decode build writes the
    offsets 0..7 and the software-decode build the offsets 0..11: both
    leave the slot of frame 0 and the buffer. *)
Theorem load_frame_writes_past_buffer :
  Load.frame_buffer_size Scenario.tiny_globals Scenario.tiny_video = 6 /\
  Load.load_work_item 1 Load.HardwareDecode Scenario.tiny_globals
      Scenario.tiny_video Scenario.tiny_video Scenario.tiny_frame (Scenario.item 0 0 1)
    = Some [ {| Load.loaded_frame := 0; Load.slot_offset := 0;
                Load.offset_in_bounds := true; Load.sws_read := None;
                Load.written := [0; 1; 2; 3; 4; 5; 6; 7] |} ] /\
  Load.load_work_item 1 Load.SoftwareDecode Scenario.tiny_globals
      Scenario.tiny_video Scenario.tiny_video Scenario.tiny_frame (Scenario.item 0 0 1)
    = Some [ {| Load.loaded_frame := 0; Load.slot_offset := 0;
                Load.offset_in_bounds := true; Load.sws_read := Some Load.Indeterminate;
                Load.written := [0; 1; 2; 3; 4; 5; 6; 7; 8; 9; 10; 11] |} ] /\
  ~ Load.in_slot Scenario.tiny_video (Scenario.item 0 0 1) 0 6 /\
  ~ Load.in_slot Scenario.tiny_video (Scenario.item 0 0 1) 0 7.
Proof.
  split; [reflexivity|]. split; [reflexivity|]. split; [reflexivity|].
  unfold Load.in_slot. change (Load.frame_size Scenario.tiny_video) with 6. cbn. lia.
Qed.

(** C10 - the scaler context.  In the software-decode build the frame
    loop of a two-frame work item hands [sws_getCachedContext] the
    unassigned local for its first frame, and the context that call
    answered for its second. *)
Theorem sws_context_first_read_indeterminate :
  exists events,
    Load.load_work_item 2 Load.SoftwareDecode Scenario.S1_globals
      Scenario.S1_video Scenario.S1_video
      {| Load.frame_width := 4; Load.frame_height := 2 |} (Scenario.item 0 8 10)
    = Some events /\
    Load.sws_read <$> events = [Some Load.Indeterminate; Some (Load.Context 0)].
Proof. eexists. split; reflexivity. Qed.

(** ** Command line *)

(** C9 as the specification words it fails on the empty command line:
    the required option is missing, [--help] is not given, and the
    exception leaves [main]; the process does not exit with code 1. *)
Lemma missing_option_terminates :
  Cli.video_paths_file Cli.no_options = None /\
  Cli.main Cli.no_options Cli.completes = Cli.Terminate Cli.required_option /\
  Cli.main Cli.no_options Cli.completes <> Cli.Exit 1.
Proof. repeat split; done. Qed.

(** C9, amended - exit status.  [--help] makes [main] return 1, with or
    without the required option; a missing [--video_paths_file] without
    [--help] rethrows [required_option] out of [main]; with the option
    given and no [--help], a run that completes returns 0. *)
Theorem exit_status (vm : Cli.VariablesMap) (run : Globals -> list Byte.byte -> option Z) :
  (Cli.help vm = true -> Cli.main vm run = Cli.Exit 1) /\
  (Cli.help vm = false -> Cli.video_paths_file vm = None ->
     Cli.main vm run = Cli.Terminate Cli.required_option) /\
  (forall path, Cli.help vm = false -> Cli.video_paths_file vm = Some path ->
     run (Cli.apply_options vm default_globals) path = None ->
     Cli.main vm run = Cli.Exit 0).
Proof.
  unfold Cli.main, Cli.notify. repeat split.
  - intros ->. by destruct (Cli.video_paths_file vm).
  - by intros -> ->.
  - by intros path -> -> ->.
Qed.

(** ** The pipeline: from cluster steps to node steps *)

Section ClusterSteps.
Import Pipeline.

Variable cfg : Config.

Lemma run_app (s1 s2 : list (nat * Action)) (c : Cluster) :
  run cfg (s1 ++ s2) c = run cfg s1 c ≫= run cfg s2.
Proof.
  revert c. induction s1 as [|[rank a] s1 IH]; intros c; cbn; [done|].
  destruct (cluster_step cfg rank a c); cbn; [apply IH|done].
Qed.

(** Induction over the reachable states of the cluster. *)
Lemma reachable_ind (num_nodes : nat) (P : Cluster -> Prop) :
  P (init_cluster cfg num_nodes) ->
  (forall c rank a c',
     reachable cfg num_nodes c -> P c ->
     cluster_step cfg rank a c = Some c' -> P c') ->
  forall c, reachable cfg num_nodes c -> P c.
Proof.
  intros Hinit Hstep c [schedule Hrun]. revert c Hrun.
  induction schedule as [|[rank a] schedule IH] using rev_ind; intros c Hrun.
  - cbn in Hrun. by simplify_eq.
  - rewrite run_app in Hrun. apply bind_Some in Hrun as (c0 & Hrun0 & Hlast).
    cbn in Hlast. destruct (cluster_step cfg rank a c0) as [c1|] eqn:Hs; [|done].
    simplify_eq. eapply Hstep; [by exists schedule|by apply IH|done].
Qed.

Lemma node_reach_rtc (rank : nat) (n n' : Node) :
  node_reach cfg rank n -> rtc (node_trans cfg) n n' -> node_reach cfg rank n'.
Proof. intros Hn Hrtc. induction Hrtc; [done|]. eauto using node_reach. Qed.

Lemma update_node_trans (rank : nat) (n n' : Node) (c : Cluster) :
  nodes c !! rank = Some n -> node_trans cfg n n' ->
  forall r m', nodes (update_node rank n' c) !! r = Some m' ->
    exists m, nodes c !! r = Some m /\ rtc (node_trans cfg) m m'.
Proof.
  intros Hn Ht r m'. cbn. intros [(-> & -> & _)|[_ Hm]]%list_lookup_insert_Some.
  - exists n. split; [done|]. by apply rtc_once.
  - by exists m'.
Qed.

Lemma serve_request_trans (any_source : nat) (reply : Z) (pc : MainPc)
    (n : Node) (c c' : Cluster) :
  nodes c !! 0%nat = Some n ->
  node_trans cfg n (set_main_thread pc n) ->
  serve_request any_source reply pc n c = Some c' ->
  forall r m', nodes c' !! r = Some m' ->
    exists m, nodes c !! r = Some m /\ rtc (node_trans cfg) m m'.
Proof.
  intros Hn Ht. unfold serve_request.
  destruct (requests c !! any_source) as [src|]; [|done].
  destruct (_ !! src) as [dst|] eqn:Hdst; [|done]. intros [= <-] r m'. cbn.
  intros [(-> & <- & _)|[Hne Hm]]%list_lookup_insert_Some.
  - apply list_lookup_insert_Some in Hdst as [(<- & <- & _)|[_ Hdst]].
    + exists n. split; [done|].
      eapply rtc_l; [exact Ht|]. apply rtc_once. apply nt_deliver.
    + exists dst. split; [done|]. apply rtc_once. apply nt_deliver.
  - apply list_lookup_insert_Some in Hm as [(<- & <- & _)|[_ Hm]].
    + exists n. split; [done|]. by apply rtc_once.
    + by exists m'.
Qed.

Lemma cluster_step_nodes (rank : nat) (a : Action) (c c' : Cluster) :
  cluster_step cfg rank a c = Some c' ->
  forall r m', nodes c' !! r = Some m' ->
    exists m, nodes c !! r = Some m /\ rtc (node_trans cfg) m m'.
Proof.
  unfold cluster_step. destruct (nodes c !! rank) as [n|] eqn:Hn; [|done].
  destruct a as [w|i|any_source indeterminate].
  - destruct (load_step cfg w n) as [n'|] eqn:Hs; [|done]. intros [= <-].
    eapply update_node_trans; [done|]. by eapply nt_load.
  - destruct (eval_step i n) as [n'|] eqn:Hs; [|done]. intros [= <-].
    eapply update_node_trans; [done|]. by eapply nt_eval.
  - unfold is_master. case_bool_decide as Hrank.
    + subst rank. unfold master_step.
      destruct (main_thread n) as [next|workers_done| | | | | | | ] eqn:Hpc.
      3-9: destruct (shutdown_step cfg indeterminate n) as [n'|] eqn:Hs; [|done];
           intros [= <-]; eapply update_node_trans; [done|]; by eapply nt_shutdown.
      * repeat case_bool_decide.
        -- intros [= <-]. eapply update_node_trans; [done|]. by eapply nt_assign.
        -- apply serve_request_trans; [done|]. by eapply nt_serve.
        -- intros [= <-] r m' Hm. by exists m'.
        -- intros [= <-]. eapply update_node_trans; [done|]. by eapply nt_exhausted.
      * case_bool_decide.
        -- apply serve_request_trans; [done|]. by eapply nt_drain.
        -- intros [= <-]. eapply update_node_trans; [done|]. by eapply nt_drained.
    + unfold remote_step.
      destruct (main_thread n) as [next|workers_done| | | | | | | ] eqn:Hpc.
      1-2,5-9: destruct (shutdown_step cfg indeterminate n) as [n'|] eqn:Hs; [|done];
           intros [= <-]; eapply update_node_trans; [done|]; by eapply nt_shutdown.
      * case_bool_decide.
        -- intros [= <-]. apply (update_node_trans rank n); [done|]. by eapply nt_request.
        -- intros [= <-] r m' Hm. by exists m'.
      * destruct (inbox n) as [|next_item rest] eqn:Hin; [done|].
        case_bool_decide as Hk.
        -- subst next_item. intros [= <-].
           eapply update_node_trans; [done|]. by eapply nt_no_more.
        -- intros [= <-]. eapply update_node_trans; [done|]. by eapply nt_reply.
Qed.

Lemma cluster_step_length (rank : nat) (a : Action) (c c' : Cluster) :
  cluster_step cfg rank a c = Some c' -> length (nodes c') = length (nodes c).
Proof.
  unfold cluster_step, master_step, remote_step, serve_request, update_node.
  intros Hstep.
  repeat (case_match || case_bool_decide || simplify_option_eq);
    cbn; by rewrite ?length_insert.
Qed.

(** Every node of a reachable cluster is in a state that the steps of
    one node lead to. *)
Lemma reachable_nodes (num_nodes : nat) (c : Cluster) :
  reachable cfg num_nodes c ->
  length (nodes c) = num_nodes /\
  forall rank n, nodes c !! rank = Some n -> node_reach cfg rank n.
Proof.
  revert c. apply reachable_ind.
  - split; [cbn; by rewrite length_fmap, length_seq|].
    intros rank n. cbn. rewrite list_lookup_fmap.
    intros (r & Hr & ->)%fmap_Some. apply lookup_seq in Hr as [-> _]. constructor.
  - intros c rank a c' _ [IHlen IH] Hstep.
    split; [by rewrite (cluster_step_length _ _ _ _ Hstep)|].
    intros r m' Hm'.
    destruct (cluster_step_nodes _ _ _ _ Hstep r m' Hm') as (m & Hm & Hrtc).
    eapply node_reach_rtc; [by apply IH|done].
Qed.

End ClusterSteps.

(** ** The pipeline: buffer ownership *)

Section BufferFacts.
Import Pipeline.

Variable cfg : Config.

Lemma concat_fmap_bind {A B} (f : A -> list B) (l : list A) :
  concat (f <$> l) = l ≫= f.
Proof. induction l as [|x l IH]; [done|]. cbn. by rewrite IH. Qed.

Lemma elem_of_startup_buffers (b : LoadBufferEntry) :
  b ∈ startup_buffers cfg <->
  (gpu_device_id b < gpus cfg)%nat /\ (buffer_index b < tasks cfg)%nat.
Proof.
  unfold startup_buffers. rewrite elem_of_concat. split.
  - intros (l & (g & -> & Hg%elem_of_seq)%list_elem_of_fmap
              & (i & -> & Hi%elem_of_seq)%list_elem_of_fmap). cbn. lia.
  - intros [Hg Hi]. destruct b as [g i]. cbn in *. eexists. split.
    + apply list_elem_of_fmap. exists g. split; [done|]. apply elem_of_seq. lia.
    + apply list_elem_of_fmap. exists i. split; [done|]. apply elem_of_seq. lia.
Qed.

Lemma NoDup_startup_buffers : NoDup (startup_buffers cfg).
Proof.
  unfold startup_buffers. rewrite concat_fmap_bind. apply NoDup_bind.
  - intros g1 g2 b _ _ (i1 & -> & _)%list_elem_of_fmap (i2 & [= -> _] & _)%list_elem_of_fmap.
    done.
  - intros g _. apply NoDup_fmap; [|apply NoDup_seq]. by intros i1 i2 [= ->].
  - apply NoDup_seq.
Qed.

Lemma on_gpu_app (g : nat) (l1 l2 : list LoadBufferEntry) :
  on_gpu g (l1 ++ l2) = (on_gpu g l1 + on_gpu g l2)%nat.
Proof. unfold on_gpu. by rewrite filter_app, length_app. Qed.

Lemma on_gpu_row (g g' : nat) (l : list nat) :
  on_gpu g ((fun i => {| gpu_device_id := g'; buffer_index := i |}) <$> l)
  = if bool_decide (g' = g) then length l else 0%nat.
Proof.
  unfold on_gpu. induction l as [|i l IH]; [by case_bool_decide|].
  rewrite fmap_cons, filter_cons. cbn [gpu_device_id].
  destruct (decide (g' = g)); case_bool_decide; try done; cbn; by rewrite IH.
Qed.

Lemma occurrences_seq (g base count : nat) :
  length (filter (fun x => x = g) (seq base count))
  = if bool_decide (base <= g < base + count)%nat then 1%nat else 0%nat.
Proof.
  revert base. induction count as [|count IH]; intros base.
  - cbn. case_bool_decide; [lia|done].
  - cbn [seq]. rewrite filter_cons.
    destruct (decide (base = g)); cbn [length]; rewrite (IH (S base));
      repeat case_bool_decide; lia.
Qed.

Lemma on_gpu_rows (g : nat) (l : list nat) :
  on_gpu g (concat ((fun gpu => (fun i => {| gpu_device_id := gpu; buffer_index := i |})
                               <$> seq 0 (tasks cfg)) <$> l))
  = (tasks cfg * length (filter (fun x => x = g) l))%nat.
Proof.
  induction l as [|g' l IH]; [cbn; lia|].
  cbn [fmap list_fmap concat]. rewrite on_gpu_app, IH, on_gpu_row, length_seq, filter_cons.
  destruct (decide (g' = g)); case_bool_decide; try done; cbn [length]; lia.
Qed.

Lemma on_gpu_startup_buffers (g : nat) :
  (g < gpus cfg)%nat -> on_gpu g (startup_buffers cfg) = tasks cfg.
Proof.
  intros Hg. unfold startup_buffers. rewrite on_gpu_rows, occurrences_seq.
  case_bool_decide; lia.
Qed.

Lemma concat_fmap_insert {A B} (f : A -> list B) (l : list A) (i : nat) (y : A) :
  l !! i = Some y ->
  exists rest, concat (f <$> l) ≡ₚ f y ++ rest /\
               forall x, concat (f <$> <[i:=x]> l) ≡ₚ f x ++ rest.
Proof.
  intros Hi. exists (concat (f <$> take i l) ++ concat (f <$> drop (S i) l)).
  pose proof (lookup_lt_Some _ _ _ Hi) as Hlt. split.
  - rewrite <- (take_drop_middle l i y Hi) at 1.
    rewrite fmap_app, fmap_cons, concat_app, concat_cons. solve_Permutation.
  - intros x. rewrite insert_take_drop by done.
    rewrite fmap_app, fmap_cons, concat_app, concat_cons. solve_Permutation.
Qed.

Lemma elem_of_concat_fmap {A B} (f : A -> list B) (l : list A) (i : nat) (x : A) (b : B) :
  l !! i = Some x -> b ∈ f x -> b ∈ concat (f <$> l).
Proof.
  intros Hi Hb. apply elem_of_concat. exists (f x). split; [|done].
  apply list_elem_of_fmap. exists x. split; [done|]. by eapply list_elem_of_lookup_2.
Qed.

Lemma concat_fmap_unique {A B} (f : A -> list B) (l : list A) (i j : nat) (x y : A) (b : B) :
  NoDup (concat (f <$> l)) ->
  l !! i = Some x -> l !! j = Some y -> b ∈ f x -> b ∈ f y -> i = j.
Proof.
  revert i j. induction l as [|z l IH]; intros i j Hnd Hi Hj Hx Hy; [done|].
  cbn in Hnd. apply NoDup_app in Hnd as (_ & Hdisj & Hnd).
  destruct i as [|i], j as [|j]; cbn in *; simplify_eq.
  - done.
  - exfalso. apply (Hdisj b); [done|]. exact (elem_of_concat_fmap f l j y b Hj Hy).
  - exfalso. apply (Hdisj b); [done|]. exact (elem_of_concat_fmap f l i x b Hi Hx).
  - f_equal. by apply IH.
Qed.

Lemma queued_nil (g : nat) : queued g [] = [].
Proof. done. Qed.

Lemma queued_cons (g : nat) (e : EvalWorkEntry) (q : Queue EvalWorkEntry) :
  queued g (e :: q)
  = (if decide (is_sentinel e) then []
     else [{| gpu_device_id := g; buffer_index := eval_buffer_index e |}])
    ++ queued g q.
Proof.
  unfold queued, carrying. rewrite filter_cons.
  destruct (decide (is_sentinel e)); by case_decide.
Qed.

Lemma queued_push (g : nat) (e : EvalWorkEntry) (q : Queue EvalWorkEntry) :
  queued g (push e q)
  = queued g q ++
    (if decide (is_sentinel e) then []
     else [{| gpu_device_id := g; buffer_index := eval_buffer_index e |}]).
Proof.
  unfold queued, carrying, push. rewrite filter_app, fmap_app. f_equal.
  rewrite filter_cons, filter_nil.
  destruct (decide (is_sentinel e)); by case_decide.
Qed.

Lemma elem_of_queued (g : nat) (q : Queue EvalWorkEntry) (b : LoadBufferEntry) :
  b ∈ queued g q <->
  exists e, e ∈ q /\ ~ is_sentinel e /\
            b = {| gpu_device_id := g; buffer_index := eval_buffer_index e |}.
Proof.
  unfold queued, carrying. rewrite list_elem_of_fmap. split.
  - intros (e & -> & [Hs He]%list_elem_of_filter). eauto.
  - intros (e & He & Hs & ->). exists e. split; [done|]. by apply list_elem_of_filter.
Qed.

Lemma queued_from_insert (g : nat) (qs : list (Queue EvalWorkEntry)) (i : nat)
    (q : Queue EvalWorkEntry) :
  qs !! i = Some q ->
  exists rest, queued_from g qs ≡ₚ queued (g + i) q ++ rest /\
               forall q', queued_from g (<[i:=q']> qs) ≡ₚ queued (g + i) q' ++ rest.
Proof.
  revert g i. induction qs as [|q0 qs IH]; intros g i Hi; [done|].
  destruct i as [|i]; cbn in Hi; simplify_eq.
  - exists (queued_from (S g) qs). rewrite Nat.add_0_r. split; [done|]. by intros q'.
  - destruct (IH (S g) i Hi) as (rest & Hold & Hnew).
    exists (queued g q0 ++ rest). replace (g + S i)%nat with (S g + i)%nat by lia. split.
    + cbn [queued_from]. rewrite Hold. solve_Permutation.
    + intros q'. cbn [queued_from insert list_insert]. 
      change (list_insert i q' qs) with (<[i:=q']> qs). rewrite Hnew. solve_Permutation.
Qed.

Lemma elem_of_queued_from (g : nat) (qs : list (Queue EvalWorkEntry)) (b : LoadBufferEntry) :
  b ∈ queued_from g qs <->
  exists i q, qs !! i = Some q /\ b ∈ queued (g + i) q.
Proof.
  revert g. induction qs as [|q0 qs IH]; intros g; cbn [queued_from].
  - split; [by intros ?%elem_of_nil|]. by intros (i & q & ? & _).
  - rewrite elem_of_app, IH. split.
    + intros [Hb|(i & q & Hi & Hb)].
      * exists 0%nat, q0. by rewrite Nat.add_0_r.
      * exists (S i), q. split; [done|]. by replace (g + S i)%nat with (S g + i)%nat by lia.
    + intros ([|i] & q & Hi & Hb); cbn in Hi; simplify_eq.
      * left. by rewrite Nat.add_0_r in Hb.
      * right. exists i, q. split; [done|]. by replace (S g + i)%nat with (g + S i)%nat by lia.
Qed.

Lemma on_gpu_queued (g g' : nat) (q : Queue EvalWorkEntry) :
  on_gpu g (queued g' q) = if bool_decide (g' = g) then length (carrying q) else 0%nat.
Proof.
  unfold queued, on_gpu. induction (carrying q) as [|e l IH]; [by case_bool_decide|].
  rewrite fmap_cons, filter_cons. cbn [gpu_device_id].
  destruct (decide (g' = g)); case_bool_decide; try done; cbn [length]; by rewrite IH.
Qed.

Lemma on_gpu_queued_from (g base : nat) (qs : list (Queue EvalWorkEntry)) :
  on_gpu g (queued_from base qs)
  = if bool_decide (base <= g)%nat
    then length (carrying (default [] (qs !! (g - base)%nat))) else 0%nat.
Proof.
  revert base. induction qs as [|q qs IH]; intros base; cbn [queued_from].
  - rewrite lookup_nil. by case_bool_decide.
  - rewrite on_gpu_app, on_gpu_queued, IH.
    repeat case_bool_decide; try lia.
    + subst. by rewrite Nat.sub_diag.
    + replace (g - base)%nat with (S (g - S base)) by lia. done.
Qed.

Lemma held_by_load_replicate (k : nat) :
  concat (held_by_load <$> replicate k LoadPop) = [].
Proof. induction k as [|k IH]; [done|]. cbn. exact IH. Qed.

Lemma queued_from_replicate (g k : nat) : queued_from g (replicate k []) = [].
Proof. revert g. induction k as [|k IH]; intros g; [done|]. cbn. apply IH. Qed.

Lemma held_by_eval_init (l : list nat) :
  concat (held_by_eval <$> ((fun i => (eval_thread_args i, EvalPop)) <$> l)) = [].
Proof. induction l as [|i l IH]; [done|]. cbn. exact IH. Qed.

Lemma buffers_inv_init (rank : nat) : buffers_inv cfg (init_node cfg rank).
Proof.
  split; cbn.
  - unfold all_held. cbn.
    by rewrite held_by_load_replicate, queued_from_replicate, held_by_eval_init, !app_nil_r.
  - apply length_replicate.
  - by rewrite length_fmap, length_seq.
  - intros i t. rewrite list_lookup_fmap.
    intros (j & Hj & ->)%fmap_Some. apply lookup_seq in Hj as [-> _]. done.
  - intros g q e [-> _]%lookup_replicate. by intros ?%elem_of_nil.
  - by intros w k b [? _]%lookup_replicate.
  - intros i a e. rewrite list_lookup_fmap. by intros (j & _ & ?)%fmap_Some.
  - intros i k content. by intros ?%elem_of_nil.
  - by intros w pc [-> _]%lookup_replicate.
Qed.

Ltac keep_inv H :=
  first [ exact (bi_held _ _ H) | exact (bi_queues _ _ H)
        | exact (bi_eval_threads _ _ H) | exact (bi_args _ _ H)
        | exact (bi_queued _ _ H) | exact (bi_pushing _ _ H)
        | exact (bi_running _ _ H) | exact (bi_evaluated _ _ H)
        | exact (bi_load_items _ _ H) ].

Ltac keep_history H :=
  intros ? ? ? [?|?]%elem_of_cons; [ simplify_eq | by eapply (bi_evaluated _ _ H) ].

Lemma all_held_NoDup (n : Node) : buffers_inv cfg n -> NoDup (all_held n).
Proof. intros Hinv. rewrite (bi_held _ _ Hinv). apply NoDup_startup_buffers. Qed.

Lemma load_held_elsewhere (n : Node) (w : nat) (pc : LoadPc) (b : LoadBufferEntry) :
  buffers_inv cfg n -> load_threads n !! w = Some pc -> b ∈ held_by_load pc ->
  (b ∉ empty_load_buffers n) /\
  (b ∉ queued_from 0 (eval_work n)) /\
  (b ∉ concat (held_by_eval <$> eval_threads n)) /\
  forall w' pc', load_threads n !! w' = Some pc' -> b ∈ held_by_load pc' -> w' = w.
Proof.
  intros Hinv Hw Hb. pose proof (all_held_NoDup n Hinv) as Hnd. unfold all_held in Hnd.
  pose proof (elem_of_concat_fmap held_by_load _ w pc b Hw Hb) as Hin.
  apply NoDup_app in Hnd as (_ & Hd1 & Hnd).
  apply NoDup_app in Hnd as (Hload & Hd2 & _).
  repeat split.
  - intros He. apply (Hd1 b He). apply elem_of_app. by left.
  - intros Hq. apply (Hd2 b Hin). apply elem_of_app. by left.
  - intros Hq. apply (Hd2 b Hin). apply elem_of_app. by right.
  - intros w' pc' Hw' Hb'. by eapply (concat_fmap_unique held_by_load).
Qed.

Lemma buffers_inv_load (w : nat) (n n' : Node) :
  load_step cfg w n = Some n' -> buffers_inv cfg n -> buffers_inv cfg n'.
Proof.
  unfold load_step. intros Hstep Hinv.
  destruct (load_threads n !! w) as [pc|] eqn:Hw; [|done].
  destruct (concat_fmap_insert held_by_load _ w pc Hw) as (others & Hold & Hnew).
  pose proof (bi_held _ _ Hinv) as Hheld. unfold all_held in Hheld. rewrite Hold in Hheld.
  pose proof (bi_load_items _ _ Hinv w pc Hw) as Hitem.
  destruct pc as [|k|k b|k b|].
  - (* load_work.pop *)
    destruct (load_work n) as [|entry rest]; [done|]. cbn in Hstep. simplify_eq.
    split; cbn; try keep_inv Hinv; try keep_history Hinv.
    + rewrite Hnew, <- Hheld. by case_bool_decide.
    + intros w0 k b [(-> & Heq & _)|[_ H]]%list_lookup_insert_Some.
      * by case_bool_decide.
      * by eapply bi_pushing.
    + intros w0 pc [(-> & <- & _)|[_ H]]%list_lookup_insert_Some.
      * by case_bool_decide.
      * by eapply bi_load_items.
  - (* empty_load_buffers.pop *)
    destruct (empty_load_buffers n) as [|buffer_entry rest] eqn:Hempty; [done|].
    cbn in Hstep. simplify_eq.
    split; cbn; try keep_inv Hinv; try keep_history Hinv.
    + rewrite Hnew, <- Hheld. cbn. solve_Permutation.
    + intros w0 k0 b [(-> & Heq & _)|[_ H]]%list_lookup_insert_Some; [done|].
      by eapply bi_pushing.
    + intros w0 pc [(-> & <- & _)|[_ H]]%list_lookup_insert_Some; [done|].
      by eapply bi_load_items.
  - (* the frames are decoded into the buffer *)
    case_bool_decide as Hrange; [|done]. simplify_eq.
    destruct (load_held_elsewhere n w _ b Hinv Hw ltac:(by apply list_elem_of_here))
      as (Hfree & Hqueued & Hrun & Huniq).
    split; cbn; try keep_inv Hinv; try keep_history Hinv.
    + rewrite Hnew, <- Hheld. done.
    + intros g q e Hq He Hs. rewrite lookup_insert_ne; [by eapply bi_queued|].
      intros [= Hg Hi]. apply Hqueued. apply elem_of_queued_from.
      exists g, q. split; [done|]. apply elem_of_queued. exists e.
      split; [done|]. split; [done|]. destruct b; cbn in *. by subst.
    + intros w0 k0 b0 [(-> & [= <- <-] & _)|[Hne H]]%list_lookup_insert_Some.
      * by rewrite lookup_insert_eq.
      * rewrite lookup_insert_ne; [by eapply bi_pushing|].
        intros [= Hg Hi]. apply Hne. symmetry. apply (Huniq w0 _ H).
        cbn. destruct b, b0; cbn in *. subst. apply list_elem_of_here.
    + intros i a e Hi. rewrite lookup_insert_ne; [by eapply bi_running|].
      intros [= Hg Hb]. apply Hrun.
      apply (elem_of_concat_fmap held_by_eval _ i (a, EvalRun e)); [done|].
      pose proof (bi_args _ _ Hinv i _ Hi) as Ha. cbn in Ha. subst a.
      cbn in *. destruct b; cbn in *. subst. apply list_elem_of_here.
    + intros w0 pc [(-> & <- & _)|[_ H]]%list_lookup_insert_Some; [done|].
      by eapply bi_load_items.
  - (* eval_work[gpu].push *)
    destruct (eval_work n !! gpu_device_id b) as [q|] eqn:Hq; [|done]. simplify_eq.
    destruct (queued_from_insert 0 _ _ q Hq) as (queues & Hqold & Hqnew).
    rewrite Hqold in Hheld.
    split; cbn; try keep_inv Hinv; try keep_history Hinv.
    + rewrite Hnew, Hqnew, <- Hheld, queued_push. cbn.
      unfold is_sentinel; cbn. case_decide; [done|].
      destruct b; cbn. solve_Permutation.
    + rewrite length_insert. by apply bi_queues.
    + intros g q' e' [(Hg & Hq' & _)|[_ H]]%list_lookup_insert_Some;
        [subst g q'|by eapply bi_queued].
      unfold push. intros [He | ->%list_elem_of_singleton]%elem_of_app Hs.
      * by eapply bi_queued.
      * cbn. by eapply bi_pushing.
    + intros w0 k0 b0 [(-> & Heq & _)|[_ H]]%list_lookup_insert_Some; [done|].
      by eapply bi_pushing.
    + intros w0 pc [(-> & <- & _)|[_ H]]%list_lookup_insert_Some; [done|].
      by eapply bi_load_items.
  - done.
Qed.

Lemma buffers_inv_eval (i : nat) (n n' : Node) :
  eval_step i n = Some n' -> buffers_inv cfg n -> buffers_inv cfg n'.
Proof.
  unfold eval_step. intros Hstep Hinv.
  destruct (eval_threads n !! i) as [[a pc]|] eqn:Hi; [|done].
  pose proof (bi_args _ _ Hinv i _ Hi) as Ha. cbn in Ha. subst a.
  destruct (concat_fmap_insert held_by_eval _ i _ Hi) as (others & Hold & Hnew).
  pose proof (bi_held _ _ Hinv) as Hheld. unfold all_held in Hheld. rewrite Hold in Hheld.
  cbn [arg_eval_work arg_gpu_device_id arg_frame_buffers eval_thread_args] in Hstep.
  destruct pc as [|e|e|].
  - (* eval_work.pop *)
    destruct (eval_work n !! i) as [q|] eqn:Hq; [|done].
    destruct q as [|e rest]; [done|]. cbn in Hstep. simplify_eq.
    destruct (queued_from_insert 0 _ _ _ Hq) as (queues & Hqold & Hqnew).
    rewrite Hqold, queued_cons in Hheld.
    split; cbn; try keep_inv Hinv; try keep_history Hinv.
    + rewrite Hnew, Hqnew, <- Hheld. unfold is_sentinel.
      destruct (decide (eval_work_item_index e = SENTINEL)) as [Hs|Hs].
      * rewrite bool_decide_eq_true_2 by done. cbn. solve_Permutation.
      * rewrite bool_decide_eq_false_2 by done. cbn. solve_Permutation.
    + rewrite length_insert. by apply bi_queues.
    + rewrite length_insert. by apply bi_eval_threads.
    + intros j t [(-> & <- & _)|[_ H]]%list_lookup_insert_Some; [done|].
      by eapply bi_args.
    + intros g q' e' [(Hg & Hq' & _)|[_ H]]%list_lookup_insert_Some;
        [subst g q'|by eapply bi_queued].
      intros He'. eapply bi_queued; [done..|]. by apply elem_of_cons; right.
    + intros j a e' [(-> & [= <- Hpc] & _)|[_ H]]%list_lookup_insert_Some;
        [|by eapply bi_running].
      case_bool_decide as Hs; [done|]. simplify_eq. cbn.
      eapply bi_queued; [done..| |done]. apply list_elem_of_here.
  - (* the forward passes *)
    simplify_eq.
    split; cbn; try keep_inv Hinv.
    + rewrite Hnew, <- Hheld. done.
    + rewrite length_insert. by apply bi_eval_threads.
    + intros j t [(-> & <- & _)|[_ H]]%list_lookup_insert_Some; [done|].
      by eapply bi_args.
    + intros j a e' [(-> & Heq & _)|[_ H]]%list_lookup_insert_Some; [done|].
      by eapply bi_running.
    + intros j k content [[= -> -> ->]|H]%elem_of_cons; [|by eapply bi_evaluated].
      by apply (bi_running _ _ Hinv i _ _ Hi).
  - (* empty_load_buffers.push *)
    simplify_eq.
    split; cbn; try keep_inv Hinv; try keep_history Hinv.
    + rewrite Hnew, <- Hheld. unfold push. cbn. solve_Permutation.
    + rewrite length_insert. by apply bi_eval_threads.
    + intros j t [(-> & <- & _)|[_ H]]%list_lookup_insert_Some; [done|].
      by eapply bi_args.
    + intros j a e' [(-> & Heq & _)|[_ H]]%list_lookup_insert_Some; [done|].
      by eapply bi_running.
  - done.
Qed.

Lemma buffers_inv_shutdown (indeterminate : nat) (n n' : Node) :
  shutdown_step cfg indeterminate n = Some n' -> buffers_inv cfg n -> buffers_inv cfg n'.
Proof.
  unfold shutdown_step. intros Hstep Hinv.
  destruct (main_thread n) as [| | | |i|i|i|i|]; try done.
  - case_bool_decide; simplify_eq; split; cbn; try keep_inv Hinv; try keep_history Hinv.
  - case_bool_decide; [|simplify_eq; split; cbn; keep_inv Hinv].
    repeat case_match; simplify_eq.
    split; cbn; try keep_inv Hinv; try keep_history Hinv.
  - case_bool_decide; [|simplify_eq; split; cbn; keep_inv Hinv].
    destruct (eval_work n !! i) as [q|] eqn:Hq; [|done]. simplify_eq.
    destruct (queued_from_insert 0 _ _ _ Hq) as (queues & Hqold & Hqnew).
    pose proof (bi_held _ _ Hinv) as Hheld. unfold all_held in Hheld.
    split; cbn; try keep_inv Hinv; try keep_history Hinv.
    + rewrite <- Hheld, Hqnew, Hqold, queued_push. unfold is_sentinel. cbn.
      case_decide; [|done]. by rewrite app_nil_r.
    + rewrite length_insert. by apply bi_queues.
    + intros g q' e' [(Hg & Hq' & _)|[_ Hother]]%list_lookup_insert_Some;
        [subst g q'|by eapply bi_queued].
      unfold push. intros [He | ->%list_elem_of_singleton]%elem_of_app Hs.
      * by eapply bi_queued.
      * by destruct Hs.
  - case_bool_decide; [|simplify_eq; split; cbn; keep_inv Hinv].
    repeat case_match; simplify_eq.
    split; cbn; try keep_inv Hinv; try keep_history Hinv.
Qed.

Lemma buffers_inv_trans (n n' : Node) :
  node_trans cfg n n' -> buffers_inv cfg n -> buffers_inv cfg n'.
Proof.
  intros Ht Hinv. destruct Ht.
  - by eapply buffers_inv_load.
  - by eapply buffers_inv_eval.
  - by eapply buffers_inv_shutdown.
  - split; cbn; try keep_inv Hinv; try keep_history Hinv.
  - split; cbn; keep_inv Hinv.
  - split; cbn; keep_inv Hinv.
  - split; cbn; keep_inv Hinv.
  - split; cbn; keep_inv Hinv.
  - split; cbn; keep_inv Hinv.
  - split; cbn; try keep_inv Hinv; try keep_history Hinv.
  - split; cbn; keep_inv Hinv.
  - split; cbn; keep_inv Hinv.
Qed.

Lemma buffers_inv_reach (rank : nat) (n : Node) :
  node_reach cfg rank n -> buffers_inv cfg n.
Proof.
  induction 1; [apply buffers_inv_init|]. by eapply buffers_inv_trans.
Qed.

End BufferFacts.

(** ** The pipeline: buffer conservation and affinity *)

Lemma buffers_in_circulation_held (cfg : Pipeline.Config) (n : Pipeline.Node) (g : nat) :
  Pipeline.buffers_in_circulation n g = Pipeline.on_gpu g (Pipeline.all_held n).
Proof.
  unfold Pipeline.buffers_in_circulation, Pipeline.all_held, Pipeline.eval_queue.
  rewrite !on_gpu_app, on_gpu_queued_from.
  rewrite bool_decide_eq_true_2 by lia. rewrite Nat.sub_0_r. unfold Pipeline.size. lia.
Qed.

(** C4 as the specification words it fails once the sentinel is in
    [eval_work[0]]: with one buffer per GPU, the free queue holds the
    buffer and the eval queue holds one entry, two in all. *)
Lemma buffers_counted_with_sentinel :
  exists c n,
    Pipeline.run Scenario.one_item Scenario.until_eval_sentinel
      (Pipeline.init_cluster Scenario.one_item 1) = Some c /\
    Pipeline.nodes c !! 0%nat = Some n /\
    Pipeline.tasks Scenario.one_item = 1%nat /\
    Pipeline.buffers_counted n 0 = 2%nat.
Proof. do 2 eexists. split; [|split; [|split]]; vm_compute; reflexivity. Qed.

(** C4, amended - buffer conservation.  In every state of every run, on
    every node, the buffer identities in the free queue, held by load
    workers, carried by the entries of the eval queues and held by
    evaluate workers are the identities enqueued at start-up, each once;
    so for each GPU [g] the free buffers of [g], the buffers of [g] held
    by load workers, the entries of [eval_work[g]] other than the
    sentinel and the buffer held by the evaluate worker of [g] are
    [TASKS_IN_QUEUE_PER_GPU] in all. *)
Theorem buffer_conservation (cfg : Pipeline.Config) (num_nodes : nat)
    (c : Pipeline.Cluster) (rank : nat) (n : Pipeline.Node) :
  Pipeline.reachable cfg num_nodes c ->
  Pipeline.nodes c !! rank = Some n ->
  Pipeline.empty_load_buffers (Pipeline.init_node cfg rank) = Pipeline.startup_buffers cfg /\
  Pipeline.all_held n ≡ₚ Pipeline.startup_buffers cfg /\
  forall g, (g < Pipeline.gpus cfg)%nat ->
    Pipeline.buffers_in_circulation n g = Pipeline.tasks cfg.
Proof.
  intros Hc Hn. split; [done|].
  destruct (reachable_nodes cfg num_nodes c Hc) as [_ Hreach].
  pose proof (buffers_inv_reach cfg rank n (Hreach rank n Hn)) as Hinv.
  pose proof (Pipeline.bi_held _ _ Hinv) as Hheld. split; [done|].
  intros g Hg. rewrite (buffers_in_circulation_held cfg).
  unfold Pipeline.on_gpu. rewrite Hheld. by apply on_gpu_startup_buffers.
Qed.

Lemma buffer_conservation_witness :
  exists c n,
    Pipeline.reachable Scenario.one_item 1 c /\
    Pipeline.nodes c !! 0%nat = Some n /\
    Pipeline.eval_work n = [[ {| Pipeline.eval_work_item_index := -1;
                                 Pipeline.eval_buffer_index := 7 |} ]] /\
    Pipeline.empty_load_buffers (Pipeline.init_node Scenario.one_item 0)
      = Pipeline.startup_buffers Scenario.one_item /\
    Pipeline.all_held n ≡ₚ Pipeline.startup_buffers Scenario.one_item /\
    forall g, (g < Pipeline.gpus Scenario.one_item)%nat ->
      Pipeline.buffers_in_circulation n g = Pipeline.tasks Scenario.one_item.
Proof.
  destruct (Pipeline.run Scenario.one_item Scenario.until_eval_sentinel
              (Pipeline.init_cluster Scenario.one_item 1)) as [c|] eqn:Hrun;
    [|vm_compute in Hrun; discriminate].
  destruct (Pipeline.nodes c !! 0%nat) as [n|] eqn:Hn;
    [|vm_compute in Hrun; injection Hrun as <-; vm_compute in Hn; discriminate].
  exists c, n.
  assert (Pipeline.reachable Scenario.one_item 1 c) as Hreach
    by (exists Scenario.until_eval_sentinel; exact Hrun).
  split; [exact Hreach|]. split; [exact Hn|]. split.
  { vm_compute in Hrun. injection Hrun as <-. vm_compute in Hn. injection Hn as <-.
    vm_compute. reflexivity. }
  exact (buffer_conservation Scenario.one_item 1 c 0 n Hreach Hn).
Defined.

(** C5 - buffer-GPU affinity.  In every state of every run, on every
    node: an entry of [eval_work[g]] that carries a buffer names a
    buffer allocated on GPU [g], and that buffer holds the frames of the
    entry's work item; a load worker about to push does so into the
    queue of the GPU of the buffer it filled; evaluate worker [i] pops
    from [eval_work[i]] and reads and releases buffers of GPU [i]; and
    every evaluation has read the frames of its own work item. *)
Theorem buffer_gpu_affinity (cfg : Pipeline.Config) (num_nodes : nat)
    (c : Pipeline.Cluster) (rank : nat) (n : Pipeline.Node) :
  Pipeline.reachable cfg num_nodes c ->
  Pipeline.nodes c !! rank = Some n ->
  (forall g q e,
     Pipeline.eval_work n !! g = Some q -> e ∈ q -> ~ Pipeline.is_sentinel e ->
     {| Pipeline.gpu_device_id := g;
        Pipeline.buffer_index := Pipeline.eval_buffer_index e |}
       ∈ Pipeline.startup_buffers cfg /\
     Pipeline.frame_buffers n !! (g, Pipeline.eval_buffer_index e)
       = Some (Pipeline.eval_work_item_index e)) /\
  (forall w k b,
     Pipeline.load_threads n !! w = Some (Pipeline.LoadPush k b) ->
     Pipeline.frame_buffers n !! (Pipeline.gpu_device_id b, Pipeline.buffer_index b) = Some k /\
     exists q entry,
       Pipeline.eval_work n !! Pipeline.gpu_device_id b = Some q /\
       entry = {| Pipeline.eval_work_item_index := k;
                  Pipeline.eval_buffer_index := Pipeline.buffer_index b |} /\
       Pipeline.eval_work <$> Pipeline.load_step cfg w n
         = Some (<[Pipeline.gpu_device_id b := Pipeline.push entry q]> (Pipeline.eval_work n))) /\
  (forall i t,
     Pipeline.eval_threads n !! i = Some t ->
     t.1 = {| Pipeline.arg_gpu_device_id := i; Pipeline.arg_eval_work := i;
              Pipeline.arg_frame_buffers := i |}) /\
  (forall i k content,
     Pipeline.Evaluated i k content ∈ Pipeline.history n -> content = Some k).
Proof.
  intros Hc Hn.
  destruct (reachable_nodes cfg num_nodes c Hc) as [_ Hreach].
  pose proof (buffers_inv_reach cfg rank n (Hreach rank n Hn)) as Hinv.
  split; [|split; [|split]].
  - intros g q e Hq He Hs. split; [|by eapply Pipeline.bi_queued].
    rewrite <- (Pipeline.bi_held _ _ Hinv). unfold Pipeline.all_held.
    rewrite !elem_of_app. right; right; left.
    apply elem_of_queued_from. exists g, q. split; [done|].
    apply elem_of_queued. by exists e.
  - intros w k b Hw. split; [by eapply Pipeline.bi_pushing|].
    assert (b ∈ Pipeline.startup_buffers cfg) as [Hg _]%elem_of_startup_buffers.
    { rewrite <- (Pipeline.bi_held _ _ Hinv). unfold Pipeline.all_held.
      rewrite !elem_of_app. right; left.
      apply (elem_of_concat_fmap Pipeline.held_by_load _ w _ b Hw). apply list_elem_of_here. }
    rewrite <- (Pipeline.bi_queues _ _ Hinv) in Hg.
    apply lookup_lt_is_Some_2 in Hg as [q Hq].
    exists q, {| Pipeline.eval_work_item_index := k;
                 Pipeline.eval_buffer_index := Pipeline.buffer_index b |}.
    split; [done|]. split; [done|].
    unfold Pipeline.load_step. by rewrite Hw, Hq.
  - intros i t Ht. by apply (Pipeline.bi_args _ _ Hinv).
  - by apply (Pipeline.bi_evaluated _ _ Hinv).
Qed.

Lemma buffer_gpu_affinity_witness :
  exists c n,
    Pipeline.reachable Scenario.one_item 1 c /\
    Pipeline.nodes c !! 0%nat = Some n /\
    Pipeline.eval_work n = [[ {| Pipeline.eval_work_item_index := 0;
                                 Pipeline.eval_buffer_index := 0 |} ]] /\
    (forall g q e,
       Pipeline.eval_work n !! g = Some q -> e ∈ q -> ~ Pipeline.is_sentinel e ->
       {| Pipeline.gpu_device_id := g;
          Pipeline.buffer_index := Pipeline.eval_buffer_index e |}
         ∈ Pipeline.startup_buffers Scenario.one_item /\
       Pipeline.frame_buffers n !! (g, Pipeline.eval_buffer_index e)
         = Some (Pipeline.eval_work_item_index e)) /\
    (forall w k b,
       Pipeline.load_threads n !! w = Some (Pipeline.LoadPush k b) ->
       Pipeline.frame_buffers n !! (Pipeline.gpu_device_id b, Pipeline.buffer_index b)
         = Some k /\
       exists q entry,
         Pipeline.eval_work n !! Pipeline.gpu_device_id b = Some q /\
         entry = {| Pipeline.eval_work_item_index := k;
                    Pipeline.eval_buffer_index := Pipeline.buffer_index b |} /\
         Pipeline.eval_work <$> Pipeline.load_step Scenario.one_item w n
           = Some (<[Pipeline.gpu_device_id b := Pipeline.push entry q]>
                     (Pipeline.eval_work n))) /\
    (forall i t,
       Pipeline.eval_threads n !! i = Some t ->
       t.1 = {| Pipeline.arg_gpu_device_id := i; Pipeline.arg_eval_work := i;
                Pipeline.arg_frame_buffers := i |}) /\
    (forall i k content,
       Pipeline.Evaluated i k content ∈ Pipeline.history n -> content = Some k).
Proof.
  destruct (Pipeline.run Scenario.one_item Scenario.until_eval_work
              (Pipeline.init_cluster Scenario.one_item 1)) as [c|] eqn:Hrun;
    [|vm_compute in Hrun; discriminate].
  destruct (Pipeline.nodes c !! 0%nat) as [n|] eqn:Hn;
    [|vm_compute in Hrun; injection Hrun as <-; vm_compute in Hn; discriminate].
  exists c, n.
  assert (Pipeline.reachable Scenario.one_item 1 c) as Hreach
    by (exists Scenario.until_eval_work; exact Hrun).
  split; [exact Hreach|]. split; [exact Hn|]. split.
  { vm_compute in Hrun. injection Hrun as <-. vm_compute in Hn. injection Hn as <-.
    vm_compute. reflexivity. }
  exact (buffer_gpu_affinity Scenario.one_item 1 c 0 n Hreach Hn).
Defined.

(** ** The pipeline: shutdown *)

Section ShutdownFacts.
Import Pipeline.

Variable cfg : Config.

Lemma load_sentinels_pushed_cons (ev : Event) (h : list Event) :
  load_sentinels_pushed (ev :: h)
  = ((if pushes_load_sentinel ev then 1 else 0) + load_sentinels_pushed h)%nat.
Proof.
  unfold load_sentinels_pushed. rewrite filter_cons.
  destruct (pushes_load_sentinel ev); by case_decide.
Qed.

Lemma eval_sentinels_pushed_cons (g : nat) (ev : Event) (h : list Event) :
  eval_sentinels_pushed g (ev :: h)
  = ((if pushes_eval_sentinel g ev then 1 else 0) + eval_sentinels_pushed g h)%nat.
Proof.
  unfold eval_sentinels_pushed. rewrite filter_cons.
  destruct (pushes_eval_sentinel g ev); by case_decide.
Qed.

Lemma load_threads_joined_cons (ev : Event) (h : list Event) :
  load_threads_joined (ev :: h)
  = ((if joins_load ev then 1 else 0) + load_threads_joined h)%nat.
Proof.
  unfold load_threads_joined. rewrite filter_cons.
  destruct (joins_load ev); by case_decide.
Qed.

Ltac keep_si H :=
  first [ exact (si_counter _ _ H) | exact (si_load_threads _ _ H)
        | exact (si_eval_queues _ _ H) | exact (si_load_sentinels _ _ H)
        | exact (si_joins _ _ H) | exact (si_joined_returned _ _ H)
        | exact (si_eval_sentinels _ _ H) ].

Ltac count_history :=
  rewrite ?load_sentinels_pushed_cons, ?eval_sentinels_pushed_cons,
    ?load_threads_joined_cons;
  cbn [pushes_load_sentinel pushes_eval_sentinel joins_load Nat.add].

Lemma shutdown_inv_init (rank : nat) : shutdown_inv cfg (init_node cfg rank).
Proof.
  unfold init_node. destruct (is_master rank); split; cbn; try done.
  all: try apply length_replicate. all: intros; lia.
Qed.

Ltac node_cbn :=
  cbn [load_work empty_load_buffers eval_work frame_buffers load_threads
       eval_threads main_thread inbox history
       set_load_work set_empty_load_buffers set_eval_work set_frame_buffers
       set_load_threads set_eval_threads set_main_thread set_inbox record
       push_load_work].

Lemma shutdown_inv_load (w : nat) (n n' : Node) :
  load_step cfg w n = Some n' ->
  buffers_inv cfg n -> shutdown_inv cfg n -> shutdown_inv cfg n'.
Proof.
  unfold load_step. intros Hstep Hbuf Hinv.
  destruct (load_threads n !! w) as [pc|] eqn:Hw; [|done].
  assert (forall pc', pc <> LoadReturned ->
    forall w', (w' < joins_expected cfg (main_thread n))%nat ->
      <[w:=pc']> (load_threads n) !! w' = Some LoadReturned) as Hjoined.
  { intros pc' Hpc w' Hw'. pose proof (si_joined_returned _ _ Hinv w' Hw') as Hret.
    destruct (decide (w = w')) as [->|Hne]; [congruence|].
    by rewrite list_lookup_insert_ne. }
  pose proof (bi_load_items _ _ Hbuf w pc Hw) as Hitem.
  destruct pc as [|k|k b|k b|]; repeat case_match; simplify_eq.
  all: split; node_cbn; count_history; try keep_si Hinv.
  all: try (rewrite length_insert; keep_si Hinv).
  all: try (apply Hjoined; done).
  all: intros g; count_history; try keep_si Hinv.
  cbn in Hitem. unfold is_sentinel. cbn.
  rewrite bool_decide_eq_false_2 by (by intros [_ ?]).
  apply (si_eval_sentinels _ _ Hinv).
Qed.

Lemma shutdown_inv_eval (i : nat) (n n' : Node) :
  eval_step i n = Some n' -> shutdown_inv cfg n -> shutdown_inv cfg n'.
Proof.
  unfold eval_step. intros Hstep Hinv.
  repeat case_match; simplify_eq.
  all: split; node_cbn; count_history; try keep_si Hinv.
  all: try (rewrite length_insert; keep_si Hinv).
  all: intros g; count_history; try keep_si Hinv.
Qed.

Lemma shutdown_inv_shutdown (indeterminate : nat) (n n' : Node) :
  shutdown_step cfg indeterminate n = Some n' -> shutdown_inv cfg n -> shutdown_inv cfg n'.
Proof.
  unfold shutdown_step. intros Hstep Hinv.
  pose proof (si_counter _ _ Hinv) as Hc.
  pose proof (si_load_sentinels _ _ Hinv) as Hls.
  pose proof (si_joins _ _ Hinv) as Hj.
  pose proof (si_joined_returned _ _ Hinv) as Hjr.
  pose proof (si_eval_sentinels _ _ Hinv) as Hes.
  destruct (main_thread n) as [| | | |i|i|i|i|] eqn:Hpc; try done.
  all: cbn [load_sentinels_expected joins_expected eval_sentinels_expected
            counter_in_range] in Hc, Hls, Hj, Hjr, Hes.
  all: case_bool_decide as Hi; repeat case_match; simplify_eq.
  all: split; node_cbn.
  all: try keep_si Hinv.
  all: try (rewrite length_insert; keep_si Hinv).
  all: try (match goal with |- forall x : nat, @?P x => intro end); count_history.
  all: cbn [load_sentinels_expected joins_expected eval_sentinels_expected
            counter_in_range].
  all: rewrite ?Hls, ?Hj, ?Hes.
  all: unfold is_sentinel; cbn [eval_work_item_index].
  all: repeat case_bool_decide; try lia; try naive_solver lia.
  intros Hw. destruct (decide (w = load_threads_joined (history n))) as [->|Hne];
    [done|apply Hjr; lia].
Qed.

Lemma shutdown_inv_trans (n n' : Node) :
  node_trans cfg n n' ->
  buffers_inv cfg n -> shutdown_inv cfg n -> shutdown_inv cfg n'.
Proof.
  intros Ht Hbuf Hinv. destruct Ht as
    [w n n' Hs|i n n' Hs|ind n n' Hs|next n Hpc Hlt|next n Hpc Hlt|next n Hpc Hge
    |wd n Hpc|wd n Hpc|n Hpc|k rest n Hpc Hin Hk|rest n Hpc Hin|reply n].
  1: by eapply shutdown_inv_load.
  1: by eapply shutdown_inv_eval.
  1: by eapply shutdown_inv_shutdown.
  all: pose proof (si_counter _ _ Hinv) as Hc.
  all: pose proof (si_load_sentinels _ _ Hinv) as Hls.
  all: pose proof (si_joins _ _ Hinv) as Hj.
  all: pose proof (si_joined_returned _ _ Hinv) as Hjr.
  all: pose proof (si_eval_sentinels _ _ Hinv) as Hes.
  all: try rewrite Hpc in Hc, Hls, Hj, Hjr, Hes.
  all: cbn [load_sentinels_expected joins_expected eval_sentinels_expected
            counter_in_range] in Hc, Hls, Hj, Hjr, Hes.
  all: split; node_cbn.
  all: try keep_si Hinv.
  all: try (match goal with |- forall x : nat, @?P x => intro end); count_history.
  all: cbn [load_sentinels_expected joins_expected eval_sentinels_expected
            counter_in_range].
  all: rewrite ?Hls, ?Hj, ?Hes.
  all: unfold SENTINEL in *; repeat case_bool_decide; try lia.
Qed.

Lemma shutdown_inv_reach (rank : nat) (n : Node) :
  node_reach cfg rank n -> shutdown_inv cfg n.
Proof.
  induction 1 as [|n n' Hn IH Ht]; [apply shutdown_inv_init|].
  eapply shutdown_inv_trans; [done| |done]. by eapply buffers_inv_reach.
Qed.

Lemma load_returns_on_sentinel (w : nat) (n : Node) (entry : LoadWorkEntry)
    (rest : Queue LoadWorkEntry) :
  load_threads n !! w = Some LoadPop ->
  load_work n = entry :: rest -> work_item_index entry = SENTINEL ->
  exists n', load_step cfg w n = Some n' /\
             load_threads n' !! w = Some LoadReturned /\
             load_work n' = rest /\
             empty_load_buffers n' = empty_load_buffers n /\
             eval_work n' = eval_work n /\
             frame_buffers n' = frame_buffers n.
Proof.
  intros Hw Hq Hs. unfold load_step. rewrite Hw, Hq. cbn. eexists. split; [done|].
  node_cbn. rewrite bool_decide_eq_true_2 by done.
  rewrite list_lookup_insert_eq by (by eapply lookup_lt_Some). done.
Qed.

Lemma eval_returns_on_sentinel (i : nat) (n : Node) (a : EvaluateThreadArgs)
    (e : EvalWorkEntry) (rest : Queue EvalWorkEntry) :
  eval_threads n !! i = Some (a, EvalPop) ->
  eval_work n !! arg_eval_work a = Some (e :: rest) -> is_sentinel e ->
  exists n', eval_step i n = Some n' /\
             eval_threads n' !! i = Some (a, EvalReturned) /\
             eval_work n' = <[arg_eval_work a := rest]> (eval_work n) /\
             empty_load_buffers n' = empty_load_buffers n.
Proof.
  intros Hi Hq Hs. unfold eval_step. rewrite Hi. cbn beta iota.
  unfold Queue in *. rewrite Hq. cbn [pop]. eexists. split; [done|].
  node_cbn. rewrite bool_decide_eq_true_2 by done.
  rewrite list_lookup_insert_eq by (by eapply lookup_lt_Some). done.
Qed.

End ShutdownFacts.

(** C8 - sentinels.  In every state of every run, on every node: [main]
    has pushed no sentinel into [load_work] while it distributes work,
    [i] of them at iteration [i] of the loop of line 1011 and
    [LOAD_WORKERS_PER_NODE] from then on; it has pushed no sentinel into
    [eval_work[g]] before, and one from, iteration [g] of the loop of
    line 1036; wherever some eval queue has got its sentinel, all load
    workers have been joined and have returned; a load or evaluate
    worker that pops a sentinel returns and touches no other queue, and
    a worker that has returned takes no further step. *)
Theorem sentinel_shutdown (cfg : Pipeline.Config) (num_nodes : nat)
    (c : Pipeline.Cluster) (rank : nat) (n : Pipeline.Node) :
  Pipeline.reachable cfg num_nodes c ->
  Pipeline.nodes c !! rank = Some n ->
  Pipeline.load_sentinels_pushed (Pipeline.history n)
    = Pipeline.load_sentinels_expected cfg (Pipeline.main_thread n) /\
  (forall g,
     Pipeline.eval_sentinels_pushed g (Pipeline.history n)
       = Pipeline.eval_sentinels_expected cfg (Pipeline.main_thread n) g /\
     ((0 < Pipeline.eval_sentinels_pushed g (Pipeline.history n))%nat ->
      Pipeline.load_threads_joined (Pipeline.history n) = Pipeline.load_workers cfg /\
      forall w, (w < Pipeline.load_workers cfg)%nat ->
        Pipeline.load_threads n !! w = Some Pipeline.LoadReturned)) /\
  (forall w entry rest,
     Pipeline.load_threads n !! w = Some Pipeline.LoadPop ->
     Pipeline.load_work n = entry :: rest ->
     Pipeline.work_item_index entry = Pipeline.SENTINEL ->
     exists n', Pipeline.load_step cfg w n = Some n' /\
                Pipeline.load_threads n' !! w = Some Pipeline.LoadReturned /\
                Pipeline.load_work n' = rest /\
                Pipeline.empty_load_buffers n' = Pipeline.empty_load_buffers n /\
                Pipeline.eval_work n' = Pipeline.eval_work n /\
                Pipeline.frame_buffers n' = Pipeline.frame_buffers n) /\
  (forall w, Pipeline.load_threads n !! w = Some Pipeline.LoadReturned ->
             Pipeline.load_step cfg w n = None) /\
  (forall i a e rest,
     Pipeline.eval_threads n !! i = Some (a, Pipeline.EvalPop) ->
     Pipeline.eval_work n !! Pipeline.arg_eval_work a = Some (e :: rest) ->
     Pipeline.is_sentinel e ->
     exists n', Pipeline.eval_step i n = Some n' /\
                Pipeline.eval_threads n' !! i = Some (a, Pipeline.EvalReturned) /\
                Pipeline.eval_work n'
                  = <[Pipeline.arg_eval_work a := rest]> (Pipeline.eval_work n) /\
                Pipeline.empty_load_buffers n' = Pipeline.empty_load_buffers n) /\
  (forall i a, Pipeline.eval_threads n !! i = Some (a, Pipeline.EvalReturned) ->
               Pipeline.eval_step i n = None).
Proof.
  intros Hc Hn.
  destruct (reachable_nodes cfg num_nodes c Hc) as [_ Hreach].
  pose proof (shutdown_inv_reach cfg rank n (Hreach rank n Hn)) as Hinv.
  split; [apply (Pipeline.si_load_sentinels _ _ Hinv)|].
  split; [|split; [|split; [|split]]].
  - intros g. pose proof (Pipeline.si_eval_sentinels _ _ Hinv g) as Hes.
    split; [done|]. rewrite Hes. intros Hpos.
    pose proof (Pipeline.si_joins _ _ Hinv) as Hj.
    pose proof (Pipeline.si_joined_returned _ _ Hinv) as Hjr.
    destruct (Pipeline.main_thread n); cbn in Hpos, Hj, Hjr; try lia; done.
  - intros w entry rest. apply load_returns_on_sentinel.
  - intros w Hw. unfold Pipeline.load_step. by rewrite Hw.
  - intros i a e rest. apply eval_returns_on_sentinel.
  - intros i a Hi. unfold Pipeline.eval_step. by rewrite Hi.
Qed.

(** ** The cluster: dispatch of work item indices *)

Section DispatchFacts.
Import Pipeline.

Variable cfg : Config.

Lemma node_ok_reqs (reqs reqs' : list nat) (r : nat) (s : Summary) :
  (r ∈ reqs' <-> r ∈ reqs) -> node_ok reqs r s -> node_ok reqs' r s.
Proof. unfold node_ok. intros Hiff. destruct (sm_phase s); rewrite Hiff; done. Qed.

Lemma elem_of_delete_NoDup (reqs : list nat) (pos src r : nat) :
  NoDup reqs -> reqs !! pos = Some src ->
  (r ∈ delete pos reqs <-> r ∈ reqs /\ r <> src).
Proof.
  intros Hnd Hpos. pose proof (delete_Permutation reqs pos src Hpos) as Hperm.
  generalize dependent (delete pos reqs). intros D Hperm.
  rewrite Hperm in Hnd. apply NoDup_cons in Hnd as [Hnotin _].
  rewrite Hperm, elem_of_cons. split.
  - intros Hr. split; [by right|]. by intros ->.
  - by intros [[->|Hr] Hne].
Qed.

Lemma allocated_insert_0 (sms : list Summary) (s' : Summary) :
  (0 < length sms)%nat ->
  allocated cfg (<[0%nat := s']> sms)
  = match sm_phase s' with
    | InDistribute next => next
    | _ => Z.of_nat (work_items cfg)
    end.
Proof. intros Hlen. unfold allocated. by rewrite list_lookup_insert_eq. Qed.

Lemma allocated_insert_ne (sms : list Summary) (r : nat) (s' : Summary) :
  r <> 0%nat -> allocated cfg (<[r := s']> sms) = allocated cfg sms.
Proof. intros Hr. unfold allocated. by rewrite list_lookup_insert_ne. Qed.

(** A step that leaves the pushed indices and the inbox of node [r]
    and the master's counter as they are, and the requests as far as
    the nodes can see. *)
Lemma dispatch_inv_update (sms : list Summary) (reqs reqs' : list nat)
    (r : nat) (s s' : Summary) :
  dispatch_inv cfg sms reqs ->
  sms !! r = Some s ->
  sm_pushed s' = sm_pushed s -> sm_inbox s' = sm_inbox s ->
  allocated cfg (<[r := s']> sms) = allocated cfg sms ->
  node_ok reqs' r s' ->
  (forall r', r' <> r -> r' ∈ reqs' <-> r' ∈ reqs) ->
  NoDup reqs' ->
  dispatch_inv cfg (<[r := s']> sms) reqs'.
Proof.
  intros Hinv Hr Hp Hi Ha Hok Hreqs Hnd.
  destruct (concat_fmap_insert sm_pushed sms r s Hr) as (restP & HP & HP').
  destruct (concat_fmap_insert replies sms r s Hr) as (restR & HR & HR').
  pose proof (di_count _ _ _ Hinv) as Hcount. rewrite HP, HR in Hcount.
  split.
  - rewrite Ha, HP', HR', <- Hcount. unfold replies. by rewrite Hp, Hi.
  - rewrite Ha. apply (di_bound _ _ _ Hinv).
  - intros r' t [(-> & <- & _)|[Hne Ht]]%list_lookup_insert_Some; [done|].
    eapply node_ok_reqs; [|by eapply (di_nodes _ _ _ Hinv)]. by apply Hreqs.
  - done.
Qed.

Lemma concat_fmap_insert_delta {A B} (f : A -> list B) (l : list A) (r : nat)
    (x x' : A) (extra : list B) :
  l !! r = Some x -> f x' ≡ₚ f x ++ extra ->
  concat (f <$> <[r:=x']> l) ≡ₚ concat (f <$> l) ++ extra.
Proof.
  intros Hr Hf. destruct (concat_fmap_insert f l r x Hr) as (rest & Hold & Hnew).
  rewrite Hnew, Hold, Hf. solve_Permutation.
Qed.

Lemma concat_fmap_insert_less {A B} (f : A -> list B) (l : list A) (r : nat)
    (x x' : A) (gone : list B) :
  l !! r = Some x -> f x ≡ₚ f x' ++ gone ->
  concat (f <$> l) ≡ₚ concat (f <$> <[r:=x']> l) ++ gone.
Proof.
  intros Hr Hf. destruct (concat_fmap_insert f l r x Hr) as (rest & Hold & Hnew).
  rewrite Hnew, Hold, Hf. solve_Permutation.
Qed.

Lemma seqZ_next (next : Z) : 0 <= next -> seqZ 0 (next + 1) = seqZ 0 next ++ [next].
Proof.
  intros Hn. rewrite seqZ_app by lia. rewrite (seqZ_cons _ 1) by lia.
  by rewrite (seqZ_nil _ (Z.pred 1)) by lia.
Qed.

Lemma dispatch_assign (sms : list Summary) (reqs : list nat) (s : Summary) (next : Z) :
  dispatch_inv cfg sms reqs ->
  sms !! 0%nat = Some s -> sm_phase s = InDistribute next ->
  next < Z.of_nat (work_items cfg) ->
  dispatch_inv cfg
    (<[0%nat := {| sm_pushed := sm_pushed s ++ [next]; sm_inbox := sm_inbox s;
                   sm_phase := InDistribute (next + 1) |}]> sms) reqs.
Proof.
  intros Hinv Hs Hph Hlt.
  pose proof (di_bound _ _ _ Hinv) as Hb.
  pose proof (di_count _ _ _ Hinv) as Hcount.
  assert (allocated cfg sms = next) as Ha by (unfold allocated; by rewrite Hs, Hph).
  rewrite Ha in Hb, Hcount.
  pose proof (lookup_lt_Some _ _ _ Hs) as Hlen.
  split.
  - rewrite allocated_insert_0 by done. cbn [sm_phase].
    rewrite (concat_fmap_insert_delta sm_pushed sms 0 s _ [next] Hs) by done.
    rewrite (concat_fmap_insert_delta replies sms 0 s _ [] Hs)
      by (by rewrite app_nil_r).
    rewrite seqZ_next by lia. rewrite <- Hcount. solve_Permutation.
  - rewrite allocated_insert_0 by done. cbn [sm_phase]. lia.
  - intros r t [(<- & <- & _)|[Hne Ht]]%list_lookup_insert_Some.
    + pose proof (di_nodes _ _ _ Hinv 0%nat s Hs) as Hok.
      unfold node_ok in *. rewrite Hph in Hok. done.
    + by eapply (di_nodes _ _ _ Hinv).
  - apply (di_requests _ _ _ Hinv).
Qed.

Lemma dispatch_reply (sms : list Summary) (reqs : list nat) (r : nat) (s : Summary)
    (k : Z) (rest : list Z) :
  dispatch_inv cfg sms reqs ->
  sms !! r = Some s -> sm_phase s = InAwait -> sm_inbox s = k :: rest ->
  k <> SENTINEL ->
  dispatch_inv cfg
    (<[r := {| sm_pushed := sm_pushed s ++ [k]; sm_inbox := rest;
               sm_phase := InMonitor |}]> sms) reqs.
Proof.
  intros Hinv Hs Hph Hin Hk.
  pose proof (di_count _ _ _ Hinv) as Hcount.
  pose proof (di_nodes _ _ _ Hinv r s Hs) as Hok.
  unfold node_ok in Hok. rewrite Hph, Hin in Hok.
  destruct Hok as [Hr0 [[_ ?]|[Hnot [k' [= -> ->]]]]]; [done|].
  assert (allocated cfg (<[r := {| sm_pushed := sm_pushed s ++ [k']; sm_inbox := [];
               sm_phase := InMonitor |}]> sms) = allocated cfg sms) as Ha
    by (by apply allocated_insert_ne).
  split.
  - rewrite Ha, <- Hcount.
    rewrite (concat_fmap_insert_delta sm_pushed sms r s _ [k'] Hs) by done.
    rewrite (concat_fmap_insert_less replies sms r s
               {| sm_pushed := sm_pushed s ++ [k']; sm_inbox := []; sm_phase := InMonitor |}
               [k'] Hs).
    + solve_Permutation.
    + unfold replies. rewrite Hin. cbn [sm_inbox]. rewrite filter_cons, !filter_nil.
      by case_decide.
  - rewrite Ha. apply (di_bound _ _ _ Hinv).
  - intros r' t [(<- & <- & _)|[Hne Ht]]%list_lookup_insert_Some.
    + unfold node_ok. cbn. done.
    + by eapply (di_nodes _ _ _ Hinv).
  - apply (di_requests _ _ _ Hinv).
Qed.

Lemma dispatch_no_more (sms : list Summary) (reqs : list nat) (r : nat) (s : Summary)
    (rest : list Z) :
  dispatch_inv cfg sms reqs ->
  sms !! r = Some s -> sm_phase s = InAwait -> sm_inbox s = SENTINEL :: rest ->
  dispatch_inv cfg
    (<[r := {| sm_pushed := sm_pushed s; sm_inbox := rest; sm_phase := Past |}]> sms) reqs.
Proof.
  intros Hinv Hs Hph Hin.
  pose proof (di_count _ _ _ Hinv) as Hcount.
  pose proof (di_nodes _ _ _ Hinv r s Hs) as Hok.
  unfold node_ok in Hok. rewrite Hph, Hin in Hok.
  destruct Hok as [Hr0 [[_ ?]|[Hnot [k' [= <- ->]]]]]; [done|].
  assert (allocated cfg (<[r := {| sm_pushed := sm_pushed s; sm_inbox := [];
               sm_phase := Past |}]> sms) = allocated cfg sms) as Ha
    by (by apply allocated_insert_ne).
  split.
  - rewrite Ha, <- Hcount.
    rewrite (concat_fmap_insert_delta sm_pushed sms r s _ [] Hs)
      by (by rewrite app_nil_r).
    rewrite (concat_fmap_insert_delta replies sms r s _ [] Hs).
    + solve_Permutation.
    + unfold replies. rewrite Hin. cbn [sm_inbox]. rewrite filter_cons, !filter_nil.
      by case_decide.
  - rewrite Ha. apply (di_bound _ _ _ Hinv).
  - intros r' t [(<- & <- & _)|[Hne Ht]]%list_lookup_insert_Some.
    + unfold node_ok. cbn. done.
    + by eapply (di_nodes _ _ _ Hinv).
  - apply (di_requests _ _ _ Hinv).
Qed.

(** The master answers the request at position [pos] with [reply] and
    goes on in phase [ph']. *)
Lemma dispatch_serve (sms : list Summary) (reqs : list nat) (s : Summary)
    (ph' : Phase) (pos src : nat) (d : Summary) (reply : Z) (extra : list Z) :
  dispatch_inv cfg sms reqs ->
  sms !! 0%nat = Some s -> distributes (sm_phase s) -> distributes ph' ->
  reqs !! pos = Some src ->
  <[0%nat := {| sm_pushed := sm_pushed s; sm_inbox := sm_inbox s; sm_phase := ph' |}]> sms
    !! src = Some d ->
  filter (fun k => k <> SENTINEL) [reply] = extra ->
  let alloc' := match ph' with InDistribute next => next
                             | _ => Z.of_nat (work_items cfg) end in
  seqZ 0 alloc' = seqZ 0 (allocated cfg sms) ++ extra ->
  0 <= alloc' <= Z.of_nat (work_items cfg) ->
  dispatch_inv cfg
    (<[src := {| sm_pushed := sm_pushed d; sm_inbox := sm_inbox d ++ [reply];
                 sm_phase := sm_phase d |}]>
       (<[0%nat := {| sm_pushed := sm_pushed s; sm_inbox := sm_inbox s;
                      sm_phase := ph' |}]> sms))
    (delete pos reqs).
Proof.
  intros Hinv Hs Hph Hph' Hpos Hd Hextra alloc' Hseq Hbound.
  pose proof (di_count _ _ _ Hinv) as Hcount.
  pose proof (di_requests _ _ _ Hinv) as Hnd.
  pose proof (di_nodes _ _ _ Hinv 0%nat s Hs) as Hok0.
  pose proof (lookup_lt_Some _ _ _ Hs) as Hlen.
  assert (sm_inbox s = [] /\ 0%nat ∉ reqs) as [Hin0 Hnot0].
  { unfold node_ok in Hok0. destruct (sm_phase s); naive_solver. }
  assert (src ∈ reqs) as Hsrc by (by eapply list_elem_of_lookup_2).
  assert (src <> 0%nat) as Hne by (by intros ->).
  rewrite list_lookup_insert_ne in Hd by done.
  pose proof (di_nodes _ _ _ Hinv src d Hd) as Hokd.
  assert (sm_phase d = InAwait /\ sm_inbox d = []) as [Hphd Hind].
  { unfold node_ok in Hokd. destruct (sm_phase d); naive_solver. }
  set (s' := {| sm_pushed := sm_pushed s; sm_inbox := sm_inbox s; sm_phase := ph' |}).
  set (d' := {| sm_pushed := sm_pushed d; sm_inbox := sm_inbox d ++ [reply];
                sm_phase := sm_phase d |}).
  assert (<[0%nat := s']> sms !! src = Some d) as Hd1
    by (by rewrite list_lookup_insert_ne).
  assert (allocated cfg (<[src := d']> (<[0%nat := s']> sms)) = alloc') as Ha.
  { rewrite allocated_insert_ne by done. by rewrite allocated_insert_0. }
  split.
  - rewrite Ha, Hseq, <- Hcount.
    rewrite (concat_fmap_insert_delta sm_pushed _ src d d' [] Hd1)
      by (by rewrite app_nil_r).
    rewrite (concat_fmap_insert_delta sm_pushed sms 0 s s' [] Hs)
      by (by rewrite app_nil_r).
    rewrite (concat_fmap_insert_delta replies _ src d d' extra Hd1).
    + rewrite (concat_fmap_insert_delta replies sms 0 s s' [] Hs)
        by (by rewrite app_nil_r).
      solve_Permutation.
    + unfold replies, d'. cbn [sm_inbox]. by rewrite filter_app, Hextra.
  - by rewrite Ha.
  - intros r t [(<- & <- & _)|[Hr Ht]]%list_lookup_insert_Some.
    + unfold node_ok, d'. cbn [sm_phase sm_inbox]. rewrite Hphd, Hind.
      split; [done|]. right. split; [|by eexists].
      rewrite (elem_of_delete_NoDup reqs pos src src Hnd Hpos). naive_solver.
    + apply list_lookup_insert_Some in Ht as [(<- & <- & _)|[Hr0 Ht]].
      * unfold node_ok, s'. cbn [sm_phase sm_inbox].
        assert (0%nat ∉ delete pos reqs) as Hnot0'.
        { rewrite (elem_of_delete_NoDup reqs pos src 0 Hnd Hpos). naive_solver. }
        destruct ph'; done.
      * eapply node_ok_reqs; [|by eapply (di_nodes _ _ _ Hinv)].
        rewrite (elem_of_delete_NoDup reqs pos src r Hnd Hpos). naive_solver.
  - rewrite (delete_Permutation reqs pos src Hpos) in Hnd.
    by apply NoDup_cons in Hnd as [_ ?].
Qed.

Lemma dispatch_request (sms : list Summary) (reqs : list nat) (r : nat) (s : Summary) :
  dispatch_inv cfg sms reqs ->
  sms !! r = Some s -> sm_phase s = InMonitor ->
  dispatch_inv cfg
    (<[r := {| sm_pushed := sm_pushed s; sm_inbox := sm_inbox s; sm_phase := InAwait |}]> sms)
    (reqs ++ [r]).
Proof.
  intros Hinv Hs Hph.
  pose proof (di_nodes _ _ _ Hinv r s Hs) as Hok.
  unfold node_ok in Hok. rewrite Hph in Hok. destruct Hok as (Hr0 & Hin & Hnot).
  eapply dispatch_inv_update; [done..| | | |].
  - by apply allocated_insert_ne.
  - unfold node_ok. cbn. split; [done|]. left. split; [|done].
    apply elem_of_app. right. apply list_elem_of_here.
  - intros r' Hne. rewrite elem_of_app, list_elem_of_singleton. naive_solver.
  - apply NoDup_app. split; [apply (di_requests _ _ _ Hinv)|]. split.
    + by intros x Hx ->%list_elem_of_singleton.
    + apply NoDup_singleton.
Qed.

(** The master leaves the loop of line 942, or the loop of line 972. *)
Lemma dispatch_master_on (sms : list Summary) (reqs : list nat) (s : Summary)
    (ph' : Phase) :
  dispatch_inv cfg sms reqs ->
  sms !! 0%nat = Some s ->
  match sm_phase s, ph' with
  | InDistribute next, InDrain => ~ next < Z.of_nat (work_items cfg)
  | InDrain, Past => True
  | _, _ => False
  end ->
  dispatch_inv cfg
    (<[0%nat := {| sm_pushed := sm_pushed s; sm_inbox := sm_inbox s; sm_phase := ph' |}]> sms)
    reqs.
Proof.
  intros Hinv Hs Hph.
  pose proof (di_nodes _ _ _ Hinv 0%nat s Hs) as Hok.
  pose proof (di_bound _ _ _ Hinv) as Hb.
  pose proof (lookup_lt_Some _ _ _ Hs) as Hlen.
  unfold allocated in Hb. rewrite Hs in Hb.
  eapply dispatch_inv_update; [done..| | |done|apply (di_requests _ _ _ Hinv)].
  - rewrite allocated_insert_0 by done. unfold allocated. rewrite Hs. cbn [sm_phase].
    destruct (sm_phase s), ph'; try done. lia.
  - unfold node_ok in *. cbn [sm_phase sm_inbox].
    destruct (sm_phase s), ph'; try done. naive_solver.
Qed.

Lemma summary_load (w : nat) (n n' : Node) :
  load_step cfg w n = Some n' -> summary n' = summary n.
Proof.
  unfold load_step. intros Hstep. repeat case_match; simplify_eq; done.
Qed.

Lemma summary_eval (i : nat) (n n' : Node) :
  eval_step i n = Some n' -> summary n' = summary n.
Proof.
  unfold eval_step. intros Hstep. repeat case_match; simplify_eq; done.
Qed.

Lemma summary_shutdown (indeterminate : nat) (n n' : Node) :
  shutdown_step cfg indeterminate n = Some n' -> summary n' = summary n.
Proof.
  unfold shutdown_step, summary. intros Hstep.
  destruct (main_thread n) eqn:Hpc; try done.
  all: repeat (case_match || case_bool_decide); simplify_eq; cbn; rewrite ?Hpc; done.
Qed.

Lemma summaries_same (rank : nat) (n n' : Node) (c : Cluster) :
  nodes c !! rank = Some n -> summary n' = summary n ->
  summary <$> nodes (update_node rank n' c) = summary <$> nodes c.
Proof.
  intros Hn Hsum. cbn. rewrite list_fmap_insert, Hsum.
  apply list_insert_id. by rewrite list_lookup_fmap, Hn.
Qed.

Lemma summary_lookup (c : Cluster) (rank : nat) (n : Node) :
  nodes c !! rank = Some n -> (summary <$> nodes c) !! rank = Some (summary n).
Proof. intros Hn. by rewrite list_lookup_fmap, Hn. Qed.

Lemma dispatch_inv_serve_step (any_source : nat) (reply : Z) (pc : MainPc)
    (n : Node) (c c' : Cluster) (extra : list Z) :
  nodes c !! 0%nat = Some n ->
  distributes (phase (main_thread n)) -> distributes (phase pc) ->
  filter (fun k => k <> SENTINEL) [reply] = extra ->
  let alloc' := match phase pc with InDistribute next => next
                                  | _ => Z.of_nat (work_items cfg) end in
  seqZ 0 alloc' = seqZ 0 (next_to_allocate cfg c) ++ extra ->
  0 <= alloc' <= Z.of_nat (work_items cfg) ->
  serve_request any_source reply pc n c = Some c' ->
  dispatch_inv cfg (summary <$> nodes c) (requests c) ->
  dispatch_inv cfg (summary <$> nodes c') (requests c').
Proof.
  intros Hn Hph Hph' Hextra alloc' Hseq Hbound. unfold serve_request.
  destruct (requests c !! any_source) as [src|] eqn:Hsrc; [|done].
  destruct (_ !! src) as [dst|] eqn:Hdst; [|done]. intros [= <-] Hinv. cbn.
  rewrite !list_fmap_insert.
  assert (<[0%nat := summary (set_main_thread pc n)]> (summary <$> nodes c) !! src
          = Some (summary dst)) as Hdst'.
  { by rewrite <- list_fmap_insert, list_lookup_fmap, Hdst. }
  revert Hdst'.
  change (summary (set_inbox (inbox dst ++ [reply]) dst))
    with {| sm_pushed := sm_pushed (summary dst);
            sm_inbox := sm_inbox (summary dst) ++ [reply];
            sm_phase := sm_phase (summary dst) |}.
  change (summary (set_main_thread pc n))
    with {| sm_pushed := sm_pushed (summary n); sm_inbox := sm_inbox (summary n);
            sm_phase := phase pc |}.
  intros Hdst'. eapply dispatch_serve; try done. by apply summary_lookup.
Qed.

(** Every step of the cluster keeps the dispatch invariant. *)
Lemma dispatch_inv_step (rank : nat) (a : Action) (c c' : Cluster) :
  cluster_step cfg rank a c = Some c' ->
  dispatch_inv cfg (summary <$> nodes c) (requests c) ->
  dispatch_inv cfg (summary <$> nodes c') (requests c').
Proof.
  unfold cluster_step. destruct (nodes c !! rank) as [n|] eqn:Hn; [|done].
  pose proof (summary_lookup c rank n Hn) as Hsn.
  destruct a as [w|i|any_source indeterminate].
  - destruct (load_step cfg w n) as [n'|] eqn:Hs; [|done]. intros [= <-] Hinv.
    rewrite (summaries_same rank n n'); [done..|]. by eapply summary_load.
  - destruct (eval_step i n) as [n'|] eqn:Hs; [|done]. intros [= <-] Hinv.
    rewrite (summaries_same rank n n'); [done..|]. by eapply summary_eval.
  - unfold is_master. case_bool_decide as Hrank.
    + subst rank. unfold master_step.
      destruct (main_thread n) as [next|workers_done| | | | | | | ] eqn:Hpc.
      3-9: destruct (shutdown_step cfg indeterminate n) as [n'|] eqn:Hs; [|done];
           intros [= <-] Hinv; rewrite (summaries_same 0 n n'); [done..|];
           by eapply summary_shutdown.
      * (* the loop of line 942 *)
        assert (forall Hinv : dispatch_inv cfg (summary <$> nodes c) (requests c),
                  next_to_allocate cfg c = next /\ 0 <= next <= Z.of_nat (work_items cfg))
          as Hnext.
        { intros Hinv. pose proof (di_bound _ _ _ Hinv) as Hb.
          unfold next_to_allocate, allocated in *. rewrite Hsn in *.
          cbn in *. rewrite Hpc in *. done. }
        repeat case_bool_decide.
        -- intros [= <-] Hinv. destruct (Hnext Hinv) as [_ Hb]. cbn.
           rewrite list_fmap_insert.
           replace (summary (set_main_thread (Distribute (next + 1)) (push_load_work next n)))
             with {| sm_pushed := sm_pushed (summary n) ++ [next];
                     sm_inbox := sm_inbox (summary n);
                     sm_phase := InDistribute (next + 1) |}.
           ++ apply dispatch_assign; [done..| |done]. cbn. by rewrite Hpc.
           ++ unfold summary. cbn. rewrite bool_decide_eq_false_2; [done|].
              unfold SENTINEL. lia.
        -- intros Hserve Hinv. destruct (Hnext Hinv) as [Hna Hb].
           assert (filter (fun k => k <> SENTINEL) [next] = [next]) as Hf.
           { rewrite filter_cons, filter_nil. case_decide as Hk; [done|].
             unfold SENTINEL in Hk. lia. }
           assert (distributes (phase (main_thread n))) as Hd0 by (by rewrite Hpc).
           assert (seqZ 0 (next + 1) = seqZ 0 (next_to_allocate cfg c) ++ [next]) as Hseq.
           { rewrite Hna. apply seqZ_next. lia. }
           assert (0 <= next + 1 <= Z.of_nat (work_items cfg)) as Hb' by lia.
           exact (dispatch_inv_serve_step any_source next (Distribute (next + 1)) n c c'
                    [next] Hn Hd0 I Hf Hseq Hb' Hserve Hinv).
        -- by intros [= <-].
        -- intros [= <-] Hinv. cbn. rewrite list_fmap_insert.
           change (summary (set_main_thread (Drain 1) n))
             with {| sm_pushed := sm_pushed (summary n); sm_inbox := sm_inbox (summary n);
                     sm_phase := InDrain |}.
           apply dispatch_master_on; [done..|]. cbn. by rewrite Hpc.
      * (* the loop of line 972 *)
        case_bool_decide.
        -- intros Hserve Hinv.
           assert (next_to_allocate cfg c = Z.of_nat (work_items cfg)) as Hna.
           { unfold next_to_allocate, allocated. rewrite Hsn. cbn. by rewrite Hpc. }
           assert (filter (fun k => k <> SENTINEL) [SENTINEL] = []) as Hf.
           { rewrite filter_cons, filter_nil. by case_decide. }
           assert (distributes (phase (main_thread n))) as Hd0 by (by rewrite Hpc).
           assert (seqZ 0 (Z.of_nat (work_items cfg))
                   = seqZ 0 (next_to_allocate cfg c) ++ []) as Hseq.
           { by rewrite Hna, app_nil_r. }
           assert (0 <= Z.of_nat (work_items cfg) <= Z.of_nat (work_items cfg)) as Hb' by lia.
           exact (dispatch_inv_serve_step any_source SENTINEL (Drain (S workers_done)) n c c'
                    [] Hn Hd0 I Hf Hseq Hb' Hserve Hinv).
        -- intros [= <-] Hinv. cbn. rewrite list_fmap_insert.
           change (summary (set_main_thread (PushLoadSentinels 0) n))
             with {| sm_pushed := sm_pushed (summary n); sm_inbox := sm_inbox (summary n);
                     sm_phase := Past |}.
           apply dispatch_master_on; [done..|]. cbn. by rewrite Hpc.
    + unfold remote_step.
      destruct (main_thread n) as [next|workers_done| | | | | | | ] eqn:Hpc.
      1-2,5-9: destruct (shutdown_step cfg indeterminate n) as [n'|] eqn:Hs; [|done];
           intros [= <-] Hinv; rewrite (summaries_same rank n n'); [done..|];
           by eapply summary_shutdown.
      * case_bool_decide.
        -- intros [= <-] Hinv. cbn. rewrite list_fmap_insert.
           change (summary (set_main_thread AwaitReply n))
             with {| sm_pushed := sm_pushed (summary n); sm_inbox := sm_inbox (summary n);
                     sm_phase := InAwait |}.
           apply dispatch_request; [done..|]. cbn. by rewrite Hpc.
        -- by intros [= <-].
      * destruct (inbox n) as [|next_item rest] eqn:Hin; [done|].
        case_bool_decide as Hk.
        -- subst next_item. intros [= <-] Hinv. cbn. rewrite list_fmap_insert.
           change (summary (set_main_thread (PushLoadSentinels 0) (set_inbox rest n)))
             with {| sm_pushed := sm_pushed (summary n); sm_inbox := rest;
                     sm_phase := Past |}.
           apply dispatch_no_more; [done..| |done]. cbn. by rewrite Hpc.
        -- intros [= <-] Hinv. cbn. rewrite list_fmap_insert.
           replace (summary (set_main_thread Monitor
                               (push_load_work next_item (set_inbox rest n))))
             with {| sm_pushed := sm_pushed (summary n) ++ [next_item];
                     sm_inbox := rest; sm_phase := InMonitor |}.
           ++ eapply dispatch_reply; [done..| | |done]; cbn; [by rewrite Hpc|done].
           ++ unfold summary. cbn. by rewrite bool_decide_eq_false_2.
Qed.

Lemma dispatch_inv_init (num_nodes : nat) :
  dispatch_inv cfg (summary <$> nodes (init_cluster cfg num_nodes)) [].
Proof.
  cbn. rewrite <- list_fmap_compose.
  assert (forall base count,
    concat (sm_pushed <$> (summary ∘ init_node cfg <$> seq base count)) = [] /\
    concat (replies <$> (summary ∘ init_node cfg <$> seq base count)) = []) as Hempty.
  { intros base count. revert base. induction count as [|count IH]; intros base; [done|].
    cbn. destruct (IH (S base)) as [-> ->]. done. }
  destruct (Hempty 0%nat num_nodes) as [HP HR].
  assert (allocated cfg (summary ∘ init_node cfg <$> seq 0 num_nodes) = 0) as Ha.
  { unfold allocated. destruct num_nodes; [done|]. done. }
  split.
  - by rewrite HP, HR, Ha.
  - rewrite Ha. lia.
  - intros r s. rewrite list_lookup_fmap.
    intros (r' & [-> _]%lookup_seq & ->)%fmap_Some. cbn.
    unfold node_ok, init_node, is_master. cbn.
    case_bool_decide; cbn; set_solver.
  - constructor.
Qed.

Lemma dispatch_inv_reach (num_nodes : nat) (c : Cluster) :
  reachable cfg num_nodes c ->
  dispatch_inv cfg (summary <$> nodes c) (requests c).
Proof.
  revert c. apply reachable_ind.
  - apply dispatch_inv_init.
  - intros c rank a c' _ IH Hstep. by eapply dispatch_inv_step.
Qed.

End DispatchFacts.

Lemma dispatched_summaries (c : Pipeline.Cluster) :
  Pipeline.dispatched c
  = concat (Pipeline.sm_pushed <$> (Pipeline.summary <$> Pipeline.nodes c)).
Proof. unfold Pipeline.dispatched. by rewrite <- list_fmap_compose. Qed.

Lemma in_flight_summaries (c : Pipeline.Cluster) :
  Pipeline.in_flight c
  = concat (Pipeline.replies <$> (Pipeline.summary <$> Pipeline.nodes c)).
Proof. unfold Pipeline.in_flight. by rewrite <- list_fmap_compose. Qed.

Lemma concat_fmap_nil {A B} (f : A -> list B) (l : list A) :
  (forall x, x ∈ l -> f x = []) -> concat (f <$> l) = [].
Proof.
  induction l as [|x l IH]; intros Hf; [done|]. cbn.
  rewrite (Hf x) by apply list_elem_of_here. apply IH.
  intros y Hy. apply Hf. by apply list_elem_of_further.
Qed.

Lemma sentinel_shutdown_witness :
  exists c n,
    Pipeline.reachable Scenario.one_item 1 c /\
    Pipeline.nodes c !! 0%nat = Some n /\
    Pipeline.main_thread n = Pipeline.Finished /\
    Pipeline.load_sentinels_pushed (Pipeline.history n)
      = Pipeline.load_sentinels_expected Scenario.one_item (Pipeline.main_thread n) /\
    (forall g,
       Pipeline.eval_sentinels_pushed g (Pipeline.history n)
         = Pipeline.eval_sentinels_expected Scenario.one_item (Pipeline.main_thread n) g /\
       ((0 < Pipeline.eval_sentinels_pushed g (Pipeline.history n))%nat ->
        Pipeline.load_threads_joined (Pipeline.history n)
          = Pipeline.load_workers Scenario.one_item /\
        forall w, (w < Pipeline.load_workers Scenario.one_item)%nat ->
          Pipeline.load_threads n !! w = Some Pipeline.LoadReturned)) /\
    (forall w entry rest,
       Pipeline.load_threads n !! w = Some Pipeline.LoadPop ->
       Pipeline.load_work n = entry :: rest ->
       Pipeline.work_item_index entry = Pipeline.SENTINEL ->
       exists n', Pipeline.load_step Scenario.one_item w n = Some n' /\
                  Pipeline.load_threads n' !! w = Some Pipeline.LoadReturned /\
                  Pipeline.load_work n' = rest /\
                  Pipeline.empty_load_buffers n' = Pipeline.empty_load_buffers n /\
                  Pipeline.eval_work n' = Pipeline.eval_work n /\
                  Pipeline.frame_buffers n' = Pipeline.frame_buffers n) /\
    (forall w, Pipeline.load_threads n !! w = Some Pipeline.LoadReturned ->
               Pipeline.load_step Scenario.one_item w n = None) /\
    (forall i a e rest,
       Pipeline.eval_threads n !! i = Some (a, Pipeline.EvalPop) ->
       Pipeline.eval_work n !! Pipeline.arg_eval_work a = Some (e :: rest) ->
       Pipeline.is_sentinel e ->
       exists n', Pipeline.eval_step i n = Some n' /\
                  Pipeline.eval_threads n' !! i = Some (a, Pipeline.EvalReturned) /\
                  Pipeline.eval_work n'
                    = <[Pipeline.arg_eval_work a := rest]> (Pipeline.eval_work n) /\
                  Pipeline.empty_load_buffers n' = Pipeline.empty_load_buffers n) /\
    (forall i a, Pipeline.eval_threads n !! i = Some (a, Pipeline.EvalReturned) ->
                 Pipeline.eval_step i n = None).
Proof.
  destruct (Pipeline.run Scenario.one_item Scenario.whole_run
              (Pipeline.init_cluster Scenario.one_item 1)) as [c|] eqn:Hrun;
    [|vm_compute in Hrun; discriminate].
  destruct (Pipeline.nodes c !! 0%nat) as [n|] eqn:Hn;
    [|vm_compute in Hrun; injection Hrun as <-; vm_compute in Hn; discriminate].
  exists c, n.
  assert (Pipeline.reachable Scenario.one_item 1 c) as Hreach
    by (exists Scenario.whole_run; exact Hrun).
  split; [exact Hreach|]. split; [exact Hn|]. split.
  { vm_compute in Hrun. injection Hrun as <-. vm_compute in Hn. injection Hn as <-.
    vm_compute. reflexivity. }
  exact (sentinel_shutdown Scenario.one_item 1 c 0 n Hreach Hn).
Defined.

(** ** The pipeline: every work item pushed is evaluated *)

Section DrainFacts.
Import Pipeline.

Variable cfg : Config.

Lemma sentinels_last_push_any {A} (P : A -> Prop) (q : list A) (x : A) :
  ~ Exists P q -> sentinels_last P (q ++ [x]).
Proof.
  induction q as [|y q IH]; intros Hno; cbn.
  - split; [by constructor|done].
  - split.
    + intros Hy. exfalso. apply Hno. by apply Exists_cons_hd.
    + apply IH. intros Hq. apply Hno. by apply Exists_cons_tl.
Qed.

Lemma sentinels_last_push_sentinel {A} (P : A -> Prop) (q : list A) (x : A) :
  sentinels_last P q -> P x -> sentinels_last P (q ++ [x]).
Proof.
  induction q as [|y q IH]; intros Hq Hx; cbn.
  - split; [by constructor|done].
  - destruct Hq as [Hy Hq]. split; [|by apply IH].
    intros HPy. apply Forall_app. split; [by apply Hy|by constructor].
Qed.

Lemma load_items_cons (e : LoadWorkEntry) (q : Queue LoadWorkEntry) :
  load_items (e :: q)
  = (if decide (work_item_index e <> SENTINEL) then [work_item_index e] else [])
    ++ load_items q.
Proof. unfold load_items. rewrite fmap_cons, filter_cons. by case_decide. Qed.

Lemma load_items_push (e : LoadWorkEntry) (q : Queue LoadWorkEntry) :
  load_items (push e q)
  = load_items q
    ++ (if decide (work_item_index e <> SENTINEL) then [work_item_index e] else []).
Proof.
  unfold load_items, push. by rewrite fmap_app, filter_app.
Qed.

Lemma load_items_sentinels (q : Queue LoadWorkEntry) :
  Forall load_sentinel q -> load_items q = [].
Proof.
  induction 1 as [|e q He _ IH]; [done|]. rewrite load_items_cons, IH.
  unfold load_sentinel in He. by case_decide.
Qed.

Lemma eval_items_cons (e : EvalWorkEntry) (q : Queue EvalWorkEntry) :
  eval_items (e :: q)
  = (if decide (is_sentinel e) then [] else [eval_work_item_index e]) ++ eval_items q.
Proof.
  unfold eval_items, carrying. rewrite filter_cons.
  destruct (decide (is_sentinel e)); by case_decide.
Qed.

Lemma eval_items_push (e : EvalWorkEntry) (q : Queue EvalWorkEntry) :
  eval_items (push e q)
  = eval_items q ++ (if decide (is_sentinel e) then [] else [eval_work_item_index e]).
Proof.
  unfold eval_items, carrying, push. rewrite filter_app, fmap_app. f_equal.
  rewrite filter_cons, filter_nil.
  destruct (decide (is_sentinel e)); case_decide; done.
Qed.

Lemma eval_items_sentinels (q : Queue EvalWorkEntry) :
  Forall is_sentinel q -> eval_items q = [].
Proof.
  induction 1 as [|e q He _ IH]; [done|]. rewrite eval_items_cons, IH. by case_decide.
Qed.

Lemma drain_inv_init (rank : nat) : drain_inv cfg (init_node cfg rank).
Proof.
  split; cbn.
  - unfold in_pipeline. cbn.
    assert (forall k, concat (loading <$> replicate k LoadPop) = []) as ->
      by (intros k; induction k; [done|by cbn]).
    assert (forall k, concat (eval_items <$> replicate k []) = []) as ->
      by (intros k; induction k; [done|by cbn]).
    assert (forall l, concat (evaluating <$>
              ((fun i => (eval_thread_args i, EvalPop)) <$> l)) = []) as ->
      by (intros l; induction l; [done|by cbn]).
    done.
  - by intros ?%Exists_nil.
  - by intros w [? _]%lookup_replicate.
  - done.
  - intros g q [-> _]%lookup_replicate. by intros ?%Exists_nil.
  - intros i a. rewrite list_lookup_fmap. by intros (j & _ & ?)%fmap_Some.
  - by intros g q [-> _]%lookup_replicate.
  - destruct (is_master rank); cbn; intros; lia.
Qed.

Ltac keep_dr H :=
  first [ exact (dr_flow _ _ H) | exact (dr_load_sentinel _ _ H)
        | exact (dr_load_returned _ _ H) | exact (dr_load_sorted _ _ H)
        | exact (dr_eval_sentinel _ _ H) | exact (dr_eval_returned _ _ H)
        | exact (dr_eval_sorted _ _ H) | exact (dr_evals_joined _ _ H) ].

Ltac node_cbn :=
  cbn [load_work empty_load_buffers eval_work frame_buffers load_threads
       eval_threads main_thread inbox history
       set_load_work set_empty_load_buffers set_eval_work set_frame_buffers
       set_load_threads set_eval_threads set_main_thread set_inbox record
       push_load_work work_pushed work_evaluated].

(** While a load worker has not returned, no eval queue holds a
    sentinel and no evaluate worker has returned. *)
Lemma load_alive (n : Node) (w : nat) (pc : LoadPc) :
  drain_inv cfg n -> load_threads n !! w = Some pc -> pc <> LoadReturned ->
  (forall g q, eval_work n !! g = Some q -> ~ Exists is_sentinel q) /\
  (forall i a, eval_threads n !! i <> Some (a, EvalReturned)).
Proof.
  intros Hinv Hw Hpc. split.
  - intros g q Hq Hex. pose proof (dr_eval_sentinel _ _ Hinv g q Hq Hex) as Hall.
    rewrite Forall_lookup in Hall. by specialize (Hall w pc Hw).
  - intros i a Hi. destruct (dr_eval_returned _ _ Hinv i a Hi) as [Hall _].
    rewrite Forall_lookup in Hall. by specialize (Hall w pc Hw).
Qed.

Lemma drain_inv_load (w : nat) (n n' : Node) :
  load_step cfg w n = Some n' ->
  buffers_inv cfg n -> drain_inv cfg n -> drain_inv cfg n'.
Proof.
  unfold load_step. intros Hstep Hbuf Hinv.
  destruct (load_threads n !! w) as [pc|] eqn:Hw; [|done].
  assert (pc <> LoadReturned) as Hpc by (by intros ->).
  destruct (load_alive n w pc Hinv Hw Hpc) as [Hnosent Hnoret].
  destruct (concat_fmap_insert loading _ w pc Hw) as (others & Hold & Hnew).
  pose proof (dr_flow _ _ Hinv) as Hflow. unfold in_pipeline in Hflow.
  rewrite Hold in Hflow.
  pose proof (bi_load_items _ _ Hbuf w pc Hw) as Hitem.
  assert (forall pc' w', pc' <> LoadReturned ->
            <[w:=pc']> (load_threads n) !! w' = Some LoadReturned ->
            load_threads n !! w' = Some LoadReturned) as Hother.
  { intros pc' w' Hpc' [(-> & -> & _)|[_ H]]%list_lookup_insert_Some; done. }
  destruct pc as [|k|k b|k b|].
  - (* load_work.pop *)
    destruct (load_work n) as [|entry rest] eqn:Hq; [done|]. cbn in Hstep. simplify_eq.
    pose proof (dr_load_sorted _ _ Hinv) as Hsorted. rewrite Hq in Hsorted.
    destruct Hsorted as [Hhead Hsorted].
    rewrite load_items_cons in Hflow.
    split; node_cbn; unfold in_pipeline; node_cbn.
    + rewrite Hnew, Hflow.
      destruct (decide (work_item_index entry = SENTINEL)) as [Hs|Hs].
      * rewrite bool_decide_eq_true_2 by done. case_decide; [done|]. cbn. done.
      * rewrite bool_decide_eq_false_2 by done. case_decide; [|done]. cbn.
        solve_Permutation.
    + intros Hex. apply (dr_load_sentinel _ _ Hinv). rewrite Hq. by apply Exists_cons_tl.
    + intros w' [(-> & Hret & _)|[_ H]]%list_lookup_insert_Some.
      * case_bool_decide as Hs; [|done]. split; [|by apply Hhead].
        apply (dr_load_sentinel _ _ Hinv). rewrite Hq. by apply Exists_cons_hd.
      * destruct (dr_load_returned _ _ Hinv w' H) as [Hnd Hall]. split; [done|].
        rewrite Hq in Hall. by apply Forall_cons in Hall as [_ ?].
    + done.
    + intros g q' Hq' Hex. by destruct (Hnosent g q' Hq').
    + intros i a Hi. by destruct (Hnoret i a).
    + keep_dr Hinv.
    + keep_dr Hinv.
  - (* empty_load_buffers.pop *)
    destruct (empty_load_buffers n) as [|buffer_entry rest] eqn:Hempty; [done|].
    cbn in Hstep. simplify_eq.
    split; node_cbn; unfold in_pipeline; node_cbn; try keep_dr Hinv.
    + by rewrite Hnew, Hflow.
    + intros w' Hw'. apply (dr_load_returned _ _ Hinv w').
      eapply (Hother _ w'); [|exact Hw']; done.
    + intros g q' Hq' Hex. by destruct (Hnosent g q' Hq').
    + intros i a Hi. by destruct (Hnoret i a).
  - (* the frames are decoded into the buffer *)
    case_bool_decide as Hrange; [|done]. simplify_eq.
    split; node_cbn; unfold in_pipeline; node_cbn; try keep_dr Hinv.
    + by rewrite Hnew, Hflow.
    + intros w' Hw'. apply (dr_load_returned _ _ Hinv w').
      eapply (Hother _ w'); [|exact Hw']; done.
    + intros g q' Hq' Hex. by destruct (Hnosent g q' Hq').
    + intros i a Hi. by destruct (Hnoret i a).
  - (* eval_work[gpu].push *)
    destruct (eval_work n !! gpu_device_id b) as [q|] eqn:Hq; [|done]. simplify_eq.
    destruct (concat_fmap_insert eval_items _ _ q Hq) as (queues & Hqold & Hqnew).
    rewrite Hqold in Hflow. cbn in Hitem.
    split; node_cbn; unfold in_pipeline; node_cbn; try keep_dr Hinv.
    + rewrite Hnew, Hqnew, Hflow, eval_items_push. unfold is_sentinel. cbn.
      case_decide; [done|]. solve_Permutation.
    + intros w' Hw'. apply (dr_load_returned _ _ Hinv w').
      eapply (Hother _ w'); [|exact Hw']; done.
    + intros g q' [(Hg & Hq' & _)|[_ H]]%list_lookup_insert_Some Hex.
      * subst g q'. unfold push in Hex. apply Exists_app in Hex as [Hex|Hex].
        -- by destruct (Hnosent _ q Hq).
        -- apply Exists_cons in Hex as [Hs|Hex%Exists_nil]; done.
      * by destruct (Hnosent g q' H).
    + intros i a Hi. by destruct (Hnoret i a).
    + intros g q' [(Hg & Hq' & _)|[_ H]]%list_lookup_insert_Some.
      * subst g q'. apply sentinels_last_push_any. by eapply Hnosent.
      * by eapply dr_eval_sorted.
  - done.
Qed.

Lemma drain_inv_eval (i : nat) (n n' : Node) :
  eval_step i n = Some n' ->
  buffers_inv cfg n -> drain_inv cfg n -> drain_inv cfg n'.
Proof.
  unfold eval_step. intros Hstep Hbuf Hinv.
  destruct (eval_threads n !! i) as [[a pc]|] eqn:Hi; [|done].
  pose proof (bi_args _ _ Hbuf i _ Hi) as Ha. cbn in Ha. subst a.
  cbn [arg_eval_work arg_gpu_device_id arg_frame_buffers eval_thread_args] in Hstep.
  assert (pc <> EvalReturned) as Hpc by (by intros ->).
  destruct (concat_fmap_insert evaluating _ i _ Hi) as (others & Hold & Hnew).
  pose proof (dr_flow _ _ Hinv) as Hflow. unfold in_pipeline in Hflow.
  rewrite Hold in Hflow.
  assert (forall a0 pc' j a', pc' <> EvalReturned ->
            <[i:=(a0, pc')]> (eval_threads n) !! j = Some (a', EvalReturned) ->
            j <> i /\ eval_threads n !! j = Some (a', EvalReturned)) as Hother.
  { intros a0 pc' j a' Ht' [(-> & [= -> ->] & _)|[? H]]%list_lookup_insert_Some; done. }
  assert (forall t' j, (j < evals_joined cfg (main_thread n))%nat ->
            exists a', <[i:=t']> (eval_threads n) !! j = Some (a', EvalReturned)) as Hjoined.
  { intros t' j Hj. destruct (dr_evals_joined _ _ Hinv j Hj) as [a' Ha'].
    exists a'. rewrite list_lookup_insert_ne; [done|]. intros ->. congruence. }
  destruct pc as [|e|e|].
  - (* eval_work.pop *)
    destruct (eval_work n !! i) as [q|] eqn:Hq; [|done].
    destruct q as [|e rest]; [done|]. cbn in Hstep. simplify_eq.
    destruct (concat_fmap_insert eval_items _ _ _ Hq) as (queues & Hqold & Hqnew).
    rewrite Hqold, eval_items_cons in Hflow.
    pose proof (dr_eval_sorted _ _ Hinv i _ Hq) as [Hhead Hsorted].
    split; node_cbn; unfold in_pipeline; node_cbn; try keep_dr Hinv.
    + rewrite Hnew, Hqnew, Hflow. unfold is_sentinel.
      destruct (decide (eval_work_item_index e = SENTINEL)) as [Hs|Hs].
      * rewrite bool_decide_eq_true_2 by done. cbn. solve_Permutation.
      * rewrite bool_decide_eq_false_2 by done. cbn. solve_Permutation.
    + intros g q' [(Hg & Hq' & _)|[_ H]]%list_lookup_insert_Some Hex.
      * subst g q'. apply (dr_eval_sentinel _ _ Hinv i _ Hq). by apply Exists_cons_tl.
      * by apply (dr_eval_sentinel _ _ Hinv g q' H).
    + intros j a' [(-> & [= <- Hret] & _)|[Hne H]]%list_lookup_insert_Some.
      * case_bool_decide as Hs; [|done]. split.
        -- apply (dr_eval_sentinel _ _ Hinv j _ Hq). by apply Exists_cons_hd.
        -- intros q'. rewrite list_lookup_insert_eq by (by eapply lookup_lt_Some).
           intros [= <-]. by apply Hhead.
      * destruct (dr_eval_returned _ _ Hinv j a' H) as [Hall Hqs]. split; [done|].
        intros q'. rewrite list_lookup_insert_ne by done. apply Hqs.
    + intros g q' [(Hg & Hq' & _)|[_ H]]%list_lookup_insert_Some.
      * by subst g q'.
      * by eapply dr_eval_sorted.
    + intros j Hj. apply Hjoined. done.
  - (* the forward passes *)
    simplify_eq.
    split; node_cbn; unfold in_pipeline; node_cbn; try keep_dr Hinv.
    + rewrite Hnew, Hflow. cbn. solve_Permutation.
    + intros j a' Hj. apply Hother in Hj as [Hne Hj']; [|done].
      by apply (dr_eval_returned _ _ Hinv j a').
    + intros j Hj. by apply Hjoined.
  - (* empty_load_buffers.push *)
    simplify_eq.
    split; node_cbn; unfold in_pipeline; node_cbn; try keep_dr Hinv.
    + by rewrite Hnew, Hflow.
    + intros j a' Hj. apply Hother in Hj as [Hne Hj']; [|done].
      by apply (dr_eval_returned _ _ Hinv j a').
    + intros j Hj. by apply Hjoined.
  - done.
Qed.

(** A step that touches neither the queues nor the workers. *)
Lemma drain_inv_same (n n' : Node) :
  load_work n' = load_work n -> load_threads n' = load_threads n ->
  eval_work n' = eval_work n -> eval_threads n' = eval_threads n ->
  work_pushed (history n') = work_pushed (history n) ->
  work_evaluated (history n') = work_evaluated (history n) ->
  (distributing (main_thread n') -> distributing (main_thread n)) ->
  (forall i, (i < evals_joined cfg (main_thread n'))%nat ->
     exists a, eval_threads n !! i = Some (a, EvalReturned)) ->
  drain_inv cfg n -> drain_inv cfg n'.
Proof.
  intros Hlw Hlt Hew Het Hwp Hwe Hdist Hjoined Hinv.
  split; unfold in_pipeline; rewrite ?Hlw, ?Hlt, ?Hew, ?Het, ?Hwp, ?Hwe; try keep_dr Hinv.
  - intros Hex Hd. by apply (dr_load_sentinel _ _ Hinv Hex), Hdist.
  - intros w Hw. destruct (dr_load_returned _ _ Hinv w Hw) as [Hnd Hall].
    split; [|done]. intros Hd. by apply Hnd, Hdist.
  - done.
Qed.

(** A work item index is pushed into [load_work] by a main thread that
    distributes, and goes on distributing. *)
Lemma drain_inv_push (k : Z) (pc : MainPc) (n : Node) :
  k <> SENTINEL -> distributing (main_thread n) ->
  evals_joined cfg pc = 0%nat ->
  drain_inv cfg n -> drain_inv cfg (set_main_thread pc (push_load_work k n)).
Proof.
  intros Hk Hd Hpc Hinv.
  assert (~ Exists load_sentinel (load_work n)) as Hnosent.
  { intros Hex. by apply (dr_load_sentinel _ _ Hinv Hex). }
  pose proof (dr_flow _ _ Hinv) as Hflow. unfold in_pipeline in Hflow.
  split; node_cbn; unfold in_pipeline; node_cbn; try keep_dr Hinv.
  - rewrite bool_decide_eq_false_2 by done. rewrite load_items_push. cbn.
    case_decide; [|done]. rewrite Hflow. solve_Permutation.
  - intros Hex. unfold push in Hex. apply Exists_app in Hex as [Hex|Hex]; [done|].
    apply Exists_cons in Hex as [Hs|Hex%Exists_nil]; done.
  - intros w Hw. by destruct (dr_load_returned _ _ Hinv w Hw) as [Hnd _].
  - by apply sentinels_last_push_any.
  - rewrite Hpc. intros; lia.
Qed.

Lemma all_load_returned (n : Node) :
  shutdown_inv cfg n -> joins_expected cfg (main_thread n) = load_workers cfg ->
  Forall (fun pc => pc = LoadReturned) (load_threads n).
Proof.
  intros Hsi Hjoins. apply Forall_lookup. intros w pc Hw.
  pose proof (lookup_lt_Some _ _ _ Hw) as Hlt.
  rewrite (si_load_threads _ _ Hsi), <- Hjoins in Hlt.
  pose proof (si_joined_returned _ _ Hsi w Hlt). congruence.
Qed.

Lemma drain_inv_shutdown (indeterminate : nat) (n n' : Node) :
  shutdown_step cfg indeterminate n = Some n' ->
  shutdown_inv cfg n -> drain_inv cfg n -> drain_inv cfg n'.
Proof.
  unfold shutdown_step. intros Hstep Hsi Hinv.
  destruct (main_thread n) as [next|wd| | |i|i|i|i|] eqn:Hpc; try done.
  - (* load_work.push of a sentinel *)
    case_bool_decide as Hi; simplify_eq.
    + pose proof (dr_flow _ _ Hinv) as Hflow. unfold in_pipeline in Hflow.
      split; node_cbn; unfold in_pipeline; node_cbn; try keep_dr Hinv.
      * rewrite bool_decide_eq_true_2 by done. rewrite load_items_push. cbn.
        case_decide; [done|]. by rewrite app_nil_r.
      * by intros _ [].
      * intros w Hw. destruct (dr_load_returned _ _ Hinv w Hw) as [_ Hall].
        split; [by intros []|]. apply Forall_app. split; [done|by constructor].
      * apply sentinels_last_push_sentinel; [by apply (dr_load_sorted _ _ Hinv)|done].
      * cbn; intros; lia.
    + apply (drain_inv_same n); try done. cbn. intros; lia.
  - (* pthread_join of a load worker *)
    case_bool_decide as Hi.
    + destruct (load_threads n !! i) as [[]|] eqn:Hw; try done. simplify_eq.
      apply (drain_inv_same n); try done. cbn. intros; lia.
    + simplify_eq. apply (drain_inv_same n); try done. cbn. intros; lia.
  - (* eval_work[i].push of a sentinel *)
    case_bool_decide as Hi.
    + destruct (eval_work n !! i) as [q|] eqn:Hq; [|done]. simplify_eq.
      assert (Forall (fun pc => pc = LoadReturned) (load_threads n)) as Hall.
      { apply all_load_returned; [done|]. by rewrite Hpc. }
      destruct (concat_fmap_insert eval_items _ _ q Hq) as (queues & Hqold & Hqnew).
      pose proof (dr_flow _ _ Hinv) as Hflow. unfold in_pipeline in Hflow.
      rewrite Hqold in Hflow.
      split; node_cbn; unfold in_pipeline; node_cbn; try keep_dr Hinv.
      * rewrite Hqnew, eval_items_push. cbn. case_decide; [|done].
        by rewrite app_nil_r.
      * by intros _ [].
      * intros w Hw. destruct (dr_load_returned _ _ Hinv w Hw) as [_ ?].
        split; [by intros []|done].
      * done.
      * intros j a Hj. destruct (dr_eval_returned _ _ Hinv j a Hj) as [_ Hqs].
        split; [done|].
        intros q' [(Hg & Hq' & _)|[_ H]]%list_lookup_insert_Some.
        -- subst j q'. apply Forall_app. split; [by apply Hqs|by constructor].
        -- by apply Hqs.
      * intros g q' [(Hg & Hq' & _)|[_ H]]%list_lookup_insert_Some.
        -- subst g q'. apply sentinels_last_push_sentinel; [|done].
           by apply (dr_eval_sorted _ _ Hinv i).
        -- by eapply dr_eval_sorted.
      * cbn; intros; lia.
    + simplify_eq. apply (drain_inv_same n); try done. cbn. intros; lia.
  - (* pthread_join of an evaluate worker *)
    pose proof (dr_evals_joined _ _ Hinv) as Hjoined. rewrite Hpc in Hjoined.
    cbn in Hjoined.
    case_bool_decide as Hi.
    + destruct (eval_threads n !! i) as [[a []]|] eqn:Ht; try done. simplify_eq.
      apply (drain_inv_same n); try done. cbn. intros j Hj.
      destruct (decide (j = i)) as [->|Hne]; [by exists a|].
      apply Hjoined. lia.
    + simplify_eq. apply (drain_inv_same n); try done. cbn. intros j Hj.
      apply Hjoined. pose proof (si_counter _ _ Hsi) as Hc. rewrite Hpc in Hc.
      cbn in Hc. lia.
Qed.

Lemma drain_inv_trans (n n' : Node) :
  node_trans cfg n n' ->
  buffers_inv cfg n -> shutdown_inv cfg n -> drain_inv cfg n -> drain_inv cfg n'.
Proof.
  intros Htrans Hbuf Hsi Hinv.
  destruct Htrans as [w n n' Hstep|i n n' Hstep|ind n n' Hstep|next n Hpc Hlt
    |next n Hpc Hlt|next n Hpc Hge|wd n Hpc|wd n Hpc|n Hpc
    |next_item rest n Hpc Hinbox Hne|rest n Hpc Hinbox|reply n].
  - by eapply drain_inv_load.
  - by eapply drain_inv_eval.
  - by eapply drain_inv_shutdown.
  - apply drain_inv_push; [|by rewrite Hpc|done|done].
    pose proof (si_counter _ _ Hsi) as Hc. rewrite Hpc in Hc. cbn in Hc.
    unfold SENTINEL. lia.
  - apply (drain_inv_same n); try done; [by rewrite Hpc|cbn; intros; lia].
  - apply (drain_inv_same n); try done; [by rewrite Hpc|cbn; intros; lia].
  - apply (drain_inv_same n); try done; [by rewrite Hpc|cbn; intros; lia].
  - apply (drain_inv_same n); try done. cbn; intros; lia.
  - apply (drain_inv_same n); try done; [by rewrite Hpc|cbn; intros; lia].
  - apply drain_inv_push; [done|by cbn; rewrite Hpc|done|].
    apply (drain_inv_same n); try done.
    intros j Hj. cbn in Hj. rewrite Hpc in Hj. cbn in Hj. lia.
  - apply (drain_inv_same n); try done. cbn; intros; lia.
  - apply (drain_inv_same n); try done.
    intros j Hj. cbn in Hj. by apply (dr_evals_joined _ _ Hinv).
Qed.

Lemma drain_inv_reach (rank : nat) (n : Node) :
  node_reach cfg rank n -> drain_inv cfg n.
Proof.
  intros Hreach.
  pose proof (buffers_inv_reach cfg rank) as Hbuf.
  pose proof (shutdown_inv_reach cfg rank) as Hsi.
  induction Hreach as [|n n' Hreach IH Htrans]; [apply drain_inv_init|].
  eapply drain_inv_trans; [done|by apply Hbuf|by apply Hsi|done].
Qed.

(** Once [main] has joined every worker, nothing is left in the queues or
    with the workers. *)
Lemma finished_pipeline_empty (n : Node) :
  (1 <= load_workers cfg)%nat ->
  buffers_inv cfg n -> shutdown_inv cfg n -> drain_inv cfg n ->
  main_thread n = Finished -> in_pipeline n = [].
Proof.
  intros Hworkers Hbuf Hsi Hinv Hpc.
  assert (Forall (fun pc => pc = LoadReturned) (load_threads n)) as Hall.
  { apply all_load_returned; [done|]. by rewrite Hpc. }
  assert (load_threads n !! 0%nat = Some LoadReturned) as Hfirst.
  { apply (si_joined_returned _ _ Hsi). rewrite Hpc. cbn. lia. }
  destruct (dr_load_returned _ _ Hinv _ Hfirst) as [_ Hsent].
  assert (forall i t, eval_threads n !! i = Some t -> t.2 = EvalReturned) as Hevals.
  { intros i t Hi. pose proof (lookup_lt_Some _ _ _ Hi) as Hlt.
    rewrite (bi_eval_threads _ _ Hbuf) in Hlt.
    destruct (dr_evals_joined _ _ Hinv i) as [a Ha]; [by rewrite Hpc|].
    by simplify_eq. }
  unfold in_pipeline. rewrite (load_items_sentinels _ Hsent). cbn.
  rewrite !concat_fmap_nil; [done| | |].
  - intros t [i Hi]%list_elem_of_lookup. unfold evaluating.
    by rewrite (Hevals i t Hi).
  - intros q [g Hq]%list_elem_of_lookup. apply eval_items_sentinels.
    pose proof (lookup_lt_Some _ _ _ Hq) as Hlt.
    rewrite (bi_queues _ _ Hbuf), <- (bi_eval_threads _ _ Hbuf) in Hlt.
    apply lookup_lt_is_Some in Hlt as [[a pc] Ht].
    pose proof (Hevals g _ Ht) as Hret. cbn in Hret. subst pc.
    by apply (dr_eval_returned _ _ Hinv g a Ht).
  - intros pc [w Hw]%list_elem_of_lookup.
    rewrite Forall_lookup in Hall. by rewrite (Hall w pc Hw).
Qed.

End DrainFacts.

Lemma concat_fmap_split {A B} (f g h : A -> list B) (l : list A) :
  (forall x, x ∈ l -> f x ≡ₚ g x ++ h x) ->
  concat (f <$> l) ≡ₚ concat (g <$> l) ++ concat (h <$> l).
Proof.
  induction l as [|x l IH]; intros Hf; [done|]. cbn.
  rewrite (Hf x) by apply list_elem_of_here. rewrite IH.
  - solve_Permutation.
  - intros y Hy. apply Hf. by apply list_elem_of_further.
Qed.

(** C1 - dispatch.  In every state of every run the work item indices
    pushed into the [load_work] queues of the cluster (sentinels left
    out), together with the indices the master has sent that are still
    on their way, are 0, 1, ..., next - 1, each once, for the master's
    counter [next <= N]; every index pushed is either still in a queue
    or with a worker, or has been evaluated, once.  Once all nodes are
    past the distribution of work the indices pushed are 0, ..., N - 1,
    each pushed into one queue once, and once every [main] is past its
    joins (with at least one load worker per node) the work items
    evaluated are 0, ..., N - 1, each once. *)
Theorem every_index_pushed_once (cfg : Pipeline.Config) (num_nodes : nat)
    (c : Pipeline.Cluster) :
  Pipeline.reachable cfg num_nodes c ->
  Pipeline.dispatched c ++ Pipeline.in_flight c
    ≡ₚ seqZ 0 (Pipeline.next_to_allocate cfg c) /\
  0 <= Pipeline.next_to_allocate cfg c <= Z.of_nat (Pipeline.work_items cfg) /\
  Pipeline.dispatched c ≡ₚ Pipeline.in_progress c ++ Pipeline.evaluated c /\
  ((0 < num_nodes)%nat ->
   (forall n, n ∈ Pipeline.nodes c -> ~ Pipeline.distributing (Pipeline.main_thread n)) ->
   Pipeline.dispatched c ≡ₚ seqZ 0 (Z.of_nat (Pipeline.work_items cfg))) /\
  ((0 < num_nodes)%nat -> (1 <= Pipeline.load_workers cfg)%nat ->
   (forall n, n ∈ Pipeline.nodes c -> Pipeline.main_thread n = Pipeline.Finished) ->
   Pipeline.evaluated c ≡ₚ seqZ 0 (Z.of_nat (Pipeline.work_items cfg))).
Proof.
  intros Hc. pose proof (dispatch_inv_reach cfg num_nodes c Hc) as Hinv.
  destruct (reachable_nodes cfg num_nodes c Hc) as [Hlen Hnodes].
  pose proof (Pipeline.di_count _ _ _ Hinv) as Hcount.
  rewrite <- dispatched_summaries, <- in_flight_summaries in Hcount.
  assert (Pipeline.dispatched c ≡ₚ Pipeline.in_progress c ++ Pipeline.evaluated c)
    as Hflow.
  { unfold Pipeline.dispatched, Pipeline.in_progress, Pipeline.evaluated.
    apply concat_fmap_split. intros n [r Hr]%list_elem_of_lookup.
    apply (Pipeline.dr_flow cfg), (drain_inv_reach cfg r), Hnodes, Hr. }
  assert ((0 < num_nodes)%nat ->
          (forall n, n ∈ Pipeline.nodes c ->
                     ~ Pipeline.distributing (Pipeline.main_thread n)) ->
          Pipeline.dispatched c ≡ₚ seqZ 0 (Z.of_nat (Pipeline.work_items cfg)))
    as Hall.
  { intros Hpos Hpast.
    assert (Pipeline.in_flight c = []) as Hnone.
    { unfold Pipeline.in_flight. apply concat_fmap_nil. intros n Hn.
      apply list_elem_of_lookup in Hn as [r Hr].
      pose proof (Pipeline.di_nodes _ _ _ Hinv r _ (summary_lookup c r n Hr)) as Hok.
      pose proof (Hpast n ltac:(by eapply list_elem_of_lookup_2)) as Hp.
      unfold Pipeline.node_ok in Hok. cbn in Hok.
      destruct (Pipeline.main_thread n); cbn in Hok, Hp; try done.
      all: by destruct Hok as [-> _]. }
    rewrite Hnone, app_nil_r in Hcount. rewrite Hcount.
    destruct (Pipeline.nodes c !! 0%nat) as [n0|] eqn:Hn0.
    - unfold Pipeline.next_to_allocate, Pipeline.allocated.
      rewrite (summary_lookup c 0 n0 Hn0). cbn.
      pose proof (Hpast n0 ltac:(by eapply list_elem_of_lookup_2)) as Hp.
      by destruct (Pipeline.main_thread n0).
    - apply lookup_ge_None in Hn0. lia. }
  split; [done|]. split; [apply (Pipeline.di_bound _ _ _ Hinv)|].
  split; [done|]. split; [done|].
  intros Hpos Hworkers Hfinished.
  assert (Pipeline.in_progress c = []) as Hnone.
  { unfold Pipeline.in_progress. apply concat_fmap_nil.
    intros n Hn. pose proof (Hfinished n Hn) as Hpc.
    apply list_elem_of_lookup in Hn as [r Hr]. pose proof (Hnodes r n Hr) as Hreach.
    apply (finished_pipeline_empty cfg); [done| | | |done].
    - by apply (buffers_inv_reach cfg r).
    - by apply (shutdown_inv_reach cfg r).
    - by apply (drain_inv_reach cfg r). }
  rewrite Hnone in Hflow. cbn in Hflow. rewrite <- Hflow. apply Hall; [done|].
  intros n Hn. rewrite (Hfinished n Hn). by intros [].
Qed.

Lemma every_index_pushed_once_witness :
  exists c,
    Pipeline.reachable Scenario.two_items 2 c /\
    (Pipeline.main_thread <$> Pipeline.nodes c) = [Pipeline.Finished; Pipeline.Finished] /\
    (Pipeline.work_pushed ∘ Pipeline.history <$> Pipeline.nodes c) = [[0]; [1]] /\
    (Pipeline.work_evaluated ∘ Pipeline.history <$> Pipeline.nodes c) = [[0]; [1]] /\
    Pipeline.dispatched c ++ Pipeline.in_flight c
      ≡ₚ seqZ 0 (Pipeline.next_to_allocate Scenario.two_items c) /\
    0 <= Pipeline.next_to_allocate Scenario.two_items c
      <= Z.of_nat (Pipeline.work_items Scenario.two_items) /\
    Pipeline.dispatched c ≡ₚ Pipeline.in_progress c ++ Pipeline.evaluated c /\
    ((0 < 2)%nat ->
     (forall n, n ∈ Pipeline.nodes c ->
                ~ Pipeline.distributing (Pipeline.main_thread n)) ->
     Pipeline.dispatched c ≡ₚ seqZ 0 (Z.of_nat (Pipeline.work_items Scenario.two_items))) /\
    ((0 < 2)%nat -> (1 <= Pipeline.load_workers Scenario.two_items)%nat ->
     (forall n, n ∈ Pipeline.nodes c -> Pipeline.main_thread n = Pipeline.Finished) ->
     Pipeline.evaluated c ≡ₚ seqZ 0 (Z.of_nat (Pipeline.work_items Scenario.two_items))).
Proof.
  destruct (Pipeline.run Scenario.two_items Scenario.two_nodes_run
              (Pipeline.init_cluster Scenario.two_items 2)) as [c|] eqn:Hrun;
    [|vm_compute in Hrun; discriminate].
  exists c.
  assert (Pipeline.reachable Scenario.two_items 2 c) as Hreach
    by (exists Scenario.two_nodes_run; exact Hrun).
  split; [exact Hreach|].
  split; [vm_compute in Hrun; injection Hrun as <-; vm_compute; reflexivity|].
  split; [vm_compute in Hrun; injection Hrun as <-; vm_compute; reflexivity|].
  split; [vm_compute in Hrun; injection Hrun as <-; vm_compute; reflexivity|].
  exact (every_index_pushed_once Scenario.two_items 2 c Hreach).
Defined.

(** * Further properties of the pipeline *)

Section PipelineFacts.
Import Pipeline.

Variable cfg : Config.

Lemma sentinels_last_lookup {A} (P : A -> Prop) (q : list A) :
  sentinels_last P q <->
  forall (i j : nat) x y, q !! i = Some x -> q !! j = Some y -> (i < j)%nat -> P x -> P y.
Proof.
  induction q as [|z q IH]; cbn.
  - split; [by intros _ i j x y ?|done].
  - rewrite IH. split.
    + intros [Hz Hq] [|i] [|j] x y Hi Hj Hlt Hx; cbn in *; simplify_eq; try lia.
      * specialize (Hz Hx). rewrite Forall_lookup in Hz. by eapply Hz.
      * eapply (Hq i j); [done..|lia|done].
    + intros Hq. split.
      * intros Hz. apply Forall_lookup. intros j y Hj.
        eapply (Hq 0%nat (S j)); [done..|lia|done].
      * intros i j x y Hi Hj Hlt. eapply (Hq (S i) (S j)); [done..|lia].
Qed.

Lemma queued_sentinels (g : nat) (q : Queue EvalWorkEntry) :
  Forall is_sentinel q -> queued g q = [].
Proof.
  induction 1 as [|e q He _ IH]; [done|]. rewrite queued_cons, IH. by case_decide.
Qed.

Lemma queued_from_sentinels (g : nat) (qs : list (Queue EvalWorkEntry)) :
  Forall (Forall is_sentinel) qs -> queued_from g qs = [].
Proof.
  intros Hqs. revert g. induction Hqs as [|q qs Hq _ IH]; intros g; [done|].
  cbn [queued_from]. by rewrite (queued_sentinels _ _ Hq), IH.
Qed.

(** The work item indices in the queues and with the workers of a
    node have been pushed into its [load_work]. *)
Lemma in_pipeline_pushed (n : Node) (k : Z) :
  drain_inv cfg n -> k ∈ in_pipeline n -> k ∈ work_pushed (history n).
Proof.
  intros Hinv Hk. rewrite (dr_flow _ _ Hinv). apply elem_of_app. by left.
Qed.

(** The indices pushed anywhere in the cluster are below the number of
    work items. *)
Lemma pushed_in_range (num_nodes : nat) (c : Cluster) (rank : nat) (n : Node) (k : Z) :
  reachable cfg num_nodes c -> nodes c !! rank = Some n ->
  k ∈ work_pushed (history n) -> 0 <= k < Z.of_nat (work_items cfg).
Proof.
  intros Hc Hn Hk.
  pose proof (dispatch_inv_reach cfg num_nodes c Hc) as Hinv.
  pose proof (di_count _ _ _ Hinv) as Hcount.
  pose proof (di_bound _ _ _ Hinv) as Hbound.
  assert (k ∈ seqZ 0 (allocated cfg (summary <$> nodes c))) as Hin%elem_of_seqZ.
  { rewrite <- Hcount. apply elem_of_app. left.
    rewrite <- list_fmap_compose.
    apply (elem_of_concat_fmap (sm_pushed ∘ summary) _ rank n k Hn). done. }
  lia.
Qed.

End PipelineFacts.

(** X1 - exclusive use of a buffer.  In every state of every run, on
    every node, no buffer identity is in two places at once; while a
    load worker decodes into a buffer, that buffer is one of the
    allocated ones, it is not in the free queue, no other load worker
    holds it, no entry of an eval queue stands for it, and no evaluate
    worker reads or releases it. *)
Theorem buffer_never_shared (cfg : Pipeline.Config) (num_nodes : nat)
    (c : Pipeline.Cluster) (rank : nat) (n : Pipeline.Node) :
  Pipeline.reachable cfg num_nodes c ->
  Pipeline.nodes c !! rank = Some n ->
  NoDup (Pipeline.all_held n) /\
  forall w k b,
    Pipeline.load_threads n !! w = Some (Pipeline.LoadFill k b) ->
    ((Pipeline.gpu_device_id b < Pipeline.gpus cfg)%nat /\
     (Pipeline.buffer_index b < Pipeline.tasks cfg)%nat) /\
    (b ∉ Pipeline.empty_load_buffers n) /\
    (forall w' pc', Pipeline.load_threads n !! w' = Some pc' ->
                    b ∈ Pipeline.held_by_load pc' -> w' = w) /\
    (forall g q e,
       Pipeline.eval_work n !! g = Some q -> e ∈ q -> ~ Pipeline.is_sentinel e ->
       (g, Pipeline.eval_buffer_index e)
       <> (Pipeline.gpu_device_id b, Pipeline.buffer_index b)) /\
    (forall i a e,
       Pipeline.eval_threads n !! i = Some (a, Pipeline.EvalRun e)
       \/ Pipeline.eval_threads n !! i = Some (a, Pipeline.EvalRelease e) ->
       (Pipeline.arg_gpu_device_id a, Pipeline.eval_buffer_index e)
       <> (Pipeline.gpu_device_id b, Pipeline.buffer_index b)).
Proof.
  intros Hc Hn.
  destruct (reachable_nodes cfg num_nodes c Hc) as [_ Hreach].
  pose proof (buffers_inv_reach cfg rank n (Hreach rank n Hn)) as Hinv.
  split; [by apply (all_held_NoDup cfg)|].
  intros w k b Hw.
  assert (b ∈ Pipeline.held_by_load (Pipeline.LoadFill k b)) as Hb
    by apply list_elem_of_here.
  destruct (load_held_elsewhere cfg n w _ b Hinv Hw Hb) as (Hfree & Hqueued & Heval & Hload).
  split; [|split; [done|split; [done|split]]].
  - apply elem_of_startup_buffers. rewrite <- (Pipeline.bi_held _ _ Hinv).
    unfold Pipeline.all_held. rewrite !elem_of_app. right; left.
    by apply (elem_of_concat_fmap Pipeline.held_by_load _ w _ b Hw).
  - intros g q e Hq He Hs [= -> Hidx]. apply Hqueued.
    apply elem_of_queued_from. exists (Pipeline.gpu_device_id b), q. split; [done|].
    apply elem_of_queued. exists e. split; [done|]. split; [done|].
    destruct b as [gb ib]. cbn in *. by subst.
  - intros i a e Hi [= Hg Hidx]. apply Heval.
    destruct Hi as [Hi|Hi].
    all: apply (elem_of_concat_fmap Pipeline.held_by_eval _ i _ b Hi).
    all: unfold Pipeline.held_by_eval; cbn; destruct b as [gb ib]; cbn in *; subst.
    all: apply list_elem_of_here.
Qed.

Lemma buffer_never_shared_witness :
  exists c n,
    Pipeline.reachable Scenario.one_item 1 c /\
    Pipeline.nodes c !! 0%nat = Some n /\
    Pipeline.load_threads n
      = [Pipeline.LoadFill 0 {| Pipeline.gpu_device_id := 0; Pipeline.buffer_index := 0 |}] /\
    NoDup (Pipeline.all_held n) /\
    forall w k b,
      Pipeline.load_threads n !! w = Some (Pipeline.LoadFill k b) ->
      ((Pipeline.gpu_device_id b < Pipeline.gpus Scenario.one_item)%nat /\
       (Pipeline.buffer_index b < Pipeline.tasks Scenario.one_item)%nat) /\
      (b ∉ Pipeline.empty_load_buffers n) /\
      (forall w' pc', Pipeline.load_threads n !! w' = Some pc' ->
                      b ∈ Pipeline.held_by_load pc' -> w' = w) /\
      (forall g q e,
         Pipeline.eval_work n !! g = Some q -> e ∈ q -> ~ Pipeline.is_sentinel e ->
         (g, Pipeline.eval_buffer_index e)
         <> (Pipeline.gpu_device_id b, Pipeline.buffer_index b)) /\
      (forall i a e,
         Pipeline.eval_threads n !! i = Some (a, Pipeline.EvalRun e)
         \/ Pipeline.eval_threads n !! i = Some (a, Pipeline.EvalRelease e) ->
         (Pipeline.arg_gpu_device_id a, Pipeline.eval_buffer_index e)
         <> (Pipeline.gpu_device_id b, Pipeline.buffer_index b)).
Proof.
  destruct (Pipeline.run Scenario.one_item [Scenario.M; Scenario.L; Scenario.L]
              (Pipeline.init_cluster Scenario.one_item 1)) as [c|] eqn:Hrun;
    [|vm_compute in Hrun; discriminate].
  destruct (Pipeline.nodes c !! 0%nat) as [n|] eqn:Hn;
    [|vm_compute in Hrun; injection Hrun as <-; vm_compute in Hn; discriminate].
  exists c, n.
  assert (Pipeline.reachable Scenario.one_item 1 c) as Hreach
    by (exists [Scenario.M; Scenario.L; Scenario.L]; exact Hrun).
  split; [exact Hreach|]. split; [exact Hn|]. split.
  { vm_compute in Hrun. injection Hrun as <-. vm_compute in Hn. injection Hn as <-.
    vm_compute. reflexivity. }
  exact (buffer_never_shared Scenario.one_item 1 c 0 n Hreach Hn).
Defined.

(** X2 - work item indices stay in range.  In every state of every run,
    on every node, an entry of [load_work] or of an eval queue is a
    sentinel or names one of the work items 0, ..., N - 1, and the index
    a load worker or an evaluate worker has popped and works on is one
    of 0, ..., N - 1: [args.work_items[work_item_index]] is never read
    out of range. *)
Theorem work_item_index_in_range (cfg : Pipeline.Config) (num_nodes : nat)
    (c : Pipeline.Cluster) (rank : nat) (n : Pipeline.Node) :
  Pipeline.reachable cfg num_nodes c ->
  Pipeline.nodes c !! rank = Some n ->
  (forall entry, entry ∈ Pipeline.load_work n ->
     Pipeline.work_item_index entry = Pipeline.SENTINEL \/
     0 <= Pipeline.work_item_index entry < Z.of_nat (Pipeline.work_items cfg)) /\
  (forall w pc k, Pipeline.load_threads n !! w = Some pc -> k ∈ Pipeline.loading pc ->
     0 <= k < Z.of_nat (Pipeline.work_items cfg)) /\
  (forall g q e, Pipeline.eval_work n !! g = Some q -> e ∈ q ->
     Pipeline.eval_work_item_index e = Pipeline.SENTINEL \/
     0 <= Pipeline.eval_work_item_index e < Z.of_nat (Pipeline.work_items cfg)) /\
  (forall i a e, Pipeline.eval_threads n !! i = Some (a, Pipeline.EvalRun e) ->
     0 <= Pipeline.eval_work_item_index e < Z.of_nat (Pipeline.work_items cfg)).
Proof.
  intros Hc Hn.
  destruct (reachable_nodes cfg num_nodes c Hc) as [_ Hreach].
  pose proof (drain_inv_reach cfg rank n (Hreach rank n Hn)) as Hinv.
  assert (forall k, k ∈ Pipeline.in_pipeline n ->
            0 <= k < Z.of_nat (Pipeline.work_items cfg)) as Hrange.
  { intros k Hk. apply (pushed_in_range cfg num_nodes c rank n k Hc Hn).
    by apply (in_pipeline_pushed cfg). }
  unfold Pipeline.in_pipeline in Hrange.
  split; [|split; [|split]].
  - intros entry Hentry.
    destruct (decide (Pipeline.work_item_index entry = Pipeline.SENTINEL)) as [|Hne];
      [by left|right].
    apply Hrange. apply elem_of_app. left. unfold Pipeline.load_items.
    apply list_elem_of_filter. split; [done|]. apply list_elem_of_fmap. by exists entry.
  - intros w pc k Hw Hk. apply Hrange. rewrite !elem_of_app. right; left.
    by apply (elem_of_concat_fmap Pipeline.loading _ w pc).
  - intros g q e Hq He.
    destruct (decide (Pipeline.eval_work_item_index e = Pipeline.SENTINEL)) as [|Hne];
      [by left|right].
    apply Hrange. rewrite !elem_of_app. right; right; left.
    apply (elem_of_concat_fmap Pipeline.eval_items _ g q _ Hq).
    unfold Pipeline.eval_items, Pipeline.carrying. apply list_elem_of_fmap.
    exists e. split; [done|]. by apply list_elem_of_filter.
  - intros i a e Hi. apply Hrange. rewrite !elem_of_app. right; right; right.
    apply (elem_of_concat_fmap Pipeline.evaluating _ i _ _ Hi).
    unfold Pipeline.evaluating. cbn. apply list_elem_of_here.
Qed.

Lemma work_item_index_in_range_witness :
  exists c n,
    Pipeline.reachable Scenario.two_items 2 c /\
    Pipeline.nodes c !! 1%nat = Some n /\
    Pipeline.load_threads n = [Pipeline.LoadAcquire 1] /\
    (forall entry, entry ∈ Pipeline.load_work n ->
       Pipeline.work_item_index entry = Pipeline.SENTINEL \/
       0 <= Pipeline.work_item_index entry
         < Z.of_nat (Pipeline.work_items Scenario.two_items)) /\
    (forall w pc k, Pipeline.load_threads n !! w = Some pc -> k ∈ Pipeline.loading pc ->
       0 <= k < Z.of_nat (Pipeline.work_items Scenario.two_items)) /\
    (forall g q e, Pipeline.eval_work n !! g = Some q -> e ∈ q ->
       Pipeline.eval_work_item_index e = Pipeline.SENTINEL \/
       0 <= Pipeline.eval_work_item_index e
         < Z.of_nat (Pipeline.work_items Scenario.two_items)) /\
    (forall i a e, Pipeline.eval_threads n !! i = Some (a, Pipeline.EvalRun e) ->
       0 <= Pipeline.eval_work_item_index e
         < Z.of_nat (Pipeline.work_items Scenario.two_items)).
Proof.
  destruct (Pipeline.run Scenario.two_items Scenario.distribution
              (Pipeline.init_cluster Scenario.two_items 2)) as [c|] eqn:Hrun;
    [|vm_compute in Hrun; discriminate].
  destruct (Pipeline.nodes c !! 1%nat) as [n|] eqn:Hn;
    [|vm_compute in Hrun; injection Hrun as <-; vm_compute in Hn; discriminate].
  exists c, n.
  assert (Pipeline.reachable Scenario.two_items 2 c) as Hreach
    by (exists Scenario.distribution; exact Hrun).
  split; [exact Hreach|]. split; [exact Hn|]. split.
  { vm_compute in Hrun. injection Hrun as <-. vm_compute in Hn. injection Hn as <-.
    vm_compute. reflexivity. }
  exact (work_item_index_in_range Scenario.two_items 2 c 1 n Hreach Hn).
Defined.

(** X3 - no work item is stranded behind a sentinel.  In every state of
    every run, on every node, the entries that follow a sentinel in
    [load_work] or in an eval queue are sentinels; so when a load worker
    has returned, [load_work] holds nothing but sentinels, and when the
    evaluate worker of a GPU has returned, so does its eval queue. *)
Theorem no_work_behind_sentinel (cfg : Pipeline.Config) (num_nodes : nat)
    (c : Pipeline.Cluster) (rank : nat) (n : Pipeline.Node) :
  Pipeline.reachable cfg num_nodes c ->
  Pipeline.nodes c !! rank = Some n ->
  (forall (i j : nat) x y,
     Pipeline.load_work n !! i = Some x -> Pipeline.load_work n !! j = Some y ->
     (i < j)%nat ->
     Pipeline.work_item_index x = Pipeline.SENTINEL ->
     Pipeline.work_item_index y = Pipeline.SENTINEL) /\
  (forall g q (i j : nat) x y,
     Pipeline.eval_work n !! g = Some q -> q !! i = Some x -> q !! j = Some y ->
     (i < j)%nat ->
     Pipeline.eval_work_item_index x = Pipeline.SENTINEL ->
     Pipeline.eval_work_item_index y = Pipeline.SENTINEL) /\
  (forall w, Pipeline.load_threads n !! w = Some Pipeline.LoadReturned ->
     forall entry, entry ∈ Pipeline.load_work n ->
       Pipeline.work_item_index entry = Pipeline.SENTINEL) /\
  (forall i a, Pipeline.eval_threads n !! i = Some (a, Pipeline.EvalReturned) ->
     forall q e, Pipeline.eval_work n !! i = Some q -> e ∈ q ->
       Pipeline.eval_work_item_index e = Pipeline.SENTINEL).
Proof.
  intros Hc Hn.
  destruct (reachable_nodes cfg num_nodes c Hc) as [_ Hreach].
  pose proof (drain_inv_reach cfg rank n (Hreach rank n Hn)) as Hinv.
  split; [|split; [|split]].
  - pose proof (Pipeline.dr_load_sorted _ _ Hinv) as Hsorted.
    rewrite sentinels_last_lookup in Hsorted. exact Hsorted.
  - intros g q i j x y Hq.
    pose proof (Pipeline.dr_eval_sorted _ _ Hinv g q Hq) as Hsorted.
    rewrite sentinels_last_lookup in Hsorted. exact (Hsorted i j x y).
  - intros w Hw entry Hentry.
    destruct (Pipeline.dr_load_returned _ _ Hinv w Hw) as [_ Hall].
    rewrite Forall_forall in Hall. by apply Hall.
  - intros i a Hi q e Hq He.
    destruct (Pipeline.dr_eval_returned _ _ Hinv i a Hi) as [_ Hall].
    specialize (Hall q Hq). rewrite Forall_forall in Hall. by apply Hall.
Qed.

Lemma no_work_behind_sentinel_witness :
  exists c n,
    Pipeline.reachable Scenario.one_item 1 c /\
    Pipeline.nodes c !! 0%nat = Some n /\
    Pipeline.load_threads n = [Pipeline.LoadReturned] /\
    Pipeline.eval_work n = [[ {| Pipeline.eval_work_item_index := -1;
                                 Pipeline.eval_buffer_index := 7 |} ]] /\
    (forall (i j : nat) x y,
       Pipeline.load_work n !! i = Some x -> Pipeline.load_work n !! j = Some y ->
       (i < j)%nat ->
       Pipeline.work_item_index x = Pipeline.SENTINEL ->
       Pipeline.work_item_index y = Pipeline.SENTINEL) /\
    (forall g q (i j : nat) x y,
       Pipeline.eval_work n !! g = Some q -> q !! i = Some x -> q !! j = Some y ->
       (i < j)%nat ->
       Pipeline.eval_work_item_index x = Pipeline.SENTINEL ->
       Pipeline.eval_work_item_index y = Pipeline.SENTINEL) /\
    (forall w, Pipeline.load_threads n !! w = Some Pipeline.LoadReturned ->
       forall entry, entry ∈ Pipeline.load_work n ->
         Pipeline.work_item_index entry = Pipeline.SENTINEL) /\
    (forall i a, Pipeline.eval_threads n !! i = Some (a, Pipeline.EvalReturned) ->
       forall q e, Pipeline.eval_work n !! i = Some q -> e ∈ q ->
         Pipeline.eval_work_item_index e = Pipeline.SENTINEL).
Proof.
  destruct (Pipeline.run Scenario.one_item Scenario.until_eval_sentinel
              (Pipeline.init_cluster Scenario.one_item 1)) as [c|] eqn:Hrun;
    [|vm_compute in Hrun; discriminate].
  destruct (Pipeline.nodes c !! 0%nat) as [n|] eqn:Hn;
    [|vm_compute in Hrun; injection Hrun as <-; vm_compute in Hn; discriminate].
  exists c, n.
  assert (Pipeline.reachable Scenario.one_item 1 c) as Hreach
    by (exists Scenario.until_eval_sentinel; exact Hrun).
  split; [exact Hreach|]. split; [exact Hn|].
  split; [vm_compute in Hrun; injection Hrun as <-; vm_compute in Hn; injection Hn as <-;
          vm_compute; reflexivity|].
  split; [vm_compute in Hrun; injection Hrun as <-; vm_compute in Hn; injection Hn as <-;
          vm_compute; reflexivity|].
  exact (no_work_behind_sentinel Scenario.one_item 1 c 0 n Hreach Hn).
Defined.

(** X4 - the buffers are idle when they are freed.  Once [main] is past
    the joins (lines 1054-1066 free the buffers there), every load
    worker and every evaluate worker has returned, and the free queue
    holds every buffer identity allocated at start-up, each once. *)
Theorem buffers_free_when_finished (cfg : Pipeline.Config) (num_nodes : nat)
    (c : Pipeline.Cluster) (rank : nat) (n : Pipeline.Node) :
  Pipeline.reachable cfg num_nodes c ->
  Pipeline.nodes c !! rank = Some n ->
  Pipeline.main_thread n = Pipeline.Finished ->
  Pipeline.load_threads n = replicate (Pipeline.load_workers cfg) Pipeline.LoadReturned /\
  (length (Pipeline.eval_threads n) = Pipeline.gpus cfg /\
   Forall (fun t => t.2 = Pipeline.EvalReturned) (Pipeline.eval_threads n)) /\
  Pipeline.empty_load_buffers n ≡ₚ Pipeline.startup_buffers cfg.
Proof.
  intros Hc Hn Hpc.
  destruct (reachable_nodes cfg num_nodes c Hc) as [_ Hreach].
  pose proof (buffers_inv_reach cfg rank n (Hreach rank n Hn)) as Hbuf.
  pose proof (shutdown_inv_reach cfg rank n (Hreach rank n Hn)) as Hsi.
  pose proof (drain_inv_reach cfg rank n (Hreach rank n Hn)) as Hinv.
  assert (Forall (fun pc => pc = Pipeline.LoadReturned) (Pipeline.load_threads n)) as Hload.
  { apply (all_load_returned cfg); [done|]. by rewrite Hpc. }
  assert (forall i t, Pipeline.eval_threads n !! i = Some t ->
                      t.2 = Pipeline.EvalReturned) as Hevals.
  { intros i t Hi. pose proof (lookup_lt_Some _ _ _ Hi) as Hlt.
    rewrite (Pipeline.bi_eval_threads _ _ Hbuf) in Hlt.
    destruct (Pipeline.dr_evals_joined _ _ Hinv i) as [a Ha]; [by rewrite Hpc|].
    by simplify_eq. }
  split; [|split; [split|]].
  - rewrite <- (Pipeline.si_load_threads _ _ Hsi).
    apply list_eq_same_length with (length (Pipeline.load_threads n));
      [by rewrite length_replicate|done|].
    intros w x y Hw Hx Hy. apply lookup_replicate in Hy as [-> _].
    rewrite Forall_lookup in Hload. by apply (Hload w).
  - apply (Pipeline.bi_eval_threads _ _ Hbuf).
  - apply Forall_lookup. exact Hevals.
  - rewrite <- (Pipeline.bi_held _ _ Hbuf). unfold Pipeline.all_held.
    rewrite (concat_fmap_nil Pipeline.held_by_load), (concat_fmap_nil Pipeline.held_by_eval).
    + rewrite queued_from_sentinels; [by rewrite !app_nil_r|].
      apply Forall_lookup. intros g q Hq.
      assert (g < length (Pipeline.eval_threads n))%nat as Hlt.
      { rewrite (Pipeline.bi_eval_threads _ _ Hbuf), <- (Pipeline.bi_queues _ _ Hbuf).
        by eapply lookup_lt_Some. }
      apply lookup_lt_is_Some in Hlt as [[a pc] Ht].
      pose proof (Hevals g _ Ht) as Hret. cbn in Hret. subst pc.
      by apply (Pipeline.dr_eval_returned _ _ Hinv g a Ht).
    + intros t [i Hi]%list_elem_of_lookup. unfold Pipeline.held_by_eval.
      by rewrite (Hevals i t Hi).
    + intros pc [w Hw]%list_elem_of_lookup.
      rewrite Forall_lookup in Hload. by rewrite (Hload w pc Hw).
Qed.

Lemma buffers_free_when_finished_witness :
  exists c n,
    Pipeline.reachable Scenario.one_item 1 c /\
    Pipeline.nodes c !! 0%nat = Some n /\
    Pipeline.main_thread n = Pipeline.Finished /\
    Pipeline.load_threads n
      = replicate (Pipeline.load_workers Scenario.one_item) Pipeline.LoadReturned /\
    (length (Pipeline.eval_threads n) = Pipeline.gpus Scenario.one_item /\
     Forall (fun t => t.2 = Pipeline.EvalReturned) (Pipeline.eval_threads n)) /\
    Pipeline.empty_load_buffers n ≡ₚ Pipeline.startup_buffers Scenario.one_item.
Proof.
  destruct (Pipeline.run Scenario.one_item Scenario.whole_run
              (Pipeline.init_cluster Scenario.one_item 1)) as [c|] eqn:Hrun;
    [|vm_compute in Hrun; discriminate].
  destruct (Pipeline.nodes c !! 0%nat) as [n|] eqn:Hn;
    [|vm_compute in Hrun; injection Hrun as <-; vm_compute in Hn; discriminate].
  exists c, n.
  assert (Pipeline.reachable Scenario.one_item 1 c) as Hreach
    by (exists Scenario.whole_run; exact Hrun).
  assert (Pipeline.main_thread n = Pipeline.Finished) as Hpc.
  { vm_compute in Hrun. injection Hrun as <-. vm_compute in Hn. injection Hn as <-.
    vm_compute. reflexivity. }
  split; [exact Hreach|]. split; [exact Hn|]. split; [exact Hpc|].
  exact (buffers_free_when_finished Scenario.one_item 1 c 0 n Hreach Hn Hpc).
Defined.

(** ** The pipeline: backpressure *)

Section BacklogFacts.
Import Pipeline.

Variable cfg : Config.

Lemma length_load_items (q : Queue LoadWorkEntry) :
  (length (load_items q) <= size q)%nat.
Proof.
  unfold load_items, size. rewrite <- (length_fmap work_item_index q).
  apply length_filter.
Qed.

Lemma size_le_local_work (n : Node) : (size (load_work n) <= local_work n)%nat.
Proof. unfold local_work. lia. Qed.

Lemma length_filter_split {A} (P : A -> Prop) `{forall x, Decision (P x)} (l : list A) :
  length l = (length (filter P l) + length (filter (fun x => ~ P x) l))%nat.
Proof.
  induction l as [|x l IH]; [done|]. rewrite !filter_cons.
  destruct (decide (P x)); destruct (decide (~ P x)); cbn; try done; lia.
Qed.

Lemma backlog_inv_init (rank : nat) : backlog_inv cfg (init_node cfg rank).
Proof.
  split; cbn.
  - unfold is_master. case_bool_decide; cbn; lia.
  - unfold is_master. case_bool_decide; cbn; lia.
  - intros g q [-> _]%lookup_replicate. cbn. lia.
Qed.

Lemma backlog_inv_same (n n' : Node) :
  load_work n' = load_work n -> eval_work n' = eval_work n ->
  main_thread n' = main_thread n ->
  backlog_inv cfg n -> backlog_inv cfg n'.
Proof.
  intros Hlw Hew Hpc [H1 H2 H3]. split; rewrite ?Hlw, ?Hew, ?Hpc; done.
Qed.

Ltac node_cbn :=
  cbn [load_work empty_load_buffers eval_work frame_buffers load_threads
       eval_threads main_thread inbox history
       set_load_work set_empty_load_buffers set_eval_work set_frame_buffers
       set_load_threads set_eval_threads set_main_thread set_inbox record
       push_load_work awaiting load_sentinels_expected eval_sentinels_expected
       counter_in_range] in *.

Lemma backlog_inv_load (w : nat) (n n' : Node) :
  load_step cfg w n = Some n' ->
  buffers_inv cfg n -> backlog_inv cfg n -> backlog_inv cfg n'.
Proof.
  unfold load_step. intros Hstep Hbuf [H1 H2 H3].
  destruct (load_threads n !! w) as [pc|] eqn:Hw; [|done].
  pose proof (bi_load_items _ _ Hbuf w pc Hw) as Hitem.
  destruct pc as [|k|k b|k b|].
  - destruct (load_work n) as [|entry rest] eqn:Hq; [done|]. cbn in Hstep. simplify_eq.
    rewrite load_items_cons, length_app in H1. unfold size in *. cbn [length] in H2.
    split; node_cbn; [lia|unfold size; lia|done].
  - destruct (empty_load_buffers n) as [|b rest]; [done|]. cbn in Hstep. simplify_eq.
    by split.
  - case_bool_decide; [|done]. simplify_eq. by split.
  - destruct (eval_work n !! gpu_device_id b) as [q|] eqn:Hq; [|done]. simplify_eq.
    split; node_cbn; [done..|].
    intros g q' [(Hg & Hq' & _)|[_ Hq']]%list_lookup_insert_Some; [|by apply H3].
    subst g q'. unfold push. rewrite filter_app, filter_cons, filter_nil.
    cbn in Hitem. unfold is_sentinel at 2. cbn [eval_work_item_index].
    case_decide; [done|]. rewrite app_nil_r. by apply H3.
  - done.
Qed.

Lemma backlog_inv_eval (i : nat) (n n' : Node) :
  eval_step i n = Some n' -> backlog_inv cfg n -> backlog_inv cfg n'.
Proof.
  unfold eval_step. intros Hstep [H1 H2 H3].
  destruct (eval_threads n !! i) as [[a pc]|] eqn:Hi; [|done].
  destruct pc as [|e|e|].
  - destruct (eval_work n !! arg_eval_work a) as [q|] eqn:Hq; [|done].
    destruct q as [|e rest]; [done|]. cbn in Hstep. simplify_eq.
    split; node_cbn; [done..|].
    intros g q' [(Hg & Hq' & _)|[_ Hq']]%list_lookup_insert_Some; [|by apply H3].
    subst g q'. specialize (H3 _ _ Hq). rewrite filter_cons in H3.
    case_decide; cbn [length] in H3; lia.
  - simplify_eq. by split.
  - simplify_eq. by split.
  - done.
Qed.

Lemma backlog_inv_shutdown (indeterminate : nat) (n n' : Node) :
  shutdown_step cfg indeterminate n = Some n' ->
  shutdown_inv cfg n -> backlog_inv cfg n -> backlog_inv cfg n'.
Proof.
  unfold shutdown_step. intros Hstep Hsi [H1 H2 H3].
  pose proof (si_counter _ _ Hsi) as Hc.
  destruct (main_thread n) as [next|wd| | |i|i|i|i|] eqn:Hpc; try done; node_cbn.
  - case_bool_decide; simplify_eq.
    + split; node_cbn.
      * rewrite load_items_push, length_app. cbn [work_item_index].
        case_decide; [done|]. cbn [length]. lia.
      * unfold push, size in *. rewrite length_app. cbn [length]. lia.
      * done.
    + split; node_cbn; [lia|lia|done].
  - case_bool_decide.
    + destruct (load_threads n !! i) as [[]|]; try done. simplify_eq.
      split; node_cbn; [lia|lia|done].
    + simplify_eq. split; node_cbn; [lia|lia|].
      intros g q Hq. specialize (H3 g q Hq). case_bool_decide; lia.
  - case_bool_decide.
    + destruct (eval_work n !! i) as [q|] eqn:Hq; [|done]. simplify_eq.
      split; node_cbn; [lia|lia|].
      intros g q' [(Hg & Hq' & _)|[Hne Hq']]%list_lookup_insert_Some.
      * subst g q'. specialize (H3 _ _ Hq).
        rewrite bool_decide_eq_false_2 in H3 by lia.
        rewrite bool_decide_eq_true_2 by lia.
        unfold push. rewrite filter_app, length_app, filter_cons, filter_nil.
        unfold is_sentinel at 2. cbn [eval_work_item_index].
        case_decide; [cbn [length]; lia|done].
      * specialize (H3 g q' Hq'). repeat case_bool_decide; lia.
    + simplify_eq. split; node_cbn; [lia|lia|].
      intros g q Hq. specialize (H3 g q Hq).
      assert (g < gpus cfg)%nat.
      { rewrite <- (si_eval_queues _ _ Hsi). by eapply lookup_lt_Some. }
      rewrite bool_decide_eq_true_2 by done. case_bool_decide; lia.
  - case_bool_decide.
    + destruct (eval_threads n !! i) as [[a []]|]; try done. simplify_eq.
      split; node_cbn; [lia|lia|done].
    + simplify_eq. split; node_cbn; [lia|lia|done].
Qed.

(** A main thread that leaves the distribution of work, or goes on
    with it without pushing. *)
Lemma backlog_inv_main (pc : MainPc) (n : Node) :
  distributing (main_thread n) -> pc <> AwaitReply ->
  load_sentinels_expected cfg pc = 0%nat ->
  (forall g, eval_sentinels_expected cfg pc g = 0%nat) ->
  backlog_inv cfg n -> backlog_inv cfg (set_main_thread pc n).
Proof.
  intros Hd Hpc Hls Hes [H1 H2 H3].
  assert (awaiting pc = 0%nat) as Ha by (by destruct pc).
  assert (load_sentinels_expected cfg (main_thread n) = 0%nat) as Hls0
    by (by destruct (main_thread n)).
  assert (forall g, eval_sentinels_expected cfg (main_thread n) g = 0%nat) as Hes0
    by (intros g; by destruct (main_thread n)).
  split; node_cbn; rewrite ?Ha, ?Hls, ?Hls0 in *; [lia|lia|].
  intros g q Hq. specialize (H3 g q Hq). rewrite Hes0 in H3. rewrite Hes. done.
Qed.

(** A work item index is pushed into [load_work] under the high-water
    test, or in answer to a request sent under it. *)
Lemma backlog_inv_push (k : Z) (pc : MainPc) (n : Node) :
  distributing (main_thread n) -> distributing pc -> pc <> AwaitReply ->
  (local_work n < high_water cfg)%nat \/ main_thread n = AwaitReply ->
  backlog_inv cfg n ->
  backlog_inv cfg (set_main_thread pc (push_load_work k n)).
Proof.
  intros Hd Hd' Hpc Hroom [H1 H2 H3].
  assert (awaiting pc = 0%nat) as Ha by (by destruct pc).
  assert (load_sentinels_expected cfg pc = 0%nat) as Hls by (by destruct pc).
  assert (load_sentinels_expected cfg (main_thread n) = 0%nat) as Hls0
    by (by destruct (main_thread n)).
  assert (forall g, eval_sentinels_expected cfg (main_thread n) g = 0%nat) as Hes0
    by (intros g; by destruct (main_thread n)).
  assert (forall g, eval_sentinels_expected cfg pc g = 0%nat) as Hes
    by (intros g; by destruct pc).
  pose proof (length_load_items (load_work n)) as Hlen.
  pose proof (size_le_local_work n) as Hlocal.
  assert (size (load_work n) + 1 <= high_water cfg)%nat as Hsize.
  { destruct Hroom as [?|Hw]; [lia|]. rewrite Hls0, Hw in H2. cbn [awaiting] in H2. lia. }
  split; node_cbn; rewrite ?Ha, ?Hls.
  - rewrite load_items_push, length_app. case_decide; cbn [length]; lia.
  - unfold push, size in *. rewrite length_app. cbn [length]. lia.
  - intros g q Hq. specialize (H3 g q Hq). rewrite Hes0 in H3. by rewrite Hes.
Qed.

Lemma backlog_ok_update (rank : nat) (n' : Node) (c : Cluster) :
  backlog_ok cfg c -> backlog_inv cfg n' -> backlog_ok cfg (update_node rank n' c).
Proof.
  intros Hok Hn' r m. cbn.
  intros [(_ & <- & _)|[_ Hm]]%list_lookup_insert_Some; [done|by eapply Hok].
Qed.

Lemma backlog_ok_serve (any_source : nat) (reply : Z) (pc : MainPc)
    (n : Node) (c c' : Cluster) :
  backlog_ok cfg c -> backlog_inv cfg (set_main_thread pc n) ->
  serve_request any_source reply pc n c = Some c' -> backlog_ok cfg c'.
Proof.
  intros Hok Hn'. unfold serve_request.
  destruct (requests c !! any_source) as [src|]; [|done].
  destruct (_ !! src) as [dst|] eqn:Hdst; [|done]. intros [= <-] r m. cbn.
  assert (backlog_inv cfg dst) as Hdst'.
  { apply list_lookup_insert_Some in Hdst as [(_ & <- & _)|[_ Hdst]]; [done|].
    by eapply Hok. }
  intros [(_ & <- & _)|[_ Hm]]%list_lookup_insert_Some.
  - by apply (backlog_inv_same dst).
  - apply list_lookup_insert_Some in Hm as [(_ & <- & _)|[_ Hm]]; [done|].
    by eapply Hok.
Qed.

Lemma backlog_ok_step (num_nodes rank : nat) (a : Action) (c c' : Cluster) :
  reachable cfg num_nodes c -> backlog_ok cfg c ->
  cluster_step cfg rank a c = Some c' -> backlog_ok cfg c'.
Proof.
  intros Hc Hok. destruct (reachable_nodes cfg num_nodes c Hc) as [_ Hreach].
  unfold cluster_step. destruct (nodes c !! rank) as [n|] eqn:Hn; [|done].
  pose proof (Hok rank n Hn) as Hinv.
  pose proof (buffers_inv_reach cfg rank n (Hreach rank n Hn)) as Hbuf.
  pose proof (shutdown_inv_reach cfg rank n (Hreach rank n Hn)) as Hsi.
  destruct a as [w|i|any_source indeterminate].
  - destruct (load_step cfg w n) as [n'|] eqn:Hs; [|done]. intros [= <-].
    apply backlog_ok_update; [done|]. by eapply backlog_inv_load.
  - destruct (eval_step i n) as [n'|] eqn:Hs; [|done]. intros [= <-].
    apply backlog_ok_update; [done|]. by eapply backlog_inv_eval.
  - destruct (is_master rank).
    + unfold master_step.
      destruct (main_thread n) as [next|workers_done| | | | | | | ] eqn:Hpc.
      3-9: destruct (shutdown_step cfg indeterminate n) as [n'|] eqn:Hs; [|done];
           intros [= <-]; apply backlog_ok_update; [done|];
           by eapply backlog_inv_shutdown.
      * repeat case_bool_decide.
        -- intros [= <-]. apply backlog_ok_update; [done|].
           apply backlog_inv_push; [by rewrite Hpc|done|done|by left|done].
        -- apply backlog_ok_serve; [done|].
           apply backlog_inv_main; [by rewrite Hpc|done..].
        -- by intros [= <-].
        -- intros [= <-]. apply backlog_ok_update; [done|].
           apply backlog_inv_main; [by rewrite Hpc|done..].
      * case_bool_decide.
        -- apply backlog_ok_serve; [done|].
           apply backlog_inv_main; [by rewrite Hpc|done..].
        -- intros [= <-]. apply backlog_ok_update; [done|].
           apply backlog_inv_main; [by rewrite Hpc|done..].
    + unfold remote_step.
      destruct (main_thread n) as [next|workers_done| | | | | | | ] eqn:Hpc.
      1-2,5-9: destruct (shutdown_step cfg indeterminate n) as [n'|] eqn:Hs; [|done];
           intros [= <-]; apply backlog_ok_update; [done|];
           by eapply backlog_inv_shutdown.
      * case_bool_decide as Hroom.
        -- intros [= <-] r m. cbn.
           intros [(_ & <- & _)|[_ Hm]]%list_lookup_insert_Some; [|by eapply Hok].
           destruct Hinv as [H1 H2 H3]. rewrite Hpc in *. node_cbn.
           pose proof (length_load_items (load_work n)).
           pose proof (size_le_local_work n).
           split; node_cbn; [lia|lia|done].
        -- by intros [= <-].
      * destruct (inbox n) as [|next_item rest] eqn:Hin; [done|].
        case_bool_decide as Hk.
        -- intros [= <-]. apply backlog_ok_update; [done|].
           destruct Hinv as [H1 H2 H3]. rewrite Hpc in *. node_cbn.
           split; node_cbn; [lia|lia|done].
        -- intros [= <-]. apply backlog_ok_update; [done|].
           apply backlog_inv_push; [by cbn; rewrite Hpc|done|done|by right|].
           apply (backlog_inv_same n); done.
Qed.

Lemma backlog_ok_reach (num_nodes : nat) (c : Cluster) :
  reachable cfg num_nodes c -> backlog_ok cfg c.
Proof.
  revert c. apply reachable_ind.
  - intros r n. cbn. rewrite list_lookup_fmap.
    intros (r' & _ & ->)%fmap_Some. apply backlog_inv_init.
  - intros c rank a c' Hc IH Hstep. by eapply backlog_ok_step.
Qed.

End BacklogFacts.

(** X5 - the queues stay short.  In every state of every run, on every
    node: [load_work] holds at most
    [GPUS_PER_NODE * TASKS_IN_QUEUE_PER_GPU] work items, and nothing else
    while [main] distributes work; with the sentinels of line 1011 it
    holds at most [LOAD_WORKERS_PER_NODE] entries more.  An eval queue
    holds at most [TASKS_IN_QUEUE_PER_GPU] entries that carry a buffer,
    and at most one entry more, the sentinel. *)
Theorem queues_stay_bounded (cfg : Pipeline.Config) (num_nodes : nat)
    (c : Pipeline.Cluster) (rank : nat) (n : Pipeline.Node) :
  Pipeline.reachable cfg num_nodes c ->
  Pipeline.nodes c !! rank = Some n ->
  (length (Pipeline.load_items (Pipeline.load_work n)) <= Pipeline.high_water cfg)%nat /\
  (Pipeline.size (Pipeline.load_work n)
   <= Pipeline.high_water cfg + Pipeline.load_workers cfg)%nat /\
  (Pipeline.distributing (Pipeline.main_thread n) ->
   (Pipeline.size (Pipeline.load_work n) <= Pipeline.high_water cfg)%nat) /\
  forall g q, Pipeline.eval_work n !! g = Some q ->
    (length (Pipeline.carrying q) <= Pipeline.tasks cfg)%nat /\
    (Pipeline.size q <= Pipeline.tasks cfg + 1)%nat.
Proof.
  intros Hc Hn.
  destruct (reachable_nodes cfg num_nodes c Hc) as [_ Hreach].
  pose proof (buffers_inv_reach cfg rank n (Hreach rank n Hn)) as Hbuf.
  pose proof (shutdown_inv_reach cfg rank n (Hreach rank n Hn)) as Hsi.
  destruct (backlog_ok_reach cfg num_nodes c Hc rank n Hn) as [H1 H2 H3].
  pose proof (Pipeline.si_counter _ _ Hsi) as Hcount.
  split; [lia|]. split; [|split].
  - destruct (Pipeline.main_thread n); cbn in *; lia.
  - intros Hd. destruct (Pipeline.main_thread n); cbn in *; done || lia.
  - intros g q Hq.
    assert (g < Pipeline.gpus cfg)%nat as Hg.
    { rewrite <- (Pipeline.bi_queues _ _ Hbuf). by eapply lookup_lt_Some. }
    assert (length (Pipeline.carrying q) <= Pipeline.tasks cfg)%nat as Hcarrying.
    { rewrite <- (on_gpu_startup_buffers cfg g Hg).
      unfold Pipeline.on_gpu. rewrite <- (Pipeline.bi_held _ _ Hbuf).
      fold (Pipeline.on_gpu g (Pipeline.all_held n)).
      rewrite <- (buffers_in_circulation_held cfg).
      unfold Pipeline.buffers_in_circulation, Pipeline.eval_queue.
      unfold Pipeline.Queue in *. rewrite Hq.
      change (default [] (Some q)) with q. lia. }
    split; [done|].
    specialize (H3 g q Hq). unfold Pipeline.size.
    assert (length q = length (filter Pipeline.is_sentinel q)
                       + length (Pipeline.carrying q))%nat as Hsplit
      by apply length_filter_split.
    assert (Pipeline.eval_sentinels_expected cfg (Pipeline.main_thread n) g <= 1)%nat.
    { destruct (Pipeline.main_thread n); cbn; try case_bool_decide; lia. }
    rewrite Hsplit.
    etrans; [apply Nat.add_le_mono; [exact H3|exact Hcarrying]|]. lia.
Qed.

Lemma queues_stay_bounded_witness :
  exists c n,
    Pipeline.reachable Scenario.one_item 1 c /\
    Pipeline.nodes c !! 0%nat = Some n /\
    Pipeline.load_work n = [ {| Pipeline.work_item_index := 0 |} ] /\
    Pipeline.high_water Scenario.one_item = 1%nat /\
    (length (Pipeline.load_items (Pipeline.load_work n))
     <= Pipeline.high_water Scenario.one_item)%nat /\
    (Pipeline.size (Pipeline.load_work n)
     <= Pipeline.high_water Scenario.one_item + Pipeline.load_workers Scenario.one_item)%nat /\
    (Pipeline.distributing (Pipeline.main_thread n) ->
     (Pipeline.size (Pipeline.load_work n) <= Pipeline.high_water Scenario.one_item)%nat) /\
    forall g q, Pipeline.eval_work n !! g = Some q ->
      (length (Pipeline.carrying q) <= Pipeline.tasks Scenario.one_item)%nat /\
      (Pipeline.size q <= Pipeline.tasks Scenario.one_item + 1)%nat.
Proof.
  destruct (Pipeline.run Scenario.one_item [Scenario.M]
              (Pipeline.init_cluster Scenario.one_item 1)) as [c|] eqn:Hrun;
    [|vm_compute in Hrun; discriminate].
  destruct (Pipeline.nodes c !! 0%nat) as [n|] eqn:Hn;
    [|vm_compute in Hrun; injection Hrun as <-; vm_compute in Hn; discriminate].
  exists c, n.
  assert (Pipeline.reachable Scenario.one_item 1 c) as Hreach
    by (exists [Scenario.M]; exact Hrun).
  split; [exact Hreach|]. split; [exact Hn|].
  split; [vm_compute in Hrun; injection Hrun as <-; vm_compute in Hn; injection Hn as <-;
          vm_compute; reflexivity|].
  split; [reflexivity|].
  exact (queues_stay_bounded Scenario.one_item 1 c 0 n Hreach Hn).
Defined.

(** X6 - requests and replies pair up.  In every state of every run no
    node has two requests for work pending at the master, a request is
    pending only from a node other than the master that blocks in the
    receive of line 995 with no reply on its way, a reply is on its way
    only to such a node with no request pending, and never more than
    one; the dispatch loops run on rank 0 only and the monitor loop on
    the other ranks only. *)
Theorem one_request_per_node (cfg : Pipeline.Config) (num_nodes : nat)
    (c : Pipeline.Cluster) :
  Pipeline.reachable cfg num_nodes c ->
  NoDup (Pipeline.requests c) /\
  forall rank n, Pipeline.nodes c !! rank = Some n ->
    (rank ∈ Pipeline.requests c ->
     rank <> 0%nat /\ Pipeline.main_thread n = Pipeline.AwaitReply /\ Pipeline.inbox n = []) /\
    (length (Pipeline.inbox n) <= 1)%nat /\
    (Pipeline.inbox n <> [] ->
     rank <> 0%nat /\ Pipeline.main_thread n = Pipeline.AwaitReply /\
     (rank ∉ Pipeline.requests c)) /\
    ((exists next, Pipeline.main_thread n = Pipeline.Distribute next) \/
     (exists workers_done, Pipeline.main_thread n = Pipeline.Drain workers_done) ->
     rank = 0%nat) /\
    (Pipeline.main_thread n = Pipeline.Monitor \/
     Pipeline.main_thread n = Pipeline.AwaitReply -> rank <> 0%nat).
Proof.
  intros Hc. pose proof (dispatch_inv_reach cfg num_nodes c Hc) as Hinv.
  split; [apply (Pipeline.di_requests _ _ _ Hinv)|].
  intros rank n Hn.
  pose proof (Pipeline.di_nodes _ _ _ Hinv rank _ (summary_lookup c rank n Hn)) as Hok.
  unfold Pipeline.node_ok in Hok. cbn in Hok.
  destruct (Pipeline.main_thread n) eqn:Hpc; cbn in Hok.
  all: repeat match goal with
       | H : _ /\ _ |- _ => destruct H
       | H : _ \/ _ |- _ => destruct H
       | H : exists _, _ |- _ => destruct H
       end.
  all: repeat split; try done.
  all: try (intros; by repeat match goal with
                       | H : _ \/ _ |- _ => destruct H
                       | H : exists _, _ |- _ => destruct H
                       end).
  all: match goal with H : Pipeline.inbox _ = _ |- _ => rewrite H end; cbn; lia.
Qed.

Lemma one_request_per_node_witness :
  exists c,
    Pipeline.reachable Scenario.two_items 2 c /\
    Pipeline.requests c = [1%nat] /\
    NoDup (Pipeline.requests c) /\
    forall rank n, Pipeline.nodes c !! rank = Some n ->
      (rank ∈ Pipeline.requests c ->
       rank <> 0%nat /\ Pipeline.main_thread n = Pipeline.AwaitReply /\
       Pipeline.inbox n = []) /\
      (length (Pipeline.inbox n) <= 1)%nat /\
      (Pipeline.inbox n <> [] ->
       rank <> 0%nat /\ Pipeline.main_thread n = Pipeline.AwaitReply /\
       (rank ∉ Pipeline.requests c)) /\
      ((exists next, Pipeline.main_thread n = Pipeline.Distribute next) \/
       (exists workers_done, Pipeline.main_thread n = Pipeline.Drain workers_done) ->
       rank = 0%nat) /\
      (Pipeline.main_thread n = Pipeline.Monitor \/
       Pipeline.main_thread n = Pipeline.AwaitReply -> rank <> 0%nat).
Proof.
  destruct (Pipeline.run Scenario.two_items [Scenario.M; Scenario.R]
              (Pipeline.init_cluster Scenario.two_items 2)) as [c|] eqn:Hrun;
    [|vm_compute in Hrun; discriminate].
  exists c.
  assert (Pipeline.reachable Scenario.two_items 2 c) as Hreach
    by (exists [Scenario.M; Scenario.R]; exact Hrun).
  split; [exact Hreach|].
  split; [vm_compute in Hrun; injection Hrun as <-; vm_compute; reflexivity|].
  exact (one_request_per_node Scenario.two_items 2 c Hreach).
Defined.

(** ** The cluster: the end of the distribution *)

Section HandshakeFacts.
Import Pipeline.

Variable cfg : Config.

Lemma main_thread_load (w : nat) (n n' : Node) :
  load_step cfg w n = Some n' -> main_thread n' = main_thread n.
Proof. unfold load_step. intros Hstep. repeat case_match; simplify_eq; done. Qed.

Lemma main_thread_eval (i : nat) (n n' : Node) :
  eval_step i n = Some n' -> main_thread n' = main_thread n.
Proof. unfold eval_step. intros Hstep. repeat case_match; simplify_eq; done. Qed.

Lemma count_insert {A} (P : A -> Prop) `{forall x, Decision (P x)}
    (l : list A) (i : nat) (x y : A) :
  l !! i = Some y ->
  (length (filter P (<[i:=x]> l)) + (if decide (P y) then 1 else 0)
   = length (filter P l) + (if decide (P x) then 1 else 0))%nat.
Proof.
  revert i. induction l as [|z l IH]; intros [|i] Hi; cbn in Hi; simplify_eq.
  - change (<[0%nat:=x]> (y :: l)) with (x :: l). rewrite !filter_cons.
    destruct (decide (P x)), (decide (P y)); cbn [length]; lia.
  - change (<[S i:=x]> (z :: l)) with (z :: <[i:=x]> l). rewrite !filter_cons.
    specialize (IH i Hi). destruct (decide (P z)); cbn [length]; lia.
Qed.

Lemma told_count_master (ns : list Node) (n' : Node) :
  told_count (<[0%nat := n']> ns) = told_count ns.
Proof. unfold told_count. by destruct ns. Qed.

Lemma told_count_remote (ns : list Node) (rank : nat) (n n' : Node) :
  rank <> 0%nat -> ns !! rank = Some n ->
  (told_count (<[rank := n']> ns) + (if told (summary n) then 1 else 0)
   = told_count ns + (if told (summary n') then 1 else 0))%nat.
Proof.
  intros Hrank Hn. destruct rank as [|rank]; [done|]. destruct ns as [|n0 ns]; [done|].
  cbn in Hn. unfold told_count. cbn [tail].
  change (<[S rank := n']> (n0 :: ns)) with (n0 :: <[rank := n']> ns). cbn [tail].
  pose proof (count_insert (fun n => told (summary n) = true) ns rank n' n Hn) as Hcount.
  repeat case_decide.
  all: repeat match goal with
       | H : told _ = true |- _ => rewrite H; clear H
       | H : told _ <> true |- _ => apply not_true_is_false in H; rewrite H; clear H
       end.
  all: exact Hcount.
Qed.

Lemma told_count_bound (ns : list Node) : (S (told_count ns) <= length ns \/ ns = [])%nat.
Proof.
  destruct ns as [|n0 ns]; [by right|left]. unfold told_count. cbn.
  pose proof (length_filter (fun n => told (summary n) = true) ns). lia.
Qed.

(** A step of a node that changes neither its position in [main] nor
    what the dispatch sees of it. *)
Lemma handshake_same (ns : list Node) (rank : nat) (n n' : Node) :
  ns !! rank = Some n ->
  main_thread n' = main_thread n -> summary n' = summary n ->
  handshake_inv ns -> handshake_inv (<[rank := n']> ns).
Proof.
  intros Hn Hpc Hsum. unfold handshake_inv. rewrite length_insert.
  destruct (decide (rank = 0%nat)) as [->|Hrank].
  - rewrite Hn, list_lookup_insert_eq by (by eapply lookup_lt_Some).
    by rewrite Hpc, told_count_master.
  - rewrite list_lookup_insert_ne by done.
    pose proof (told_count_remote ns rank n n' Hrank Hn) as Hcount.
    rewrite Hsum in Hcount.
    assert (told_count (<[rank := n']> ns) = told_count ns) as -> by lia. done.
Qed.

(** A step of a node other than the master that does not change
    whether it has been told. *)
Lemma handshake_remote (ns : list Node) (rank : nat) (n n' : Node) :
  rank <> 0%nat -> ns !! rank = Some n ->
  told (summary n') = told (summary n) ->
  handshake_inv ns -> handshake_inv (<[rank := n']> ns).
Proof.
  intros Hrank Hn Htold. unfold handshake_inv. rewrite length_insert.
  rewrite list_lookup_insert_ne by done.
  pose proof (told_count_remote ns rank n n' Hrank Hn) as Hcount.
  rewrite Htold in Hcount.
  assert (told_count (<[rank := n']> ns) = told_count ns) as -> by lia. done.
Qed.

(** The master answers the request at position [any_source]. *)
Lemma handshake_serve (num_nodes any_source : nat) (reply : Z) (pc : MainPc)
    (n : Node) (c c' : Cluster) :
  reachable cfg num_nodes c ->
  nodes c !! 0%nat = Some n ->
  serve_request any_source reply pc n c = Some c' ->
  exists src dst,
    src <> 0%nat /\ nodes c !! src = Some dst /\
    main_thread dst = AwaitReply /\ inbox dst = [] /\
    nodes c' = <[src := set_inbox [reply] dst]> (<[0%nat := set_main_thread pc n]> (nodes c)).
Proof.
  intros Hc Hn. pose proof (dispatch_inv_reach cfg num_nodes c Hc) as Hinv.
  unfold serve_request.
  destruct (requests c !! any_source) as [src|] eqn:Hsrc; [|done].
  destruct (_ !! src) as [dst|] eqn:Hdst; [|done]. intros [= <-]. cbn.
  apply list_elem_of_lookup_2 in Hsrc.
  assert (src <> 0%nat) as Hne.
  { intros ->.
    pose proof (di_nodes _ _ _ Hinv 0%nat _ (summary_lookup c 0 n Hn)) as Hok.
    unfold node_ok in Hok. destruct (sm_phase (summary n)); naive_solver. }
  rewrite list_lookup_insert_ne in Hdst by done.
  pose proof (di_nodes _ _ _ Hinv src _ (summary_lookup c src dst Hdst)) as Hok.
  unfold node_ok in Hok. cbn in Hok.
  exists src, dst.
  destruct (main_thread dst) eqn:Hpc; cbn in Hok; try naive_solver.
  destruct Hok as [_ [[_ Hin]|[? _]]]; [|done].
  rewrite Hin. done.
Qed.

Lemma told_awaiting (dst : Node) (reply : Z) :
  main_thread dst = AwaitReply ->
  told (summary (set_inbox [reply] dst)) = bool_decide (reply = SENTINEL).
Proof.
  intros Hpc. unfold told. cbn. rewrite Hpc. cbn.
  apply bool_decide_ext. split; [by intros [= ->]|by intros ->].
Qed.

Lemma told_requesting (dst : Node) :
  main_thread dst = AwaitReply -> inbox dst = [] -> told (summary dst) = false.
Proof. intros Hpc Hin. unfold told. cbn. by rewrite Hpc, Hin. Qed.

Lemma handshake_step (num_nodes rank : nat) (a : Action) (c c' : Cluster) :
  reachable cfg num_nodes c -> handshake_inv (nodes c) ->
  cluster_step cfg rank a c = Some c' -> handshake_inv (nodes c').
Proof.
  intros Hc Hok. destruct (reachable_nodes cfg num_nodes c Hc) as [_ Hreach].
  pose proof (dispatch_inv_reach cfg num_nodes c Hc) as Hdisp.
  unfold cluster_step. destruct (nodes c !! rank) as [n|] eqn:Hn; [|done].
  pose proof (shutdown_inv_reach cfg rank n (Hreach rank n Hn)) as Hsi.
  pose proof (di_nodes _ _ _ Hdisp rank _ (summary_lookup c rank n Hn)) as Hnode.
  unfold node_ok in Hnode. cbn in Hnode.
  destruct a as [w|i|any_source indeterminate].
  - destruct (load_step cfg w n) as [n'|] eqn:Hs; [|done]. intros [= <-]. cbn.
    eapply handshake_same; [done|by eapply main_thread_load|by eapply summary_load|done].
  - destruct (eval_step i n) as [n'|] eqn:Hs; [|done]. intros [= <-]. cbn.
    eapply handshake_same; [done|by eapply main_thread_eval|by eapply summary_eval|done].
  - unfold is_master. case_bool_decide as Hrank.
    + subst rank. unfold master_step.
      pose proof (told_count_bound (nodes c)) as Hbound.
      unfold handshake_inv in Hok. rewrite Hn in Hok.
      destruct (main_thread n) as [next|workers_done| | | | | | | ] eqn:Hpc;
        cbn in Hnode; try (by destruct Hnode).
      3-7: destruct (shutdown_step cfg indeterminate n) as [n'|] eqn:Hs; [|done];
           intros [= <-]; cbn; unfold handshake_inv;
           rewrite list_lookup_insert_eq by (by eapply lookup_lt_Some);
           rewrite length_insert, told_count_master;
           unfold shutdown_step in Hs; rewrite Hpc in Hs;
           repeat (case_match || case_bool_decide); simplify_eq; cbn; done.
      * repeat case_bool_decide.
        -- intros [= <-]. cbn. unfold handshake_inv.
           rewrite list_lookup_insert_eq by (by eapply lookup_lt_Some).
           cbn. by rewrite told_count_master.
        -- intros Hserve.
           destruct (handshake_serve _ _ _ _ _ _ _ Hc Hn Hserve)
             as (src & dst & Hsrc & Hdst & Hwait & Hin & ->).
           unfold handshake_inv. rewrite list_lookup_insert_ne by done.
           rewrite list_lookup_insert_eq by (by eapply lookup_lt_Some). cbn.
           assert (<[0%nat := set_main_thread (Distribute (next + 1)) n]> (nodes c) !! src
                   = Some dst) as Hdst' by (by rewrite list_lookup_insert_ne).
           pose proof (told_count_remote _ src dst (set_inbox [next] dst) Hsrc Hdst')
             as Hcount.
           rewrite told_count_master, (told_requesting dst Hwait Hin),
             (told_awaiting dst next Hwait) in Hcount.
           rewrite bool_decide_eq_false_2 in Hcount; [lia|].
           pose proof (si_counter _ _ Hsi) as Hcnt. rewrite Hpc in Hcnt. cbn in Hcnt.
           unfold SENTINEL. lia.
        -- by intros [= <-]; unfold handshake_inv; rewrite Hn, Hpc.
        -- intros [= <-]. cbn. unfold handshake_inv.
           rewrite list_lookup_insert_eq by (by eapply lookup_lt_Some).
           cbn. rewrite told_count_master. lia.
      * case_bool_decide as Hwd.
        -- intros Hserve.
           destruct (handshake_serve _ _ _ _ _ _ _ Hc Hn Hserve)
             as (src & dst & Hsrc & Hdst & Hwait & Hin & ->).
           unfold handshake_inv. rewrite list_lookup_insert_ne by done.
           rewrite list_lookup_insert_eq by (by eapply lookup_lt_Some). cbn.
           assert (<[0%nat := set_main_thread (Drain (S workers_done)) n]> (nodes c) !! src
                   = Some dst) as Hdst' by (by rewrite list_lookup_insert_ne).
           pose proof (told_count_remote _ src dst (set_inbox [SENTINEL] dst) Hsrc Hdst')
             as Hcount.
           rewrite told_count_master, (told_requesting dst Hwait Hin),
             (told_awaiting dst SENTINEL Hwait) in Hcount.
           rewrite bool_decide_eq_true_2 in Hcount by done. lia.
        -- intros [= <-]. cbn. unfold handshake_inv.
           rewrite list_lookup_insert_eq by (by eapply lookup_lt_Some).
           cbn. rewrite length_insert, told_count_master.
           destruct Hbound as [?|Hnil]; [lia|]. by rewrite Hnil in Hn.
    + unfold remote_step.
      destruct (main_thread n) as [next|workers_done| | | | | | | ] eqn:Hpc;
        cbn in Hnode; try (by destruct Hnode).
      3-7: destruct (shutdown_step cfg indeterminate n) as [n'|] eqn:Hs; [|done];
           intros [= <-]; cbn; eapply handshake_remote; [done|done| |done];
           rewrite (summary_shutdown cfg _ _ _ Hs); done.
      * case_bool_decide as Hroom.
        -- intros [= <-]. cbn. eapply handshake_remote; [done|done| |done].
           destruct Hnode as (_ & Hin & _). unfold told. cbn. rewrite Hpc. cbn.
           by rewrite Hin.
        -- by intros [= <-].
      * destruct (inbox n) as [|next_item rest] eqn:Hin; [done|].
        assert (rest = []) as ->.
        { destruct Hnode as [_ [[_ ?]|[_ [k ?]]]]; by simplify_eq. }
        case_bool_decide as Hk.
        -- subst next_item. intros [= <-]. cbn.
           eapply handshake_remote; [done|done| |done].
           unfold told. cbn. rewrite Hpc, Hin. done.
        -- intros [= <-]. cbn. eapply handshake_remote; [done|done| |done].
           unfold told. cbn. rewrite Hpc, Hin. cbn.
           symmetry. apply bool_decide_eq_false_2. by intros [= ?].
Qed.

Lemma handshake_init (num_nodes : nat) :
  handshake_inv (nodes (init_cluster cfg num_nodes)).
Proof.
  unfold handshake_inv, told_count. cbn.
  destruct num_nodes as [|k]; [done|]. cbn.
  assert (forall l : list nat, Forall (fun r => r <> 0%nat) l ->
            filter (fun n => told (summary n) = true) (init_node cfg <$> l) = []) as Hnone.
  { intros l. induction 1 as [|r l Hr _ IH]; [done|]. rewrite fmap_cons.
    rewrite filter_cons, IH. unfold told, init_node, is_master. cbn.
    rewrite bool_decide_eq_false_2 by done. cbn. by case_decide. }
  rewrite Hnone; [done|].
  apply Forall_forall. intros r Hr%elem_of_seq. lia.
Qed.

Lemma handshake_reach (num_nodes : nat) (c : Cluster) :
  reachable cfg num_nodes c -> handshake_inv (nodes c).
Proof.
  revert c. apply reachable_ind.
  - apply handshake_init.
  - intros c rank a c' Hc IH Hstep. by eapply handshake_step.
Qed.

Lemma told_none (ns : list Node) (rank : nat) (n : Node) :
  told_count ns = 0%nat -> rank <> 0%nat -> ns !! rank = Some n ->
  told (summary n) = false.
Proof.
  intros Hcount Hrank Hn. destruct rank as [|rank]; [done|].
  destruct ns as [|n0 ns]; [done|]. cbn in Hn. unfold told_count in Hcount. cbn in Hcount.
  apply length_zero_iff_nil in Hcount.
  destruct (told (summary n)) eqn:Ht; [|done].
  assert (n ∈ filter (fun n => told (summary n) = true) ns) as Hin.
  { apply list_elem_of_filter. split; [done|]. by eapply list_elem_of_lookup_2. }
  rewrite Hcount in Hin. by apply elem_of_nil in Hin.
Qed.

Lemma filter_all {A} (P : A -> Prop) `{forall x, Decision (P x)} (l : list A) :
  length (filter P l) = length l -> Forall P l.
Proof.
  induction l as [|x l IH]; [done|]. rewrite filter_cons.
  pose proof (length_filter P l).
  destruct (decide (P x)); cbn; intros Hlen; [|lia].
  constructor; [done|]. apply IH. lia.
Qed.

Lemma told_all (ns : list Node) (rank : nat) (n : Node) :
  S (told_count ns) = length ns -> rank <> 0%nat -> ns !! rank = Some n ->
  told (summary n) = true.
Proof.
  intros Hcount Hrank Hn. destruct rank as [|rank]; [done|].
  destruct ns as [|n0 ns]; [done|]. cbn in Hn. unfold told_count in Hcount. cbn in Hcount.
  assert (Forall (fun n => told (summary n) = true) ns) as Hall
    by (apply (filter_all (fun n => told (summary n) = true) ns); lia).
  rewrite Forall_lookup in Hall. by eapply Hall.
Qed.

End HandshakeFacts.

(** X7 - the end of the distribution.  In every state of every run:
    while the master hands out work items, no other node has been sent
    the reply -1; in the loop of line 972, [workers_done] is one more
    than the number of nodes that have been sent it, and at most the
    number of nodes; once the master has left that loop, every other
    node has been sent it.  A node that has been sent -1 has no request
    pending, so the master does not answer it again. *)
Theorem termination_handshake (cfg : Pipeline.Config) (num_nodes : nat)
    (c : Pipeline.Cluster) (n0 : Pipeline.Node) :
  Pipeline.reachable cfg num_nodes c ->
  Pipeline.nodes c !! 0%nat = Some n0 ->
  (forall next, Pipeline.main_thread n0 = Pipeline.Distribute next ->
     forall rank n, rank <> 0%nat -> Pipeline.nodes c !! rank = Some n ->
       Pipeline.told (Pipeline.summary n) = false) /\
  (forall workers_done, Pipeline.main_thread n0 = Pipeline.Drain workers_done ->
     workers_done = S (Pipeline.told_count (Pipeline.nodes c)) /\
     (workers_done <= num_nodes)%nat) /\
  (~ Pipeline.distributing (Pipeline.main_thread n0) ->
     forall rank n, rank <> 0%nat -> Pipeline.nodes c !! rank = Some n ->
       Pipeline.told (Pipeline.summary n) = true) /\
  (forall rank n, Pipeline.nodes c !! rank = Some n ->
     Pipeline.told (Pipeline.summary n) = true -> rank ∉ Pipeline.requests c).
Proof.
  intros Hc Hn0.
  pose proof (handshake_reach cfg num_nodes c Hc) as Hinv.
  pose proof (dispatch_inv_reach cfg num_nodes c Hc) as Hdisp.
  destruct (reachable_nodes cfg num_nodes c Hc) as [Hlen _].
  unfold Pipeline.handshake_inv in Hinv. rewrite Hn0 in Hinv.
  pose proof (Pipeline.di_nodes _ _ _ Hdisp 0%nat _ (summary_lookup c 0 n0 Hn0)) as Hmaster.
  unfold Pipeline.node_ok in Hmaster. cbn in Hmaster.
  split; [|split; [|split]].
  - intros next Hpc rank n Hrank Hn. rewrite Hpc in Hinv.
    by apply (told_none (Pipeline.nodes c) rank n).
  - intros wd Hpc. rewrite Hpc in Hinv. split; [done|].
    destruct (told_count_bound (Pipeline.nodes c)) as [?|Hnil]; [lia|].
    by rewrite Hnil in Hn0.
  - intros Hpast rank n Hrank Hn.
    apply (told_all (Pipeline.nodes c) rank n); [|done..].
    destruct (Pipeline.main_thread n0); cbn in Hpast, Hmaster; try done.
    all: by destruct Hmaster.
  - intros rank n Hn Htold.
    pose proof (Pipeline.di_nodes _ _ _ Hdisp rank _ (summary_lookup c rank n Hn)) as Hok.
    unfold Pipeline.node_ok in Hok. unfold Pipeline.told in Htold.
    destruct (Pipeline.sm_phase (Pipeline.summary n)); try done.
    + destruct Hok as [_ [[_ Hin]|[? _]]]; [|done].
      rewrite Hin in Htold. by apply bool_decide_eq_true in Htold.
    + by destruct Hok.
Qed.

Lemma termination_handshake_witness :
  exists c n0,
    Pipeline.reachable Scenario.two_items 2 c /\
    Pipeline.nodes c !! 0%nat = Some n0 /\
    Pipeline.main_thread n0 = Pipeline.Drain 2 /\
    Pipeline.inbox <$> Pipeline.nodes c = [[]; [-1]] /\
    (forall next, Pipeline.main_thread n0 = Pipeline.Distribute next ->
       forall rank n, rank <> 0%nat -> Pipeline.nodes c !! rank = Some n ->
         Pipeline.told (Pipeline.summary n) = false) /\
    (forall workers_done, Pipeline.main_thread n0 = Pipeline.Drain workers_done ->
       workers_done = S (Pipeline.told_count (Pipeline.nodes c)) /\
       (workers_done <= 2)%nat) /\
    (~ Pipeline.distributing (Pipeline.main_thread n0) ->
       forall rank n, rank <> 0%nat -> Pipeline.nodes c !! rank = Some n ->
         Pipeline.told (Pipeline.summary n) = true) /\
    (forall rank n, Pipeline.nodes c !! rank = Some n ->
       Pipeline.told (Pipeline.summary n) = true -> rank ∉ Pipeline.requests c).
Proof.
  destruct (Pipeline.run Scenario.two_items Scenario.until_told
              (Pipeline.init_cluster Scenario.two_items 2)) as [c|] eqn:Hrun;
    [|vm_compute in Hrun; discriminate].
  destruct (Pipeline.nodes c !! 0%nat) as [n0|] eqn:Hn;
    [|vm_compute in Hrun; injection Hrun as <-; vm_compute in Hn; discriminate].
  exists c, n0.
  assert (Pipeline.reachable Scenario.two_items 2 c) as Hreach
    by (exists Scenario.until_told; exact Hrun).
  split; [exact Hreach|]. split; [exact Hn|].
  split; [vm_compute in Hrun; injection Hrun as <-; vm_compute in Hn; injection Hn as <-;
          vm_compute; reflexivity|].
  split; [vm_compute in Hrun; injection Hrun as <-; vm_compute; reflexivity|].
  exact (termination_handshake Scenario.two_items 2 c n0 Hreach Hn).
Defined.

(** * Further properties of the work planner *)

Section PlannerOrder.
Import Planner.

Variable W : Z.
Hypothesis W_pos : 0 < W.

Lemma seqZ_sorted (n : Z) :
  StronglySorted (fun j k => 0 <= j /\ j < k /\ k < n) (seqZ 0 n).
Proof.
  assert (forall len m, 0 <= m -> m + Z.of_nat len <= n ->
            StronglySorted (fun j k => 0 <= j /\ j < k /\ k < n)
                           (seqZ m (Z.of_nat len))) as Hgen.
  { induction len as [|len IH]; intros m Hm Hle.
    - rewrite seqZ_nil by lia. constructor.
    - rewrite seqZ_cons by lia. constructor.
      + replace (Z.pred (Z.of_nat (S len))) with (Z.of_nat len) by lia.
        apply IH; lia.
      + apply Forall_forall. intros k Hk%elem_of_seqZ. lia. }
  destruct (Z.le_gt_cases n 0) as [Hn|Hn].
  - rewrite seqZ_nil by lia. constructor.
  - replace (seqZ 0 n) with (seqZ 0 (Z.of_nat (Z.to_nat n))) by (f_equal; lia).
    apply Hgen; lia.
Qed.

Lemma StronglySorted_lookup {A} (R : relation A) (l : list A) (j k : nat) (a b : A) :
  StronglySorted R l -> l !! j = Some a -> l !! k = Some b -> (j < k)%nat -> R a b.
Proof.
  intros Hsorted. revert j k.
  induction Hsorted as [|x l _ IH Hall]; intros j k Hj Hk Hlt; [done|].
  destruct j as [|j], k as [|k]; cbn in *; simplify_eq; try lia.
  - rewrite Forall_lookup in Hall. by eapply Hall.
  - eapply (IH j k); [done..|lia].
Qed.

Lemma video_items_sorted (i F : Z) :
  StronglySorted item_before (video_items W i F).
Proof.
  unfold video_items.
  apply (StronglySorted_fmap _ (fun j k => 0 <= j /\ j < k /\ k < ceil_div F W));
    [|apply seqZ_sorted].
  intros j k (Hj & Hjk & Hk). right. split; [done|]. cbn. nia.
Qed.

Lemma video_items_elem (i F : Z) (it : VideoWorkItem) :
  it ∈ video_items W i F ->
  video_index it = i /\
  0 <= start_frame it /\ start_frame it < end_frame it /\ end_frame it <= F /\
  end_frame it - start_frame it <= W.
Proof.
  intros (j & -> & [Hj Hlt%(ceil_div_gt W W_pos)]%elem_of_seqZ)%list_elem_of_fmap.
  cbn. split; [done|]. nia.
Qed.

Lemma planned_from_elem (i : Z) (metas : list VideoMetadata) (it : VideoWorkItem) :
  it ∈ concat (planned_from W i metas) ->
  exists (k : nat) m,
    metas !! k = Some m /\ it ∈ video_items W (i + Z.of_nat k) (frames m).
Proof.
  intros (its & [k Hk]%list_elem_of_lookup & Hit)%elem_of_concat.
  rewrite planned_from_lookup in Hk. apply fmap_Some in Hk as (m & Hm & ->).
  by exists k, m.
Qed.

Lemma planned_from_sorted (i : Z) (metas : list VideoMetadata) :
  StronglySorted item_before (concat (planned_from W i metas)).
Proof.
  revert i. induction metas as [|m metas IH]; intros i; cbn; [constructor|].
  apply StronglySorted_app_2; [|apply video_items_sorted|apply IH].
  intros a b [Ha _]%video_items_elem (k & m' & _ & [Hb _]%video_items_elem)%planned_from_elem.
  left. lia.
Qed.

End PlannerOrder.

(** X8 - what the planner hands to the workers.  With a positive
    work-item size the planner emits its work items ordered by video
    and, within a video, by frame range; every item names a video of the
    list, and is a non-empty range of at most [frames_per_work_item()]
    frames within that video's frame count.  So no two items of the
    list share a frame of a video. *)
Theorem planned_items_ordered (g : Globals) (video_metadata : list VideoMetadata) :
  0 < frames_per_work_item g ->
  Forall (fun m => in_int (frames m)) video_metadata ->
  exists items : list VideoWorkItem,
    (exists fuel0 : nat, forall fuel : nat, (fuel0 <= fuel)%nat ->
       Planner.plan_work_items fuel g video_metadata = Some items) /\
    StronglySorted Planner.item_before items /\
    (forall it, it ∈ items ->
       exists (i : nat) (m : VideoMetadata),
         video_index it = Z.of_nat i /\ video_metadata !! i = Some m /\
         0 <= start_frame it /\ start_frame it < end_frame it /\
         end_frame it <= frames m /\
         end_frame it - start_frame it <= frames_per_work_item g) /\
    (forall (j k : nat) a b f,
       items !! j = Some a -> items !! k = Some b -> j <> k ->
       video_index a = video_index b ->
       ~ (start_frame a <= f < end_frame a /\ start_frame b <= f < end_frame b)).
Proof.
  intros HW Hint. set (W := frames_per_work_item g) in *.
  exists (concat (Planner.planned_from W 0 video_metadata)).
  pose proof (planned_from_sorted W HW 0 video_metadata) as Hsorted.
  assert (forall it, it ∈ concat (Planner.planned_from W 0 video_metadata) ->
            start_frame it < end_frame it) as Hnonempty.
  { intros it (k & m & _ & Hit%(video_items_elem W HW))%planned_from_elem. lia. }
  split; [|split; [done|split]].
  - destruct (enough_fuel W video_metadata) as [fuel0 Hfuel]. exists fuel0.
    intros fuel Hle. unfold Planner.plan_work_items. fold W.
    rewrite plan_from_spec; [done..|].
    specialize (Hfuel fuel Hle). rewrite Forall_forall in *. naive_solver.
  - intros it (k & m & Hm & Hit%(video_items_elem W HW))%planned_from_elem.
    exists k, m. rewrite Z.add_0_l in Hit. naive_solver.
  - intros j k a b f Hj Hk Hne Hidx [Ha Hb].
    assert (forall (j k : nat) a b,
              concat (Planner.planned_from W 0 video_metadata) !! j = Some a ->
              concat (Planner.planned_from W 0 video_metadata) !! k = Some b ->
              (j < k)%nat -> Planner.item_before a b) as Hbefore.
    { intros j' k' a' b' Hj' Hk' Hlt.
      by apply (StronglySorted_lookup _ _ j' k' a' b' Hsorted). }
    destruct (decide (j < k)%nat) as [Hlt|Hge].
    + destruct (Hbefore j k a b Hj Hk Hlt) as [?|[_ ?]]; lia.
    + destruct (Hbefore k j b a Hk Hj ltac:(lia)) as [?|[_ ?]]; lia.
Qed.

Lemma planned_items_ordered_witness :
  0 < frames_per_work_item Scenario.S1_globals /\
  Forall (fun m => in_int (frames m)) [Scenario.S1_video; Scenario.S1_video] /\
  exists items : list VideoWorkItem,
    (exists fuel0 : nat, forall fuel : nat, (fuel0 <= fuel)%nat ->
       Planner.plan_work_items fuel Scenario.S1_globals
         [Scenario.S1_video; Scenario.S1_video] = Some items) /\
    StronglySorted Planner.item_before items /\
    (forall it, it ∈ items ->
       exists (i : nat) (m : VideoMetadata),
         video_index it = Z.of_nat i /\
         [Scenario.S1_video; Scenario.S1_video] !! i = Some m /\
         0 <= start_frame it /\ start_frame it < end_frame it /\
         end_frame it <= frames m /\
         end_frame it - start_frame it <= frames_per_work_item Scenario.S1_globals) /\
    (forall (j k : nat) a b f,
       items !! j = Some a -> items !! k = Some b -> j <> k ->
       video_index a = video_index b ->
       ~ (start_frame a <= f < end_frame a /\ start_frame b <= f < end_frame b)).
Proof.
  assert (0 < frames_per_work_item Scenario.S1_globals) as HW by reflexivity.
  assert (Forall (fun m => in_int (frames m)) [Scenario.S1_video; Scenario.S1_video])
    as Hint by (repeat constructor; vm_compute; discriminate).
  split; [exact HW|]. split; [exact Hint|].
  exact (planned_items_ordered Scenario.S1_globals
           [Scenario.S1_video; Scenario.S1_video] HW Hint).
Defined.

Section PlannerZero.
Import Planner.

Lemma allocate_frames_zero_size (fuel : nat) (i F : Z) (acc : list VideoWorkItem) :
  in_int F -> 0 < F -> allocate_frames fuel 0 i F 0 acc = None.
Proof.
  intros HF Hpos. revert acc. induction fuel as [|fuel IH]; intros acc; cbn [allocate_frames].
  - by destruct (Z.ltb_spec 0 F); [|lia].
  - destruct (Z.ltb_spec 0 F); [|lia].
    rewrite Z.sub_0_r, (wrap_int_id F HF), Z.min_l by lia.
    rewrite Z.add_0_r, (wrap_int_id 0 in_int_0). apply IH.
Qed.

Lemma plan_from_zero_size (fuel : nat) (metas : list VideoMetadata) :
  Forall (fun m => in_int (frames m)) metas ->
  Exists (fun m => 0 < frames m) metas ->
  forall i acc, plan_from fuel 0 i metas acc = None.
Proof.
  intros Hint Hex. induction Hex as [m metas Hm|m metas _ IH]; intros i acc;
    apply Forall_cons in Hint as [Hm' Hint]; cbn [plan_from].
  - by rewrite allocate_frames_zero_size.
  - destruct (allocate_frames _ _ _ _ _ _); [by apply IH|done].
Qed.

End PlannerZero.

(** X9 - the options are not checked.  With [--batch_size 0] or
    [--batches_per_work_item 0] the size of a work item is 0, and as
    soon as one video has a frame the planner loop of line 816 runs
    without end: whatever bound is put on its iterations, it is still
    running when the bound is reached. *)
Theorem zero_batch_size_never_plans (vm : Cli.VariablesMap)
    (video_metadata : list VideoMetadata) (fuel : nat) :
  Cli.batch_size vm = Some 0 \/ Cli.batches_per_work_item vm = Some 0 ->
  Forall (fun m => in_int (frames m)) video_metadata ->
  Exists (fun m => 0 < frames m) video_metadata ->
  frames_per_work_item (Cli.apply_options vm default_globals) = 0 /\
  Planner.plan_work_items fuel (Cli.apply_options vm default_globals) video_metadata = None.
Proof.
  intros Hzero Hint Hex.
  assert (frames_per_work_item (Cli.apply_options vm default_globals) = 0) as HW.
  { unfold frames_per_work_item, Cli.apply_options. cbn.
    destruct Hzero as [-> | ->]; cbn; rewrite ?Z.mul_0_r; apply (wrap_int_id 0 in_int_0). }
  split; [done|]. unfold Planner.plan_work_items. rewrite HW.
  by apply plan_from_zero_size.
Qed.

Lemma zero_batch_size_never_plans_witness :
  exists vm,
    Cli.video_paths_file vm = Some [] /\
    (Cli.batch_size vm = Some 0 \/ Cli.batches_per_work_item vm = Some 0) /\
    Forall (fun m => in_int (frames m)) [Scenario.S1_video] /\
    Exists (fun m => 0 < frames m) [Scenario.S1_video] /\
    frames_per_work_item (Cli.apply_options vm default_globals) = 0 /\
    Planner.plan_work_items 1000 (Cli.apply_options vm default_globals) [Scenario.S1_video]
    = None.
Proof.
  pose (vm := {| Cli.help := false; Cli.video_paths_file := Some [];
                 Cli.gpus_per_node := None; Cli.batch_size := Some 0;
                 Cli.batches_per_work_item := None; Cli.tasks_in_queue_per_gpu := None;
                 Cli.load_workers_per_node := None |}).
  exists vm.
  assert (Forall (fun m => in_int (frames m)) [Scenario.S1_video]) as Hint
    by (repeat constructor; vm_compute; discriminate).
  assert (Exists (fun m => 0 < frames m) [Scenario.S1_video]) as Hex
    by (constructor; reflexivity).
  split; [reflexivity|]. split; [by left|]. split; [exact Hint|]. split; [exact Hex|].
  exact (zero_batch_size_never_plans vm [Scenario.S1_video] 1000 (or_introl eq_refl) Hint Hex).
Defined.

(** * Further properties of the load worker *)

Section LoadLoop.
Import Load.

Lemma load_frame_fields (build : DecodePath) (buffer_size : Z) (metadata : VideoMetadata)
    (frame : AVFrame) (work_item : VideoWorkItem) (f : Z) (sws : SwsPtr) :
  let ev := (load_frame build buffer_size metadata frame work_item f sws).1 in
  loaded_frame ev = f /\
  slot_offset ev
  = wrap_size (frame_size metadata * wrap_int (f - start_frame work_item)) /\
  offset_in_bounds ev = (slot_offset ev <? buffer_size).
Proof. unfold load_frame. by destruct build. Qed.

Lemma load_frames_spec (build : DecodePath) (buffer_size : Z) (metadata : VideoMetadata)
    (frame : AVFrame) (work_item : VideoWorkItem) :
  0 <= start_frame work_item -> end_frame work_item <= INT_MAX ->
  forall (fuel : nat) (current_frame : Z) (sws : SwsPtr) (done : list FrameLoad),
    start_frame work_item <= current_frame ->
    end_frame work_item - current_frame <= Z.of_nat fuel ->
    exists events,
      load_frames fuel build buffer_size metadata frame work_item current_frame sws done
      = Some (done ++ events) /\
      loaded_frame <$> events
      = seqZ current_frame (end_frame work_item - current_frame) /\
      Forall (fun ev =>
                slot_offset ev
                = wrap_size (frame_size metadata
                             * wrap_int (loaded_frame ev - start_frame work_item)) /\
                offset_in_bounds ev = (slot_offset ev <? buffer_size)) events.
Proof.
  intros Hstart Hend. induction fuel as [|fuel IH]; intros cur sws acc Hcur Hfuel;
    cbn [load_frames].
  - destruct (Z.ltb_spec cur (end_frame work_item)); [lia|].
    exists []. rewrite app_nil_r, seqZ_nil by lia. done.
  - destruct (Z.ltb_spec cur (end_frame work_item)) as [Hlt|Hge].
    + pose proof (load_frame_fields build buffer_size metadata frame work_item cur sws)
        as (Hf & Hoff & Hin).
      destruct (load_frame _ _ _ _ _ _ _) as [ev sws'] eqn:Hev. cbn in Hf, Hoff, Hin.
      rewrite wrap_int_id
        by (apply (in_int_between 0 INT_MAX);
            [apply in_int_0 | unfold in_int, INT_MIN, INT_MAX; lia | lia]).
      destruct (IH (cur + 1) sws' (acc ++ [ev]) ltac:(lia) ltac:(lia))
        as (events & Hrun & Hframes & Hall).
      exists (ev :: events). split; [by rewrite Hrun, <- app_assoc|]. split.
      * rewrite seqZ_cons by lia. cbn. rewrite Hf, Hframes. do 2 f_equal; lia.
      * constructor; [|done]. by rewrite Hf.
    + exists []. rewrite app_nil_r, seqZ_nil by lia. done.
Qed.

Lemma load_frames_more_fuel (build : DecodePath) (buffer_size : Z)
    (metadata : VideoMetadata) (frame : AVFrame) (work_item : VideoWorkItem) :
  forall (fuel fuel' : nat) (current_frame : Z) (sws : SwsPtr)
         (done events : list FrameLoad),
    (fuel <= fuel')%nat ->
    load_frames fuel build buffer_size metadata frame work_item current_frame sws done
    = Some events ->
    load_frames fuel' build buffer_size metadata frame work_item current_frame sws done
    = Some events.
Proof.
  induction fuel as [|fuel IH]; intros fuel' cur sws acc events Hle; cbn [load_frames].
  - destruct (Z.ltb_spec cur (end_frame work_item)) as [Hlt|Hge]; [done|].
    intros [= <-]. destruct fuel'; cbn [load_frames];
      by destruct (Z.ltb_spec cur (end_frame work_item)); [lia|].
  - destruct fuel' as [|fuel']; [lia|]. cbn [load_frames].
    destruct (Z.ltb_spec cur (end_frame work_item)) as [Hlt|Hge]; [|done].
    destruct (load_frame _ _ _ _ _ _ _) as [ev sws']. apply IH. lia.
Qed.

End LoadLoop.

(** X10 - the frame loop of the load worker.  For a work item of at
    most [frames_per_work_item()] frames of a video with the dimensions
    of video 0, the loop of line 308 ends after one iteration per frame;
    it decodes the frames [start_frame], ..., [end_frame - 1] in this
    order, places frame [f] at offset [frame_size * (f - start_frame)]
    of the buffer, and the assertion of line 318 holds every time. *)
Theorem load_frames_in_order (build : Load.DecodePath) (g : Globals)
    (metadata0 metadata : VideoMetadata) (frame : Load.AVFrame)
    (work_item : VideoWorkItem) :
  width metadata = width metadata0 -> height metadata = height metadata0 ->
  0 < width metadata0 -> 0 < height metadata0 ->
  Load.av_image_get_buffer_size Load.AV_PIX_FMT_NV12 (width metadata0) (height metadata0)
    * frames_per_work_item g < 2 ^ 64 ->
  0 < frames_per_work_item g ->
  end_frame work_item - start_frame work_item <= frames_per_work_item g ->
  0 <= start_frame work_item -> end_frame work_item <= INT_MAX ->
  start_frame work_item <= end_frame work_item ->
  exists events : list Load.FrameLoad,
    (forall fuel : nat,
       end_frame work_item - start_frame work_item <= Z.of_nat fuel ->
       Load.load_work_item fuel build g metadata0 metadata frame work_item = Some events) /\
    Load.loaded_frame <$> events
    = seqZ (start_frame work_item) (end_frame work_item - start_frame work_item) /\
    Load.slot_offset <$> events
    = (fun f => Load.frame_size metadata * (f - start_frame work_item))
        <$> seqZ (start_frame work_item) (end_frame work_item - start_frame work_item) /\
    Forall (fun ev => Load.offset_in_bounds ev = true) events.
Proof.
  intros Hw Hh Hwp Hhp Hfit HWpos Hspan Hs He Hle.
  pose proof (nv12_size_pos _ _ Hwp Hhp) as Hsize.
  set (S := Load.av_image_get_buffer_size Load.AV_PIX_FMT_NV12
              (width metadata0) (height metadata0)) in *.
  assert (0 < S) as HS by nia.
  assert (Load.frame_size metadata0 = S) as HS0.
  { unfold Load.frame_size, Load.wrap_size. fold S.
    apply Z.mod_small. nia. }
  assert (Load.frame_size metadata = S) as HS1.
  { unfold Load.frame_size. rewrite Hw, Hh. exact HS0. }
  assert (end_frame work_item - start_frame work_item
          <= Z.of_nat (Z.to_nat (end_frame work_item - start_frame work_item))) as Hfuel0
    by lia.
  destruct (load_frames_spec build (Load.frame_buffer_size g metadata0) metadata frame
              work_item Hs He _ (start_frame work_item) Load.Indeterminate []
              (Z.le_refl _) Hfuel0) as (events & Hrun & Hframes & Hall).
  cbn [app] in Hrun.
  assert (forall ev, ev ∈ events ->
            start_frame work_item <= Load.loaded_frame ev < end_frame work_item) as Hrange.
  { intros ev Hev.
    assert (Load.loaded_frame ev
            ∈ seqZ (start_frame work_item) (end_frame work_item - start_frame work_item))
      as Hin%elem_of_seqZ.
    { rewrite <- Hframes. apply list_elem_of_fmap. by exists ev. }
    lia. }
  assert (forall ev, ev ∈ events ->
            Load.slot_offset ev = S * (Load.loaded_frame ev - start_frame work_item) /\
            Load.offset_in_bounds ev = true) as Hfields.
  { intros ev Hev. pose proof (Hrange ev Hev) as Hf.
    rewrite Forall_forall in Hall. destruct (Hall ev Hev) as [Hoff Hin].
    rewrite HS1 in Hoff.
    rewrite wrap_int_id in Hoff
      by (apply (in_int_between 0 INT_MAX);
          [apply in_int_0 | unfold in_int, INT_MIN, INT_MAX; lia | lia]).
    unfold Load.wrap_size in Hoff. rewrite Z.mod_small in Hoff by nia.
    split; [done|]. rewrite Hin, Hoff. unfold Load.frame_buffer_size. rewrite HS0.
    unfold Load.wrap_size. rewrite Z.mod_small by nia.
    apply Z.ltb_lt. nia. }
  exists events. split; [|split; [done|split]].
  - intros fuel Hfuel. unfold Load.load_work_item.
    apply (load_frames_more_fuel _ _ _ _ _
             (Z.to_nat (end_frame work_item - start_frame work_item))); [lia|done].
  - rewrite <- Hframes, <- list_fmap_compose. apply list_fmap_ext.
    intros i ev Hev%list_elem_of_lookup_2. cbn. rewrite HS1. by apply Hfields.
  - apply Forall_forall. intros ev Hev. by apply Hfields.
Qed.

Lemma load_frames_in_order_witness :
  exists events : list Load.FrameLoad,
    (width Scenario.S1_video = width Scenario.S1_video /\
     height Scenario.S1_video = height Scenario.S1_video /\
     0 < width Scenario.S1_video /\ 0 < height Scenario.S1_video /\
     Load.av_image_get_buffer_size Load.AV_PIX_FMT_NV12
       (width Scenario.S1_video) (height Scenario.S1_video)
       * frames_per_work_item Scenario.S1_globals < 2 ^ 64 /\
     0 < frames_per_work_item Scenario.S1_globals /\
     10 - 8 <= frames_per_work_item Scenario.S1_globals /\
     0 <= 8 /\ 10 <= INT_MAX /\ 8 <= 10) /\
    (forall fuel : nat,
       10 - 8 <= Z.of_nat fuel ->
       Load.load_work_item fuel Load.HardwareDecode Scenario.S1_globals
         Scenario.S1_video Scenario.S1_video
         {| Load.frame_width := 4; Load.frame_height := 2 |} (Scenario.item 0 8 10)
       = Some events) /\
    Load.loaded_frame <$> events = seqZ 8 (10 - 8) /\
    Load.slot_offset <$> events
    = (fun f => Load.frame_size Scenario.S1_video * (f - 8)) <$> seqZ 8 (10 - 8) /\
    Forall (fun ev => Load.offset_in_bounds ev = true) events.
Proof.
  assert (width Scenario.S1_video = width Scenario.S1_video /\
          height Scenario.S1_video = height Scenario.S1_video /\
          0 < width Scenario.S1_video /\ 0 < height Scenario.S1_video /\
          Load.av_image_get_buffer_size Load.AV_PIX_FMT_NV12
            (width Scenario.S1_video) (height Scenario.S1_video)
            * frames_per_work_item Scenario.S1_globals < 2 ^ 64 /\
          0 < frames_per_work_item Scenario.S1_globals /\
          10 - 8 <= frames_per_work_item Scenario.S1_globals /\
          0 <= 8 /\ 10 <= INT_MAX /\ 8 <= 10) as Hpre.
  { split; [reflexivity|]. split; [reflexivity|]. split; [reflexivity|].
    split; [reflexivity|]. split; [reflexivity|]. split; [reflexivity|].
    split; [vm_compute; discriminate|]. split; [lia|].
    split; [vm_compute; discriminate|lia]. }
  destruct Hpre as (H1 & H2 & H3 & H4 & H5 & H5' & H6 & H7 & H8 & H9).
  destruct (load_frames_in_order Load.HardwareDecode Scenario.S1_globals
              Scenario.S1_video Scenario.S1_video
              {| Load.frame_width := 4; Load.frame_height := 2 |} (Scenario.item 0 8 10)
              H1 H2 H3 H4 H5 H5' H6 H7 H8 H9) as (events & Hev).
  exists events. split; [|exact Hev].
  split; [exact H1|]. split; [exact H2|]. split; [exact H3|]. split; [exact H4|].
  split; [exact H5|]. split; [exact H5'|]. split; [exact H6|]. split; [exact H7|].
  split; [exact H8|exact H9].
Defined.

(** * Further properties of the evaluate worker *)

Section EvaluateInputFacts.
Import Evaluate EvaluateInput.

Lemma nv12_mat_fits (w h : Z) :
  0 < w -> 0 < h ->
  (h + h / 2) * w <= Load.av_image_get_buffer_size Load.AV_PIX_FMT_NV12 w h.
Proof.
  intros Hw Hh. unfold Load.av_image_get_buffer_size.
  assert (h / 2 <= (h + 1) / 2) by (apply Z.div_le_mono; lia).
  assert (0 <= h / 2) by (apply Z.div_pos; lia).
  pose proof (Z.mul_succ_div_gt (w + 1) 2 ltac:(lia)). nia.
Qed.

Lemma process_batch_stream (g : Globals) (n off : Z) (op : FrameOp) :
  0 < NUM_CUDA_STREAMS g -> op ∈ process_batch g n off ->
  0 <= stream op < NUM_CUDA_STREAMS g.
Proof.
  intros Hnum (i & -> & [Hi _]%elem_of_seqZ)%list_elem_of_fmap. cbn.
  apply Z.rem_bound_pos; lia.
Qed.

Lemma issued_pass_batch (g : Globals) (work_item : VideoWorkItem) (p : ForwardPass) :
  p ∈ issued_passes g work_item ->
  exists n off, batch_frames p = process_batch g n off.
Proof.
  unfold issued_passes. intros [(j & -> & _)%list_elem_of_fmap|Hp]%elem_of_app.
  - by eexists _, _.
  - case_match; [|by apply elem_of_nil in Hp].
    apply list_elem_of_singleton in Hp as ->. by eexists _, _.
Qed.

End EvaluateInputFacts.

(** X11 - the evaluate worker reads inside the buffer.  For a work item
    of at most [frames_per_work_item()] frames of a video with the
    dimensions of video 0, every frame of every forward pass is read
    from a slot 0, ..., N - 1 of the buffer; the bytes under the matrix
    header laid over it lie within that slot's [frame_size] bytes and so
    inside the buffer; and the stream index [i % NUM_CUDA_STREAMS] is
    within the vector of streams. *)
Theorem evaluate_reads_inside_buffer (g : Globals) (metadata0 metadata : VideoMetadata)
    (work_item : VideoWorkItem) :
  0 < GLOBAL_BATCH_SIZE g ->
  Evaluate.evaluable g work_item ->
  0 < frames_per_work_item g ->
  end_frame work_item - start_frame work_item <= frames_per_work_item g ->
  width metadata = width metadata0 -> height metadata = height metadata0 ->
  0 < width metadata0 -> 0 < height metadata0 ->
  height metadata0 + height metadata0 / 2 <= INT_MAX ->
  Load.av_image_get_buffer_size Load.AV_PIX_FMT_NV12 (width metadata0) (height metadata0)
    * frames_per_work_item g < 2 ^ 64 ->
  exists passes : list Evaluate.ForwardPass,
    (exists fuel0 : nat, forall fuel : nat, (fuel0 <= fuel)%nat ->
       Evaluate.evaluate_work_item fuel g work_item = Some passes) /\
    forall p op, p ∈ passes -> op ∈ Evaluate.batch_frames p ->
      0 <= Evaluate.buffer_slot op < end_frame work_item - start_frame work_item /\
      (forall byte, byte ∈ EvaluateInput.input_mat_bytes metadata op ->
         Load.frame_size metadata * Evaluate.buffer_slot op <= byte /\
         byte < Load.frame_size metadata * (Evaluate.buffer_slot op + 1) /\
         byte < Load.frame_buffer_size g metadata0) /\
      (0 < NUM_CUDA_STREAMS g ->
       0 <= Evaluate.stream op < NUM_CUDA_STREAMS g).
Proof.
  intros HB Hok HWpos Hspan Hw Hh Hwp Hhp Hrows Hfit.
  exists (Evaluate.issued_passes g work_item). split.
  { exists (Z.to_nat (Evaluate.main_iterations g work_item)). intros fuel Hfuel.
    apply evaluate_work_item_spec; [done..|lia]. }
  pose proof (nv12_size_pos _ _ Hwp Hhp) as Hsize.
  pose proof (nv12_mat_fits _ _ Hwp Hhp) as Hmat.
  set (S := Load.av_image_get_buffer_size Load.AV_PIX_FMT_NV12
              (width metadata0) (height metadata0)) in *.
  assert (0 < S) as HS by nia.
  assert (Load.frame_size metadata0 = S) as HS0.
  { unfold Load.frame_size, Load.wrap_size. fold S. apply Z.mod_small. nia. }
  assert (Load.frame_size metadata = S) as HS1.
  { unfold Load.frame_size. rewrite Hw, Hh. exact HS0. }
  assert (frames_per_work_item g < 2 ^ 31) as HWmax.
  { pose proof (wrap_int_range (GLOBAL_BATCH_SIZE g * BATCHES_PER_WORK_ITEM g)) as Hr.
    unfold in_int, INT_MIN, INT_MAX in Hr. unfold frames_per_work_item. lia. }
  intros p op Hp Hop.
  assert (0 <= Evaluate.buffer_slot op < end_frame work_item - start_frame work_item)
    as Hslot.
  { assert (start_frame work_item + Evaluate.buffer_slot op
            ∈ Evaluate.frames_read work_item (Evaluate.issued_passes g work_item))
      as Hin.
    { unfold Evaluate.frames_read. apply elem_of_concat. eexists. split.
      - apply list_elem_of_fmap. exists p. split; [done|exact Hp].
      - apply list_elem_of_fmap. by exists op. }
    rewrite (issued_frames g work_item HB Hok) in Hin. apply elem_of_seqZ in Hin. lia. }
  split; [done|]. split.
  - intros byte Hbyte. unfold EvaluateInput.input_mat_bytes in Hbyte.
    apply elem_of_seqZ in Hbyte.
    assert (EvaluateInput.frame_pointer metadata op = S * Evaluate.buffer_slot op) as Hptr.
    { unfold EvaluateInput.frame_pointer. rewrite HS1. unfold Load.wrap_size.
      rewrite (Z.mod_small (Evaluate.buffer_slot op)) by lia.
      apply Z.mod_small. nia. }
    assert (EvaluateInput.input_mat_rows metadata * EvaluateInput.input_mat_cols metadata
            <= S) as Hextent.
    { unfold EvaluateInput.input_mat_rows, EvaluateInput.input_mat_cols.
      rewrite Hw, Hh, Z.quot_div_nonneg by lia.
      rewrite wrap_int_id; [done|].
      assert (0 <= height metadata0 / 2) by (apply Z.div_pos; lia).
      apply (in_int_between 0 INT_MAX);
        [apply in_int_0 | unfold in_int, INT_MIN, INT_MAX; lia | lia]. }
    rewrite Hptr in Hbyte. rewrite HS1.
    unfold Load.frame_buffer_size. rewrite HS0. unfold Load.wrap_size.
    rewrite Z.mod_small by nia. nia.
  - intros Hnum. destruct (issued_pass_batch g work_item p Hp) as (n & off & Hbatch).
    rewrite Hbatch in Hop. by eapply process_batch_stream.
Qed.

Lemma evaluate_reads_inside_buffer_witness :
  exists passes : list Evaluate.ForwardPass,
    (0 < GLOBAL_BATCH_SIZE Scenario.S1_globals /\
     Evaluate.evaluable Scenario.S1_globals (Scenario.item 0 8 10) /\
     0 < frames_per_work_item Scenario.S1_globals /\
     10 - 8 <= frames_per_work_item Scenario.S1_globals /\
     0 < width Scenario.S1_video /\ 0 < height Scenario.S1_video /\
     height Scenario.S1_video + height Scenario.S1_video / 2 <= INT_MAX /\
     Load.av_image_get_buffer_size Load.AV_PIX_FMT_NV12
       (width Scenario.S1_video) (height Scenario.S1_video)
       * frames_per_work_item Scenario.S1_globals < 2 ^ 64) /\
    (exists fuel0 : nat, forall fuel : nat, (fuel0 <= fuel)%nat ->
       Evaluate.evaluate_work_item fuel Scenario.S1_globals (Scenario.item 0 8 10)
       = Some passes) /\
    forall p op, p ∈ passes -> op ∈ Evaluate.batch_frames p ->
      0 <= Evaluate.buffer_slot op < 10 - 8 /\
      (forall byte, byte ∈ EvaluateInput.input_mat_bytes Scenario.S1_video op ->
         Load.frame_size Scenario.S1_video * Evaluate.buffer_slot op <= byte /\
         byte < Load.frame_size Scenario.S1_video * (Evaluate.buffer_slot op + 1) /\
         byte < Load.frame_buffer_size Scenario.S1_globals Scenario.S1_video) /\
      (0 < NUM_CUDA_STREAMS Scenario.S1_globals ->
       0 <= Evaluate.stream op < NUM_CUDA_STREAMS Scenario.S1_globals).
Proof.
  assert (0 < GLOBAL_BATCH_SIZE Scenario.S1_globals) as H1 by reflexivity.
  assert (Evaluate.evaluable Scenario.S1_globals (Scenario.item 0 8 10)) as H2
    by (repeat split; vm_compute; discriminate).
  assert (0 < frames_per_work_item Scenario.S1_globals) as H3 by reflexivity.
  assert (10 - 8 <= frames_per_work_item Scenario.S1_globals) as H4
    by (vm_compute; discriminate).
  assert (0 < width Scenario.S1_video) as H5 by reflexivity.
  assert (0 < height Scenario.S1_video) as H6 by reflexivity.
  assert (height Scenario.S1_video + height Scenario.S1_video / 2 <= INT_MAX) as H7
    by (vm_compute; discriminate).
  assert (Load.av_image_get_buffer_size Load.AV_PIX_FMT_NV12
            (width Scenario.S1_video) (height Scenario.S1_video)
            * frames_per_work_item Scenario.S1_globals < 2 ^ 64) as H8 by reflexivity.
  destruct (evaluate_reads_inside_buffer Scenario.S1_globals Scenario.S1_video
              Scenario.S1_video (Scenario.item 0 8 10)
              H1 H2 H3 H4 eq_refl eq_refl H5 H6 H7 H8) as (passes & Hpasses).
  exists passes. split; [|exact Hpasses].
  split; [exact H1|]. split; [exact H2|]. split; [exact H3|]. split; [exact H4|].
  split; [exact H5|]. split; [exact H6|]. split; [exact H7|exact H8].
Defined.

(** * The pipeline never deadlocks *)

Section SentinelFacts.
Import Pipeline.

Variable cfg : Config.

Lemma count_insert_same {A} (P : A -> Prop) `{forall x, Decision (P x)}
    (l : list A) (i : nat) (x y : A) :
  l !! i = Some y -> (P x <-> P y) ->
  length (filter P (<[i:=x]> l)) = length (filter P l).
Proof.
  intros Hi Hiff. pose proof (count_insert P l i x y Hi) as Hcount.
  destruct (decide (P x)), (decide (P y)); try lia; tauto.
Qed.

Lemma count_insert_gain {A} (P : A -> Prop) `{forall x, Decision (P x)}
    (l : list A) (i : nat) (x y : A) :
  l !! i = Some y -> ~ P y -> P x ->
  length (filter P (<[i:=x]> l)) = S (length (filter P l)).
Proof.
  intros Hi Hy Hx. pose proof (count_insert P l i x y Hi) as Hcount.
  destruct (decide (P x)), (decide (P y)); try lia; tauto.
Qed.

Lemma sentinel_inv_init (rank : nat) : sentinel_inv cfg (init_node cfg rank).
Proof.
  split; cbn.
  - assert (forall k, filter (fun pc => load_returned pc = true) (replicate k LoadPop) = [])
      as -> by (intros k; induction k; [done|by cbn]).
    unfold is_master. by case_bool_decide.
  - intros g q t [-> _]%lookup_replicate. rewrite list_lookup_fmap.
    intros (i & _ & ->)%fmap_Some. cbn. unfold is_master. by case_bool_decide.
Qed.

Ltac node_cbn :=
  cbn [load_work empty_load_buffers eval_work frame_buffers load_threads
       eval_threads main_thread inbox history
       set_load_work set_empty_load_buffers set_eval_work set_frame_buffers
       set_load_threads set_eval_threads set_main_thread set_inbox record
       push_load_work load_sentinels_expected eval_sentinels_expected
       counter_in_range] in *.

Lemma sentinel_inv_load (w : nat) (n n' : Node) :
  load_step cfg w n = Some n' ->
  buffers_inv cfg n -> sentinel_inv cfg n -> sentinel_inv cfg n'.
Proof.
  unfold load_step. intros Hstep Hbuf [H1 H2].
  destruct (load_threads n !! w) as [pc|] eqn:Hw; [|done].
  pose proof (bi_load_items _ _ Hbuf w pc Hw) as Hitem.
  destruct pc as [|k|k b|k b|].
  - destruct (load_work n) as [|entry rest] eqn:Hq; [done|]. cbn in Hstep. simplify_eq.
    rewrite filter_cons in H1.
    split; node_cbn; [|done].
    case_bool_decide as Hs.
    + rewrite (count_insert_gain _ _ w LoadReturned LoadPop Hw) by done.
      case_decide; [|done]. cbn [length] in H1. unfold Queue in *. lia.
    + rewrite (count_insert_same _ _ w (LoadAcquire _) LoadPop Hw) by done.
      case_decide; [done|]. unfold Queue in *. lia.
  - destruct (empty_load_buffers n) as [|b rest]; [done|]. cbn in Hstep. simplify_eq.
    split; node_cbn; [|done].
    by rewrite (count_insert_same _ _ w (LoadFill _ _) (LoadAcquire k) Hw).
  - case_bool_decide; [|done]. simplify_eq. split; node_cbn; [|done].
    by rewrite (count_insert_same _ _ w (LoadPush _ _) (LoadFill k b) Hw).
  - destruct (eval_work n !! gpu_device_id b) as [q|] eqn:Hq; [|done]. simplify_eq.
    split; node_cbn.
    + by rewrite (count_insert_same _ _ w LoadPop (LoadPush k b) Hw).
    + intros g q' t [(Hg & Hq' & _)|[_ Hq']]%list_lookup_insert_Some Ht; [|by eapply H2].
      subst g q'. unfold push. rewrite filter_app, filter_cons, filter_nil.
      cbn in Hitem. unfold is_sentinel at 2. cbn [eval_work_item_index].
      case_decide; [done|]. rewrite app_nil_r. by eapply H2.
  - done.
Qed.

Lemma sentinel_inv_eval (i : nat) (n n' : Node) :
  eval_step i n = Some n' ->
  buffers_inv cfg n -> sentinel_inv cfg n -> sentinel_inv cfg n'.
Proof.
  unfold eval_step. intros Hstep Hbuf [H1 H2].
  destruct (eval_threads n !! i) as [[a pc]|] eqn:Hi; [|done].
  pose proof (bi_args _ _ Hbuf i _ Hi) as Ha. cbn in Ha. subst a.
  cbn [arg_eval_work arg_gpu_device_id arg_frame_buffers eval_thread_args] in Hstep.
  assert (forall pc' g q t,
            eval_returned pc' = false ->
            eval_returned pc = false ->
            eval_work n !! g = Some q ->
            <[i := (eval_thread_args i, pc')]> (eval_threads n) !! g = Some t ->
            (length (filter is_sentinel q) + (if eval_returned t.2 then 1 else 0)
             = eval_sentinels_expected cfg (main_thread n) g)%nat) as Hkeep.
  { intros pc' g q t Hpc' Hpc Hq [(-> & <- & _)|[_ Ht]]%list_lookup_insert_Some.
    - cbn. rewrite Hpc'. specialize (H2 g q _ Hq Hi). cbn in H2. by rewrite Hpc in H2.
    - by eapply H2. }
  destruct pc as [|e|e|].
  - destruct (eval_work n !! i) as [q|] eqn:Hq; [|done].
    destruct q as [|e rest]; [done|]. cbn in Hstep. simplify_eq.
    split; node_cbn; [done|].
    intros g q' t [(Hg & Hq' & _)|[Hne Hq']]%list_lookup_insert_Some Ht.
    + subst g q'. rewrite list_lookup_insert_eq in Ht by (by eapply lookup_lt_Some).
      simplify_eq. specialize (H2 i _ _ Hq Hi).
      rewrite filter_cons in H2. cbn [snd eval_returned] in *.
      unfold is_sentinel in H2 at 1.
      case_bool_decide; case_decide; try done; cbn [length eval_returned] in *; lia.
    + rewrite list_lookup_insert_ne in Ht by done. by eapply H2.
  - simplify_eq. split; node_cbn; [done|]. intros g q t Hq Ht.
    eapply (Hkeep _ g q t); [| |exact Hq|exact Ht]; done.
  - simplify_eq. split; node_cbn; [done|]. intros g q t Hq Ht.
    eapply (Hkeep _ g q t); [| |exact Hq|exact Ht]; done.
  - done.
Qed.

Lemma sentinel_inv_shutdown (indeterminate : nat) (n n' : Node) :
  shutdown_step cfg indeterminate n = Some n' ->
  shutdown_inv cfg n -> sentinel_inv cfg n -> sentinel_inv cfg n'.
Proof.
  unfold shutdown_step. intros Hstep Hsi [H1 H2].
  pose proof (si_counter _ _ Hsi) as Hc.
  destruct (main_thread n) as [next|wd| | |i|i|i|i|] eqn:Hpc; try done; node_cbn.
  - case_bool_decide; simplify_eq.
    + split; node_cbn; [|done].
      unfold push. rewrite filter_app, length_app, filter_cons, filter_nil.
      cbn [work_item_index]. case_decide; [cbn [length]; unfold Queue in *; lia|done].
    + split; node_cbn; [lia|done].
  - case_bool_decide.
    + destruct (load_threads n !! i) as [[]|]; try done. simplify_eq.
      split; node_cbn; done.
    + simplify_eq. split; node_cbn; [done|].
      intros g q t Hq Ht. specialize (H2 g q t Hq Ht). by case_bool_decide; try lia.
  - case_bool_decide.
    + destruct (eval_work n !! i) as [q|] eqn:Hq; [|done]. simplify_eq.
      split; node_cbn; [done|].
      intros g q' t [(Hg & Hq' & _)|[Hne Hq']]%list_lookup_insert_Some Ht.
      * subst g q'. specialize (H2 _ _ _ Hq Ht).
        rewrite bool_decide_eq_false_2 in H2 by lia.
        rewrite bool_decide_eq_true_2 by lia.
        unfold push. rewrite filter_app, length_app, filter_cons, filter_nil.
        unfold is_sentinel at 2. cbn [eval_work_item_index].
        case_decide; [cbn [length]; lia|done].
      * specialize (H2 g q' t Hq' Ht). repeat case_bool_decide; lia.
    + simplify_eq. split; node_cbn; [done|].
      intros g q t Hq Ht. specialize (H2 g q t Hq Ht).
      assert (g < gpus cfg)%nat.
      { rewrite <- (si_eval_queues _ _ Hsi). by eapply lookup_lt_Some. }
      rewrite bool_decide_eq_true_2 by done. case_bool_decide; lia.
  - case_bool_decide.
    + destruct (eval_threads n !! i) as [[a []]|]; try done. simplify_eq.
      split; node_cbn; done.
    + simplify_eq. split; node_cbn; done.
Qed.

Lemma sentinel_inv_main (pc : MainPc) (n : Node) :
  distributing (main_thread n) ->
  load_sentinels_expected cfg pc = 0%nat ->
  (forall g, eval_sentinels_expected cfg pc g = 0%nat) ->
  sentinel_inv cfg n -> sentinel_inv cfg (set_main_thread pc n).
Proof.
  intros Hd Hls Hes [H1 H2].
  assert (load_sentinels_expected cfg (main_thread n) = 0%nat) as Hls0
    by (by destruct (main_thread n)).
  assert (forall g, eval_sentinels_expected cfg (main_thread n) g = 0%nat) as Hes0
    by (intros g; by destruct (main_thread n)).
  split; node_cbn.
  - rewrite Hls0 in H1. by rewrite Hls.
  - intros g q t Hq Ht. specialize (H2 g q t Hq Ht). rewrite Hes0 in H2. by rewrite Hes.
Qed.

Lemma sentinel_inv_push (k : Z) (n : Node) :
  k <> SENTINEL -> sentinel_inv cfg n -> sentinel_inv cfg (push_load_work k n).
Proof.
  intros Hk [H1 H2]. split; node_cbn; [|done].
  unfold push. rewrite filter_app, filter_cons, filter_nil. cbn [work_item_index].
  case_decide; [done|]. by rewrite app_nil_r.
Qed.

Lemma sentinel_inv_trans (n n' : Node) :
  node_trans cfg n n' ->
  buffers_inv cfg n -> shutdown_inv cfg n -> sentinel_inv cfg n -> sentinel_inv cfg n'.
Proof.
  intros Htrans Hbuf Hsi Hinv.
  destruct Htrans as [w n n' Hstep|i n n' Hstep|ind n n' Hstep|next n Hpc Hlt
    |next n Hpc Hlt|next n Hpc Hge|wd n Hpc|wd n Hpc|n Hpc
    |next_item rest n Hpc Hinbox Hne|rest n Hpc Hinbox|reply n].
  - by eapply sentinel_inv_load.
  - by eapply sentinel_inv_eval.
  - by eapply sentinel_inv_shutdown.
  - apply sentinel_inv_main; [by cbn; rewrite Hpc|done..|].
    apply sentinel_inv_push; [|done].
    pose proof (si_counter _ _ Hsi) as Hc. rewrite Hpc in Hc. cbn in Hc.
    unfold SENTINEL. lia.
  - apply sentinel_inv_main; [by rewrite Hpc|done..].
  - apply sentinel_inv_main; [by rewrite Hpc|done..].
  - apply sentinel_inv_main; [by rewrite Hpc|done..].
  - apply sentinel_inv_main; [by rewrite Hpc|done..].
  - apply sentinel_inv_main; [by rewrite Hpc|done..].
  - apply sentinel_inv_main; [by cbn; rewrite Hpc|done..|].
    apply sentinel_inv_push; [done|]. destruct Hinv as [H1 H2]. by split.
  - apply sentinel_inv_main; [by cbn; rewrite Hpc|done..|].
    destruct Hinv as [H1 H2]. by split.
  - destruct Hinv as [H1 H2]. by split.
Qed.

Lemma sentinel_inv_reach (rank : nat) (n : Node) :
  node_reach cfg rank n -> sentinel_inv cfg n.
Proof.
  intros Hreach.
  pose proof (buffers_inv_reach cfg rank) as Hbuf.
  pose proof (shutdown_inv_reach cfg rank) as Hsi.
  induction Hreach as [|n n' Hreach IH Htrans]; [apply sentinel_inv_init|].
  eapply sentinel_inv_trans; [done|by apply Hbuf|by apply Hsi|done].
Qed.

(** The requests pending at the master come from nodes of the cluster. *)
Lemma requests_valid (num_nodes : nat) (c : Cluster) :
  reachable cfg num_nodes c ->
  forall r, r ∈ requests c -> (r < length (nodes c))%nat.
Proof.
  revert c.
  apply (reachable_ind cfg num_nodes
           (fun c => forall r, r ∈ requests c -> (r < length (nodes c))%nat)).
  - by intros r ?%elem_of_nil.
  - intros c rank a c' Hc IH Hstep r.
    rewrite (cluster_step_length cfg rank a c c' Hstep).
    revert Hstep. unfold cluster_step, master_step, remote_step, serve_request, update_node.
    intros Hstep.
    repeat (case_match || case_bool_decide || simplify_option_eq); cbn; try apply IH.
    all: try (by intros Hr%list_elem_of_delete_inv; apply IH).
    all: intros [Hr | ->%list_elem_of_singleton]%elem_of_app; [by apply IH|].
    all: by eapply lookup_lt_Some.
Qed.

End SentinelFacts.

Section ProgressFacts.
Import Pipeline.

Variable cfg : Config.
Hypothesis gpus_pos : (1 <= gpus cfg)%nat.
Hypothesis tasks_pos : (1 <= tasks cfg)%nat.
Hypothesis load_workers_pos : (1 <= load_workers cfg)%nat.

Lemma load_step_changes (w : nat) (n n' : Node) :
  load_step cfg w n = Some n' -> n' <> n.
Proof.
  unfold load_step. intros Hstep Heq. apply (f_equal (length ∘ history)) in Heq.
  repeat (case_match || case_bool_decide); simplify_eq; cbn in Heq; lia.
Qed.

Lemma eval_step_changes (i : nat) (n n' : Node) :
  eval_step i n = Some n' -> n' <> n.
Proof.
  unfold eval_step. intros Hstep Heq. apply (f_equal (length ∘ history)) in Heq.
  repeat (case_match || case_bool_decide); simplify_eq; cbn in Heq; lia.
Qed.

Lemma shutdown_step_changes (indeterminate : nat) (n n' : Node) :
  shutdown_step cfg indeterminate n = Some n' -> n' <> n.
Proof.
  unfold shutdown_step. intros Hstep Heq. apply (f_equal main_thread) in Heq.
  destruct (main_thread n) eqn:Hpc; try done.
  all: repeat (case_match || case_bool_decide); simplify_eq; cbn in Heq;
    rewrite ?Hpc in Heq; try done; simplify_eq; lia.
Qed.

(** An evaluate worker that has not returned can take a step, unless
    it waits at an empty queue. *)
Lemma eval_thread_progress (n : Node) (i : nat) (a : EvaluateThreadArgs) (pc : EvalPc) :
  buffers_inv cfg n ->
  eval_threads n !! i = Some (a, pc) -> pc <> EvalReturned ->
  (pc = EvalPop -> exists e q, eval_work n !! i = Some (e :: q)) ->
  exists n', eval_step i n = Some n'.
Proof.
  intros Hbuf Hi Hpc Hq. unfold eval_step. rewrite Hi.
  pose proof (bi_args _ _ Hbuf i _ Hi) as Ha. cbn in Ha. subst a.
  cbn [arg_eval_work arg_gpu_device_id arg_frame_buffers eval_thread_args].
  destruct pc; try done; [|by eexists..].
  destruct (Hq eq_refl) as (e & q & Heq). unfold Queue in *. rewrite Heq. by eexists.
Qed.

(** While a load worker waits for a free buffer that is not there,
    some worker holds one and can go on. *)
Lemma buffer_wait_progress (n : Node) :
  buffers_inv cfg n -> drain_inv cfg n ->
  empty_load_buffers n = [] -> worker_can_step cfg n.
Proof.
  intros Hbuf Hdr Hempty.
  assert ({| gpu_device_id := 0; buffer_index := 0 |} ∈ all_held n) as Hin.
  { rewrite (bi_held _ _ Hbuf). apply elem_of_startup_buffers. cbn. lia. }
  unfold all_held in Hin. rewrite Hempty in Hin. cbn [app] in Hin.
  set (b0 := {| gpu_device_id := 0; buffer_index := 0 |}) in *.
  apply elem_of_app in Hin as [Hin|[Hin|Hin]%elem_of_app].
  - apply elem_of_concat in Hin as (held & (pc & -> & [w Hw]%list_elem_of_lookup)%list_elem_of_fmap & Hb).
    left. exists w. unfold load_step. rewrite Hw.
    assert (forall b, b ∈ held_by_load pc -> b ∈ startup_buffers cfg) as Hstart.
    { intros b Hb'. rewrite <- (bi_held _ _ Hbuf). unfold all_held.
      rewrite !elem_of_app. right; left. by apply (elem_of_concat_fmap held_by_load _ w pc). }
    destruct pc as [|k|k b|k b|]; cbn in Hb; try by apply elem_of_nil in Hb.
    + specialize (Hstart b ltac:(apply list_elem_of_here)).
      apply elem_of_startup_buffers in Hstart.
      rewrite bool_decide_eq_true_2 by done. by eexists.
    + specialize (Hstart b ltac:(apply list_elem_of_here)).
      apply elem_of_startup_buffers in Hstart as [Hg _].
      rewrite <- (bi_queues _ _ Hbuf) in Hg.
      apply lookup_lt_is_Some_2 in Hg as [q Hq]. rewrite Hq. by eexists.
  - apply elem_of_queued_from in Hin as (i & q & Hq & (e & He & Hs & _)%elem_of_queued).
    assert (i < length (eval_threads n))%nat as Hlt.
    { rewrite (bi_eval_threads _ _ Hbuf), <- (bi_queues _ _ Hbuf).
      by eapply lookup_lt_Some. }
    apply lookup_lt_is_Some in Hlt as [[a pc] Ht].
    right. exists i. apply (eval_thread_progress n i a pc Hbuf Ht).
    + intros ->. destruct (dr_eval_returned _ _ Hdr i a Ht) as [_ Hall].
      specialize (Hall q Hq). rewrite Forall_forall in Hall. by apply Hs, Hall.
    + intros _. destruct q as [|e' q']; [by apply elem_of_nil in He|]. by exists e', q'.
  - apply elem_of_concat in Hin as (held & ([a pc] & -> & [i Hi]%list_elem_of_lookup)%list_elem_of_fmap & Hb).
    right. exists i. apply (eval_thread_progress n i a pc Hbuf Hi).
    + intros ->. by apply elem_of_nil in Hb.
    + intros ->. by apply elem_of_nil in Hb.
Qed.

(** A load worker that has not returned can take a step or finds
    another worker that can, unless it waits at an empty [load_work]. *)
Lemma load_thread_progress (n : Node) (w : nat) (pc : LoadPc) :
  buffers_inv cfg n -> drain_inv cfg n ->
  load_threads n !! w = Some pc -> pc <> LoadReturned ->
  (pc = LoadPop -> load_work n <> []) ->
  worker_can_step cfg n.
Proof.
  intros Hbuf Hdr Hw Hpc Hq.
  assert (forall b, b ∈ held_by_load pc -> b ∈ startup_buffers cfg) as Hstart.
  { intros b Hb'. rewrite <- (bi_held _ _ Hbuf). unfold all_held.
    rewrite !elem_of_app. right; left. by apply (elem_of_concat_fmap held_by_load _ w pc). }
  destruct pc as [|k|k b|k b|]; try done.
  - left. exists w. unfold load_step. rewrite Hw.
    destruct (load_work n) as [|entry rest]; [by destruct (Hq eq_refl)|]. by eexists.
  - destruct (empty_load_buffers n) as [|b rest] eqn:Hempty;
      [by apply buffer_wait_progress|].
    left. exists w. unfold load_step. rewrite Hw, Hempty. by eexists.
  - left. exists w. unfold load_step. rewrite Hw.
    specialize (Hstart b ltac:(apply list_elem_of_here)).
    apply elem_of_startup_buffers in Hstart.
    rewrite bool_decide_eq_true_2 by done. by eexists.
  - left. exists w. unfold load_step. rewrite Hw.
    specialize (Hstart b ltac:(apply list_elem_of_here)).
    apply elem_of_startup_buffers in Hstart as [Hg _].
    rewrite <- (bi_queues _ _ Hbuf) in Hg.
    apply lookup_lt_is_Some_2 in Hg as [q Hq']. rewrite Hq'. by eexists.
Qed.

Lemma sum_list_pos (l : list nat) :
  (1 <= sum_list l)%nat -> exists i x, l !! i = Some x /\ (1 <= x)%nat.
Proof.
  induction l as [|y l IH]; cbn; [lia|]. intros Hsum.
  destruct (decide (1 <= y)%nat) as [Hy|Hy].
  - by exists 0%nat, y.
  - destruct IH as (i & x & Hi & Hx); [lia|]. by exists (S i), x.
Qed.

(** While [main] distributes work and some work waits in a queue of
    the node, a worker can take a step. *)
Lemma worker_progress (n : Node) :
  buffers_inv cfg n -> shutdown_inv cfg n -> drain_inv cfg n ->
  distributing (main_thread n) -> (1 <= local_work n)%nat ->
  worker_can_step cfg n.
Proof.
  intros Hbuf Hsi Hdr Hd Hwork.
  assert (exists pc, load_threads n !! 0%nat = Some pc /\ pc <> LoadReturned)
    as (pc0 & Hw0 & Hpc0).
  { assert (0 < length (load_threads n))%nat as Hlt
      by (rewrite (si_load_threads _ _ Hsi); lia).
    apply lookup_lt_is_Some in Hlt as [pc Hpc]. exists pc. split; [done|].
    intros ->. by destruct (dr_load_returned _ _ Hdr 0%nat Hpc). }
  unfold local_work in Hwork.
  destruct (load_work n) as [|entry rest] eqn:Hq.
  - cbn in Hwork. apply sum_list_pos in Hwork as (g & x & Hg & Hx).
    rewrite list_lookup_fmap in Hg. apply fmap_Some in Hg as (q & Hq' & ->).
    assert (g < length (eval_threads n))%nat as Hlt.
    { rewrite (bi_eval_threads _ _ Hbuf), <- (bi_queues _ _ Hbuf).
      by eapply lookup_lt_Some. }
    apply lookup_lt_is_Some in Hlt as [[a pc] Ht].
    right. exists g. apply (eval_thread_progress n g a pc Hbuf Ht).
    + intros ->. destruct (dr_eval_returned _ _ Hdr g a Ht) as [Hall _].
      rewrite Forall_lookup in Hall. by specialize (Hall 0%nat pc0 Hw0).
    + intros _. destruct q as [|e q]; [cbn in Hx; lia|]. by exists e, q.
  - apply (load_thread_progress n 0 pc0 Hbuf Hdr Hw0 Hpc0). intros _. by rewrite Hq.
Qed.

Lemma count_below {A} (P : A -> Prop) `{forall x, Decision (P x)}
    (l : list A) (i : nat) (x : A) :
  l !! i = Some x -> ~ P x -> (length (filter P l) < length l)%nat.
Proof.
  revert i. induction l as [|y l IH]; intros [|i] Hi Hx; cbn in Hi; simplify_eq.
  - rewrite filter_cons. case_decide; [done|]. pose proof (length_filter P l). cbn. lia.
  - rewrite filter_cons. specialize (IH i Hi Hx). case_decide; cbn; lia.
Qed.

(** Past the distribution of work, and before the end of the joins,
    [main] or a worker can take a step. *)
Lemma shutdown_progress (n : Node) :
  buffers_inv cfg n -> shutdown_inv cfg n -> drain_inv cfg n -> sentinel_inv cfg n ->
  ~ distributing (main_thread n) -> main_thread n <> Finished ->
  (exists indeterminate n', shutdown_step cfg indeterminate n = Some n') \/
  worker_can_step cfg n.
Proof.
  intros Hbuf Hsi Hdr Hsn Hpast Hrun.
  pose proof (si_counter _ _ Hsi) as Hc.
  unfold shutdown_step.
  destruct (main_thread n) as [next|wd| | |i|i|i|i|] eqn:Hpc; cbn in Hpast, Hc; try done.
  - left. exists 0%nat. case_bool_decide; by eexists.
  - case_bool_decide as Hi; [|left; exists 0%nat; by eexists].
    assert (i < length (load_threads n))%nat as Hlt
      by (by rewrite (si_load_threads _ _ Hsi)).
    apply lookup_lt_is_Some in Hlt as [pc Hw]. rewrite Hw.
    assert (pc = LoadReturned \/ pc <> LoadReturned) as [->|Hne]
      by (destruct pc; (by left) || (by right));
      [left; exists 0%nat; by eexists|].
    right. apply (load_thread_progress n i pc Hbuf Hdr Hw Hne).
    intros -> Hq. pose proof (sn_load _ _ Hsn) as Hcount.
    rewrite Hpc, Hq in Hcount. cbn in Hcount.
    pose proof (count_below (fun pc => load_returned pc = true) _ i LoadPop Hw
                  ltac:(done)) as Hbelow.
    rewrite (si_load_threads _ _ Hsi) in Hbelow. lia.
  - left. exists 0%nat. case_bool_decide as Hi; [|by eexists].
    assert (i < length (eval_work n))%nat as Hlt
      by (by rewrite (si_eval_queues _ _ Hsi)).
    apply lookup_lt_is_Some in Hlt as [q Hq]. rewrite Hq. by eexists.
  - case_bool_decide as Hi; [|left; exists 0%nat; by eexists].
    assert (i < length (eval_threads n))%nat as Hlt
      by (by rewrite (bi_eval_threads _ _ Hbuf)).
    apply lookup_lt_is_Some in Hlt as [[a pc] Ht]. rewrite Ht.
    assert (pc = EvalReturned \/ pc <> EvalReturned) as [->|Hne]
      by (destruct pc; (by left) || (by right));
      [left; exists 0%nat; by eexists|].
    right. right. exists i. apply (eval_thread_progress n i a pc Hbuf Ht Hne).
    intros ->.
    assert (i < length (eval_work n))%nat as Hlt
      by (by rewrite (si_eval_queues _ _ Hsi)).
    apply lookup_lt_is_Some in Hlt as [q Hq].
    pose proof (sn_eval _ _ Hsn i q _ Hq Ht) as Hcount.
    rewrite Hpc in Hcount. cbn in Hcount.
    rewrite bool_decide_eq_true_2 in Hcount by done.
    destruct q as [|e q]; [cbn in Hcount; lia|]. by exists e, q.
Qed.

End ProgressFacts.

Section DeadlockFacts.
Import Pipeline.

Variable cfg : Config.
Hypothesis gpus_pos : (1 <= gpus cfg)%nat.
Hypothesis tasks_pos : (1 <= tasks cfg)%nat.
Hypothesis load_workers_pos : (1 <= load_workers cfg)%nat.

Lemma update_node_changes (rank : nat) (n n' : Node) (c : Cluster) :
  nodes c !! rank = Some n -> n' <> n -> update_node rank n' c <> c.
Proof.
  intros Hn Hne Heq. apply (f_equal (fun c => nodes c !! rank)) in Heq. cbn in Heq.
  rewrite list_lookup_insert_eq in Heq by (by eapply lookup_lt_Some).
  rewrite Hn in Heq. by simplify_eq.
Qed.

Lemma progresses_worker (rank : nat) (n : Node) (c : Cluster) :
  nodes c !! rank = Some n -> worker_can_step cfg n -> progresses cfg c.
Proof.
  intros Hn [(w & n' & Hs)|(i & n' & Hs)].
  - exists rank, (Load w), (update_node rank n' c). split.
    + unfold cluster_step. by rewrite Hn, Hs.
    + apply (update_node_changes rank n); [done|]. by eapply load_step_changes.
  - exists rank, (Eval i), (update_node rank n' c). split.
    + unfold cluster_step. by rewrite Hn, Hs.
    + apply (update_node_changes rank n); [done|]. by eapply eval_step_changes.
Qed.

Lemma progresses_shutdown (rank indeterminate : nat) (n n' : Node) (c : Cluster) :
  nodes c !! rank = Some n -> shutdown_step cfg indeterminate n = Some n' ->
  progresses cfg c.
Proof.
  intros Hn Hs. exists rank, (Main 0 indeterminate), (update_node rank n' c). split.
  - unfold cluster_step. rewrite Hn.
    unfold is_master. case_bool_decide as Hrank; [subst rank|];
      unfold master_step, remote_step.
    all: destruct (main_thread n) eqn:Hpc;
      try (unfold shutdown_step in Hs; rewrite Hpc in Hs; done).
    all: rewrite Hs; reflexivity.
  - apply (update_node_changes rank n); [done|]. by eapply shutdown_step_changes.
Qed.

Lemma not_all_pass {A} (P : A -> Prop) `{forall x, Decision (P x)} (l : list A) :
  (length (filter P l) < length l)%nat -> exists i x, l !! i = Some x /\ ~ P x.
Proof.
  induction l as [|y l IH]; [cbn; lia|]. rewrite filter_cons.
  destruct (decide (P y)) as [Hy|Hy]; cbn [length]; intros Hlt.
  - destruct IH as (i & x & Hi & Hx); [lia|]. by exists (S i), x.
  - by exists 0%nat, y.
Qed.

Lemma untold_exists (ns : list Node) :
  (S (told_count ns) < length ns)%nat ->
  exists r n, r <> 0%nat /\ ns !! r = Some n /\ told (summary n) = false.
Proof.
  destruct ns as [|n0 ns]; cbn; [lia|]. unfold told_count. cbn. intros Hlt.
  destruct (not_all_pass (fun n => told (summary n) = true) ns) as (i & x & Hi & Hx);
    [lia|].
  exists (S i), x. split; [done|]. split; [done|]. by apply not_true_is_false.
Qed.

(** A node other than the master that is still in the loop of line 985
    and has not been told to leave it. *)
Lemma remote_progress (num_nodes rank : nat) (n : Node) (c : Cluster) :
  reachable cfg num_nodes c -> requests c = [] ->
  rank <> 0%nat -> nodes c !! rank = Some n -> told (summary n) = false ->
  progresses cfg c.
Proof.
  intros Hc Hreq Hrank Hn Htold.
  destruct (reachable_nodes cfg num_nodes c Hc) as [_ Hreach].
  pose proof (dispatch_inv_reach cfg num_nodes c Hc) as Hdisp.
  pose proof (di_nodes _ _ _ Hdisp rank _ (summary_lookup c rank n Hn)) as Hok.
  unfold node_ok in Hok. unfold told in Htold. cbn in Hok, Htold.
  destruct (main_thread n) eqn:Hpc; cbn in Hok, Htold; try done;
    try (by destruct Hok).
  - (* the monitor loop *)
    destruct (decide (local_work n < high_water cfg)%nat) as [Hroom|Hfull].
    + exists rank, (Main 0 0). eexists. split.
      * unfold cluster_step. rewrite Hn. unfold is_master.
        rewrite bool_decide_eq_false_2 by done. unfold remote_step.
        rewrite Hpc. by rewrite bool_decide_eq_true_2.
      * intros Heq. apply (f_equal (length ∘ requests)) in Heq. cbn in Heq.
        rewrite length_app in Heq. cbn in Heq. lia.
    + apply (progresses_worker rank n c Hn). apply worker_progress; try done.
      * by apply (buffers_inv_reach cfg rank), Hreach.
      * by apply (shutdown_inv_reach cfg rank), Hreach.
      * by apply (drain_inv_reach cfg rank), Hreach.
      * by rewrite Hpc.
      * unfold high_water in Hfull. nia.
  - (* the receive of line 995 *)
    destruct Hok as [_ [[Hin _]|[_ [k Hin]]]].
    { rewrite Hreq in Hin. by apply elem_of_nil in Hin. }
    assert (forall n', main_thread n' <> AwaitReply ->
              remote_step cfg rank 0 n c = Some (update_node rank n' c) ->
              progresses cfg c) as Hmove.
    { intros n' Hne Hs. exists rank, (Main 0 0), (update_node rank n' c). split.
      - unfold cluster_step. rewrite Hn. unfold is_master.
        by rewrite bool_decide_eq_false_2.
      - apply (update_node_changes rank n); [done|]. intros ->. by rewrite Hpc in Hne. }
    destruct (decide (k = SENTINEL)) as [Hk|Hk].
    + eapply (Hmove (set_main_thread (PushLoadSentinels 0) (set_inbox [] n))); [done|].
      unfold remote_step. rewrite Hpc, Hin. by rewrite bool_decide_eq_true_2.
    + eapply (Hmove (set_main_thread Monitor (push_load_work k (set_inbox [] n))));
        [done|].
      unfold remote_step. rewrite Hpc, Hin. by rewrite bool_decide_eq_false_2.
Qed.

Lemma master_progress (num_nodes : nat) (n0 : Node) (c : Cluster) :
  reachable cfg num_nodes c -> nodes c !! 0%nat = Some n0 ->
  main_thread n0 <> Finished -> progresses cfg c.
Proof.
  intros Hc Hn0 Hrun.
  destruct (reachable_nodes cfg num_nodes c Hc) as [Hlen Hreach].
  pose proof (dispatch_inv_reach cfg num_nodes c Hc) as Hdisp.
  pose proof (handshake_reach cfg num_nodes c Hc) as Hhs.
  pose proof (buffers_inv_reach cfg 0 n0 (Hreach 0%nat n0 Hn0)) as Hbuf.
  pose proof (shutdown_inv_reach cfg 0 n0 (Hreach 0%nat n0 Hn0)) as Hsi.
  pose proof (drain_inv_reach cfg 0 n0 (Hreach 0%nat n0 Hn0)) as Hdr.
  pose proof (sentinel_inv_reach cfg 0 n0 (Hreach 0%nat n0 Hn0)) as Hsn.
  pose proof (di_nodes _ _ _ Hdisp 0%nat _ (summary_lookup c 0 n0 Hn0)) as Hok.
  unfold node_ok in Hok. cbn in Hok.
  unfold handshake_inv in Hhs. rewrite Hn0 in Hhs.
  assert (forall n', n' <> n0 ->
            cluster_step cfg 0 (Main 0 0) c = Some (update_node 0 n' c) ->
            progresses cfg c) as Hmove.
  { intros n' Hne Hs. exists 0%nat, (Main 0 0), (update_node 0 n' c).
    split; [done|]. by apply (update_node_changes 0 n0). }
  assert (cluster_step cfg 0 (Main 0 0) c = master_step cfg 0 0 n0 c) as Hmaster.
  { unfold cluster_step. by rewrite Hn0. }
  destruct (main_thread n0) as [next|wd| | |i|i|i|i|] eqn:Hpc; cbn in Hok;
    try done; try (by destruct Hok).
  - (* the loop of line 942 *)
    destruct (decide (next < Z.of_nat (work_items cfg))) as [Hnext|Hdone].
    + destruct (decide (local_work n0 < high_water cfg)%nat) as [Hroom|Hfull].
      * eapply Hmove; [|rewrite Hmaster; unfold master_step; rewrite Hpc;
                         by rewrite !bool_decide_eq_true_2].
        intros Heq. apply (f_equal main_thread) in Heq. cbn in Heq.
        rewrite Hpc in Heq. simplify_eq. lia.
      * apply (progresses_worker 0 n0 c Hn0). apply worker_progress; try done.
        -- by rewrite Hpc.
        -- unfold high_water in Hfull. nia.
    + eapply Hmove; [|rewrite Hmaster; unfold master_step; rewrite Hpc;
                       by rewrite bool_decide_eq_false_2].
      intros Heq. apply (f_equal main_thread) in Heq. cbn in Heq. congruence.
  - (* the loop of line 972 *)
    destruct (decide (wd < length (nodes c))%nat) as [Hwd|Hall].
    + destruct (requests c) as [|src reqs] eqn:Hreq.
      * destruct (untold_exists (nodes c)) as (r & n & Hr & Hn & Htold); [lia|].
        by apply (remote_progress num_nodes r n c).
      * assert (src < length (nodes c))%nat as Hsrc.
        { apply (requests_valid cfg num_nodes c Hc). rewrite Hreq. apply list_elem_of_here. }
        exists 0%nat, (Main 0 0).
        rewrite Hmaster. unfold master_step. rewrite Hpc.
        rewrite bool_decide_eq_true_2 by done. unfold serve_request. rewrite Hreq. cbn.
        assert (src < length (<[0%nat:=set_main_thread (Drain (S wd)) n0]> (nodes c)))%nat
          as Hsrc' by (by rewrite length_insert).
        apply lookup_lt_is_Some in Hsrc' as [dst Hdst]. rewrite Hdst.
        eexists. split; [done|].
        intros Heq. apply (f_equal (length ∘ requests)) in Heq. cbn in Heq.
        rewrite Hreq in Heq. cbn in Heq. lia.
    + eapply Hmove; [|rewrite Hmaster; unfold master_step; rewrite Hpc;
                       by rewrite bool_decide_eq_false_2].
      intros Heq. apply (f_equal main_thread) in Heq. cbn in Heq. congruence.
  - destruct (shutdown_progress cfg gpus_pos tasks_pos load_workers_pos n0
                Hbuf Hsi Hdr Hsn)
      as [(ind & n' & Hs)|Hw]; [rewrite Hpc; cbn; solve [done|intros []]..| |].
    + by eapply progresses_shutdown.
    + by eapply progresses_worker.
  - destruct (shutdown_progress cfg gpus_pos tasks_pos load_workers_pos n0
                Hbuf Hsi Hdr Hsn)
      as [(ind & n' & Hs)|Hw]; [rewrite Hpc; cbn; solve [done|intros []]..| |].
    + by eapply progresses_shutdown.
    + by eapply progresses_worker.
  - destruct (shutdown_progress cfg gpus_pos tasks_pos load_workers_pos n0
                Hbuf Hsi Hdr Hsn)
      as [(ind & n' & Hs)|Hw]; [rewrite Hpc; cbn; solve [done|intros []]..| |].
    + by eapply progresses_shutdown.
    + by eapply progresses_worker.
  - destruct (shutdown_progress cfg gpus_pos tasks_pos load_workers_pos n0
                Hbuf Hsi Hdr Hsn)
      as [(ind & n' & Hs)|Hw]; [rewrite Hpc; cbn; solve [done|intros []]..| |].
    + by eapply progresses_shutdown.
    + by eapply progresses_worker.
Qed.

(** A node other than the master that has been told to leave the loop
    of line 985 and has not yet joined its workers. *)
Lemma told_progress (num_nodes rank : nat) (n : Node) (c : Cluster) :
  reachable cfg num_nodes c -> nodes c !! rank = Some n -> rank <> 0%nat ->
  told (summary n) = true -> main_thread n <> Finished -> progresses cfg c.
Proof.
  intros Hc Hn Hrank Htold Hrun.
  destruct (reachable_nodes cfg num_nodes c Hc) as [_ Hreach].
  pose proof (buffers_inv_reach cfg rank n (Hreach rank n Hn)) as Hbuf.
  pose proof (shutdown_inv_reach cfg rank n (Hreach rank n Hn)) as Hsi.
  pose proof (drain_inv_reach cfg rank n (Hreach rank n Hn)) as Hdr.
  pose proof (sentinel_inv_reach cfg rank n (Hreach rank n Hn)) as Hsn.
  destruct (decide (distributing (main_thread n))) as [Hdist|Hpast].
  - unfold told in Htold. cbn in Htold.
    destruct (main_thread n) as [next|wd| | |i|i|i|i|] eqn:Hpc; cbn in Htold, Hdist;
      try done.
    apply bool_decide_eq_true_1 in Htold.
    exists rank, (Main 0 0),
      (update_node rank (set_main_thread (PushLoadSentinels 0) (set_inbox [] n)) c).
    split.
    + unfold cluster_step. rewrite Hn. unfold is_master.
      rewrite bool_decide_eq_false_2 by done. unfold remote_step.
      rewrite Hpc, Htold. by rewrite bool_decide_eq_true_2.
    + apply (update_node_changes rank n); [done|]. intros Heq.
      apply (f_equal main_thread) in Heq. cbn in Heq. congruence.
  - destruct (shutdown_progress cfg gpus_pos tasks_pos load_workers_pos n
                Hbuf Hsi Hdr Hsn Hpast Hrun) as [(ind & n' & Hs)|Hw].
    + by eapply progresses_shutdown.
    + by eapply progresses_worker.
Qed.

End DeadlockFacts.

(** X12 - The pipeline never deadlocks: with at least one GPU per node,
    a positive [TASKS_IN_QUEUE_PER_GPU] and at least one load worker,
    in every state the cluster can reach in which some node's [main]
    has not yet joined all its workers, some thread can take a step
    that changes the state: a worker pops, decodes, evaluates or
    returns, or a [main] pushes, sends, receives or joins.  A step of
    [main] is the part of its loop up to and including its next queue
    or message operation, so the test of line 953 is taken together
    with the receive of line 962. *)
Theorem pipeline_never_deadlocks (cfg : Pipeline.Config) (num_nodes : nat)
    (c : Pipeline.Cluster) :
  (1 <= Pipeline.gpus cfg)%nat -> (1 <= Pipeline.tasks cfg)%nat ->
  (1 <= Pipeline.load_workers cfg)%nat ->
  Pipeline.reachable cfg num_nodes c ->
  (exists n, n ∈ Pipeline.nodes c /\ Pipeline.main_thread n <> Pipeline.Finished) ->
  Pipeline.progresses cfg c.
Proof.
  intros Hgpus Htasks Hworkers Hc (n & Hin & Hrun).
  apply list_elem_of_lookup in Hin as [rank Hn].
  destruct (Pipeline.nodes c !! 0%nat) as [n0|] eqn:Hn0.
  2: { apply lookup_ge_None in Hn0. apply lookup_lt_Some in Hn. lia. }
  assert (Pipeline.main_thread n0 = Pipeline.Finished \/
          Pipeline.main_thread n0 <> Pipeline.Finished) as [Hdone|Hbusy]
    by (destruct (Pipeline.main_thread n0); (by left) || (by right)).
  - assert (rank <> 0%nat) as Hrank by (intros ->; congruence).
    pose proof (handshake_reach cfg num_nodes c Hc) as Hhs.
    unfold Pipeline.handshake_inv in Hhs. rewrite Hn0, Hdone in Hhs.
    apply (told_progress cfg Hgpus Htasks Hworkers num_nodes rank n c); try done.
    by apply (told_all (Pipeline.nodes c) rank n).
  - by apply (master_progress cfg Hgpus Htasks Hworkers num_nodes n0 c).
Qed.

Lemma pipeline_never_deadlocks_witness :
  exists c,
    (1 <= Pipeline.gpus Scenario.two_items)%nat /\
    (1 <= Pipeline.tasks Scenario.two_items)%nat /\
    (1 <= Pipeline.load_workers Scenario.two_items)%nat /\
    Pipeline.reachable Scenario.two_items 2 c /\
    (exists n, n ∈ Pipeline.nodes c /\ Pipeline.main_thread n <> Pipeline.Finished) /\
    Pipeline.progresses Scenario.two_items c.
Proof.
  destruct (Pipeline.run Scenario.two_items Scenario.until_told
              (Pipeline.init_cluster Scenario.two_items 2)) as [c|] eqn:Hrun;
    [|vm_compute in Hrun; discriminate].
  destruct (Pipeline.nodes c !! 1%nat) as [n|] eqn:Hn;
    [|vm_compute in Hrun; injection Hrun as <-; vm_compute in Hn; discriminate].
  exists c.
  assert (1 <= Pipeline.gpus Scenario.two_items)%nat as Hgpus by (cbn; lia).
  assert (1 <= Pipeline.tasks Scenario.two_items)%nat as Htasks by (cbn; lia).
  assert (1 <= Pipeline.load_workers Scenario.two_items)%nat as Hworkers
    by (cbn; lia).
  assert (Pipeline.reachable Scenario.two_items 2 c) as Hreach
    by (exists Scenario.until_told; exact Hrun).
  assert (exists n, n ∈ Pipeline.nodes c /\
                    Pipeline.main_thread n <> Pipeline.Finished) as Hbusy.
  { exists n. split; [by eapply list_elem_of_lookup_2|].
    vm_compute in Hrun. injection Hrun as <-. vm_compute in Hn. injection Hn as <-.
    cbn. discriminate. }
  split; [exact Hgpus|]. split; [exact Htasks|]. split; [exact Hworkers|].
  split; [exact Hreach|]. split; [exact Hbusy|].
  exact (pipeline_never_deadlocks Scenario.two_items 2 c
           Hgpus Htasks Hworkers Hreach Hbusy).
Defined.

Lemma length_filter_all {A} (P : A -> Prop) `{forall x, Decision (P x)} (l : list A) :
  Forall P l -> length (filter P l) = length l.
Proof.
  induction 1 as [|x l Hx Hl IH]; [done|].
  rewrite filter_cons_True by done. cbn [length]. by rewrite IH.
Qed.

(** X13 - workers return on a sentinel only.  In every state of every
    run, on every node, the sentinels still queued in [load_work] and
    the load workers that have returned together number exactly the
    sentinels [main] has pushed so far (line 1011), and likewise for
    each [eval_work[g]] and its evaluate worker (line 1036); so while
    [main] is still handing out work no worker has returned, and once
    [main] has joined them all every worker has returned and no
    sentinel is left in any queue. *)
Theorem workers_return_on_sentinel (cfg : Pipeline.Config) (num_nodes : nat)
    (c : Pipeline.Cluster) (rank : nat) (n : Pipeline.Node) :
  Pipeline.reachable cfg num_nodes c -> Pipeline.nodes c !! rank = Some n ->
  (length (filter (fun e => Pipeline.work_item_index e = Pipeline.SENTINEL)
             (Pipeline.load_work n))
   + length (filter (fun pc => Pipeline.load_returned pc = true)
               (Pipeline.load_threads n))
   = Pipeline.load_sentinels_expected cfg (Pipeline.main_thread n))%nat /\
  (forall g q t,
     Pipeline.eval_work n !! g = Some q -> Pipeline.eval_threads n !! g = Some t ->
     (length (filter Pipeline.is_sentinel q)
      + (if Pipeline.eval_returned t.2 then 1 else 0)
      = Pipeline.eval_sentinels_expected cfg (Pipeline.main_thread n) g)%nat) /\
  (Pipeline.distributing (Pipeline.main_thread n) ->
     (forall w pc, Pipeline.load_threads n !! w = Some pc ->
        pc <> Pipeline.LoadReturned) /\
     (forall g t, Pipeline.eval_threads n !! g = Some t ->
        t.2 <> Pipeline.EvalReturned)) /\
  (Pipeline.main_thread n = Pipeline.Finished ->
     (forall w pc, Pipeline.load_threads n !! w = Some pc ->
        pc = Pipeline.LoadReturned) /\
     (forall g t, Pipeline.eval_threads n !! g = Some t ->
        t.2 = Pipeline.EvalReturned) /\
     (forall e, e ∈ Pipeline.load_work n ->
        Pipeline.work_item_index e <> Pipeline.SENTINEL) /\
     (forall g q e, Pipeline.eval_work n !! g = Some q -> e ∈ q ->
        ~ Pipeline.is_sentinel e)).
Proof.
  intros Hc Hn.
  destruct (reachable_nodes cfg num_nodes c Hc) as [_ Hreach].
  pose proof (sentinel_inv_reach cfg rank n (Hreach rank n Hn)) as Hsn.
  pose proof (buffers_inv_reach cfg rank n (Hreach rank n Hn)) as Hbuf.
  pose proof (shutdown_inv_reach cfg rank n (Hreach rank n Hn)) as Hsi.
  pose proof (drain_inv_reach cfg rank n (Hreach rank n Hn)) as Hdr.
  pose proof (Pipeline.sn_load _ _ Hsn) as Hload.
  pose proof (Pipeline.sn_eval _ _ Hsn) as Heval.
  assert (forall g t, Pipeline.eval_threads n !! g = Some t ->
            exists q, Pipeline.eval_work n !! g = Some q) as Hqueue.
  { intros g t Ht. apply lookup_lt_Some in Ht.
    rewrite (Pipeline.bi_eval_threads _ _ Hbuf) in Ht.
    apply lookup_lt_is_Some. by rewrite (Pipeline.bi_queues _ _ Hbuf). }
  split; [exact Hload|]. split; [exact Heval|]. split.
  - intros Hdist.
    assert (Pipeline.load_sentinels_expected cfg (Pipeline.main_thread n) = 0%nat)
      as Hnone by (by destruct (Pipeline.main_thread n)).
    assert (forall g, Pipeline.eval_sentinels_expected cfg (Pipeline.main_thread n) g
                      = 0%nat)
      as Hnone' by (intros g; by destruct (Pipeline.main_thread n)).
    split.
    + intros w pc Hw ->.
      assert (Pipeline.LoadReturned
                ∈ filter (fun pc => Pipeline.load_returned pc = true)
                    (Pipeline.load_threads n)) as Hin.
      { apply list_elem_of_filter. split; [done|]. by eapply list_elem_of_lookup_2. }
      rewrite Hnone in Hload.
      destruct (filter (fun pc => Pipeline.load_returned pc = true)
                  (Pipeline.load_threads n)); [by apply elem_of_nil in Hin|].
      cbn in Hload. lia.
    + intros g t Ht Hret. destruct (Hqueue g t Ht) as [q Hq].
      pose proof (Heval g q t Hq Ht) as Hcount. rewrite Hnone', Hret in Hcount.
      cbn in Hcount. lia.
  - intros Hdone.
    rewrite Hdone in Hload. cbn in Hload.
    assert (length (Pipeline.load_threads n) = Pipeline.load_workers cfg) as Hlen
      by apply (Pipeline.si_load_threads _ _ Hsi).
    assert (forall g t, Pipeline.eval_threads n !! g = Some t ->
              exists a, t = (a, Pipeline.EvalReturned)) as Hjoined.
    { intros g t Ht.
      destruct (Pipeline.dr_evals_joined _ _ Hdr g) as [a Ha].
      - rewrite Hdone. cbn. rewrite <- (Pipeline.bi_eval_threads _ _ Hbuf).
        by eapply lookup_lt_Some.
      - exists a. congruence. }
    assert (forall w pc, Pipeline.load_threads n !! w = Some pc ->
              pc = Pipeline.LoadReturned) as Hreturned.
    { intros w pc Hw.
      pose proof (Pipeline.si_joined_returned _ _ Hsi w) as Hj.
      rewrite Hdone in Hj. cbn in Hj. rewrite <- Hlen in Hj.
      rewrite Hj in Hw by (by eapply lookup_lt_Some). congruence. }
    assert (length (filter (fun pc => Pipeline.load_returned pc = true)
                      (Pipeline.load_threads n))
            = length (Pipeline.load_threads n)) as Hall.
    { apply length_filter_all, Forall_lookup. intros w pc Hw.
      by rewrite (Hreturned w pc Hw). }
    unfold Pipeline.Queue in *. rewrite Hall, Hlen in Hload.
    match type of Hload with
    | (length ?queued + _)%nat = _ =>
        assert (queued = []) as Hempty by (apply length_zero_iff_nil; lia)
    end.
    split; [exact Hreturned|split; [|split]].
    + intros g t Ht. destruct (Hjoined g t Ht) as [a ->]. done.
    + intros e He Hs.
      match type of Hempty with
      | ?queued = [] => assert (e ∈ queued) as Hin by (by apply list_elem_of_filter)
      end.
      rewrite Hempty in Hin. by apply elem_of_nil in Hin.
    + intros g q e Hq He Hs.
      assert (g < length (Pipeline.eval_threads n))%nat as Hg.
      { rewrite (Pipeline.bi_eval_threads _ _ Hbuf), <- (Pipeline.bi_queues _ _ Hbuf).
        by eapply lookup_lt_Some. }
      apply lookup_lt_is_Some in Hg as [t Ht].
      pose proof (Heval g q t Hq Ht) as Hcount.
      destruct (Hjoined g t Ht) as [a ->]. rewrite Hdone in Hcount. cbn in Hcount.
      assert (e ∈ filter Pipeline.is_sentinel q) as Hin
        by (by apply list_elem_of_filter).
      destruct (filter Pipeline.is_sentinel q); [by apply elem_of_nil in Hin|].
      cbn in Hcount. case_bool_decide; lia.
Qed.

Lemma workers_return_on_sentinel_witness :
  exists c n,
    Pipeline.reachable Scenario.two_items 2 c /\
    Pipeline.nodes c !! 1%nat = Some n /\
    Pipeline.main_thread n = Pipeline.Finished /\
    ((length (filter (fun e => Pipeline.work_item_index e = Pipeline.SENTINEL)
             (Pipeline.load_work n))
   + length (filter (fun pc => Pipeline.load_returned pc = true)
               (Pipeline.load_threads n))
   = Pipeline.load_sentinels_expected Scenario.two_items (Pipeline.main_thread n))%nat /\
  (forall g q t,
     Pipeline.eval_work n !! g = Some q -> Pipeline.eval_threads n !! g = Some t ->
     (length (filter Pipeline.is_sentinel q)
      + (if Pipeline.eval_returned t.2 then 1 else 0)
      = Pipeline.eval_sentinels_expected Scenario.two_items (Pipeline.main_thread n) g)%nat) /\
  (Pipeline.distributing (Pipeline.main_thread n) ->
     (forall w pc, Pipeline.load_threads n !! w = Some pc ->
        pc <> Pipeline.LoadReturned) /\
     (forall g t, Pipeline.eval_threads n !! g = Some t ->
        t.2 <> Pipeline.EvalReturned)) /\
  (Pipeline.main_thread n = Pipeline.Finished ->
     (forall w pc, Pipeline.load_threads n !! w = Some pc ->
        pc = Pipeline.LoadReturned) /\
     (forall g t, Pipeline.eval_threads n !! g = Some t ->
        t.2 = Pipeline.EvalReturned) /\
     (forall e, e ∈ Pipeline.load_work n ->
        Pipeline.work_item_index e <> Pipeline.SENTINEL) /\
     (forall g q e, Pipeline.eval_work n !! g = Some q -> e ∈ q ->
        ~ Pipeline.is_sentinel e))).
Proof.
  destruct (Pipeline.run Scenario.two_items Scenario.two_nodes_run
              (Pipeline.init_cluster Scenario.two_items 2)) as [c|] eqn:Hrun;
    [|vm_compute in Hrun; discriminate].
  destruct (Pipeline.nodes c !! 1%nat) as [n|] eqn:Hn;
    [|vm_compute in Hrun; injection Hrun as <-; vm_compute in Hn; discriminate].
  exists c, n.
  assert (Pipeline.reachable Scenario.two_items 2 c) as Hreach
    by (exists Scenario.two_nodes_run; exact Hrun).
  split; [exact Hreach|]. split; [exact Hn|].
  split; [vm_compute in Hrun; injection Hrun as <-; vm_compute in Hn; injection Hn as <-;
          vm_compute; reflexivity|].
  exact (workers_return_on_sentinel Scenario.two_items 2 c 1 n Hreach Hn).
Defined.

(** * Termination *)

Section PotentialFacts.
Import Pipeline.

Variable cfg : Config.

Lemma sum_list_insert (l : list nat) (i x y : nat) :
  l !! i = Some x -> (sum_list (<[i:=y]> l) + x = sum_list l + y)%nat.
Proof.
  revert i. induction l as [|z l IH]; intros [|i] Hi; try done.
  - cbn in *. simplify_eq. lia.
  - change (<[S i:=y]> (z :: l)) with (z :: <[i:=y]> l). cbn [sum_list].
    specialize (IH i Hi). lia.
Qed.

Lemma sum_list_fmap_insert {A} (f : A -> nat) (l : list A) (i : nat) (x y : A) :
  l !! i = Some x ->
  (sum_list (f <$> <[i:=y]> l) + f x = sum_list (f <$> l) + f y)%nat.
Proof.
  intros Hi. rewrite list_fmap_insert. apply sum_list_insert.
  by rewrite list_lookup_fmap, Hi.
Qed.

Ltac potential_cbn :=
  unfold node_potential, push_load_work, push, size, Queue in *;
  cbn [load_work empty_load_buffers eval_work frame_buffers load_threads
       eval_threads main_thread inbox history record
       set_load_work set_empty_load_buffers set_eval_work set_frame_buffers
       set_load_threads set_eval_threads set_main_thread set_inbox
       load_pc_steps eval_pc_steps main_pc_steps snd fst] in *.

Ltac steps_cbn :=
  cbn [main_pc_steps];
  unfold push_load_steps, join_load_steps, push_eval_steps, join_eval_steps.

Lemma load_step_potential (num_nodes w : nat) (n n' : Node) :
  load_step cfg w n = Some n' ->
  (node_potential cfg num_nodes n' < node_potential cfg num_nodes n)%nat.
Proof.
  unfold load_step. destruct (load_threads n !! w) as [pc|] eqn:Hw; [|done].
  destruct pc as [|k|k b|k b|].
  - destruct (load_work n) as [|entry rest] eqn:Hq; [done|]. cbn. intros [= <-].
    set (pc' := if bool_decide (work_item_index entry = SENTINEL)
                then LoadReturned else LoadAcquire (work_item_index entry)).
    pose proof (sum_list_fmap_insert load_pc_steps (load_threads n) w _ pc' Hw) as Hsum.
    assert (load_pc_steps pc' <= 6)%nat by (unfold pc'; case_bool_decide; cbn; lia).
    potential_cbn. rewrite Hq. cbn [length]. cbn [load_pc_steps] in Hsum. lia.
  - destruct (empty_load_buffers n) as [|b rest] eqn:Hq; [done|]. cbn. intros [= <-].
    pose proof (sum_list_fmap_insert load_pc_steps (load_threads n) w _
                  (LoadFill k b) Hw) as Hsum.
    potential_cbn. lia.
  - case_bool_decide; [|done]. intros [= <-].
    pose proof (sum_list_fmap_insert load_pc_steps (load_threads n) w _
                  (LoadPush k b) Hw) as Hsum.
    potential_cbn. lia.
  - destruct (eval_work n !! gpu_device_id b) as [q|] eqn:Hq; [|done]. intros [= <-].
    pose proof (sum_list_fmap_insert load_pc_steps (load_threads n) w _ LoadPop Hw)
      as Hsum.
    pose proof (sum_list_fmap_insert size (eval_work n) (gpu_device_id b) q
                  (q ++ [{| eval_work_item_index := k;
                            eval_buffer_index := buffer_index b |}]) Hq) as Hsum'.
    potential_cbn. rewrite length_app in Hsum'. cbn [length] in Hsum'. lia.
  - done.
Qed.

Lemma eval_step_potential (num_nodes i : nat) (n n' : Node) :
  eval_step i n = Some n' ->
  (node_potential cfg num_nodes n' < node_potential cfg num_nodes n)%nat.
Proof.
  unfold eval_step. destruct (eval_threads n !! i) as [[args pc]|] eqn:Hi; [|done].
  destruct pc as [|e|e|].
  - destruct (eval_work n !! arg_eval_work args) as [q|] eqn:Hq; [|done].
    destruct q as [|entry rest]; [done|]. cbn. intros [= <-].
    set (pc' := if bool_decide (eval_work_item_index entry = SENTINEL)
                then EvalReturned else EvalRun entry).
    pose proof (sum_list_fmap_insert (fun t => eval_pc_steps t.2) (eval_threads n) i _
                  (args, pc') Hi) as Hsum.
    pose proof (sum_list_fmap_insert size (eval_work n) (arg_eval_work args) _
                  rest Hq) as Hsum'.
    assert (eval_pc_steps pc' <= 2)%nat by (unfold pc'; case_bool_decide; cbn; lia).
    potential_cbn. cbn [length] in Hsum'. lia.
  - intros [= <-].
    pose proof (sum_list_fmap_insert (fun t => eval_pc_steps t.2) (eval_threads n) i _
                  (args, EvalRelease e) Hi) as Hsum.
    potential_cbn. lia.
  - intros [= <-].
    pose proof (sum_list_fmap_insert (fun t => eval_pc_steps t.2) (eval_threads n) i _
                  (args, EvalPop) Hi) as Hsum.
    potential_cbn. lia.
  - done.
Qed.

Lemma shutdown_step_potential (num_nodes indeterminate : nat) (n n' : Node) :
  shutdown_step cfg indeterminate n = Some n' ->
  (node_potential cfg num_nodes n' < node_potential cfg num_nodes n)%nat.
Proof.
  unfold shutdown_step.
  destruct (main_thread n) as [next|wd| | |i|i|i|i|] eqn:Hpc; try done.
  - case_bool_decide; intros [= <-]; potential_cbn; rewrite Hpc; steps_cbn;
      rewrite ?length_app; cbn [length]; lia.
  - case_bool_decide.
    + destruct (load_threads n !! i) as [[]|]; try done.
      intros [= <-]. potential_cbn. rewrite Hpc. steps_cbn. lia.
    + intros [= <-]. potential_cbn. rewrite Hpc. steps_cbn. lia.
  - case_bool_decide.
    + destruct (eval_work n !! i) as [q|] eqn:Hq; [|done]. intros [= <-].
      pose proof (sum_list_fmap_insert size (eval_work n) i q
                    (q ++ [{| eval_work_item_index := SENTINEL;
                              eval_buffer_index := indeterminate |}]) Hq) as Hsum.
      potential_cbn. rewrite length_app in Hsum. cbn [length] in Hsum.
      rewrite Hpc. steps_cbn. lia.
    + intros [= <-]. potential_cbn. rewrite Hpc. steps_cbn. lia.
  - case_bool_decide.
    + destruct (eval_threads n !! i) as [[? []]|]; try done.
      intros [= <-]. potential_cbn. rewrite Hpc. steps_cbn. lia.
    + intros [= <-]. potential_cbn. rewrite Hpc. steps_cbn. lia.
Qed.

Lemma potential_insert (rank : nat) (n n' : Node) (c : Cluster) (reqs : list nat) :
  nodes c !! rank = Some n ->
  (potential cfg {| nodes := <[rank := n']> (nodes c); requests := reqs |}
   + node_potential cfg (length (nodes c)) n
   = potential cfg c + node_potential cfg (length (nodes c)) n')%nat.
Proof.
  intros Hn. unfold potential. cbn [nodes]. rewrite length_insert.
  by apply sum_list_fmap_insert.
Qed.

Lemma potential_update (rank : nat) (n n' : Node) (c : Cluster) :
  nodes c !! rank = Some n ->
  (node_potential cfg (length (nodes c)) n' < node_potential cfg (length (nodes c)) n)%nat ->
  (potential cfg (update_node rank n' c) < potential cfg c)%nat.
Proof.
  intros Hn Hlt. pose proof (potential_insert rank n n' c (requests c) Hn) as Hsum.
  unfold update_node. lia.
Qed.

(** A reply costs the master ten steps of its count and gives the node
    it goes to nine. *)
Lemma serve_request_potential (any_source : nat) (reply : Z) (pc : MainPc)
    (n : Node) (c c' : Cluster) :
  nodes c !! 0%nat = Some n ->
  (main_pc_steps cfg (length (nodes c)) pc + 10
   <= main_pc_steps cfg (length (nodes c)) (main_thread n))%nat ->
  serve_request any_source reply pc n c = Some c' ->
  (potential cfg c' < potential cfg c)%nat.
Proof.
  intros Hn Hpc. unfold serve_request.
  destruct (requests c !! any_source) as [src|]; [|done].
  destruct (<[0%nat:=set_main_thread pc n]> (nodes c) !! src) as [dst|] eqn:Hdst;
    [|done].
  intros [= <-].
  pose proof (potential_insert 0 n (set_main_thread pc n) c (requests c) Hn) as Hmaster.
  pose proof (potential_insert src dst (set_inbox (inbox dst ++ [reply]) dst)
                {| nodes := <[0%nat:=set_main_thread pc n]> (nodes c);
                   requests := requests c |}
                (delete any_source (requests c)) Hdst) as Hdest.
  cbn [nodes] in Hdest. rewrite length_insert in Hdest.
  potential_cbn. rewrite length_app in Hdest. cbn [length] in Hdest. lia.
Qed.

(** Every step of every thread leaves the state as it is or takes one
    from what is left to do. *)
Lemma cluster_step_potential (rank : nat) (a : Action) (c c' : Cluster) :
  cluster_step cfg rank a c = Some c' ->
  c' = c \/ (potential cfg c' < potential cfg c)%nat.
Proof.
  unfold cluster_step. destruct (nodes c !! rank) as [n|] eqn:Hn; [|done].
  assert (forall indeterminate n',
            shutdown_step cfg indeterminate n = Some n' ->
            (potential cfg (update_node rank n' c) < potential cfg c)%nat) as Hshut.
  { intros ind n' Hs. apply (potential_update rank n); [done|].
    by eapply shutdown_step_potential. }
  destruct a as [w|i|any_source indeterminate].
  - destruct (load_step cfg w n) as [n'|] eqn:Hs; [|done]. intros [= <-]. right.
    apply (potential_update rank n); [done|]. by eapply load_step_potential.
  - destruct (eval_step i n) as [n'|] eqn:Hs; [|done]. intros [= <-]. right.
    apply (potential_update rank n); [done|]. by eapply eval_step_potential.
  - unfold is_master. case_bool_decide as Hrank; [subst rank|].
    + unfold master_step.
      destruct (main_thread n) as [next|wd| | |j|j|j|j|] eqn:Hpc.
      * case_bool_decide as Hnext.
        -- case_bool_decide as Hroom.
           ++ intros [= <-]. right. apply (potential_update 0 n); [done|].
              potential_cbn. rewrite Hpc. steps_cbn.
              rewrite length_app. cbn [length]. lia.
           ++ case_bool_decide; [|intros [= <-]; by left].
              intros Hs. right. eapply serve_request_potential; [done| |done].
              rewrite Hpc. steps_cbn. lia.
        -- intros [= <-]. right. apply (potential_update 0 n); [done|].
           potential_cbn. rewrite Hpc. steps_cbn. lia.
      * case_bool_decide as Hwd.
        -- intros Hs. right. eapply serve_request_potential; [done| |done].
           rewrite Hpc. steps_cbn. lia.
        -- intros [= <-]. right. apply (potential_update 0 n); [done|].
           potential_cbn. rewrite Hpc. steps_cbn. lia.
      * destruct (shutdown_step cfg indeterminate n) as [n'|] eqn:Hs; [|done].
        unfold shutdown_step in Hs. by rewrite Hpc in Hs.
      * destruct (shutdown_step cfg indeterminate n) as [n'|] eqn:Hs; [|done].
        unfold shutdown_step in Hs. by rewrite Hpc in Hs.
      * destruct (shutdown_step cfg indeterminate n) as [n'|] eqn:Hs; [|done].
        intros [= <-]. right. by eapply Hshut.
      * destruct (shutdown_step cfg indeterminate n) as [n'|] eqn:Hs; [|done].
        intros [= <-]. right. by eapply Hshut.
      * destruct (shutdown_step cfg indeterminate n) as [n'|] eqn:Hs; [|done].
        intros [= <-]. right. by eapply Hshut.
      * destruct (shutdown_step cfg indeterminate n) as [n'|] eqn:Hs; [|done].
        intros [= <-]. right. by eapply Hshut.
      * destruct (shutdown_step cfg indeterminate n) as [n'|] eqn:Hs; [|done].
        intros [= <-]. right. by eapply Hshut.
    + unfold remote_step.
      destruct (main_thread n) as [next|wd| | |j|j|j|j|] eqn:Hpc.
      * destruct (shutdown_step cfg indeterminate n) as [n'|] eqn:Hs; [|done].
        intros [= <-]. right. by eapply Hshut.
      * destruct (shutdown_step cfg indeterminate n) as [n'|] eqn:Hs; [|done].
        intros [= <-]. right. by eapply Hshut.
      * case_bool_decide; intros [= <-]; [|by left]. right.
        pose proof (potential_insert rank n (set_main_thread AwaitReply n) c
                      (requests c ++ [rank]) Hn) as Hsum.
        potential_cbn. rewrite Hpc in Hsum. steps_cbn. cbn [main_pc_steps] in Hsum.
        lia.
      * destruct (inbox n) as [|next_item rest] eqn:Hin; [done|].
        case_bool_decide; intros [= <-]; right;
          (apply (potential_update rank n); [done|]);
          potential_cbn; rewrite Hpc, Hin; steps_cbn;
          rewrite ?length_app; cbn [length]; lia.
      * destruct (shutdown_step cfg indeterminate n) as [n'|] eqn:Hs; [|done].
        intros [= <-]. right. by eapply Hshut.
      * destruct (shutdown_step cfg indeterminate n) as [n'|] eqn:Hs; [|done].
        intros [= <-]. right. by eapply Hshut.
      * destruct (shutdown_step cfg indeterminate n) as [n'|] eqn:Hs; [|done].
        intros [= <-]. right. by eapply Hshut.
      * destruct (shutdown_step cfg indeterminate n) as [n'|] eqn:Hs; [|done].
        intros [= <-]. right. by eapply Hshut.
      * destruct (shutdown_step cfg indeterminate n) as [n'|] eqn:Hs; [|done].
        intros [= <-]. right. by eapply Hshut.
Qed.

Lemma moves_potential (schedule : list (nat * Action)) (c c' : Cluster) :
  run cfg schedule c = Some c' ->
  (moves cfg schedule c + potential cfg c' <= potential cfg c)%nat.
Proof.
  revert c. induction schedule as [|[rank a] schedule IH]; intros c; cbn.
  - intros [= <-]. lia.
  - destruct (cluster_step cfg rank a c) as [c1|] eqn:Hstep; [|done]. intros Hrun.
    specialize (IH c1 Hrun).
    destruct (cluster_step_potential rank a c c1 Hstep) as [->|Hlt].
    + rewrite decide_True by done. lia.
    + case_decide; lia.
Qed.

Lemma sum_list_const {A} (f : A -> nat) (v : nat) (l : list A) :
  (forall x, x ∈ l -> f x = v) -> sum_list (f <$> l) = (length l * v)%nat.
Proof.
  induction l as [|x l IH]; intros Hall; [done|]. cbn.
  rewrite (Hall x) by apply list_elem_of_here.
  rewrite IH; [lia|]. intros y Hy. apply Hall. by apply list_elem_of_further.
Qed.

Lemma init_node_potential (num_nodes rank : nat) :
  node_potential cfg num_nodes (init_node cfg rank)
  = main_pc_steps cfg num_nodes (if is_master rank then Distribute 0 else Monitor).
Proof.
  unfold node_potential, init_node. cbn.
  rewrite (sum_list_const load_pc_steps 0) by (by intros pc ->%elem_of_replicate_inv).
  rewrite (sum_list_const size 0) by (by intros q ->%elem_of_replicate_inv).
  rewrite (sum_list_const (fun t => eval_pc_steps t.2) 0).
  2: { intros t (i & -> & _)%list_elem_of_fmap. done. }
  lia.
Qed.

Lemma init_potential (num_nodes : nat) :
  (potential cfg (init_cluster cfg num_nodes)
   <= 10 * work_items cfg + 10 * (num_nodes - 1)
      + num_nodes * (9 * load_workers cfg + 5 * gpus cfg + 6))%nat.
Proof.
  unfold potential, init_cluster. cbn [nodes].
  rewrite length_fmap, length_seq, <- list_fmap_compose.
  destruct num_nodes as [|k]; [cbn; lia|].
  change (seq 0 (S k)) with (0%nat :: seq 1 k). rewrite fmap_cons. cbn [sum_list].
  rewrite (sum_list_const _ (push_load_steps cfg 0 + 2)).
  2: { intros r [Hr _]%elem_of_seq. unfold compose. rewrite init_node_potential.
       unfold is_master. rewrite bool_decide_eq_false_2 by lia. done. }
  unfold compose. rewrite init_node_potential, length_seq.
  unfold is_master. rewrite bool_decide_eq_true_2 by done. cbn [main_pc_steps].
  unfold push_load_steps, join_load_steps, push_eval_steps, join_eval_steps, id.
  lia.
Qed.

End PotentialFacts.

Section CompletionFacts.
Import Pipeline.

Variable cfg : Config.
Hypothesis gpus_pos : (1 <= gpus cfg)%nat.
Hypothesis tasks_pos : (1 <= tasks cfg)%nat.
Hypothesis load_workers_pos : (1 <= load_workers cfg)%nat.

Lemma reachable_step (num_nodes rank : nat) (a : Action) (c c' : Cluster) :
  reachable cfg num_nodes c -> cluster_step cfg rank a c = Some c' ->
  reachable cfg num_nodes c'.
Proof.
  intros [schedule Hrun] Hstep. exists (schedule ++ [(rank, a)]).
  rewrite run_app, Hrun. cbn. by rewrite Hstep.
Qed.

Lemma busy_progresses (num_nodes : nat) (c : Cluster) :
  reachable cfg num_nodes c -> ~ finished c -> progresses cfg c.
Proof.
  intros Hc Hbusy. unfold finished in Hbusy.
  apply not_Forall_Exists in Hbusy; [|apply _].
  apply Exists_exists in Hbusy as (n & Hin & Hrun).
  apply list_elem_of_lookup in Hin as [rank Hn].
  destruct (nodes c !! 0%nat) as [n0|] eqn:Hn0.
  2: { apply lookup_ge_None in Hn0. apply lookup_lt_Some in Hn. lia. }
  destruct (decide (main_thread n0 = Finished)) as [Hdone|Hbusy].
  - assert (rank <> 0%nat) as Hrank by (intros ->; congruence).
    pose proof (handshake_reach cfg num_nodes c Hc) as Hhs.
    unfold handshake_inv in Hhs. rewrite Hn0, Hdone in Hhs.
    apply (told_progress cfg gpus_pos tasks_pos load_workers_pos num_nodes rank n c);
      try done.
    by apply (told_all (nodes c) rank n).
  - by apply (master_progress cfg gpus_pos tasks_pos load_workers_pos num_nodes n0 c).
Qed.

End CompletionFacts.

(** X14 - no livelock.  Every step of a thread either leaves the state
    as it is (a poll of lines 949-953 or 986-990 that finds the queues
    full) or takes one from a count of what is left to do, so a run from
    the start has at most
    [10 * work_items.size() + 10 * (num_nodes - 1)
     + num_nodes * (9 * LOAD_WORKERS_PER_NODE + 5 * GPUS_PER_NODE + 6)]
    steps that change the state, whatever the schedule. *)
Theorem state_changing_steps_bounded (cfg : Pipeline.Config) (num_nodes : nat)
    (schedule : list (nat * Pipeline.Action)) (c : Pipeline.Cluster) :
  Pipeline.run cfg schedule (Pipeline.init_cluster cfg num_nodes) = Some c ->
  (Pipeline.moves cfg schedule (Pipeline.init_cluster cfg num_nodes)
   + Pipeline.potential cfg c
   <= 10 * Pipeline.work_items cfg + 10 * (num_nodes - 1)
      + num_nodes * (9 * Pipeline.load_workers cfg + 5 * Pipeline.gpus cfg + 6))%nat.
Proof.
  intros Hrun.
  pose proof (moves_potential cfg schedule _ c Hrun) as Hmoves.
  pose proof (init_potential cfg num_nodes) as Hinit.
  lia.
Qed.

Lemma state_changing_steps_bounded_witness :
  exists c,
    Pipeline.run Scenario.two_items Scenario.two_nodes_run
      (Pipeline.init_cluster Scenario.two_items 2) = Some c /\
    Pipeline.moves Scenario.two_items Scenario.two_nodes_run
      (Pipeline.init_cluster Scenario.two_items 2) = 43%nat /\
    (Pipeline.moves Scenario.two_items Scenario.two_nodes_run
       (Pipeline.init_cluster Scenario.two_items 2)
     + Pipeline.potential Scenario.two_items c
     <= 10 * Pipeline.work_items Scenario.two_items + 10 * (2 - 1)
        + 2 * (9 * Pipeline.load_workers Scenario.two_items
               + 5 * Pipeline.gpus Scenario.two_items + 6))%nat.
Proof.
  destruct (Pipeline.run Scenario.two_items Scenario.two_nodes_run
              (Pipeline.init_cluster Scenario.two_items 2)) as [c|] eqn:Hrun;
    [|vm_compute in Hrun; discriminate].
  exists c. split; [reflexivity|]. split; [vm_compute; reflexivity|].
  exact (state_changing_steps_bounded Scenario.two_items 2 Scenario.two_nodes_run c
           Hrun).
Defined.

(** X15 - every run can be completed.  With at least one GPU per node, a
    positive [TASKS_IN_QUEUE_PER_GPU] and at least one load worker, from
    every state the cluster can reach some schedule leads to the state
    in which [main] has joined all its workers on every node, and it
    needs no more steps than the count of what is left to do. *)
Theorem every_run_can_finish (cfg : Pipeline.Config) (num_nodes : nat)
    (c : Pipeline.Cluster) :
  (1 <= Pipeline.gpus cfg)%nat -> (1 <= Pipeline.tasks cfg)%nat ->
  (1 <= Pipeline.load_workers cfg)%nat ->
  Pipeline.reachable cfg num_nodes c ->
  exists schedule c',
    Pipeline.run cfg schedule c = Some c' /\ Pipeline.finished c' /\
    (length schedule <= Pipeline.potential cfg c)%nat.
Proof.
  intros Hgpus Htasks Hworkers.
  assert (forall m c, (Pipeline.potential cfg c <= m)%nat ->
            Pipeline.reachable cfg num_nodes c ->
            exists schedule c',
              Pipeline.run cfg schedule c = Some c' /\ Pipeline.finished c' /\
              (length schedule <= Pipeline.potential cfg c)%nat) as Hall.
  { clear c. intros m. induction m as [|m IH]; intros c Hm Hc.
    all: destruct (decide (Forall (fun n => Pipeline.main_thread n = Pipeline.Finished)
                             (Pipeline.nodes c))) as [Hdone|Hbusy];
      [exists [], c; split; [done|]; split; [done|]; cbn; lia|].
    all: destruct (busy_progresses cfg Hgpus Htasks Hworkers num_nodes c Hc Hbusy)
      as (rank & a & c1 & Hstep & Hne).
    all: destruct (cluster_step_potential cfg rank a c c1 Hstep) as [->|Hlt];
      [done|].
    - lia.
    - destruct (IH c1) as (schedule & c' & Hrun & Hfin & Hlen);
        [lia|by eapply reachable_step|].
      exists ((rank, a) :: schedule), c'. split; [cbn; by rewrite Hstep|].
      split; [done|]. cbn. lia. }
  intros Hc. by apply (Hall (Pipeline.potential cfg c)).
Qed.

Lemma every_run_can_finish_witness :
  exists c,
    (1 <= Pipeline.gpus Scenario.two_items)%nat /\
    (1 <= Pipeline.tasks Scenario.two_items)%nat /\
    (1 <= Pipeline.load_workers Scenario.two_items)%nat /\
    Pipeline.reachable Scenario.two_items 2 c /\
    Pipeline.requests c = [] /\
    exists schedule c',
      Pipeline.run Scenario.two_items schedule c = Some c' /\ Pipeline.finished c' /\
      (length schedule <= Pipeline.potential Scenario.two_items c)%nat.
Proof.
  destruct (Pipeline.run Scenario.two_items Scenario.until_told
              (Pipeline.init_cluster Scenario.two_items 2)) as [c|] eqn:Hrun;
    [|vm_compute in Hrun; discriminate].
  exists c.
  assert (1 <= Pipeline.gpus Scenario.two_items)%nat as Hgpus by (cbn; lia).
  assert (1 <= Pipeline.tasks Scenario.two_items)%nat as Htasks by (cbn; lia).
  assert (1 <= Pipeline.load_workers Scenario.two_items)%nat as Hworkers
    by (cbn; lia).
  assert (Pipeline.reachable Scenario.two_items 2 c) as Hreach
    by (exists Scenario.until_told; exact Hrun).
  split; [exact Hgpus|]. split; [exact Htasks|]. split; [exact Hworkers|].
  split; [exact Hreach|].
  split; [vm_compute in Hrun; injection Hrun as <-; vm_compute; reflexivity|].
  exact (every_run_can_finish Scenario.two_items 2 c Hgpus Htasks Hworkers Hreach).
Defined.

(** * Option values that are not validated *)

Section StarvedFacts.
Import Pipeline.

Variable cfg : Config.

Lemma init_local_work (rank : nat) : local_work (init_node cfg rank) = 0%nat.
Proof.
  unfold local_work, init_node. cbn.
  by rewrite (sum_list_const size 0) by (by intros q ->%elem_of_replicate_inv).
Qed.

Lemma no_room_step (num_nodes rank : nat) (a : Action) (c' : Cluster) :
  high_water cfg = 0%nat -> (1 <= work_items cfg)%nat ->
  cluster_step cfg rank a (init_cluster cfg num_nodes) = Some c' ->
  c' = init_cluster cfg num_nodes.
Proof.
  intros Hroom Hitems. unfold cluster_step.
  destruct (nodes (init_cluster cfg num_nodes) !! rank) as [n|] eqn:Hn; [|done].
  assert (n = init_node cfg rank) as ->.
  { cbn in Hn. rewrite list_lookup_fmap in Hn.
    apply fmap_Some in Hn as (r & Hr & ->). by apply lookup_seq in Hr as [-> _]. }
  destruct a as [w|i|any_source indeterminate].
  - unfold load_step. cbn.
    destruct (replicate (load_workers cfg) LoadPop !! w) as [pc|] eqn:Hw; [|done].
    by apply lookup_replicate in Hw as [-> _].
  - unfold eval_step. cbn. rewrite list_lookup_fmap.
    destruct (seq 0 (gpus cfg) !! i) as [g|] eqn:Hi; [|done].
    apply lookup_seq in Hi as [-> Hi]. cbn.
    by rewrite lookup_replicate_2.
  - unfold is_master. case_bool_decide as Hrank.
    + subst rank. unfold master_step.
      change (main_thread (init_node cfg 0)) with (Distribute 0).
      rewrite init_local_work, Hroom.
      case_bool_decide as Hnext; [|lia].
      rewrite bool_decide_eq_false_2 by lia.
      case_bool_decide; [|by intros [= <-]].
      unfold serve_request. by cbn.
    + unfold remote_step.
      replace (main_thread (init_node cfg rank)) with Monitor.
      2: { cbn. unfold is_master. by rewrite bool_decide_eq_false_2. }
      rewrite init_local_work, Hroom, bool_decide_eq_false_2 by lia.
      by intros [= <-].
Qed.

Hypothesis no_workers : load_workers cfg = 0%nat.

Lemma starved_reach (rank : nat) (n : Node) :
  node_reach cfg rank n ->
  load_threads n = [] /\
  Forall (Forall is_sentinel) (eval_work n) /\
  Forall (fun t => t.2 = EvalPop \/ t.2 = EvalReturned) (eval_threads n) /\
  work_evaluated (history n) = [].
Proof.
  induction 1 as [|n n' Hreach (Hload & Hqueues & Hevals & Hnone) Htrans].
  { cbn. rewrite no_workers. split; [done|]. split.
    - apply Forall_forall. by intros q ->%elem_of_replicate_inv.
    - split; [|done]. apply Forall_forall.
      intros t (i & -> & _)%list_elem_of_fmap. by left. }
  inversion Htrans as
    [w n1 n2 Hs|i n1 n2 Hs|ind n1 n2 Hs|next n1 Hpc Hnext|next n1 Hpc Hnext
    |next n1 Hpc Hnext|wd n1 Hpc|wd n1 Hpc|n1 Hpc|k rest n1 Hpc Hin Hk
    |rest n1 Hpc Hin|reply n1]; subst; try done.
  - unfold load_step in Hs. by rewrite Hload in Hs.
  - unfold eval_step in Hs.
    destruct (eval_threads n !! i) as [[args pc]|] eqn:Hi; [|done].
    rewrite Forall_lookup in Hevals. pose proof (Hevals i _ Hi) as Hpc. cbn in Hpc.
    destruct Hpc as [-> | ->]; [|done].
    destruct (eval_work n !! arg_eval_work args) as [q|] eqn:Hq; [|done].
    destruct q as [|entry q]; [done|]. cbn in Hs. injection Hs as <-.
    rewrite Forall_lookup in Hqueues. pose proof (Hqueues _ _ Hq) as Hq'.
    apply Forall_cons in Hq' as [Hentry Hrest]. unfold is_sentinel in Hentry.
    rewrite bool_decide_eq_true_2 by done. cbn.
    split; [done|]. split; [|split; [|done]].
    + apply Forall_insert; [by apply Forall_lookup|done].
    + apply Forall_insert; [by apply Forall_lookup|]. by right.
  - unfold shutdown_step in Hs.
    destruct (main_thread n) as [next|wd| | |j|j|j|j|] eqn:Hpc; try done.
    + by case_bool_decide; injection Hs as <-.
    + case_bool_decide; [|by injection Hs as <-].
      rewrite Hload in Hs. done.
    + case_bool_decide; [|by injection Hs as <-].
      destruct (eval_work n !! j) as [q|] eqn:Hq; [|done]. injection Hs as <-. cbn.
      split; [done|]. split; [|done].
      apply Forall_insert; [done|]. unfold push. apply Forall_app. split.
      * rewrite Forall_lookup in Hqueues. by eapply Hqueues.
      * by apply Forall_singleton.
    + case_bool_decide; [|by injection Hs as <-].
      destruct (eval_threads n !! j) as [[? []]|]; try done. by injection Hs as <-.
Qed.

End StarvedFacts.

(** X16 - no validation of [--gpus_per_node] and
    [--tasks_in_queue_per_gpu].  When
    [GPUS_PER_NODE * TASKS_IN_QUEUE_PER_GPU] is 0 and there is at least
    one work item, the tests of lines 953 and 990 never succeed: the
    master pushes nothing and waits for a request, the other nodes send
    none, and no thread ever changes the state, so no node gets past
    the distribution of work. *)
Theorem no_room_never_dispatches (cfg : Pipeline.Config) (num_nodes : nat)
    (c : Pipeline.Cluster) :
  Pipeline.high_water cfg = 0%nat -> (1 <= Pipeline.work_items cfg)%nat ->
  Pipeline.reachable cfg num_nodes c ->
  c = Pipeline.init_cluster cfg num_nodes /\
  Pipeline.dispatched c = [] /\
  forall n, n ∈ Pipeline.nodes c -> Pipeline.distributing (Pipeline.main_thread n).
Proof.
  intros Hroom Hitems Hc.
  assert (c = Pipeline.init_cluster cfg num_nodes) as ->.
  { revert c Hc. apply reachable_ind; [done|].
    intros c rank a c' _ -> Hstep. by eapply no_room_step. }
  split; [done|]. split.
  - unfold Pipeline.dispatched. apply concat_fmap_nil.
    by intros n (r & -> & _)%list_elem_of_fmap.
  - intros n (r & -> & _)%list_elem_of_fmap. cbn. by case_match.
Qed.

Lemma no_room_never_dispatches_witness :
  exists c,
    Pipeline.high_water Scenario.no_gpus = 0%nat /\
    (1 <= Pipeline.work_items Scenario.no_gpus)%nat /\
    Pipeline.reachable Scenario.no_gpus 2 c /\
    c = Pipeline.init_cluster Scenario.no_gpus 2 /\
    Pipeline.dispatched c = [] /\
    forall n, n ∈ Pipeline.nodes c -> Pipeline.distributing (Pipeline.main_thread n).
Proof.
  destruct (Pipeline.run Scenario.no_gpus [Scenario.R; Scenario.R]
              (Pipeline.init_cluster Scenario.no_gpus 2)) as [c|] eqn:Hrun;
    [|vm_compute in Hrun; discriminate].
  exists c.
  assert (Pipeline.high_water Scenario.no_gpus = 0%nat) as Hroom by reflexivity.
  assert (1 <= Pipeline.work_items Scenario.no_gpus)%nat as Hitems by (cbn; lia).
  assert (Pipeline.reachable Scenario.no_gpus 2 c) as Hreach
    by (exists [Scenario.R; Scenario.R]; exact Hrun).
  split; [exact Hroom|]. split; [exact Hitems|]. split; [exact Hreach|].
  exact (no_room_never_dispatches Scenario.no_gpus 2 c Hroom Hitems Hreach).
Defined.

(** X17 - no validation of [--load_workers_per_node].  With no load
    worker nothing pops [load_work]: whatever the schedule, no work
    item reaches an [eval_work] queue and none is ever evaluated, while
    [main] finds nothing to join at line 1017 and goes on to push the
    sentinels of line 1036. *)
Theorem no_load_workers_nothing_evaluated (cfg : Pipeline.Config) (num_nodes : nat)
    (c : Pipeline.Cluster) :
  Pipeline.load_workers cfg = 0%nat ->
  Pipeline.reachable cfg num_nodes c ->
  Pipeline.evaluated c = [] /\
  forall n q e, n ∈ Pipeline.nodes c -> q ∈ Pipeline.eval_work n -> e ∈ q ->
    Pipeline.is_sentinel e.
Proof.
  intros Hworkers Hc.
  destruct (reachable_nodes cfg num_nodes c Hc) as [_ Hreach].
  split.
  - unfold Pipeline.evaluated. apply concat_fmap_nil.
    intros n [r Hr]%list_elem_of_lookup.
    by destruct (starved_reach cfg Hworkers r n (Hreach r n Hr)) as (_ & _ & _ & ?).
  - intros n q e [r Hr]%list_elem_of_lookup Hq He.
    destruct (starved_reach cfg Hworkers r n (Hreach r n Hr)) as (_ & Hqueues & _).
    rewrite Forall_forall in Hqueues. specialize (Hqueues q Hq).
    rewrite Forall_forall in Hqueues. by apply Hqueues.
Qed.

Lemma no_load_workers_nothing_evaluated_witness :
  exists c,
    Pipeline.load_workers Scenario.no_load_workers = 0%nat /\
    Pipeline.reachable Scenario.no_load_workers 1 c /\
    Pipeline.main_thread <$> Pipeline.nodes c = [Pipeline.Finished] /\
    Pipeline.dispatched c = [0] /\
    Pipeline.evaluated c = [] /\
    forall n q e, n ∈ Pipeline.nodes c -> q ∈ Pipeline.eval_work n -> e ∈ q ->
      Pipeline.is_sentinel e.
Proof.
  destruct (Pipeline.run Scenario.no_load_workers Scenario.unattended
              (Pipeline.init_cluster Scenario.no_load_workers 1)) as [c|] eqn:Hrun;
    [|vm_compute in Hrun; discriminate].
  exists c.
  assert (Pipeline.load_workers Scenario.no_load_workers = 0%nat) as Hworkers
    by reflexivity.
  assert (Pipeline.reachable Scenario.no_load_workers 1 c) as Hreach
    by (exists Scenario.unattended; exact Hrun).
  split; [exact Hworkers|]. split; [exact Hreach|].
  split; [vm_compute in Hrun; injection Hrun as <-; vm_compute; reflexivity|].
  split; [vm_compute in Hrun; injection Hrun as <-; vm_compute; reflexivity|].
  exact (no_load_workers_nothing_evaluated Scenario.no_load_workers 1 c
           Hworkers Hreach).
Defined.
